(** * Bootstrapping with polynomial functions (HElib fork): a shallow embedding

    The development follows the C++ sources of the repository:

    - [include/helib/Ctxt.h]   : [SKHandle] and its product ([SKHandle::mul]);
    - [src/recryption.cpp]     : [newMakeDivisible], [compute_fudge],
      [RecryptData::setAE], the row computations of the digit extraction
      ([rowComputationMultivariate], [rowComputationGeneral]), the trapezoid
      loop [customExtractDigitsThin], its wrapper [extractDigitsThin] and the
      two entry points [PubKey::reCrypt] and [PubKey::thinReCrypt];
    - [src/polyEval.cpp]       : [getBestParameters], [parsePolynomial] and
      [init_polynomials].

    Conventions.  A C++ [long]/[int] is a [Z]; the sources never rely on
    wrap-around (signed overflow is undefined behaviour) and the values at
    hand are exponents, small primes and polynomial degrees.  The [double]
    computations of [compute_fudge] and [RecryptData::setAE] are IEEE 754
    binary64 computations (module [Binary64]); elsewhere a [double] is
    idealised as an exact rational ([Q]), and every place where this matters
    is pointed out next to the definition concerned.  Ciphertext arithmetic
    lives in [Ctxt.cpp], which is outside the sources at hand: it enters as
    section variables describing what the operation does to the plaintext. *)

From Stdlib Require Import ZArith QArith Qround Qpower Qabs Lia List String Ascii Bool.
From Stdlib Require Import Ring DecimalString.
From Stdlib Require Import Zmod.
From Stdlib Require Floats.
From stdpp Require Import base list strings gmap.

Open Scope Z_scope.

(** ** Idealised [double] helpers ([<cmath>] and [polyEval.cpp]) *)

Module Double.

(** [std::lround]: the nearest integer, halfway cases away from zero. *)
Definition lround (x : Q) : Z :=
  if Qle_bool 0 x then Qfloor (x + (1 # 2)) else - Qfloor (- x + (1 # 2)).

(** [long ceiling(double number) { return lround(number + 0.49999); }] *)
Definition ceiling (number : Q) : Z := lround (number + (49999 # 100000)).

(** [long flooring(double number) { return lround(number - 0.49999); }] *)
Definition flooring (number : Q) : Z := lround (number - (49999 # 100000)).

(** [std::pow] on an integral base and exponent. *)
Definition pow (b e : Z) : Q := Qpower (inject_Z b) e.

End Double.

(** ** IEEE 754 binary64: the type [double] *)

Module Binary64.

(** A [double] is a binary64 floating-point number; sums, products and
    quotients are rounded to the nearest representable number, ties to
    even, and a comparison with a NaN is false ([PrimFloat.add],
    [PrimFloat.mul], [PrimFloat.div], [PrimFloat.ltb], [PrimFloat.leb]).
    An expression is evaluated operation by operation, in the order of the
    source, without fused operations. *)
Definition double : Type := PrimFloat.float.

(** [m * 2^e], rounded. *)
Definition scaled (m e : Z) : double :=
  FloatOps.SF2Prim (SpecFloat.binary_normalize FloatOps.prec FloatOps.emax m e false).

(** The conversion of a [long] to [double], as in [long * double]. *)
Definition of_long (z : Z) : double := scaled z 0.

(** The rational that a finite [double] stands for. *)
Definition exact (x : double) : Q :=
  match FloatOps.Prim2SF x with
  | SpecFloat.S754_finite s m e =>
      ((if s then -1 else 1) * inject_Z (Z.pos m) * Qpower 2 e)%Q
  | _ => 0%Q
  end.

End Binary64.

(** ** Secret-key handles ([Ctxt.h], class [SKHandle]) *)

Module SKHandle.

(** [long powerOfS, powerOfX, secretKeyID;] *)
Record t : Type := mk {
  powerOfS : Z;
  powerOfX : Z;
  secretKeyID : Z
}.

(** [bool isOne() const { return powerOfS == 0; }] *)
Definition isOne (h : t) : bool := powerOfS h =? 0.

Definition set_secretKeyID (h : t) (k : Z) : t :=
  mk (powerOfS h) (powerOfX h) k.

(** [bool mul(const SKHandle& a, const SKHandle& b)].  The receiver [*this]
    is passed as [this]; the function returns the receiver after the call
    together with the boolean result.  On the error paths only the key id of
    the receiver is overwritten.  Every field of [a] and [b] is read before
    the field of the same name is written, so the result is the same when an
    input aliases the receiver. *)
Definition mul (this a b : t) : t * bool :=
  if isOne a then (b, 0 <=? secretKeyID b)
  else if isOne b then (a, 0 <=? secretKeyID a)
  else if (secretKeyID a =? -1) || (secretKeyID b =? -1)
       then (set_secretKeyID this (-1), false)
  else if negb (secretKeyID a =? secretKeyID b)
       then (set_secretKeyID this (-1), false)
  else if negb (powerOfX a =? powerOfX b)
       then (set_secretKeyID this (-1), false)
  else (mk (powerOfS a + powerOfS b) (powerOfX a) (secretKeyID a), true).

(** The product as the data-model sentence of the specification words it:
    success with [(a+a', t, k)] when [t = t'] and [k = k'] (for a valid key
    id [k >= 0]), an error (false and key id -1) in every other case. *)
Definition mul_as_claimed (this h1 h2 : t) : Prop :=
  let agree := powerOfX h1 = powerOfX h2 /\ secretKeyID h1 = secretKeyID h2
               /\ 0 <= secretKeyID h1 in
  (agree ->
   mul this h1 h2
   = (mk (powerOfS h1 + powerOfS h2) (powerOfX h1) (secretKeyID h1), true))
  /\ (~ agree ->
      (mul this h1 h2).2 = false /\ secretKeyID (mul this h1 h2).1 = -1).

End SKHandle.

(** ** Exceptions and process exits *)

Module Err.

(** The exception classes of [helib/exceptions.h] that the modelled code
    throws, NTL's input error, [exit(1)], undefined behaviour and a loop that never ends. *)
Inductive exn : Type :=
  | LogicError (msg : string)
  | RuntimeError (msg : string)
  | InvalidArgument (msg : string)
  | InputError (msg : string)
  | ProcessExit (code : Z)
  | Undefined (what : string)
  | Diverges.

Inductive outcome (A : Type) : Type :=
  | Ok (a : A)
  | Throw (e : exn).
Arguments Ok {A} a.
Arguments Throw {A} e.

(** Sequencing: an exception ends the computation ([x ← m; k] and [m;; k]
    are stdpp's notations for [mbind]). *)
#[global] Instance outcome_ret : MRet outcome := fun A a => Ok a.
#[global] Instance outcome_bind : MBind outcome := fun A B f m =>
  match m with
  | Ok a => f a
  | Throw e => Throw e
  end.

(** [assertTrue<E>(cond, msg)] *)
Definition assertTrue (mk : string -> exn) (cond : bool) (msg : string) : outcome unit :=
  if cond then Ok tt else Throw (mk msg).

End Err.

(** ** [NTL::ZZX]: integer polynomials *)

Module ZZX.

(** The coefficient vector [rep], lowest degree first.  NTL keeps it
    normalised: the last entry, if any, is not zero. *)
Definition t : Type := list Z.

(** [normalize()]: strip leading (highest-degree) zeros. *)
Fixpoint normalize (f : list Z) : t :=
  match f with
  | [] => []
  | c :: f' =>
      match normalize f' with
      | [] => if c =? 0 then [] else [c]
      | g => c :: g
      end
  end.

(** [deg(f)], with [deg(0) = -1]. *)
Definition deg (f : t) : Z := Z.of_nat (length f) - 1.

(** [coeff(f, i)]: zero outside the vector. *)
Definition coeff (f : t) (i : nat) : Z := nth i f 0.

(** [SetCoeff(f, i, a)]: grow the vector with zeros up to index [i] when
    needed, store [a], normalise. *)
Definition SetCoeff (f : t) (i : nat) (a : Z) : t :=
  normalize (<[i := a]> (f ++ replicate (S i - length f) 0)).

End ZZX.

(** ** [newMakeDivisible] ([recryption.cpp]) *)

Module MakeDivisible.
Import Err.

(** [PowerfulDCRT::ZZXtoPowerful] and [PowerfulDCRT::powerfulToZZX]
    ([powerful.cpp], outside the sources at hand): the change of basis
    between a polynomial and its powerful-basis coefficient vector. *)
Class PowerfulDCRT : Type := {
  ZZXtoPowerful : ZZX.t -> list Z;
  powerfulToZZX : list Z -> ZZX.t
}.

(** [NTL::RandomBnd(2)] draws from a stream of coin flips; [pos] counts the
    draws made so far. *)
Definition coins : Type := nat -> bool.

(** One turn of the loop over the powerful-basis coefficients.  Returns the
    new coefficient [z], the multiple [v] of [q] that was added and the
    position in the coin stream, or [None] when the sanity check fails and
    the process exits. *)
Definition round_coeff (p p2e q : Z) (rnd : coins) (z : Z) (pos : nat)
  : option (Z * Z * nat) :=
  let zMod := z mod p2e in
  let '(up, pos') :=
    if Z.quot p2e 2 <? zMod then (true, pos)
    else if (p =? 2) && (zMod =? Z.quot p2e 2) then (rnd pos, S pos)
    else (false, pos) in
  let v := if up then p2e - zMod else - zMod in
  let z' := z + q * v in
  if negb (z' mod p2e =? 0) then None else Some (z', v, pos').

(** [for (long i : range(pwrfl.length()))]; the second list is [vvec]. *)
Fixpoint round_all (p p2e q : Z) (rnd : coins) (pwrfl : list Z) (pos : nat)
  : option (list Z * list Z * nat) :=
  match pwrfl with
  | [] => Some ([], [], pos)
  | z :: rest =>
      match round_coeff p p2e q rnd z pos with
      | None => None
      | Some (z', v, pos1) =>
          match round_all p p2e q rnd rest pos1 with
          | None => None
          | Some (zs, vs, pos2) => Some (z' :: zs, v :: vs, pos2)
          end
      end
  end.

(** What the call leaves behind: the polynomial, [vpoly], the rounded
    powerful-basis vector, the multiples [v] and the coin position. *)
Record result : Type := mkResult {
  res_poly : ZZX.t;
  res_vpoly : ZZX.t;
  res_pwrfl : list Z;
  res_vvec : list Z;
  res_pos : nat
}.

(** [static void newMakeDivisible(ZZX& poly, long p2e, long q,
    const Context& context, ZZX& vpoly)]; [p] is [context.getP()] and
    [HELIB_DEBUG] tells whether the debugging build is compiled, in which
    [vpoly] receives the multiples. *)
Definition newMakeDivisible `{PowerfulDCRT} (HELIB_DEBUG : bool)
    (poly : ZZX.t) (p2e q p : Z) (vpoly : ZZX.t) (rnd : coins) (pos : nat)
  : outcome result :=
  if p2e =? 1 then Ok (mkResult poly [] (ZZXtoPowerful poly) [] pos)
  else
    assertTrue InvalidArgument (0 <? q) "q must be positive";;
    assertTrue InvalidArgument (0 <? p2e) "p2e must be positive";;
    assertTrue InvalidArgument (Z.rem q p2e =? 1) "q must equal 1 modulo p2e";;
    match round_all p p2e q rnd (ZZXtoPowerful poly) pos with
    | None => Throw (ProcessExit 1)
    | Some (pwrfl, vvec, pos') =>
        Ok (mkResult (powerfulToZZX pwrfl)
                     (if HELIB_DEBUG then powerfulToZZX vvec else vpoly)
                     pwrfl vvec pos')
    end.

(** The multiple of [q] that the loop adds when no coin is flipped: the
    offset from [z] to the nearest multiple of [p2e] (downwards on a tie). *)
Definition nearest_offset (p2e z : Z) : Z :=
  if p2e / 2 <? z mod p2e then p2e - z mod p2e else - (z mod p2e).

(** What one turn of the loop guarantees about a coefficient [z], its new
    value [z'] and the multiple [v]. *)
Definition rounded (p p2e q z z' v : Z) : Prop :=
  z' = z + v * q
  /\ 2 * Z.abs v <= p2e
  /\ (p2e | z')
  /\ (p2e | z + v)
  /\ (v = nearest_offset p2e z
      \/ (p = 2 /\ 2 * (z mod p2e) = p2e /\ v = p2e / 2)).

(** The case in which the loop draws a coin:
    [p == 2 && zMod == p2e / 2], reached only when [zMod > p2e / 2] fails. *)
Definition tie (p p2e z : Z) : bool := (p =? 2) && (z mod p2e =? p2e / 2).

(** The number of coins drawn for the coefficients [pwrfl]. *)
Definition ties (p p2e : Z) (pwrfl : list Z) : nat :=
  length (List.filter (tie p p2e) pwrfl).

(** The multiple of [q] added to the coefficient [z] when the coins drawn
    so far are [pos]: on a tie the coin at [pos] decides between [p2e / 2]
    and [- (p2e / 2)]; otherwise it is the offset to the nearest multiple. *)
Definition offset_with_coin (p p2e : Z) (rnd : coins) (pos : nat) (z : Z) : Z :=
  if tie p p2e z then (if rnd pos then p2e / 2 else - (p2e / 2))
  else nearest_offset p2e z.

(** A stream of coins that alternates, heads first. *)
Definition alternating : coins := Nat.even.

(** The conversions taken as the identity, for examples. *)
Definition identity_conversion : PowerfulDCRT :=
  {| ZZXtoPowerful := fun f => f; powerfulToZZX := fun v => v |}.

(** A conversion back that does not keep multiples: it adds 1 to every
    coefficient. *)
Definition shifting_conversion : PowerfulDCRT :=
  {| ZZXtoPowerful := fun f => f; powerfulToZZX := fun v => map (fun z => z + 1) v |}.

End MakeDivisible.

(** ** [compute_fudge] and [RecryptData::setAE] ([recryption.cpp]) *)

Module SetAE.
Import Err Binary64.

(** [x < y] on (idealised) doubles. *)
Definition Qltb (x y : Q) : bool := negb (Qle_bool y x).

(** [fsquare(x)] of [NumbTh.h]: [x * x] on doubles. *)
Definition fsquare (x : double) : double := PrimFloat.mul x x.

(** [static double compute_fudge(long p2ePrime, long p2e)] *)
Definition compute_fudge (p2ePrime p2e : Z) : double :=
  let eps :=
    if 1 <? p2ePrime then
      if Z.rem p2ePrime 2 =? 0
      then PrimFloat.div (of_long 1) (fsquare (of_long p2ePrime))
      else PrimFloat.div (of_long 1) (of_long p2e)
    else of_long 0 in
  PrimFloat.add (of_long 1) eps.

(** [while (p2e_bnd <= ((1L << 30) - 2) / p) { e_bnd++; p2e_bnd *= p; }].
    The loop runs at most thirty times for [p >= 2]; [None] stands for the
    loop that never ends ([p = 1]). *)
Fixpoint e_bnd_loop (fuel : nat) (p e_bnd p2e_bnd : Z) : option Z :=
  match fuel with
  | O => None
  | S fuel' =>
      if p2e_bnd <=? Z.quot (Z.shiftl 1 30 - 2) p
      then e_bnd_loop fuel' p (e_bnd + 1) (p2e_bnd * p)
      else Some e_bnd
  end.

Definition compute_e_bnd (p : Z) : option Z := e_bnd_loop 64 p 0 1.

(** [while (continue e) e++;] for a loop whose condition holds at most
    [fuel] times in a row. *)
Fixpoint count_up (fuel : nat) (continue : Z -> bool) (e : Z) : Z :=
  match fuel with
  | O => e
  | S fuel' => if continue e then count_up fuel' continue (e + 1) else e
  end.

(** [NTL::power_long(p, e) < frstTerm * coeff_bound * 2]: the power is
    converted to [double], the product is taken from left to right. *)
Definition too_small (coeff_bound : double) (p frstTerm e : Z) : bool :=
  PrimFloat.ltb (of_long (p ^ e))
    (PrimFloat.mul (PrimFloat.mul (of_long frstTerm) coeff_bound) (of_long 2)).

(** [while (e <= e_bnd && NTL::power_long(p, e) < frstTerm * coeff_bound * 2) e++;]
    started at [e = r + 1]. *)
Definition first_e (coeff_bound : double) (p r frstTerm e_bnd : Z) : Z :=
  count_up (Z.to_nat (e_bnd - r))
    (fun e => (e <=? e_bnd) && too_small coeff_bound p frstTerm e)
    (r + 1).

(** [p2eTry >= (p2ePrimeTry * fudge + frstTerm) * coeff_bound * 2] *)
Definition bound_ok (coeff_bound : double) (p frstTerm ePrimeTry eTry : Z) : bool :=
  let p2ePrimeTry := p ^ ePrimeTry in
  let p2eTry := p ^ eTry in
  let fudge := compute_fudge p2ePrimeTry p2eTry in
  PrimFloat.leb
    (PrimFloat.mul
       (PrimFloat.mul
          (PrimFloat.add (PrimFloat.mul (of_long p2ePrimeTry) fudge)
                         (of_long frstTerm))
          coeff_bound)
       (of_long 2))
    (of_long p2eTry).

(** The body of [while (ePrimeTry <= e_bnd)]; [best] is the pair
    [(e, ePrime)] held when the turn starts. *)
Definition try_ePrime (coeff_bound : double) (p r frstTerm e_bnd : Z)
    (best : Z * Z) (ePrimeTry : Z) : Z * Z :=
  let '(e, ePrime) := best in
  let eTry0 := Z.max (r + 1) (ePrimeTry + 1) in
  let eTry :=
    count_up (Z.to_nat (e_bnd + 1 - eTry0))
      (fun eTry => (eTry <=? e_bnd) && (eTry - ePrimeTry <? e - ePrime)
                   && negb (bound_ok coeff_bound p frstTerm ePrimeTry eTry))
      eTry0 in
  if (eTry <=? e_bnd) && (eTry - ePrimeTry <? e - ePrime)
  then (eTry, ePrimeTry)
  else (e, ePrime).

(** [void RecryptData::setAE(long& e, long& ePrime, const Context& context)].
    [coeff_bound] is [context.boundForRecryption()], [p], [p2r] and [r] are
    read from the context.  The result is the pair [(e, ePrime)]. *)
Definition setAE (coeff_bound : double) (p p2r r : Z) : outcome (Z * Z) :=
  let frstTerm := 2 * p2r + 2 in
  match compute_e_bnd p with
  | None => Throw Diverges
  | Some e_bnd =>
      let e := first_e coeff_bound p r frstTerm e_bnd in
      assertTrue RuntimeError (negb (e_bnd <? e)) "setAE: cannot find suitable e";;
      Ok (fold_left (try_ePrime coeff_bound p r frstTerm e_bnd)
                    (seqZ 1 e_bnd) (e, 0))
  end.

(** The pairs among which [setAE] chooses: [e' = 0] with the bound that has
    no [p^{e'}] term, and [1 <= e' <= e_bnd] with the full bound; both
    bounds as the code computes them, in [double]. *)
Definition candidate (coeff_bound : double) (p p2r r e_bnd e e' : Z) : Prop :=
  let frstTerm := 2 * p2r + 2 in
  (e' = 0 /\ r + 1 <= e <= e_bnd
   /\ too_small coeff_bound p frstTerm e = false)
  \/ (1 <= e' <= e_bnd /\ Z.max (r + 1) (e' + 1) <= e <= e_bnd
      /\ bound_ok coeff_bound p frstTerm e' e = true).

(** The bound as the specification words it:
    [p^e > 2 (fudge p^{e'} + 2 p^r + 2) coeffBound], strict. *)
Definition bound_as_claimed (coeff_bound : double) (p p2r e e' : Z) : bool :=
  PrimFloat.ltb
    (PrimFloat.mul
       (PrimFloat.mul (of_long 2)
          (PrimFloat.add
             (PrimFloat.add
                (PrimFloat.mul (compute_fudge (p ^ e') (p ^ e)) (of_long (p ^ e')))
                (PrimFloat.mul (of_long 2) (of_long p2r)))
             (of_long 2)))
       coeff_bound)
    (of_long (p ^ e)).

(** The enumeration as the specification words it: [e'] in [[1, e_bnd]],
    [e] in [[max(r+1, e'+1), e_bnd]], the bound with a strict inequality. *)
Definition satisfying_as_claimed (coeff_bound : double) (p p2r r e_bnd e e' : Z)
  : Prop :=
  1 <= e' <= e_bnd /\ Z.max (r + 1) (e' + 1) <= e <= e_bnd
  /\ bound_as_claimed coeff_bound p p2r e e' = true.

(** What the search holds once every [e' <= j] has been tried: a candidate,
    of least [e - e'] among the candidates with [e' <= j], and the first
    such in the order of [e']. *)
Definition chosen (coeff_bound : double) (p p2r r e_bnd : Z) (j : Z) (best : Z * Z)
  : Prop :=
  let '(e, e') := best in
  candidate coeff_bound p p2r r e_bnd e e' /\ e' <= j
  /\ (forall e2 e2', candidate coeff_bound p p2r r e_bnd e2 e2' -> e2' <= j ->
                     e - e' <= e2 - e2')
  /\ (forall e2 e2', candidate coeff_bound p p2r r e_bnd e2 e2' -> e2' < e' ->
                     e - e' < e2 - e2').

Definition setAE_as_claimed (coeff_bound : double) (p p2r r : Z) : Prop :=
  exists e_bnd e e',
    compute_e_bnd p = Some e_bnd
    /\ setAE coeff_bound p p2r r = Ok (e, e')
    /\ satisfying_as_claimed coeff_bound p p2r r e_bnd e e'
    /\ forall e2 e2', satisfying_as_claimed coeff_bound p p2r r e_bnd e2 e2' ->
                      e - e' <= e2 - e2'.

(** The bound the source aims at, in exact arithmetic:
    [p^e >= (p^{e'} (1 + 1/p^e) + 2 p^r + 2) coeffBound 2], for an odd
    [p^{e'} > 1]. *)
Definition exact_bound_odd (coeff_bound : Q) (p p2r e e' : Z) : Prop :=
  ((inject_Z (p ^ e') * (1 + 1 / inject_Z (p ^ e)) + inject_Z (2 * p2r + 2))
     * coeff_bound * 2 <= inject_Z (p ^ e))%Q.

(** The [double]s [0x1.d745d1745d175p-2] (the one nearest to 81/176),
    [2^25] and [3^18 / 16]. *)
Definition near_81_176 : double := scaled 8290717495841141 (-54).
Definition two_to_25 : double := of_long (2 ^ 25).
Definition three_to_18_by_16 : double := scaled (3 ^ 18) (-4).

End SetAE.

(** ** Ciphertexts as the digit extraction uses them *)

Module Ctxt.

(** The operations of class [Ctxt] ([Ctxt.h]; their bodies are in
    [Ctxt.cpp], outside the sources at hand).  Each takes the receiver
    first and returns it after the call. *)
Class Ops (Ctxt : Type) : Type := {
  ZeroCtxtLike : Ctxt -> Ctxt;           (* Ctxt(ZeroCtxtLike, c) *)
  square : Ctxt -> Ctxt;
  multByConstant : Ctxt -> Z -> Ctxt;    (* multByConstant(long) *)
  addCtxt : Ctxt -> Ctxt -> bool -> Ctxt; (* addCtxt(other, negative) *)
  multiplyBy : Ctxt -> Ctxt -> Ctxt;
  negate : Ctxt -> Ctxt;
  addConstant : Ctxt -> Z -> Ctxt;
  divideByP : Ctxt -> Ctxt
}.

(** The plaintext ring in which a ciphertext decrypts. *)
Class Plaintext (R : Type) : Type := {
  zero : R;
  one : R;
  add : R -> R -> R;
  mul : R -> R -> R;
  sub : R -> R -> R;
  opp : R -> R;
  plaintext_ring : ring_theory zero one add mul sub opp eq
}.

(** The image of an integer constant in the plaintext ring. *)
Definition of_Z {R} `{Plaintext R} (k : Z) : R :=
  InitialRing.gen_phiZ zero one add mul opp k.

Fixpoint power {R} `{Plaintext R} (x : R) (n : nat) : R :=
  match n with
  | O => one
  | S n' => mul x (power x n')
  end.

(** Homomorphic evaluation: what the arithmetic used by the row
    computation does to the plaintext. *)
Class Homomorphic (Ctxt R : Type) `{Ops Ctxt} `{Plaintext R} : Type := {
  dec : Ctxt -> R;
  dec_square : forall c, dec (square c) = mul (dec c) (dec c);
  dec_multByConstant : forall c k, dec (multByConstant c k) = mul (of_Z k) (dec c);
  dec_addCtxt : forall c d negative,
      dec (addCtxt c d negative)
      = if negative then sub (dec c) (dec d) else add (dec c) (dec d);
  dec_multiplyBy : forall c d, dec (multiplyBy c d) = mul (dec c) (dec d)
}.

(** The integers as plaintexts and as (noise-free) ciphertexts: the instance
    on which the general statements are tried. *)
#[global] Instance Z_plaintext : Plaintext Z :=
  {| zero := 0; one := 1; add := Z.add; mul := Z.mul; sub := Z.sub;
     opp := Z.opp; plaintext_ring := Zth |}.

Definition Z_ops (p : Z) : Ops Z :=
  {| ZeroCtxtLike := fun _ => 0;
     square := fun c => c * c;
     multByConstant := fun c k => of_Z k * c;
     addCtxt := fun c d negative => if negative then c - d else c + d;
     multiplyBy := fun c d => c * d;
     negate := fun c => - c;
     addConstant := fun c k => c + k;
     divideByP := fun c => c / p |}.

Definition Z_homomorphic (p : Z) : @Homomorphic Z Z (Z_ops p) Z_plaintext.
Proof.
  refine (@Build_Homomorphic Z Z (Z_ops p) Z_plaintext (fun c : Z => c) _ _ _ _).
  - intros c. reflexivity.
  - intros c k. reflexivity.
  - intros c d [|]; reflexivity.
  - intros c d. reflexivity.
Defined.

End Ctxt.

(** ** Row computations of the digit extraction ([recryption.cpp]) *)

Module RowComputation.
Import Err Ctxt.

Section Rows.
Context {Ctxt : Type} `{Ops Ctxt}.

(** [std::vector<std::pair<Ctxt, long>>]: ciphertexts with the exponent
    up to which each is defined. *)
Definition Eval : Type := list (Ctxt * Z).

(** [std::get<0>(v[i])]; the index is always in range where it is used. *)
Definition ctxt_at (d : Ctxt) (v : Eval) (i : nat) : Ctxt :=
  from_option fst d (v !! i).

(** [std::get<0>(v[i]).f(...)]: update the ciphertext of entry [i] in place. *)
Definition update_ctxt (v : Eval) (i : nat) (f : Ctxt -> Ctxt) : Eval :=
  alter (fun ce => (f ce.1, ce.2)) i v.

(** The four guarded blocks of [rowComputationMultivariate], in the order
    of the source.  [d] is a zero ciphertext like the input (what [tmp1],
    [tmp2] and [tmp3] start as) and [init_length] the length of [ctxtEval]
    on entry. *)

(** [if (rowSize >= 2)]: [f2 = x^2]. *)
Definition block_f2 (ctxt : Ctxt) (init_length : nat) (rowSize : Z)
    (ctxtEval : Eval) : Eval :=
  if 2 <=? rowSize then
    let ctxtEval := ctxtEval ++ [(ctxt, 2)] in
    update_ctxt ctxtEval (init_length + 0) square
  else ctxtEval.

(** [if (rowSize >= 3)]: [f4 = (f2)^2]. *)
Definition block_f4 (d : Ctxt) (init_length : nat) (rowSize : Z)
    (ctxtEval : Eval) : Eval :=
  if 3 <=? rowSize then
    let ctxtEval := ctxtEval ++ [(ctxt_at d ctxtEval (init_length + 0), 4)] in
    update_ctxt ctxtEval (init_length + 1) square
  else ctxtEval.

(** [if (rowSize >= 5)]: [f8 = 112*f2 + (94*f2 + 121*f4)^2]. *)
Definition block_f8 (d : Ctxt) (init_length : nat) (rowSize : Z)
    (ctxtEval : Eval) : Eval :=
  if 5 <=? rowSize then
    let ctxtEval := ctxtEval ++ [(ctxt_at d ctxtEval (init_length + 0), 8)] in
    let ctxtEval :=
      update_ctxt ctxtEval (init_length + 2) (fun c => multByConstant c 112) in
    let tmp1 := ctxt_at d ctxtEval (init_length + 0) in
    let tmp1 := multByConstant tmp1 94 in
    let tmp2 := ctxt_at d ctxtEval (init_length + 1) in
    let tmp2 := multByConstant tmp2 121 in
    let tmp1 := addCtxt tmp1 tmp2 false in
    let tmp1 := square tmp1 in
    update_ctxt ctxtEval (init_length + 2) (fun c => addCtxt c tmp1 false)
  else ctxtEval.

(** [if (rowSize >= 9)]:
    [f16 = 11136*f4 - (15364*f4 - 14115*f8) * (28504*f2 + 8968*f4 - f8)]. *)
Definition block_f16 (d : Ctxt) (init_length : nat) (rowSize : Z)
    (ctxtEval : Eval) : Eval :=
  if 9 <=? rowSize then
    let ctxtEval := ctxtEval ++ [(ctxt_at d ctxtEval (init_length + 1), 16)] in
    let ctxtEval :=
      update_ctxt ctxtEval (init_length + 3) (fun c => multByConstant c 11136) in
    let tmp1 := ctxt_at d ctxtEval (init_length + 1) in
    let tmp1 := multByConstant tmp1 15364 in
    let tmp2 := ctxt_at d ctxtEval (init_length + 2) in
    let tmp2 := multByConstant tmp2 14115 in
    let tmp1 := addCtxt tmp1 tmp2 true in
    let tmp2 := ctxt_at d ctxtEval (init_length + 0) in
    let tmp2 := multByConstant tmp2 28504 in
    let tmp3 := ctxt_at d ctxtEval (init_length + 1) in
    let tmp3 := multByConstant tmp3 8968 in
    let tmp2 := addCtxt tmp2 tmp3 false in
    let tmp2 := addCtxt tmp2 (ctxt_at d ctxtEval (init_length + 2)) true in
    let tmp1 := multiplyBy tmp1 tmp2 in
    update_ctxt ctxtEval (init_length + 3) (fun c => addCtxt c tmp1 true)
  else ctxtEval.

(** [void rowComputationMultivariate(const Ctxt& ctxt,
    std::vector<std::pair<Ctxt, long>>& ctxtEval, long rowSize)] *)
Definition rowComputationMultivariate (ctxt : Ctxt) (ctxtEval : Eval) (rowSize : Z)
  : Eval :=
  let d := ZeroCtxtLike ctxt in
  let init_length := length ctxtEval in
  let ctxtEval := block_f2 ctxt init_length rowSize ctxtEval in
  let ctxtEval := block_f4 d init_length rowSize ctxtEval in
  let ctxtEval := block_f8 d init_length rowSize ctxtEval in
  block_f16 d init_length rowSize ctxtEval.

(** [rowComputationComposition] evaluates cached lifting polynomials with
    the Paterson-Stockmeyer engine ([customPolyEval]); it is a parameter of
    the row computation here.  Arguments: input ciphertext, results so far,
    [triangleSize], [rowSize], [lazy], [e_inner]. *)
Definition composition : Type :=
  Ctxt -> Eval -> Z -> Z -> bool -> Z -> outcome Eval.

(** [std::get<0>(ctxtEval.back())] *)
Definition back_ctxt (d : Ctxt) (v : Eval) : Ctxt :=
  from_option fst d (last v).

(** One turn of the loop of [rowComputationGeneral], for the neighbours
    [e_inner_previous], [e_inner] of the extended split list. *)
Definition general_step (rowComputationComposition : composition) (p : Z)
    (ctxt : Ctxt) (triangleSize rowSize : Z) (lazy : bool)
    (ctxtEval : Eval) (e_inner_previous e_inner : Z) : outcome Eval :=
  if (p =? 2) && (e_inner_previous =? 1) && (e_inner <=? 16)
  then Ok (rowComputationMultivariate (back_ctxt ctxt ctxtEval) ctxtEval
             (Z.min rowSize e_inner))
  else rowComputationComposition (back_ctxt ctxt ctxtEval) ctxtEval
         (Z.min triangleSize e_inner) (Z.min rowSize e_inner) lazy
         e_inner_previous.

Fixpoint general_loop (rowComputationComposition : composition) (p : Z)
    (ctxt : Ctxt) (triangleSize rowSize : Z) (lazy : bool)
    (ctxtEval : Eval) (e_inner_previous : Z) (rest : list Z) : outcome Eval :=
  match rest with
  | [] => Ok ctxtEval
  | e_inner :: rest' =>
      ctxtEval' ← general_step rowComputationComposition p ctxt triangleSize
                    rowSize lazy ctxtEval e_inner_previous e_inner;
      general_loop rowComputationComposition p ctxt triangleSize rowSize lazy
        ctxtEval' e_inner rest'
  end.

(** [void rowComputationGeneral(const Ctxt& ctxt, ... ctxtEval,
    long triangleSize, long rowSize, bool lazy,
    std::vector<long> e_inner_compose_list)]; [p] is
    [ctxt.getContext().getP()]. *)
Definition rowComputationGeneral (rowComputationComposition : composition)
    (p : Z) (ctxt : Ctxt) (ctxtEval : Eval) (triangleSize rowSize : Z)
    (lazy : bool) (e_inner_compose_list : list Z) : outcome Eval :=
  let e_inner_compose_list := e_inner_compose_list ++ [rowSize] in
  let front := hd 0 e_inner_compose_list in
  let ctxtEval := ctxtEval ++ [(ctxt, front)] in
  general_loop rowComputationComposition p ctxt triangleSize rowSize lazy
    ctxtEval front (tl e_inner_compose_list).

End Rows.

Arguments Eval Ctxt : clear implicits.
Arguments composition Ctxt : clear implicits.

(** The reference closed forms of the hard-coded cascade. *)
Section ClosedForms.
Context {R : Type} `{Plaintext R}.

Definition f2 (x : R) : R := power x 2.
Definition f4 (x : R) : R := power x 4.
Definition f8 (x : R) : R :=
  add (mul (of_Z 112) (power x 2))
      (power (add (mul (of_Z 94) (power x 2)) (mul (of_Z 121) (power x 4))) 2).
Definition f16 (x : R) : R :=
  sub (mul (of_Z 11136) (power x 4))
      (mul (sub (mul (of_Z 15364) (power x 4)) (mul (of_Z 14115) (f8 x)))
           (sub (add (mul (of_Z 28504) (power x 2)) (mul (of_Z 8968) (power x 4)))
                (f8 x))).

(** The results a row of size [rowSize] needs, with their precisions: the
    result of precision [2 e] is produced when the row is longer than [e]
    ([rowSize >= 2], [3], [5], [9]). *)
Definition cascade (x : R) (rowSize : Z) : list (R * Z) :=
  (if 2 <=? rowSize then [(f2 x, 2)] else [])
  ++ (if 3 <=? rowSize then [(f4 x, 4)] else [])
  ++ (if 5 <=? rowSize then [(f8 x, 8)] else [])
  ++ (if 9 <=? rowSize then [(f16 x, 16)] else []).

End ClosedForms.

(** The plaintexts of a vector of results, with their precisions. *)
Definition dec_all {Ctxt R : Type} `{Homomorphic Ctxt R} (v : Eval Ctxt)
  : list (R * Z) :=
  map (fun ce => (dec ce.1, ce.2)) v.

(** A stand-in for the composition on examples: it pushes a zero
    ciphertext (every digit read as 0), with the row size as precision. *)
Definition toy_composition {Ctxt : Type} `{Ops Ctxt} : composition Ctxt :=
  fun ctxt ctxtEval _ rowSize _ _ => Ok (ctxtEval ++ [(ZeroCtxtLike ctxt, rowSize)]).

(** A composition that is never looked at, for examples of the hard-coded
    branch. *)
Definition no_composition {Ctxt : Type} : composition Ctxt :=
  fun _ _ _ _ _ _ => Throw (LogicError "No polynomials generated for given prime.").

End RowComputation.

(** ** Console output, pipeline stages and traced computations *)

Module Trace.
Import Err.

(** What the modelled code writes to [std::cout]. *)
Inductive message : Type :=
  | WarnUnfortunateParameters (ePrime r : Z)
      (* "Warning: unfortunate choice of parameters (complexity of digit
         extraction is unnecessarily high because e' < r). ..." *)
  | StartingBuiltIn          (* "Starting built-in digit extraction." *)
  | BuiltInSays (s : string) (* whatever the built-in extraction prints *)
  | Report (digits : Z).     (* the timing and capacity report *)

(** The stages of a refresh, named after the call that performs them. *)
Inductive stage : Type :=
  | DropSmallAndSpecialPrimes
  | BringToSet
  | SlotToCoeff
  | ReLinearize
  | ModDownToSet
  | KeySwitch
  | RawModSwitch
  | MakeDivisible
  | DivideByP2ePrime
  | InnerProduct
  | FirstMap
  | CoeffToSlot
  | ExtractDigits
  | SecondMap
  | RestoreIntFactor.

Inductive event : Type :=
  | Cout (m : message)
  | Warning (msg : string)   (* helib::Warning *)
  | Did (s : stage).

(** A computation that leaves a trace and ends normally or by an
    exception; the trace written before an exception is kept. *)
Record run (A : Type) : Type := Run {
  log : list event;
  res : outcome A
}.
Arguments Run {A} log res.
Arguments log {A} r.
Arguments res {A} r.

#[global] Instance run_ret : MRet run := fun A a => Run [] (Ok a).
#[global] Instance run_bind : MBind run := fun A B f m =>
  match res m with
  | Ok a => Run (log m ++ log (f a)) (res (f a))
  | Throw e => Run (log m) (Throw e)
  end.

Definition emit (ev : event) : run unit := Run [ev] (Ok tt).
Definition throw {A} (e : exn) : run A := Run [] (Throw e).
Definition lift {A} (o : outcome A) : run A := Run [] o.

(** A stage that cannot fail: record it and go on with its result. *)
Definition did {A} (s : stage) (a : A) : run A := Run [Did s] (Ok a).

End Trace.

(** ** The trapezoid loop and its wrapper ([recryption.cpp]) *)

Module DigitExtract.
Import Err Ctxt RowComputation Trace.

Section Extract.
Context {Ctxt : Type} `{Ops Ctxt}.
Variable rowComputationComposition : composition Ctxt.

(** [ctxtRows[i]], with the entry untouched when [i] is out of range. *)
Definition row_at (d : Ctxt * Z) (ctxtRows : Eval Ctxt) (i : Z) : Ctxt * Z :=
  default d (ctxtRows !! Z.to_nat i).

(** The body of [for (int nextRow = row + 1; nextRow < botHigh; nextRow++)]. *)
Definition update_next (d : Ctxt * Z) (ctxtEval : Eval Ctxt) (row : Z)
    (ctxtRows : Eval Ctxt) (nextRow : Z) : Eval Ctxt :=
  if (row + 1 <? nextRow)
     && (nextRow + 1 <=? (row_at d ctxtRows (nextRow - 1)).2 + row + 1)
  then <[Z.to_nat nextRow := row_at d ctxtRows (nextRow - 1)]> ctxtRows
  else
    match List.find (fun tup : Ctxt * Z => nextRow + 1 <=? tup.2 + row) ctxtEval with
    | Some tup =>
        alter (fun ce : Ctxt * Z =>
                 (divideByP (addCtxt ce.1 tup.1 true), Z.min ce.2 tup.2 - 1))
              (Z.to_nat nextRow) ctxtRows
    | None => ctxtRows
    end.

(** The body of [for (int row = 0; row < botHigh; row++)], on the pair of
    [ctxt] and [ctxtRows]. *)
Definition row_body (p botHigh r : Z) (lazy : bool)
    (e_inner_compose_list : list (list Z))
    (st : Ctxt * Eval Ctxt) (row : Z) : outcome (Ctxt * Eval Ctxt) :=
  let '(ctxt, ctxtRows) := st in
  let d := (ctxt, botHigh + r) in
  let splits :=
    nth (Z.to_nat (Z.min row (Z.of_nat (length e_inner_compose_list) - 1)))
        e_inner_compose_list [] in
  ctxtEval ← rowComputationGeneral rowComputationComposition p
               (row_at d ctxtRows row).1 [] (botHigh - row) (botHigh + r - row)
               lazy splits;
  let ctxtRows :=
    fold_left (update_next d ctxtEval row) (seqZ (row + 1) (botHigh - (row + 1)))
              ctxtRows in
  let back := default d (last ctxtRows) in
  if (row + 1 <? botHigh) && (botHigh + r <=? back.2 + row + 1)
  then Ok (back.1, ctxtRows)
  else Ok (divideByP (addCtxt ctxt (back_ctxt ctxt ctxtEval) true), ctxtRows).

Fixpoint rows_loop (p botHigh r : Z) (lazy : bool)
    (e_inner_compose_list : list (list Z))
    (st : Ctxt * Eval Ctxt) (rows : list Z) : outcome (Ctxt * Eval Ctxt) :=
  match rows with
  | [] => Ok st
  | row :: rows' =>
      st' ← row_body p botHigh r lazy e_inner_compose_list st row;
      rows_loop p botHigh r lazy e_inner_compose_list st' rows'
  end.

(** The trapezoid proper: everything between the correction for [p = 2]
    and the final negation. *)
Definition trapezoid (p : Z) (ctxt : Ctxt) (botHigh r : Z) (lazy : bool)
    (e_inner_compose_list : list (list Z)) : outcome Ctxt :=
  let ctxtRows := replicate (Z.to_nat botHigh) (ctxt, botHigh + r) in
  st ← rows_loop p botHigh r lazy e_inner_compose_list (ctxt, ctxtRows)
         (seqZ 0 botHigh);
  Ok st.1.

(** [lround(pow(p, botHigh) / 2)] *)
Definition correction_constant (p botHigh : Z) : Z :=
  Double.lround (Double.pow p botHigh / 2).

(** [void customExtractDigitsThin(Ctxt& ctxt, long botHigh, long r,
    bool lazy, std::vector<std::vector<long>> e_inner_compose_list)];
    [p] is [ctxt.getContext().getP()]. *)
Definition customExtractDigitsThin (p : Z) (ctxt : Ctxt) (botHigh r : Z)
    (lazy : bool) (e_inner_compose_list : list (list Z)) : outcome Ctxt :=
  let ctxt :=
    if p =? 2 then addConstant ctxt (correction_constant p botHigh) else ctxt in
  ctxt ← trapezoid p ctxt botHigh r lazy e_inner_compose_list;
  Ok (negate ctxt).

(** The digit extraction as the specification words it: the correction
    constant and the final negation for [p = 2] only. *)
Definition customExtractDigitsThin_as_claimed (p : Z) (ctxt : Ctxt)
    (botHigh r : Z) (lazy : bool) (e_inner_compose_list : list (list Z))
  : outcome Ctxt :=
  if p =? 2 then
    ctxt ← trapezoid p (addConstant ctxt (correction_constant p botHigh))
             botHigh r lazy e_inner_compose_list;
    Ok (negate ctxt)
  else trapezoid p ctxt botHigh r lazy e_inner_compose_list.

(** The built-in HElib extraction, the [else] branch of
    [extractDigitsThin] after its first message: it rests on
    [extractDigits] and [extendExtractDigits], outside the sources at hand.
    Arguments: [ctxt], [botHigh], [r], [ePrime]; it returns what it prints
    and the ciphertext. *)
Variable builtInExtractDigits : Ctxt -> Z -> Z -> Z -> list string * outcome Ctxt.

(** [void extractDigitsThin(Ctxt& ctxt, long botHigh, long r, long ePrime,
    bool our_version, bool lazy,
    std::vector<std::vector<long>> e_inner_compose_list)] *)
Definition extractDigitsThin (p : Z) (ctxt : Ctxt) (botHigh r ePrime : Z)
    (our_version lazy : bool) (e_inner_compose_list : list (list Z))
  : run Ctxt :=
  (if ePrime <? r then
     emit (Cout (WarnUnfortunateParameters ePrime r));;
     if our_version
     then throw (RuntimeError "Bad parameter choice. See warning above.")
     else mret tt
   else mret tt);;
  if our_version then
    lift (customExtractDigitsThin p ctxt botHigh r lazy e_inner_compose_list)
  else
    emit (Cout StartingBuiltIn);;
    let '(out, result) := builtInExtractDigits ctxt botHigh r ePrime in
    Run (map (fun s => Cout (BuiltInSays s)) out) result.

(** Whether the [e' < r] warning is among the events of a trace. *)
Definition warned (ePrime r : Z) (l : list event) : Prop :=
  In (Cout (WarnUnfortunateParameters ePrime r)) l.

(** The wrapper as the failure-mode sentence of the specification words
    it: for [e' < r] a warning and then the extraction itself. *)
Definition proceeds_after_warning (p : Z) (ctxt : Ctxt) (botHigh r ePrime : Z)
    (our_version lazy : bool) (e_inner_compose_list : list (list Z)) : Prop :=
  let out := extractDigitsThin p ctxt botHigh r ePrime our_version lazy
               e_inner_compose_list in
  warned ePrime r (log out)
  /\ res out
     = (if our_version
        then customExtractDigitsThin p ctxt botHigh r lazy e_inner_compose_list
        else (builtInExtractDigits ctxt botHigh r ePrime).2).

End Extract.

(** A stand-in for the built-in extraction on examples. *)
Definition toy_builtIn {Ctxt : Type} : Ctxt -> Z -> Z -> Z -> list string * outcome Ctxt :=
  fun ctxt _ _ _ => (["Warning: Chen/Han digit extraction is not being used."], Ok ctxt).

End DigitExtract.

(** ** The bootstrapping entry points ([recryption.cpp]) *)

Module ReCrypt.
Import Err Ctxt Trace MakeDivisible.

(** [CtxtPart]: a ring element, seen through [to_ZZX], and the handle of
    the secret-key polynomial it belongs to. *)
Record CtxtPart : Type := mkPart {
  to_ZZX : ZZX.t;
  skHandle : SKHandle.t
}.

(** The context, the keys and the library calls a refresh relies on
    ([Context], [PubKey], [Ctxt.cpp], [EvalMap], ... outside the sources at
    hand).  Operations on a ciphertext take the receiver first and return
    it after the call. *)
Class Bootstrap (Ctxt : Type) : Type := {
  (* context.getP(), getAlMod().getR(), getAlMod().getPPowR() *)
  getP : Z;
  getR : Z;
  getPPowR : Z;
  (* rcData.e, rcData.ePrime, recryptKeyID, recryptEkey *)
  rc_e : Z;
  rc_ePrime : Z;
  recryptKeyID : Z;
  recryptEkey : Ctxt;
  (* getZMStar().getNormBnd(), boundForRecryption(), HELIB_MIN_CAP_FRAC *)
  getNormBnd : Q;
  boundForRecryption : Q;
  HELIB_MIN_CAP_FRAC : Q;
  (* fields of the ciphertext *)
  parts : Ctxt -> list CtxtPart;
  getPtxtSpace : Ctxt -> Z;
  getIntFactor : Ctxt -> Z;
  setIntFactor : Ctxt -> Z -> Ctxt;
  (* library calls *)
  DummyEncrypt : Ctxt -> ZZX.t -> Ctxt;
  dropSmallAndSpecialPrimes : Ctxt -> Ctxt;
  bringToSet : Ctxt -> Ctxt;
  inCanonicalForm : Ctxt -> bool;
  reLinearize : Ctxt -> Z -> Ctxt;
  (* s <= context.getCtxtPrimes() for s = getPrimeSet() / getSpecialPrimes() *)
  primeSetWithinCtxtPrimes : Ctxt -> bool;
  (* keep the first three ciphertext primes of s, then modDownToSet(s) *)
  modDownToSet : Ctxt -> Ctxt;
  (* rawModSwitch(zzParts, q): the parts and the returned noise estimate *)
  rawModSwitch : Ctxt -> Z -> list ZZX.t * Q;
  multByConstantZZX : Ctxt -> ZZX.t -> Ctxt;
  addConstantZZX : Ctxt -> ZZX.t -> Ctxt;
  firstMap : Ctxt -> Ctxt;
  secondMap : Ctxt -> Ctxt;
  slotToCoeff : Ctxt -> Ctxt;
  coeffToSlot : Ctxt -> Ctxt;
  (* extractDigitsPacked(ctxt, botHigh, r, ePrime, our_version, lazy) *)
  extractDigitsPacked : Ctxt -> Z -> Z -> Z -> bool -> bool -> run Ctxt;
  MulMod : Z -> Z -> Z -> Z
}.

Section Pipelines.
Context {Ctxt : Type} `{Ops Ctxt} `{Bootstrap Ctxt} `{PowerfulDCRT}.
Variable rowComputationComposition : RowComputation.composition Ctxt.
Variable builtInExtractDigits : Ctxt -> Z -> Z -> Z -> list string * outcome Ctxt.

(** [HELIB_DEBUG]: whether the debugging build is compiled. *)
Variable HELIB_DEBUG : bool.

(** [bool isEmpty() const { return (parts.size() == 0); }] *)
Definition isEmpty (ctxt : Ctxt) : bool := Nat.eqb (length (parts ctxt)) 0.

(** [ctxt.parts.size() == 1 && ctxt.parts[0].skHandle.isOne()] *)
Definition isDummy (ctxt : Ctxt) : bool :=
  match parts ctxt with
  | [part] => SKHandle.isOne (skHandle part)
  | _ => false
  end.

(** The body of the dummy-encryption branch: reduce the coefficients of
    [parts[0]] modulo the plaintext space, normalise, [DummyEncrypt]. *)
Definition reduceDummy (ctxt : Ctxt) : Ctxt :=
  let ptxtSpace := getPtxtSpace ctxt in
  let poly := from_option to_ZZX [] (head (parts ctxt)) in
  let poly := map (fun c => c mod ptxtSpace) poly in
  DummyEncrypt ctxt (ZZX.normalize poly).

(** [assertTrue(cond, msg)] with the default exception, [LogicError]. *)
Definition check (cond : bool) (msg : string) : run unit :=
  lift (assertTrue LogicError cond msg).

(** What the first half of a refresh hands over: the ciphertext, the
    mod-switched parts and the ratio [noise_rat]. *)
Record switched : Type := mkSwitched {
  sw_ctxt : Ctxt;
  sw_zzParts : list ZZX.t;
  sw_noise_rat : Q
}.

(** From canonical form to the raw mod-switch (shared by both entry
    points): relinearise if needed, mod-switch down, key-switch to the
    bootstrapping key, raw mod-switch to [q = p^e + 1], and the ratio of the
    scaled noise estimate to the bound assumed for the parameters. *)
Definition keySwitchAndModSwitch (ctxt : Ctxt) : run switched :=
  let q := getP ^ rc_e + 1 in
  ctxt ← (if inCanonicalForm ctxt then mret ctxt
          else did ReLinearize (reLinearize ctxt 0));
  check (primeSetWithinCtxtPrimes ctxt) "prime set is messed up";;
  ctxt ← did ModDownToSet (modDownToSet ctxt);
  ctxt ← did KeySwitch (reLinearize ctxt recryptKeyID);
  sw ← did RawModSwitch (rawModSwitch ctxt q);
  let mfac := getNormBnd in
  let noise_est := (sw.2 * mfac)%Q in
  let noise_bnd := (HELIB_MIN_CAP_FRAC * inject_Z getPPowR * boundForRecryption)%Q in
  let noise_rat := (noise_est / noise_bnd)%Q in
  mret (mkSwitched ctxt sw.1 noise_rat).

(** [if (noise_rat > 1) { ... #ifdef HELIB_DEBUG Warning(message);
    #else throw LogicError(message); #endif }] *)
Definition noise_message : string := "rawModSwitch scaled noise exceeds bound: ".

Definition checkNoise (noise_rat : Q) : run unit :=
  if SetAE.Qltb 1 noise_rat then
    if HELIB_DEBUG then emit (Warning noise_message)
    else throw (LogicError noise_message)
  else mret tt.

(** The error of an inexact division in NTL, raised through NTL's error
    routine: an exception that is a [std::runtime_error] when NTL is built
    with exceptions, the end of the program otherwise. *)
Definition not_divisible : exn := RuntimeError "DivRem: quotient undefined over ZZ".

(** [zzParts[i] /= p2ePrime]: NTL divides a [ZZX] by a [long] exactly,
    and raises an error when the divisor is 0 or does not divide a
    coefficient. *)
Definition divide_ZZX (f : ZZX.t) (d : Z) : outcome ZZX.t :=
  if d =? 0 then Throw (RuntimeError "div: division by zero")
  else if forallb (fun c => Z.rem c d =? 0) f
       then Ok (ZZX.normalize (map (fun c => c / d) f))
       else Throw not_divisible.

(** From the size check on [zzParts] to the ciphertext
    [zzParts[0] + zzParts[1] * recryptEkey]. *)
Definition makeDivisibleAndCombine (zzParts : list ZZX.t) (rnd : coins) (pos : nat)
  : run (Ctxt * nat) :=
  let p := getP in
  let p2ePrime := p ^ rc_ePrime in
  let q := p ^ rc_e + 1 in
  check (Nat.eqb (length zzParts) 2)
        "Exactly 2 parts required for mod-switching in thin bootstrapping";;
  r0 ← lift (newMakeDivisible HELIB_DEBUG (nth 0 zzParts []) p2ePrime q p [] rnd pos);
  r1 ← lift (newMakeDivisible HELIB_DEBUG (nth 1 zzParts []) p2ePrime q p [] rnd
               (res_pos r0));
  emit (Did MakeDivisible);;
  zz0 ← lift (divide_ZZX (res_poly r0) p2ePrime);
  zz1 ← lift (divide_ZZX (res_poly r1) p2ePrime);
  emit (Did DivideByP2ePrime);;
  ctxt ← did InnerProduct (addConstantZZX (multByConstantZZX recryptEkey zz1) zz0);
  mret (ctxt, res_pos r1).

(** [if (intFactor != 1) ctxt.intFactor = MulMod(ctxt.intFactor, intFactor, ptxtSpace);] *)
Definition restoreIntFactor (ctxt : Ctxt) (intFactor ptxtSpace : Z) : run Ctxt :=
  if negb (intFactor =? 1)
  then did RestoreIntFactor
         (setIntFactor ctxt (MulMod (getIntFactor ctxt) intFactor ptxtSpace))
  else mret ctxt.

(** The thick pipeline after the dummy checks, up to the raw mod-switch. *)
Definition reCrypt_switch (ctxt : Ctxt) : run switched :=
  let ptxtSpace := getPtxtSpace ctxt in
  check (0 <=? recryptKeyID) "No bootstrapping data";;
  check (getR <=? rc_e) "rcData.e must be at least alMod.r";;
  check (Z.rem getPPowR ptxtSpace =? 0) "ptxtSpace must divide p^r when bootstrapping";;
  ctxt ← did DropSmallAndSpecialPrimes (dropSmallAndSpecialPrimes ctxt);
  keySwitchAndModSwitch ctxt.

(** The thick pipeline after the noise check. *)
Definition reCrypt_finish (intFactor ptxtSpace : Z) (our_version lazy : bool)
    (rnd : coins) (sw : switched) : run Ctxt :=
  cp ← makeDivisibleAndCombine (sw_zzParts sw) rnd 0;
  ctxt ← did FirstMap (firstMap cp.1);
  emit (Did ExtractDigits);;
  ctxt ← extractDigitsPacked ctxt (rc_e - rc_ePrime) getR rc_ePrime our_version lazy;
  ctxt ← did SecondMap (secondMap ctxt);
  ctxt ← restoreIntFactor ctxt intFactor ptxtSpace;
  emit (Cout (Report (rc_e - rc_ePrime)));;
  mret ctxt.

(** [void PubKey::reCrypt(Ctxt& ctxt, bool our_version, bool lazy) const] *)
Definition reCrypt (ctxt : Ctxt) (our_version lazy : bool) (rnd : coins) : run Ctxt :=
  let ptxtSpace := getPtxtSpace ctxt in
  if isEmpty ctxt then mret ctxt
  else if isDummy ctxt then mret (reduceDummy ctxt)
  else
    let intFactor := getIntFactor ctxt in
    sw ← reCrypt_switch ctxt;
    checkNoise (sw_noise_rat sw);;
    reCrypt_finish intFactor ptxtSpace our_version lazy rnd sw.

(** How one turn of the timing loop of [thinReCrypt] ends: [return]
    leaves the function, otherwise the loop goes on with the ciphertext and
    the position in the coin stream. *)
Inductive flow : Type :=
  | Return (ctxt : Ctxt)
  | Continue (ctxt : Ctxt) (pos : nat).

(** The thin pipeline after the dummy checks, up to the raw mod-switch. *)
Definition thinReCrypt_switch (ctxt : Ctxt) : run switched :=
  let ptxtSpace := getPtxtSpace ctxt in
  check (0 <=? recryptKeyID) "Bootstrapping data not present";;
  check (getR <=? rc_e) "trcData.e must be at least alMod.r";;
  check (Z.rem getPPowR ptxtSpace =? 0)
        "ptxtSpace must divide p^r when thin bootstrapping";;
  ctxt ← did DropSmallAndSpecialPrimes (dropSmallAndSpecialPrimes ctxt);
  ctxt ← did BringToSet (bringToSet ctxt);
  ctxt ← did SlotToCoeff (slotToCoeff ctxt);
  keySwitchAndModSwitch ctxt.

(** The thin pipeline after the noise check. *)
Definition thinReCrypt_finish (intFactor ptxtSpace : Z) (our_version lazy : bool)
    (rnd : coins) (pos : nat) (sw : switched) : run (Ctxt * nat) :=
  cp ← makeDivisibleAndCombine (sw_zzParts sw) rnd pos;
  ctxt ← did CoeffToSlot (coeffToSlot cp.1);
  emit (Did ExtractDigits);;
  ctxt ← DigitExtract.extractDigitsThin rowComputationComposition
           builtInExtractDigits getP ctxt (rc_e - rc_ePrime) getR rc_ePrime
           our_version lazy [[1]];
  ctxt ← restoreIntFactor ctxt intFactor ptxtSpace;
  mret (ctxt, cp.2).

(** The body of [for (int iii = 0; iii < nb_iterations; iii++)]. *)
Definition thinReCrypt_iteration (our_version lazy : bool) (rnd : coins)
    (ctxt : Ctxt) (pos : nat) : run flow :=
  let ptxtSpace := getPtxtSpace ctxt in
  if isEmpty ctxt then mret (Return ctxt)
  else if isDummy ctxt then mret (Return (reduceDummy ctxt))
  else
    let intFactor := getIntFactor ctxt in
    sw ← thinReCrypt_switch ctxt;
    checkNoise (sw_noise_rat sw);;
    cp ← thinReCrypt_finish intFactor ptxtSpace our_version lazy rnd pos sw;
    mret (Continue cp.1 cp.2).

Fixpoint thinReCrypt_loop (n : nat) (our_version lazy : bool) (rnd : coins)
    (ctxt : Ctxt) (pos : nat) : run flow :=
  match n with
  | O => mret (Continue ctxt pos)
  | S n' =>
      f ← thinReCrypt_iteration our_version lazy rnd ctxt pos;
      match f with
      | Return ctxt' => mret (Return ctxt')
      | Continue ctxt' pos' => thinReCrypt_loop n' our_version lazy rnd ctxt' pos'
      end
  end.

(** [void PubKey::thinReCrypt(Ctxt& ctxt, bool our_version, bool lazy,
    int nb_iterations) const].  The report after the loop divides the
    measured times by [nb_iterations]. *)
Definition thinReCrypt (ctxt : Ctxt) (our_version lazy : bool)
    (nb_iterations : Z) (rnd : coins) : run Ctxt :=
  f ← thinReCrypt_loop (Z.to_nat nb_iterations) our_version lazy rnd ctxt 0;
  match f with
  | Return ctxt' => mret ctxt'
  | Continue ctxt' _ =>
      (* [e] and [ePrime] are still 0 when the loop never ran *)
      emit (Cout (Report (if 0 <? nb_iterations then rc_e - rc_ePrime else 0)));;
      (if nb_iterations =? 0 then throw (Undefined "division by zero") else mret tt);;
      mret ctxt'
  end.

(** No stage of the pipeline appears in a trace. *)
Definition no_stage (l : list event) : Prop := forall s, ~ In (Did s) l.

End Pipelines.

(** A small instance for examples: a ciphertext is its list of parts, its
    plaintext space, its integer factor and the noise that the raw
    mod-switch will report; the library calls leave it as it is. *)
Record toy_ctxt : Type := mkToy {
  toy_parts : list CtxtPart;
  toy_ptxtSpace : Z;
  toy_intFactor : Z;
  toy_noise : Q
}.

Definition toy_ops : Ops toy_ctxt :=
  {| ZeroCtxtLike := fun c => c;
     square := fun c => c;
     multByConstant := fun c _ => c;
     addCtxt := fun c _ _ => c;
     multiplyBy := fun c _ => c;
     negate := fun c => c;
     addConstant := fun c _ => c;
     divideByP := fun c => c |}.

(** [p = 2], [r = 1], [e = 5], [e' = 2]; the bound on the scaled noise is
    [2/3 * 2 * 1 = 4/3]. *)
Definition toy_bootstrap : Bootstrap toy_ctxt :=
  {| getP := 2; getR := 1; getPPowR := 2;
     rc_e := 5; rc_ePrime := 2; recryptKeyID := 1;
     recryptEkey := mkToy [mkPart [1] (SKHandle.mk 0 1 1); mkPart [1] (SKHandle.mk 1 1 1)]
                          2 1 0;
     getNormBnd := 1; boundForRecryption := 1; HELIB_MIN_CAP_FRAC := 2 # 3;
     parts := toy_parts;
     getPtxtSpace := toy_ptxtSpace;
     getIntFactor := toy_intFactor;
     setIntFactor := fun c f => mkToy (toy_parts c) (toy_ptxtSpace c) f (toy_noise c);
     DummyEncrypt := fun c poly =>
       mkToy [mkPart poly (SKHandle.mk 0 1 0)] (toy_ptxtSpace c) 1 0;
     dropSmallAndSpecialPrimes := fun c => c;
     bringToSet := fun c => c;
     inCanonicalForm := fun c => Nat.eqb (length (toy_parts c)) 2;
     reLinearize := fun c _ => c;
     primeSetWithinCtxtPrimes := fun _ => true;
     modDownToSet := fun c => c;
     rawModSwitch := fun c _ => (map to_ZZX (toy_parts c), toy_noise c);
     multByConstantZZX := fun c _ => c;
     addConstantZZX := fun c _ => c;
     firstMap := fun c => c;
     secondMap := fun c => c;
     slotToCoeff := fun c => c;
     coeffToSlot := fun c => c;
     extractDigitsPacked := fun c _ _ _ _ _ => mret c;
     MulMod := fun a b n => (a * b) mod n |}.

(** A two-part ciphertext whose raw mod-switch reports the noise [noise]. *)
Definition toy_canonical (noise : Q) : toy_ctxt :=
  mkToy [mkPart [4; 9] (SKHandle.mk 0 1 0); mkPart [12; 5] (SKHandle.mk 1 1 0)]
        2 1 noise.

(** A dummy encryption of [5 + 3 X + 4 X^2] with plaintext space 2. *)
Definition toy_dummy : toy_ctxt :=
  mkToy [mkPart [5; 3; 4] (SKHandle.mk 0 1 0)] 2 1 0.

(** The two entry points on the small instance; the first argument is
    [HELIB_DEBUG]. *)
Definition thick := @reCrypt toy_ctxt toy_bootstrap identity_conversion.
Definition thin :=
  @thinReCrypt toy_ctxt toy_ops toy_bootstrap identity_conversion
    (@RowComputation.toy_composition toy_ctxt toy_ops) DigitExtract.toy_builtIn.

End ReCrypt.

(** ** Paterson-Stockmeyer parameters ([polyEval.cpp]) *)

Module PolyEval.

(** [ceiling(log(n) / log(2))] and [flooring(log(n) / log(2))].  The
    quotient of logarithms is irrational unless [n] is a power of two, so
    these two expressions are modelled by the integers they stand for; the
    slack of 0.49999 in [ceiling] and [flooring] makes the double
    computation agree with them for every [n] from 1 to [2^17]. *)
Definition ceiling_log2 (n : Z) : Z := Z.log2_up n.
Definition flooring_log2 (n : Z) : Z := Z.log2 n.

(** [long floorPowerOfTwo(long number)] *)
Definition floorPowerOfTwo (number : Z) : Z := 2 ^ flooring_log2 number.

(** [bool isPowerOfTwo(long number)] *)
Definition isPowerOfTwo (number : Z) : bool := floorPowerOfTwo number =? number.

(** The test in the inner loop of [areOddPolynomials]. *)
Definition even_term (index : nat) (c : Z) : bool :=
  (Z.rem (Z.of_nat index) 2 =? 0) && negb (c =? 0).

(** [bool areOddPolynomials(const std::vector<NTL::ZZX>& poly_list)] *)
Definition areOddPolynomials (poly_list : list ZZX.t) : bool :=
  forallb (fun poly => negb (existsb id (imap even_term poly))) poly_list.

(** [struct PS_parameters] *)
Record PS_parameters : Type := mkPS {
  m : Z;
  k : Z;
  multiplications : Z;
  odd : bool
}.

(** The baby-step part of one turn of the loop over [m]: the parameter
    [k], the count so far and [currentOdd]. *)
Definition baby_step (lazy odd : bool) (d m : Z) : Z * Z * bool :=
  let k := Double.ceiling (inject_Z d / Double.pow 2 m) in
  if lazy then
    (k, (if k =? 1 then m - 1 else Z.quot (k - 1) 2 + m), false)
  else
    let nbMultiplications := if m =? 0 then k - 1 else k + m - 2 in
    if odd then
      let '(k_odd, nbMultiplicationsOdd) :=
        if m =? 0 then (k, Z.quot k 2 + flooring_log2 k)
        else
          let k_odd := if Z.rem k 2 =? 1 then k + 1 else k in
          let remaining_exponent := k_odd - floorPowerOfTwo (k_odd - 1) in
          let k_odd :=
            if (Z.rem k_odd 4 =? 0) && negb (isPowerOfTwo remaining_exponent)
            then k_odd + 2 else k_odd in
          (k_odd, Z.quot k_odd 2 + flooring_log2 (k_odd - 1) + m - 1) in
      if nbMultiplicationsOdd <? nbMultiplications
      then (k_odd, nbMultiplicationsOdd, true)
      else (k, nbMultiplications, false)
    else (k, nbMultiplications, false).

(** The body of [for (NTL::ZZX polynomial : polynomials)] that adds the
    giant-step multiplications.  [deg(polynomial) / k] divides a [long] by
    an [int]: the quotient is truncated before [ceiling] sees it. *)
Definition giant_step (lazy : bool) (k : Z) (nbMultiplications : Z)
    (polynomial : ZZX.t) : Z :=
  let nbMultiplications :=
    nbMultiplications
    + (Double.ceiling (inject_Z (Z.quot (ZZX.deg polynomial) k)) - 1) in
  if lazy then
    let nbMultiplications := nbMultiplications + 1 in
    let deg_mod := Z.rem (ZZX.deg polynomial) k in
    if negb (deg_mod =? 0) && (deg_mod <=? Z.quot (k + 1) 2)
    then nbMultiplications - 1
    else nbMultiplications
  else nbMultiplications.

(** One turn of [for (int m = 0; m <= ceiling(log(d) / log(2)); m++)]
    up to the comparison with the best parameters. *)
Definition try_m (polynomials : list ZZX.t) (lazy odd : bool) (d m : Z)
  : PS_parameters :=
  let '(k, nbMultiplications, currentOdd) := baby_step lazy odd d m in
  mkPS m k (fold_left (giant_step lazy k) polynomials nbMultiplications) currentOdd.

(** The comparison that ends a turn. *)
Definition keep_best (best current : PS_parameters) : PS_parameters :=
  if (multiplications best =? -1)
     || (multiplications current <? multiplications best)
  then current else best.

(** [for (NTL::ZZX polynomial : polynomials) d = std::max(d, deg(polynomial));] *)
Definition max_degree (polynomials : list ZZX.t) : Z :=
  fold_left (fun d f => Z.max d (ZZX.deg f)) polynomials 0.

(** [PS_parameters getBestParameters(const std::vector<NTL::ZZX>&
    polynomials, bool lazy)].  The two [assertNeq] of the source reject a
    polynomial of degree [-1] or [0].  For an empty list [d] is 0 and the
    bound of the loop is [ceiling(log(0) / log(2))], which this model does
    not describe. *)
Definition getBestParameters (polynomials : list ZZX.t) (lazy : bool)
  : Err.outcome PS_parameters :=
  if forallb (fun f => negb (ZZX.deg f =? -1) && negb (ZZX.deg f =? 0)) polynomials
  then
    let d := max_degree polynomials in
    let odd := areOddPolynomials polynomials in
    Err.Ok (fold_left (fun best m => keep_best best (try_m polynomials lazy odd d m))
                      (seqZ 0 (ceiling_log2 d + 1))
                      (mkPS 0 0 (-1) false))
  else Err.Throw (Err.LogicError "Degree should be positive.").

(** [⌈a / b⌉] for [b > 0]. *)
Definition ceil_div (a b : Z) : Z := (a + b - 1) / b.


(** The count the code reports, in integer arithmetic.  The baby-step
    part: the baby steps together with the [m - 1] squarings that prepare
    the giant steps, with the parameter [k] that goes with it. *)
Definition design_baby_step (lazy odd : bool) (d m : Z) : Z * Z * bool :=
  let k := ceil_div d (2 ^ m) in
  if lazy then
    (k, (if k =? 1 then m - 1 else (k - 1) / 2 + m), false)
  else
    let generic := if m =? 0 then k - 1 else (k - 1) + (m - 1) in
    if odd then
      let '(k_odd, for_odd) :=
        if m =? 0 then (k, k / 2 + Z.log2 k)
        else
          let k_even := if k mod 2 =? 1 then k + 1 else k in
          let remaining := k_even - 2 ^ Z.log2 (k_even - 1) in
          let k_odd :=
            if (k_even mod 4 =? 0) && negb (2 ^ Z.log2 remaining =? remaining)
            then k_even + 2 else k_even in
          (k_odd, k_odd / 2 + Z.log2 (k_odd - 1) + (m - 1)) in
      if for_odd <? generic then (k_odd, for_odd, true) else (k, generic, false)
    else (k, generic, false).

(** The giant-step part for one polynomial: [⌊deg/k⌋ - 1], the quotient
    being taken on integers before [ceiling] sees it, one more under the
    lazy flag and one less when [deg mod k] is nonzero and at most
    [(k+1)/2].  The term is [-1] for a polynomial whose degree is below
    [k]. *)
Definition design_giant_step (lazy : bool) (k : Z) (f : ZZX.t) : Z :=
  let deg := ZZX.deg f in
  (deg / k - 1)
  + (if lazy then
       1 - (if negb (deg mod k =? 0) && (deg mod k <=? (k + 1) / 2) then 1 else 0)
     else 0).

Definition design_k (lazy odd : bool) (d m : Z) : Z :=
  (design_baby_step lazy odd d m).1.1.

Definition design_count (polynomials : list ZZX.t) (lazy odd : bool) (d m : Z) : Z :=
  (design_baby_step lazy odd d m).1.2
  + fold_right Z.add 0
      (map (design_giant_step lazy (design_k lazy odd d m)) polynomials).

(** The giant steps that evaluating a polynomial of degree [deg] with the
    parameter [k] takes: [⌈deg/k⌉ - 1]. *)
Definition giant_steps_needed (k : Z) (f : ZZX.t) : Z := ceil_div (ZZX.deg f) k - 1.

(** [X^16 + 1], [X^3 + X^2], [X^2 + 1] and [X + 1]. *)
Definition x16_plus_1 : ZZX.t := [1; 0; 0; 0; 0; 0; 0; 0; 0; 0; 0; 0; 0; 0; 0; 0; 1].
Definition x3_plus_x2 : ZZX.t := [0; 0; 1; 1].
Definition x2_plus_1 : ZZX.t := [1; 0; 1].
Definition x_plus_1 : ZZX.t := [1; 1].

End PolyEval.

(** ** The lifting-polynomial cache ([polyEval.cpp]) *)

Module PolyCache.
Import Err.

(** The file system as the loader sees it is a [gmap string string]: the
    content of every file that can be opened, by path. *)

(** [std::isspace] in the "C" locale: space, [\t], [\n], [\v], [\f], [\r]. *)
Definition isspace (c : ascii) : bool :=
  let n := nat_of_ascii c in
  Nat.eqb n 32 || (Nat.leb 9 n && Nat.leb n 13).

(** Leading whitespace skipped, as [operator>>] does first. *)
Fixpoint skipws (s : string) : string :=
  match s with
  | EmptyString => EmptyString
  | String c s' => if isspace c then skipws s' else s
  end.

(** The characters up to the next whitespace or the end, and the rest. *)
Fixpoint take_word (s : string) : string * string :=
  match s with
  | EmptyString => (EmptyString, EmptyString)
  | String c s' =>
      if isspace c then (EmptyString, s)
      else let '(w, rest) := take_word s' in (String c w, rest)
  end.

(** [indata >> tmp]: the word read (empty when the stream is exhausted,
    which sets [failbit]) and what is left of the stream. *)
Definition extract (s : string) : string * string := take_word (skipws s).

Section Parse.
(** [NTL::to_ZZ] on a C string: the decimal reader of NTL, [None] when it
    raises its input error. *)
Variable to_ZZ : string -> option Z.

Definition conv (tmp : string) : outcome Z :=
  match to_ZZ tmp with
  | Some a => Ok a
  | None => Throw (InputError "bad ZZ input")
  end.

(** [while (indata) { std::string tmp; indata >> tmp;
    if (!tmp.empty()) SetCoeff(poly_result, index++, to_ZZ(tmp.c_str())); }].
    A turn that reads nothing leaves the stream failed and ends the loop;
    every other turn consumes at least one character, so [fuel] beyond the
    length of the stream is never used up. *)
Fixpoint read_loop (fuel : nat) (indata : string) (poly_result : ZZX.t) (index : nat)
  : outcome ZZX.t :=
  match fuel with
  | O => Throw Diverges
  | S fuel' =>
      let '(tmp, rest) := extract indata in
      match tmp with
      | EmptyString => Ok poly_result
      | _ =>
          a ← conv tmp;
          read_loop fuel' rest (ZZX.SetCoeff poly_result index a) (S index)
      end
  end.

(** [void parsePolynomial(NTL::ZZX& poly_result, const char* fileName)] *)
Definition parsePolynomial (fs : gmap string string) (fileName : string) : outcome ZZX.t :=
  match fs !! fileName with
  | None => Throw (LogicError "Polynomial file does not exist.")
  | Some content => read_loop (S (String.length content)) content [] 0
  end.

(** Parsing as the interface sentence of the specification words it: a
    file without any coefficient is an error. *)
Definition parsePolynomial_as_claimed (fs : gmap string string) (fileName : string) : Prop :=
  forall content,
    fs !! fileName = Some content -> skipws content = EmptyString ->
    exists e, parsePolynomial fs fileName = Throw e.

(** [stream << n] for a [long]. *)
Definition decimal (n : Z) : string := NilZero.string_of_int (Z.to_int n).

(** ["polynomials/poly" + p + "_" + e_inner + "_" + e + ".txt"] *)
Definition fileName (p e_inner e : Z) : string :=
  "polynomials/poly" +:+ decimal p +:+ "_" +:+ decimal e_inner +:+ "_"
    +:+ decimal e +:+ ".txt".

(** [for (long e = ...;; e++) { ... if (!indata) break; ...
    polynomial_vector[index][inner_index].push_back(result); }]:
    [loaded] is the vector filled so far. *)
Fixpoint load_from (fuel : nat) (fs : gmap string string) (p e_inner e : Z) (loaded : list ZZX.t)
  : outcome (list ZZX.t) :=
  match fuel with
  | O => Throw Diverges
  | S fuel' =>
      match fs !! fileName p e_inner e with
      | None => Ok loaded
      | Some _ =>
          result ← parsePolynomial fs (fileName p e_inner e);
          load_from fuel' fs p e_inner (e + 1) (loaded ++ [result])
      end
  end.

(** [int init_polynomials()]: [polynomial_vector[index][inner_index]] for
    the primes and inner exponents of [Magma_declare.h] ([primes_list] and
    [e_inner_list], outside the sources at hand).  There are at most as
    many turns of the innermost loop as there are files. *)
Definition init_polynomials (fs : gmap string string) (primes_list e_inner_list : list Z)
  : outcome (list (list (list ZZX.t))) :=
  mapM (fun p =>
          mapM (fun e_inner => load_from (S (size fs)) fs p e_inner (e_inner + 1) [])
               e_inner_list)
       primes_list.

End Parse.

(** The words of a stream, split at whitespace. *)
Fixpoint words_from (cur : string) (s : string) : list string :=
  match s with
  | EmptyString => if String.eqb cur EmptyString then [] else [cur]
  | String c s' =>
      if isspace c
      then (if String.eqb cur EmptyString then [] else [cur]) ++ words_from EmptyString s'
      else words_from (cur +:+ String c EmptyString) s'
  end.

Definition words (s : string) : list string := words_from EmptyString s.

(** The coefficients stored from a list of words, lowest degree first. *)
Fixpoint store_words (to_ZZ : string -> option Z) (ws : list string)
    (poly_result : ZZX.t) (index : nat) : outcome ZZX.t :=
  match ws with
  | [] => Ok poly_result
  | w :: ws' =>
      a ← conv to_ZZ w;
      store_words to_ZZ ws' (ZZX.SetCoeff poly_result index a) (S index)
  end.

(** A word as [operator>>] reads one: not empty, no whitespace in it. *)
Fixpoint no_space (w : string) : bool :=
  match w with
  | EmptyString => true
  | String c w' => negb (isspace c) && no_space w'
  end.

Definition is_word (w : string) : Prop := w <> EmptyString /\ no_space w = true.

(** A file with one word per line. *)
Fixpoint unlines (ws : list string) : string :=
  match ws with
  | [] => EmptyString
  | w :: ws' => w +:+ String (ascii_of_nat 10) (unlines ws')
  end.

(** A decimal reader for the examples: an optional sign and digits. *)
Definition to_ZZ_decimal (s : string) : option Z :=
  match NilZero.int_of_string s with
  | Some d => Some (Z.of_int d)
  | None => None
  end.

(** A directory with two files for [p = 2], [e_inner = 1]: the first is
    empty, the second holds [1 - 2 X + 3 X^2] with a final zero. *)
Definition two_files : gmap string string :=
  <[ fileName 2 1 2 := EmptyString ]>
    (<[ fileName 2 1 3 := unlines ["1"; "-2"; "3"; "0"]%string ]> ∅).

End PolyCache.

(** ** Values of integer polynomials *)

Module Poly.

(** The value of the polynomial with coefficient vector [f] at [x]. *)
Fixpoint eval (f : ZZX.t) (x : Z) : Z :=
  match f with
  | [] => 0
  | c :: f' => c + x * eval f' x
  end.

(** The coefficient vector of [g(X^spacing)]: every coefficient of [g]
    followed by [spacing - 1] zeros. *)
Definition expand (spacing : nat) (g : ZZX.t) : ZZX.t :=
  flat_map (fun c => c :: replicate (spacing - 1) 0) g.

(** Sum, multiple and product of coefficient vectors. *)
Fixpoint padd (f g : list Z) : list Z :=
  match f, g with
  | [], _ => g
  | _, [] => f
  | a :: f', b :: g' => (a + b) :: padd f' g'
  end.

Definition pscale (c : Z) (f : list Z) : list Z := map (Z.mul c) f.

Fixpoint pmul (f g : list Z) : list Z :=
  match f with
  | [] => []
  | a :: f' => padd (pscale a g) (0 :: pmul f' g)
  end.

(** The coefficients of [f(X + 1)]. *)
Fixpoint shift1 (f : list Z) : list Z :=
  match f with
  | [] => []
  | c :: f' => padd (padd [c] (shift1 f')) (0 :: shift1 f')
  end.

(** The coefficients of [f(X + 1) - f(X)], one fewer than those of [f]. *)
Fixpoint pdiff (f : list Z) : list Z :=
  match f with
  | [] => []
  | _ :: f' =>
      match f' with
      | [] => []
      | _ => padd (shift1 f') (0 :: pdiff f')
      end
  end.

End Poly.

(** ** The other members of [SKHandle] ([Ctxt.h]) *)

Module SKHandleOps.
Import SKHandle.

(** [SKHandle(long newPowerOfS = 0, long newPowerOfX = 1,
    long newSecretKeyID = 0)] with its default arguments. *)
Definition SKHandle_default : t := mk 0 1 0.

(** [void setBase(long newSecretKeyID = -1)] *)
Definition setBase (h : t) (newSecretKeyID : Z) : t :=
  mk 1 1 (if 0 <=? newSecretKeyID then newSecretKeyID else secretKeyID h).

(** [bool isBase(long ofKeyID = 0) const] *)
Definition isBase (h : t) (ofKeyID : Z) : bool :=
  (powerOfS h =? 1) && (powerOfX h =? 1)
  && ((ofKeyID <? 0) || (secretKeyID h =? ofKeyID)).

(** [void setOne(long newSecretKeyID = -1)] *)
Definition setOne (h : t) (newSecretKeyID : Z) : t :=
  mk 0 1 (if 0 <=? newSecretKeyID then newSecretKeyID else secretKeyID h).

(** [bool operator==(const SKHandle& other) const] *)
Definition operator_eq (h other : t) : bool :=
  if (powerOfS h =? 0) && (powerOfS other =? 0) then true
  else (powerOfS h =? powerOfS other) && (powerOfX h =? powerOfX other)
       && (secretKeyID h =? secretKeyID other).

(** [bool operator!=(const SKHandle& other) const] *)
Definition operator_neq (h other : t) : bool := negb (operator_eq h other).

End SKHandleOps.

(** ** The parts of a ciphertext ([Ctxt.h], class [Ctxt]) *)

Module CtxtParts.
Import SKHandleOps ReCrypt.

(** The loop of [getPartIndexByHandle], from index [i] on. *)
Fixpoint index_from (i : Z) (parts : list CtxtPart) (handle : SKHandle.t) : Z :=
  match parts with
  | [] => -1
  | part :: rest =>
      if operator_eq (skHandle part) handle then i
      else index_from (i + 1) rest handle
  end.

(** [long getPartIndexByHandle(const SKHandle& handle) const] *)
Definition getPartIndexByHandle (parts : list CtxtPart) (handle : SKHandle.t) : Z :=
  index_from 0 parts handle.

(** [bool inCanonicalForm(long keyID = 0) const] *)
Definition inCanonicalForm (parts : list CtxtPart) (keyID : Z) : bool :=
  if (2 <? length parts)%nat then false
  else if (0 <? length parts)%nat
          && negb (from_option (fun part => SKHandle.isOne (skHandle part)) false
                     (parts !! 0%nat))
       then false
  else if (1 <? length parts)%nat
          && negb (from_option (fun part => isBase (skHandle part) keyID) false
                     (parts !! 1%nat))
       then false
  else true.

End CtxtParts.

(** ** The common spacing of polynomials ([polyEval.cpp]) *)

Module Spacing.
Import Err.

(** The body of [for (long index = 1; index <= deg(poly); index++)] in
    [getSpacing], on the pair of [spacing] and [last_non_zero_index]. *)
Definition spacing_step (poly : ZZX.t) (st : Z * Z) (index : Z) : Z * Z :=
  let '(spacing, last_non_zero_index) := st in
  if negb (ZZX.coeff poly (Z.to_nat index) =? 0)
  then (Z.gcd spacing (index - last_non_zero_index), index)
  else st.

(** The body of [for (NTL::ZZX poly : poly_list)]. *)
Definition spacing_poly (spacing : Z) (poly : ZZX.t) : Z :=
  (fold_left (spacing_step poly) (seqZ 1 (ZZX.deg poly)) (spacing, 0)).1.

(** [long getSpacing(const std::vector<NTL::ZZX>& poly_list)]; reading
    [poly_list[0]] of an empty vector is undefined. *)
Definition getSpacing (poly_list : list ZZX.t) : outcome Z :=
  match poly_list with
  | [] => Throw (Undefined "poly_list[0] on an empty vector")
  | first :: _ => Ok (fold_left spacing_poly poly_list (ZZX.deg first))
  end.

(** The polynomial that [customPolyEvalPreprocessing] pushes for [poly]:
    [SetCoeff(output.back(), index, coeff(poly, index * spacing))] for
    [index = 0, ..., deg(poly) / spacing]. *)
Definition compress (spacing : Z) (poly : ZZX.t) : ZZX.t :=
  fold_left
    (fun out index =>
       ZZX.SetCoeff out (Z.to_nat index) (ZZX.coeff poly (Z.to_nat (index * spacing))))
    (seqZ 0 (Z.quot (ZZX.deg poly) spacing + 1)) [].

End Spacing.

(** ** Plaintexts modulo [M] *)

Module ModularPlaintext.
Import Ctxt.

(** The integers modulo [M] as plaintext ring: for [M = p^e] the values
    that a slot of a thinly packed ciphertext holds. *)
#[global] Instance Zmod_plaintext (M : Z) : Plaintext (Zmod.Zmod M) :=
  {| zero := Zmod.zero; one := Zmod.one; add := Zmod.add; mul := Zmod.mul;
     sub := Zmod.sub; opp := Zmod.opp; plaintext_ring := Zmod.ring_theory M |}.

(** Residues as (noise-free) ciphertexts of themselves, for examples;
    [divideByP] halves the representative. *)
Definition Zmod_ops (M : Z) : Ops (Zmod.Zmod M) :=
  {| ZeroCtxtLike := fun _ => Zmod.zero;
     square := fun c => Zmod.mul c c;
     multByConstant := fun c k => Zmod.mul (Zmod.of_Z M k) c;
     addCtxt := fun c d negative => if negative then Zmod.sub c d else Zmod.add c d;
     multiplyBy := fun c d => Zmod.mul c d;
     negate := fun c => Zmod.opp c;
     addConstant := fun c k => Zmod.add c (Zmod.of_Z M k);
     divideByP := fun c => Zmod.of_Z M (Zmod.to_Z c / 2) |}.

End ModularPlaintext.

(** ** The hard-coded cascade as polynomials in the upper bits *)

Module Cascade.
Import Poly.

(** The input [b + 2y] of the cascade, as a polynomial in [y]: [b] is the
    lowest bit. *)
Definition input (b : Z) : list Z := [b; 2].

(** The closed forms [f2], [f4], [f8], [f16] of [rowComputationMultivariate]
    at [b + 2y], as polynomials in [y]. *)
Definition F2 (b : Z) : list Z := pmul (input b) (input b).
Definition F4 (b : Z) : list Z := pmul (F2 b) (F2 b).
Definition F8 (b : Z) : list Z :=
  padd (pscale 112 (F2 b))
       (pmul (padd (pscale 94 (F2 b)) (pscale 121 (F4 b)))
             (padd (pscale 94 (F2 b)) (pscale 121 (F4 b)))).
Definition F16 (b : Z) : list Z :=
  padd (pscale 11136 (F4 b))
       (pscale (-1)
          (pmul (padd (pscale 15364 (F4 b)) (pscale (-14115) (F8 b)))
                (padd (padd (pscale 28504 (F2 b)) (pscale 8968 (F4 b)))
                      (pscale (-1) (F8 b))))).

(** Whether [f(y) = b (mod 2^e)] at [y = 0, ..., length f]. *)
Definition lifts_at_start (b e : Z) (f : list Z) : bool :=
  forallb (fun y => (eval f y - b) mod 2 ^ e =? 0) (seqZ 0 (Z.of_nat (length f) + 1)).

End Cascade.

(** ** The public wrapper of the digit extraction ([recryption.cpp]) *)

Module WrapExtract.
Import Err Ctxt RowComputation Trace DigitExtract.

Section Wrap.
Context {Ctxt : Type} `{Ops Ctxt}.
Variable rowComputationComposition : composition Ctxt.
Variable builtInExtractDigits : Ctxt -> Z -> Z -> Z -> list string * outcome Ctxt.

(** [for (int iii = 0; iii < nb_iterations; iii++)]: every turn starts
    again from the copy [tmp] of the input and calls [extractDigitsThin]
    with [ePrime = r]. *)
Fixpoint wrap_loop (n : nat) (p : Z) (tmp ctxt : Ctxt) (botHigh r : Z)
    (our_version lazy : bool) (e_inner_compose_list : list (list Z)) : run Ctxt :=
  match n with
  | O => mret ctxt
  | S n' =>
      ctxt ← extractDigitsThin rowComputationComposition builtInExtractDigits
               p tmp botHigh r r our_version lazy e_inner_compose_list;
      wrap_loop n' p tmp ctxt botHigh r our_version lazy e_inner_compose_list
  end.

(** [void wrapExtractDigitsThin(Ctxt& ctxt, long botHigh, long r,
    bool our_version, bool lazy,
    std::vector<std::vector<long>> e_inner_compose_list, int nb_iterations)];
    [p] is [ctxt.getContext().getP()].  The report after the loop divides
    the measured time by [nb_iterations]. *)
Definition wrapExtractDigitsThin (p : Z) (ctxt : Ctxt) (botHigh r : Z)
    (our_version lazy : bool) (e_inner_compose_list : list (list Z))
    (nb_iterations : Z) : run Ctxt :=
  let tmp := ctxt in
  ctxt ← wrap_loop (Z.to_nat nb_iterations) p tmp ctxt botHigh r our_version lazy
           e_inner_compose_list;
  let ctxt := negate ctxt in
  emit (Cout (Report botHigh));;
  (if nb_iterations =? 0 then throw (Undefined "division by zero") else mret tt);;
  mret ctxt.

End Wrap.

End WrapExtract.

(** ** The polynomials evaluated for a row ([recryption.cpp]) *)

Module Composition.
Import Err Ctxt RowComputation.

(** [for (long iii = 0; iii < n; iii++) if (list[iii] == v) index = iii;]
    started at [index = n]: the last position of [v], or [n]. *)
Definition find_index (list : list Z) (v : Z) : Z :=
  fold_left (fun index iv => if iv.2 =? v then Z.of_nat iv.1 else index)
            (imap (fun i x => (i, x)) list) (Z.of_nat (length list)).

(** The polynomial for one precision: the [assertTrue] on the size of
    [cache = polynomial_vector[index][inner_index]], then
    [cache[precision - e_inner - 1]]; a negative position passes the
    assertion and is outside the vector. *)
Definition select (cache : list ZZX.t) (e_inner precision : Z) : outcome ZZX.t :=
  assertTrue LogicError (precision - e_inner - 1 <? Z.of_nat (length cache))
    "Not sufficiently many polynomials generated for the given prime.";;
  if precision - e_inner - 1 <? 0
  then Throw (Undefined "vector index out of range")
  else Ok (nth (Z.to_nat (precision - e_inner - 1)) cache []).

(** The loop [for (long exponent = 1; e_inner * pow(2, exponent - 1) <
    triangleSize; exponent++)] of [rowComputationComposition] on the pair
    of [polynomials] and [precisions]; [fuel] bounds the number of turns. *)
Fixpoint precisions_loop (fuel : nat) (cache : list ZZX.t)
    (e_inner triangleSize rowSize exponent : Z)
    (st : list ZZX.t * list Z) : outcome (list ZZX.t * list Z) :=
  match fuel with
  | O => Throw Diverges
  | S fuel' =>
      if e_inner * 2 ^ (exponent - 1) <? triangleSize then
        let precision := e_inner * 2 ^ exponent in
        let precision :=
          if triangleSize <? precision
          then (if precision <? rowSize then triangleSize else rowSize)
          else precision in
        f ← select cache e_inner precision;
        precisions_loop fuel' cache e_inner triangleSize rowSize (exponent + 1)
          (st.1 ++ [f], st.2 ++ [precision])
      else Ok st
  end.

(** [if (precisions.empty() || precisions.back() < rowSize)] and its
    body. *)
Definition one_more (cache : list ZZX.t) (e_inner rowSize : Z)
    (st : list ZZX.t * list Z) : outcome (list ZZX.t * list Z) :=
  if match last st.2 with Some back => back <? rowSize | None => true end
  then
    f ← select cache e_inner rowSize;
    Ok (st.1 ++ [f], st.2 ++ [rowSize])
  else Ok st.

(** What holds of the polynomials and precisions pushed so far: each
    polynomial is the entry of the cache for its precision, the precisions
    lie above [e_inner] and up to [rowSize] and [bound], inside the cache,
    and they increase. *)
Definition scheduled (cache : list ZZX.t) (e_inner rowSize bound : Z)
    (st : list ZZX.t * list Z) : Prop :=
  st.1 = map (fun precision => nth (Z.to_nat (precision - e_inner - 1)) cache []) st.2
  /\ Forall (fun precision =>
               e_inner < precision <= rowSize /\ precision <= bound
               /\ precision - e_inner - 1 < Z.of_nat (length cache)) st.2
  /\ (forall i a b, st.2 !! i = Some a -> st.2 !! S i = Some b -> a < b).

Section Rows.
Context {Ctxt : Type}.

(** The tables [primes_list], [e_inner_list] (of lengths [nb_primes] and
    [nb_e_inner]) and the cache [polynomial_vector] filled by
    [init_polynomials]; they are declared in [Magma_declare.h], outside
    the sources at hand. *)
Variables (primes_list e_inner_list : list Z)
          (polynomial_vector : list (list (list ZZX.t))).

(** [customPolyEval(result, polynomials, ctxt, lazy)] ([polyEval.cpp]). *)
Variable customPolyEval : list ZZX.t -> Ctxt -> bool -> outcome (list Ctxt).

(** [polynomial_vector[index][inner_index]] *)
Definition cached (index inner_index : Z) : outcome (list ZZX.t) :=
  match polynomial_vector !! Z.to_nat index with
  | Some row =>
      match row !! Z.to_nat inner_index with
      | Some cache => Ok cache
      | None => Throw (Undefined "polynomial_vector[index][inner_index]")
      end
  | None => Throw (Undefined "polynomial_vector[index]")
  end.

(** [void rowComputationComposition(const Ctxt& ctxt,
    std::vector<std::pair<Ctxt, long>>& ctxtEval, long triangleSize,
    long rowSize, bool lazy, long e_inner)]; [p] is
    [ctxt.getContext().getP()].  The loop takes fewer turns than
    [triangleSize + 1]. *)
Definition rowComputationComposition (p : Z) (ctxt : Ctxt) (ctxtEval : Eval Ctxt)
    (triangleSize rowSize : Z) (lazy : bool) (e_inner : Z) : outcome (Eval Ctxt) :=
  let nb_primes := Z.of_nat (length primes_list) in
  let nb_e_inner := Z.of_nat (length e_inner_list) in
  let index := find_index primes_list p in
  assertTrue LogicError (index <? nb_primes)
    "No polynomials generated for given prime.";;
  let inner_index := find_index e_inner_list e_inner in
  assertTrue LogicError (inner_index <? nb_e_inner)
    "No polynomials generated for given e_inner.";;
  cache ← cached index inner_index;
  st ← precisions_loop (Z.to_nat triangleSize + 1) cache e_inner triangleSize
         rowSize 1 ([], []);
  st ← one_more cache e_inner rowSize st;
  let '(polynomials, precisions) := st in
  result ← customPolyEval polynomials ctxt lazy;
  if (length precisions <? length result)%nat
  then Throw (Undefined "precisions[index]")
  else Ok (ctxtEval ++ zip result precisions).

End Rows.

End Composition.

(** ** Powers of a ciphertext ([polyEval.cpp]) *)

Module Powers.
Import Err Ctxt.

(** The further operations of class [Ctxt] that polynomial evaluation
    uses ([Ctxt.h]; bodies in [Ctxt.cpp], outside the sources at hand).
    [customMultiplyBy(Ctxt& other, bool lazy)] takes its argument by
    non-constant reference: it returns the receiver and the argument as they
    are after the call. *)
Class PolyOps (Ctxt : Type) : Type := {
  isEmpty : Ctxt -> bool;                (* parts.size() == 0 *)
  customMultiplyBy : Ctxt -> Ctxt -> bool -> Ctxt * Ctxt;
  reLinearize : Ctxt -> Ctxt
}.

(** What these operations do to the plaintext. *)
Class PolyHomomorphic (Ctxt R : Type) `{Ops Ctxt} `{PolyOps Ctxt} `{Plaintext R}
    `{!Homomorphic Ctxt R} : Type := {
  dec_ZeroCtxtLike : forall c, dec (ZeroCtxtLike c) = zero;
  dec_negate : forall c, dec (negate c) = opp (dec c);
  dec_addConstant : forall c k, dec (addConstant c k) = add (dec c) (of_Z k);
  dec_customMultiplyBy : forall c d lazy,
      dec (customMultiplyBy c d lazy).1 = mul (dec c) (dec d)
      /\ dec (customMultiplyBy c d lazy).2 = dec d;
  dec_reLinearize : forall c, dec (reLinearize c) = dec c
}.

(** [NTL::NextPowerOfTwo(m)]: the least [k >= 0] with [2^k >= m]. *)
Definition NextPowerOfTwo (m : Z) : Z := Z.log2_up m.

(** [NTL::NumBits(a)]: the number of bits of [|a|]. *)
Definition NumBits (a : Z) : Z := if a =? 0 then 0 else Z.log2 (Z.abs a) + 1.

(** [std::out_of_range], which [std::vector::at] throws: a
    [std::logic_error] that is none of HElib's classes; it is written as a
    [LogicError] with this message. *)
Definition out_of_range : exn := LogicError "std::out_of_range: vector::at".

Section Powers.
Context {Ctxt : Type} `{Ops Ctxt} `{PolyOps Ctxt}.

(** [Ctxt& DynamicCtxtPowers::getPower(long e)] on the vector [v] of the
    object; it returns [v] as the call leaves it and the entry referred to.
    The recursive calls have smaller arguments: [fuel] is never used up
    when it is at least [e]. *)
Fixpoint getPower (fuel : nat) (v : list Ctxt) (e : Z) : outcome (list Ctxt * Ctxt) :=
  match fuel with
  | O => Throw Diverges
  | S fuel' =>
      if e - 1 <? 0 then Throw out_of_range
      else
        match v !! Z.to_nat (e - 1) with
        | None => Throw out_of_range
        | Some c =>
            if isEmpty c then
              if NextPowerOfTwo e - 1 <? 0
              then Throw (Undefined "shift by a negative amount")
              else
                let k := Z.shiftl 1 (NextPowerOfTwo e - 1) in
                '(v, a) ← getPower fuel' v (e - k);
                let v := <[Z.to_nat (e - 1) := a]> v in
                '(v, b) ← getPower fuel' v k;
                let v := alter (fun c => multiplyBy c b) (Z.to_nat (e - 1)) v in
                Ok (v, default a (v !! Z.to_nat (e - 1)))
            else Ok (v, c)
        end
  end.

(** The invariant of the table for the plaintext [x]: an entry below
    position [n] that has been computed holds the power of its position. *)
Definition computed_below {R : Type} `{Plaintext R} `{!Homomorphic Ctxt R}
    (x : R) (n : nat) (v : list Ctxt) : Prop :=
  forall i c, (i < n)%nat -> v !! i = Some c -> isEmpty c = false ->
              dec c = Ctxt.power x (S i).

(** The constructor [DynamicCtxtPowers(const Ctxt& c, long nPowers)]
    ([polyEval.h], outside the sources at hand): the vector [v] it builds. *)
Variable DynamicCtxtPowers : Ctxt -> Z -> list Ctxt.

(** [void Ctxt::power(long e)] *)
Definition power (c : Ctxt) (e : Z) : outcome Ctxt :=
  if e <? 1
  then Throw (InvalidArgument "Cannot raise a ctxt to a non positive exponent")
  else if e =? 1 then Ok c
  else
    let ell := NumBits e in
    if e =? Z.shiftl 1 (ell - 1)
    then Ok (Nat.iter (Z.to_nat (ell - 1)) square c)
    else
      '(_, r) ← getPower (Z.to_nat e) (DynamicCtxtPowers c e) e;
      Ok r.

End Powers.

(** Ciphertexts for examples: an integer in the clear, or no part at all. *)
Definition clear_ops : Ops (option Z) :=
  {| ZeroCtxtLike := fun _ => Some 0;
     square := fun c => Some (default 0 c * default 0 c);
     multByConstant := fun c k => Some (of_Z k * default 0 c);
     addCtxt := fun c d negative =>
       Some (if negative then default 0 c - default 0 d else default 0 c + default 0 d);
     multiplyBy := fun c d => Some (default 0 c * default 0 d);
     negate := fun c => Some (- default 0 c);
     addConstant := fun c k => Some (default 0 c + of_Z k);
     divideByP := fun c => c |}.

Definition clear_poly_ops : PolyOps (option Z) :=
  {| isEmpty := fun c => match c with None => true | Some _ => false end;
     customMultiplyBy := fun c d _ => (Some (default 0 c * default 0 d), d);
     reLinearize := fun c => c |}.

Definition clear_homomorphic : @Homomorphic (option Z) Z clear_ops Z_plaintext.
Proof.
  refine (@Build_Homomorphic (option Z) Z clear_ops Z_plaintext
            (fun c => default 0 c) _ _ _ _).
  - intros c. reflexivity.
  - intros c k. reflexivity.
  - intros c d [|]; reflexivity.
  - intros c d. reflexivity.
Defined.

Definition clear_poly_homomorphic
  : @PolyHomomorphic (option Z) Z clear_ops clear_poly_ops Z_plaintext
      clear_homomorphic.
Proof.
  refine (@Build_PolyHomomorphic (option Z) Z clear_ops clear_poly_ops Z_plaintext
            clear_homomorphic _ _ _ _ _).
  - intros c. reflexivity.
  - intros c. reflexivity.
  - intros c k. reflexivity.
  - intros c d lazy. split; reflexivity.
  - intros c. reflexivity.
Defined.

(** The vector of the constructor: [c] first, then empty ciphertexts. *)
Definition clear_powers (c : option Z) (nPowers : Z) : list (option Z) :=
  c :: replicate (Z.to_nat nPowers - 1) None.

End Powers.

(** ** Evaluation of several polynomials in one ciphertext ([polyEval.cpp]) *)

Module CustomPolyEval.
Import Err Ctxt Spacing PolyEval Powers.

(** The value at [x] of the polynomial with coefficient vector [f], in a
    plaintext ring. *)
Fixpoint value {R : Type} `{Plaintext R} (f : ZZX.t) (x : R) : R :=
  match f with
  | [] => zero
  | c :: f' => add (of_Z c) (mul x (value f' x))
  end.

Section Eval.
Context {Ctxt : Type} `{Ops Ctxt} `{PolyOps Ctxt}.
Variable DynamicCtxtPowers : Ctxt -> Z -> list Ctxt.

(** [void customPolyEvalPreprocessing(Ctxt& element,
    const std::vector<NTL::ZZX>& input, std::vector<NTL::ZZX>& output)] *)
Definition customPolyEvalPreprocessing (element : Ctxt) (input : list ZZX.t)
  : outcome (Ctxt * list ZZX.t) :=
  spacing ← getSpacing input;
  element ← Powers.power DynamicCtxtPowers element spacing;
  Ok (element, map (compress spacing) input).

(** One turn of the baby-step loop of [customPolyEvalRecursive]. *)
Definition baby_term (xExp1 : list Ctxt) (acc : outcome Ctxt) (ic : nat * Z)
  : outcome Ctxt :=
  result ← acc;
  if ic.2 =? 0 then Ok result
  else
    match xExp1 !! ic.1 with
    | None => Throw (Undefined "xExp1[index]")
    | Some tmp =>
        let tmp :=
          if ic.2 =? -1 then negate tmp
          else if ic.2 =? 1 then tmp
          else multByConstant tmp ic.2 in
        Ok (addCtxt result tmp false)
    end.

(** [void customPolyEvalRecursive(Ctxt& result,
    const std::vector<NTL::ZZ>& coeff, std::vector<Ctxt>& xExp1,
    std::vector<Ctxt>& xExp2, int m, int k, bool lazy)]: the result and
    [xExp2] as the call leaves it ([customMultiplyBy] may change its
    argument).  With [fuel] at least [m] the recursion ends; for a
    negative [m] and a non-empty [coeff] it never does. *)
Fixpoint customPolyEvalRecursive (fuel : nat) (coeff : list Z)
    (xExp1 xExp2 : list Ctxt) (m k : Z) (lazy : bool)
  : outcome (Ctxt * list Ctxt) :=
  match xExp1 with
  | [] => Throw (Undefined "xExp1[0]")
  | first :: _ =>
      let result := ZeroCtxtLike first in
      if (length coeff =? 0)%nat then Ok (result, xExp2)
      else if m =? 0 then
        result ← fold_left (baby_term xExp1) (imap (fun i c => (i, c)) coeff)
                   (Ok result);
        Ok (result, xExp2)
      else
        match fuel with
        | O => Throw Diverges
        | S fuel' =>
            let index := Z.min (k * 2 ^ (m - 1)) (Z.of_nat (length coeff)) in
            if index <? 0 then Throw (Undefined "coeff.begin() + index")
            else
              '(result, xExp2) ←
                 customPolyEvalRecursive fuel' (take (Z.to_nat index) coeff)
                   xExp1 xExp2 (m - 1) k lazy;
              '(tmp, xExp2) ←
                 customPolyEvalRecursive fuel' (drop (Z.to_nat index) coeff)
                   xExp1 xExp2 (m - 1) k lazy;
              match xExp2 !! Z.to_nat (m - 1) with
              | None => Throw (Undefined "xExp2[m - 1]")
              | Some other =>
                  let '(tmp, other) := customMultiplyBy tmp other lazy in
                  Ok (addCtxt result tmp false,
                      <[Z.to_nat (m - 1) := other]> xExp2)
              end
        end
  end.

(** [Ctxt tmp(xExp1[ind1 - 1]); tmp.customMultiplyBy(xExp1[ind2 - 1], lazy);
    xExp1.push_back(tmp);] *)
Definition push_product (xExp1 : list Ctxt) (ind1 ind2 : Z) (lazy : bool)
  : outcome (list Ctxt) :=
  if (ind1 - 1 <? 0) || (ind2 - 1 <? 0) then Throw (Undefined "xExp1[ind - 1]")
  else
    match xExp1 !! Z.to_nat (ind1 - 1), xExp1 !! Z.to_nat (ind2 - 1) with
    | Some tmp, Some other =>
        let '(tmp, other) := customMultiplyBy tmp other lazy in
        Ok (<[Z.to_nat (ind2 - 1) := other]> xExp1 ++ [tmp])
    | _, _ => Throw (Undefined "xExp1[ind - 1]")
    end.

(** The body of [for (int exp = 2; exp <= parameters.k; exp++)] in
    [customPolyEval]. *)
Definition table_step (element : Ctxt) (parameters : PS_parameters) (lazy : bool)
    (acc : outcome (list Ctxt)) (exp : Z) : outcome (list Ctxt) :=
  xExp1 ← acc;
  if odd parameters then
    if Z.rem exp 2 =? 0 then
      if isPowerOfTwo exp || (exp =? k parameters) then
        let ind1 :=
          if Z.rem exp 4 =? 0 then floorPowerOfTwo (exp - 1) else Z.quot exp 2 in
        let ind2 := exp - ind1 in
        push_product xExp1 ind1 ind2 lazy
      else Ok (xExp1 ++ [ZeroCtxtLike element])
    else
      let ind1 := floorPowerOfTwo exp in
      let ind2 := exp - ind1 in
      push_product xExp1 ind1 ind2 lazy
  else
    let ind1 := Z.quot exp 2 in
    let ind2 := exp - ind1 in
    let xExp1 := alter reLinearize (Z.to_nat (ind1 - 1)) xExp1 in
    let xExp1 := alter reLinearize (Z.to_nat (ind2 - 1)) xExp1 in
    push_product xExp1 ind1 ind2 lazy.

(** A table of baby steps for the plaintext [x]: the entries at the
    positions that [good] selects hold the powers of their positions. *)
Definition baby_table {R : Type} `{Plaintext R} `{!Homomorphic Ctxt R}
    (x : R) (good : Z -> Prop) (xExp1 : list Ctxt) : Prop :=
  forall r e, xExp1 !! r = Some e -> good (Z.of_nat (S r)) ->
              dec e = Ctxt.power x (S r).

(** The exponents whose powers the odd variant of the loop computes; the
    other entries of its table are zero ciphertexts. *)
Definition odd_exponent (k e : Z) : Prop :=
  Z.odd e = true \/ isPowerOfTwo e = true \/ e = k.

(** [xExp1.back().reLinearize()] *)
Definition relinearize_back (xExp1 : list Ctxt) : list Ctxt :=
  alter reLinearize (length xExp1 - 1)%nat xExp1.

(** The body of [for (int exp = 1; exp < parameters.m; exp++)]. *)
Definition giant_table_step (xExp2 : list Ctxt) (exp : Z) : list Ctxt :=
  match last xExp2 with
  | Some tmp => xExp2 ++ [multiplyBy tmp tmp]
  | None => xExp2
  end.

(** The body of [for (NTL::ZZX polynomial : new_polynomials)]: [result]
    so far and [xExp2]. *)
Definition evaluate_one (xExp1 : list Ctxt) (parameters : PS_parameters)
    (lazy : bool) (acc : outcome (list Ctxt * list Ctxt)) (polynomial : ZZX.t)
  : outcome (list Ctxt * list Ctxt) :=
  '(result, xExp2) ← acc;
  let coeff_list :=
    map (fun exp => ZZX.coeff polynomial (Z.to_nat exp))
        (seqZ 0 (ZZX.deg polynomial + 1)) in
  match coeff_list with
  | [] => Throw (Undefined "coeff_list.begin() + 1")
  | c0 :: rest =>
      '(back, xExp2) ←
         customPolyEvalRecursive (Z.to_nat (m parameters)) rest xExp1 xExp2
           (m parameters) (k parameters) lazy;
      let back := if negb (c0 =? 0) then addConstant back c0 else back in
      Ok (result ++ [reLinearize back], xExp2)
  end.

(** [void customPolyEval(std::vector<Ctxt>& result,
    const std::vector<NTL::ZZX>& polynomials, const Ctxt& element,
    bool lazy)] *)
Definition customPolyEval (polynomials : list ZZX.t) (element : Ctxt) (lazy : bool)
  : outcome (list Ctxt) :=
  assertTrue LogicError
    (forallb (fun f => negb (ZZX.deg f =? -1) && negb (ZZX.deg f =? 0)) polynomials)
    "Degree should be positive.";;
  '(new_element, new_polynomials) ← customPolyEvalPreprocessing element polynomials;
  parameters ← getBestParameters new_polynomials lazy;
  xExp1 ← fold_left (table_step element parameters lazy)
            (seqZ 2 (k parameters - 1)) (Ok [new_element]);
  let xExp1 := if negb (m parameters =? 0) then relinearize_back xExp1 else xExp1 in
  match last xExp1 with
  | None => Throw (Undefined "xExp1.back()")
  | Some back =>
      let xExp2 := fold_left giant_table_step (seqZ 1 (m parameters - 1)) [back] in
      '(result, _) ← fold_left (evaluate_one xExp1 parameters lazy) new_polynomials
                       (Ok ([], xExp2));
      Ok result
  end.

End Eval.

End CustomPolyEval.

(** ** What the trapezoid computes ([recryption.cpp]) *)

Module Trapezoid.
Import Err Ctxt RowComputation DigitExtract.

(** Plaintexts as residues.  A ciphertext has a plaintext space
    [p^(space c)] (the field [ptxtSpace] of [Ctxt.h]) and a plaintext
    [plain c], a residue modulo that space (one slot of it).  The
    arithmetic acts modulo the plaintext space, on ciphertexts of one
    plaintext space.  [divideByP] is for a plaintext space [p^r] with
    [r > 1] and a plaintext that is zero modulo [p]: it divides the
    plaintext and lowers the plaintext space to [p^(r-1)]; nothing is
    known of it otherwise. *)
Class Residues (p : Z) (Ctxt : Type) `{Ops Ctxt} : Type := {
  space : Ctxt -> Z;
  plain : Ctxt -> Z;
  plain_range : forall c, 0 <= plain c < p ^ space c;
  space_square : forall c, space (square c) = space c;
  plain_square : forall c, plain (square c) = (plain c * plain c) mod p ^ space c;
  space_multByConstant : forall c k, space (multByConstant c k) = space c;
  plain_multByConstant : forall c k,
      plain (multByConstant c k) = (k * plain c) mod p ^ space c;
  space_addCtxt : forall c d negative,
      space c = space d -> space (addCtxt c d negative) = space c;
  plain_addCtxt : forall c d negative,
      space c = space d ->
      plain (addCtxt c d negative)
      = (if negative then plain c - plain d else plain c + plain d) mod p ^ space c;
  space_multiplyBy : forall c d,
      space c = space d -> space (multiplyBy c d) = space c;
  plain_multiplyBy : forall c d,
      space c = space d ->
      plain (multiplyBy c d) = (plain c * plain d) mod p ^ space c;
  space_negate : forall c, space (negate c) = space c;
  plain_negate : forall c, plain (negate c) = (- plain c) mod p ^ space c;
  space_addConstant : forall c k, space (addConstant c k) = space c;
  plain_addConstant : forall c k,
      plain (addConstant c k) = (plain c + k) mod p ^ space c;
  space_divideByP : forall c,
      2 <= space c -> (p | plain c) -> space (divideByP c) = space c - 1;
  plain_divideByP : forall c,
      2 <= space c -> (p | plain c) -> plain (divideByP c) = plain c / p
}.

(** The ciphertext [c] has the plaintext space [p^s] and its plaintext is
    the residue of the integer [v]. *)
Definition residue_of {Ctxt : Type} `{Ops Ctxt} (p : Z) `{!Residues p Ctxt}
    (s : Z) (c : Ctxt) (v : Z) : Prop :=
  space c = s /\ plain c = v mod p ^ s.

(** Noise-free ciphertexts for examples: a value and the exponent of the
    plaintext space. *)
Record residue : Type := mkResidue {
  value : Z;
  exponent : nat
}.

Definition modulus (p : Z) (c : residue) : Z := p ^ Z.of_nat (exponent c).

Definition residue_ops (p : Z) : Ops residue :=
  {| ZeroCtxtLike := fun c => mkResidue 0 (exponent c);
     square := fun c => mkResidue ((value c * value c) mod modulus p c) (exponent c);
     multByConstant := fun c k =>
       mkResidue ((k * value c) mod modulus p c) (exponent c);
     addCtxt := fun c d negative =>
       let e := Nat.min (exponent c) (exponent d) in
       mkResidue ((if negative then value c - value d else value c + value d)
                    mod p ^ Z.of_nat e) e;
     multiplyBy := fun c d =>
       let e := Nat.min (exponent c) (exponent d) in
       mkResidue ((value c * value d) mod p ^ Z.of_nat e) e;
     negate := fun c => mkResidue ((- value c) mod modulus p c) (exponent c);
     addConstant := fun c k => mkResidue ((value c + k) mod modulus p c) (exponent c);
     divideByP := fun c =>
       mkResidue ((value c mod modulus p c) / p) (Nat.pred (exponent c)) |}.

Definition residue_laws (p : Z) (Hp : (2 <=? p) = true)
  : @Residues p residue (residue_ops p).
Proof.
  assert (Hp2 : 2 <= p) by (apply Z.leb_le; exact Hp).
  assert (Hpos : forall n : nat, 0 < p ^ Z.of_nat n)
    by (intros n; apply Z.pow_pos_nonneg; lia).
  refine (@Build_Residues p residue (residue_ops p)
            (fun c => Z.of_nat (exponent c))
            (fun c => value c mod modulus p c)
            _ _ _ _ _ _ _ _ _ _ _ _ _ _ _);
    unfold modulus; cbn [square multByConstant addCtxt multiplyBy negate addConstant
                         divideByP residue_ops value exponent].
  - intros c. apply Z.mod_pos_bound. apply Hpos.
  - reflexivity.
  - intros c. pose proof (Hpos (exponent c)).
    rewrite Z.mod_mod by lia. rewrite <- Z.mul_mod by lia. reflexivity.
  - reflexivity.
  - intros c k. pose proof (Hpos (exponent c)).
    rewrite Z.mod_mod by lia. rewrite Z.mul_mod_idemp_r by lia. reflexivity.
  - intros c d negative He. f_equal. lia.
  - intros c d negative He.
    assert (Hd : exponent d = exponent c) by lia. rewrite Hd, Nat.min_id.
    pose proof (Hpos (exponent c)).
    rewrite Z.mod_mod by lia.
    destruct negative; [rewrite <- Zminus_mod | rewrite <- Z.add_mod by lia];
      reflexivity.
  - intros c d He. f_equal. lia.
  - intros c d He.
    assert (Hd : exponent d = exponent c) by lia. rewrite Hd, Nat.min_id.
    pose proof (Hpos (exponent c)).
    rewrite Z.mod_mod by lia. rewrite <- Z.mul_mod by lia. reflexivity.
  - reflexivity.
  - intros c. pose proof (Hpos (exponent c)).
    rewrite Z.mod_mod by lia.
    rewrite <- (Z.sub_0_l (value c mod _)), Zminus_mod_idemp_r. reflexivity.
  - reflexivity.
  - intros c k. pose proof (Hpos (exponent c)).
    rewrite Z.mod_mod by lia. rewrite Z.add_mod_idemp_l by lia. reflexivity.
  - intros c He _. lia.
  - intros c He _.
    assert (Hsplit : p ^ Z.of_nat (exponent c)
                     = p * p ^ Z.of_nat (Nat.pred (exponent c))).
    { rewrite <- (Z.pow_1_r p) at 2. rewrite <- Z.pow_add_r by lia.
      f_equal. lia. }
    pose proof (Hpos (Nat.pred (exponent c))) as Hq.
    pose proof (Z.mod_pos_bound (value c) (p ^ Z.of_nat (exponent c))
                  (Hpos (exponent c))) as Hv.
    apply Z.mod_small. split.
    + apply Z.div_pos; lia.
    + apply Z.div_lt_upper_bound; lia.
Defined.

(** Removing the lowest [n] digits of [z] in base [p], where [digit]
    chooses the representative of a residue modulo [p] that counts as the
    digit: [z], [(z - d0) / p], ... *)
Fixpoint remove_digits (p : Z) (digit : Z -> Z) (z : Z) (n : nat) : Z :=
  match n with
  | O => z
  | S n' =>
      let q := remove_digits p digit z n' in
      (q - digit (q mod p)) / p
  end.

(** A composition for examples with [residue]s as ciphertexts: it pushes
    the lowest digit itself, which is right to every precision. *)
Definition exact_composition (p : Z) (digit : Z -> Z) : composition residue :=
  fun ctxt ctxtEval _ rowSize _ _ =>
    Ok (ctxtEval
        ++ [(mkResidue (digit ((value ctxt mod modulus p ctxt) mod p)
                          mod modulus p ctxt) (exponent ctxt), rowSize)]).

(** The balanced digits in base 3: 0, 1 and -1. *)
Definition balanced3 (a : Z) : Z := if a =? 2 then -1 else a.

Section Invariant.
Context {Ctxt : Type} `{Ops Ctxt}.
Variable p : Z.
Context `{!Residues p Ctxt}.
Variable digit : Z -> Z.

(** The pair [(c, e)] holds the integer [v] to the precision [e] it is
    tagged with, as far as the plaintext space of [c] goes: the plaintext
    of [c] is [v] modulo [p^min(e, space c)]. *)
Definition holds (v : Z) (ce : Ctxt * Z) : Prop :=
  0 <= ce.2
  /\ plain ce.1 mod p ^ Z.min ce.2 (space ce.1) = v mod p ^ Z.min ce.2 (space ce.1).

(** The results of a row computation on [c] lift the lowest digit of its
    plaintext: each has the plaintext space of [c] and holds that digit to
    its precision, which is at least 1, and the last has precision at
    least [rowSize]. *)
Definition lifts_digit (c : Ctxt) (rowSize : Z) (ctxtEval : Eval Ctxt) : Prop :=
  Forall (fun ce : Ctxt * Z =>
            space ce.1 = space c /\ 1 <= ce.2
            /\ holds (digit (plain c mod p)) ce) ctxtEval
  /\ exists cl el, last ctxtEval = Some (cl, el) /\ rowSize <= el.

(** The rows during the loop over [nextRow] of row [row], when the rows
    below [next] have been updated: an updated row [j] has the plaintext
    space [p^(botHigh + r - row - 1)] and holds [z] without its [row + 1]
    lowest digits to at least [j - row] digits, and a row not yet updated
    has the plaintext space [p^(botHigh + r - row)] and holds [z] without
    its [row] lowest digits to at least [j - row + 1] digits. *)
Definition rows_between (z : Z) (botHigh r row next : Z)
    (ctxtRows : list (Ctxt * Z)) : Prop :=
  Z.of_nat (length ctxtRows) = botHigh
  /\ forall (j : nat) ce, ctxtRows !! j = Some ce ->
       (row < Z.of_nat j < next ->
        space ce.1 = botHigh + r - row - 1
        /\ holds (remove_digits p digit z (Z.to_nat (row + 1))) ce
        /\ Z.of_nat j - row <= ce.2)
       /\ (next <= Z.of_nat j ->
           space ce.1 = botHigh + r - row
           /\ holds (remove_digits p digit z (Z.to_nat row)) ce
           /\ Z.of_nat j - row + 1 <= ce.2).

(** The state at the head of the loop over [row]: the rows from [row] on
    and [ctxt] have the plaintext space [p^(botHigh + r - row)] and hold
    [z] without its [row] lowest digits, row [j] to at least [j - row + 1]
    digits and [ctxt] to all its digits. *)
Definition rows_ready (z : Z) (botHigh r row : Z) (st : Ctxt * list (Ctxt * Z))
  : Prop :=
  space st.1 = botHigh + r - row
  /\ holds (remove_digits p digit z (Z.to_nat row)) (st.1, botHigh + r - row)
  /\ Z.of_nat (length st.2) = botHigh
  /\ forall (j : nat) ce, st.2 !! j = Some ce -> row <= Z.of_nat j ->
       space ce.1 = botHigh + r - row
       /\ holds (remove_digits p digit z (Z.to_nat row)) ce
       /\ Z.of_nat j - row + 1 <= ce.2.

End Invariant.

End Trapezoid.

(** * Properties *)

(** ** Rounding of idealised doubles *)

Module DoubleFacts.
Import Double.

(** The floor of a rational strictly between two neighbouring integers. *)
Lemma Qfloor_between (x : Q) (n : Z) :
  (inject_Z n <= x)%Q -> (x < inject_Z (n + 1))%Q -> Qfloor x = n.
Proof.
  intros Hlo Hhi.
  apply Qfloor_resp_le in Hlo. rewrite Qfloor_Z in Hlo.
  pose proof (Qfloor_le x) as Hfl.
  assert (Hlt : (inject_Z (Qfloor x) < inject_Z (n + 1))%Q)
    by (eapply Qle_lt_trans; eauto).
  rewrite <- Zlt_Qlt in Hlt. lia.
Qed.

Lemma lround_inject_Z (n : Z) : lround (inject_Z n) = n.
Proof.
  unfold lround.
  destruct (Qle_bool 0 (inject_Z n)) eqn:Hs.
  - apply Qfloor_between.
    + rewrite <- (Qplus_0_r (inject_Z n)) at 1.
      apply Qplus_le_r. discriminate.
    + rewrite inject_Z_plus. apply Qplus_lt_r. reflexivity.
  - assert (Qfloor (- inject_Z n + (1 # 2)) = - n) as ->; [|lia].
    apply Qfloor_between.
    + rewrite inject_Z_opp. rewrite <- (Qplus_0_r (- inject_Z n)) at 1.
      apply Qplus_le_r. discriminate.
    + rewrite inject_Z_plus, inject_Z_opp. apply Qplus_lt_r. reflexivity.
Qed.


(** [pow(b, e)] of integers with [e >= 0] is the integer power. *)
Lemma pow_inject_Z (b e : Z) : 0 <= e -> (pow b e == inject_Z (b ^ e))%Q.
Proof. intros He. unfold pow. symmetry. apply Zpower_Qpower. exact He. Qed.

End DoubleFacts.

(** ** Products of secret-key handles *)

Module SKHandleFacts.
Import SKHandle.

Lemma isOne_false (h : t) : isOne h = false <-> powerOfS h <> 0.
Proof. unfold isOne. rewrite Z.eqb_neq. reflexivity. Qed.

(** Two handles none of which is "one": the product is an error as soon as
    the powers of X or the key ids differ (or a key id is the error
    sentinel): the call returns false and leaves key id -1. *)
Lemma mul_mismatch (this a b : t) :
  isOne a = false -> isOne b = false ->
  powerOfX a <> powerOfX b \/ secretKeyID a <> secretKeyID b
  \/ secretKeyID a = -1 ->
  mul this a b = (set_secretKeyID this (-1), false).
Proof.
  intros Ha Hb Hbad. unfold mul. rewrite Ha, Hb.
  destruct (secretKeyID a =? -1) eqn:Ea; [reflexivity|].
  destruct (secretKeyID b =? -1) eqn:Eb; [reflexivity|]. cbn [orb].
  destruct (secretKeyID a =? secretKeyID b) eqn:Eab; [|reflexivity]. cbn [negb].
  destruct (powerOfX a =? powerOfX b) eqn:Ex; [|reflexivity].
  exfalso. lia.
Qed.

Lemma mul_match (this a b : t) :
  isOne a = false -> isOne b = false ->
  powerOfX a = powerOfX b -> secretKeyID a = secretKeyID b ->
  secretKeyID a <> -1 ->
  mul this a b = (mk (powerOfS a + powerOfS b) (powerOfX a) (secretKeyID a), true).
Proof.
  intros Ha Hb Hx Hk Hne. unfold mul. rewrite Ha, Hb.
  rewrite <- Hk, <- Hx, !Z.eqb_refl.
  destruct (secretKeyID a =? -1) eqn:Ea; [lia|]. reflexivity.
Qed.

(** C8, as the code has it.  If one input is "one" the product is the other
    input, whatever its power of X and key id, and the call succeeds when
    that input's key id is not negative.  If neither is "one" the product
    is [(a + a', t, k)] exactly when the powers of X and the key ids agree
    and the key id is not the sentinel -1; in every other case the call
    returns false and sets the key id of the receiver to -1. *)
Theorem mul_cases (this a b : t) :
  (isOne a = true -> mul this a b = (b, 0 <=? secretKeyID b))
  /\ (isOne a = false -> isOne b = true -> mul this a b = (a, 0 <=? secretKeyID a))
  /\ (isOne a = false -> isOne b = false ->
      (powerOfX a = powerOfX b /\ secretKeyID a = secretKeyID b
       /\ secretKeyID a <> -1 ->
       mul this a b
       = (mk (powerOfS a + powerOfS b) (powerOfX a) (secretKeyID a), true))
      /\ (~ (powerOfX a = powerOfX b /\ secretKeyID a = secretKeyID b
             /\ secretKeyID a <> -1) ->
          (mul this a b).2 = false /\ secretKeyID (mul this a b).1 = -1
          /\ powerOfS (mul this a b).1 = powerOfS this
          /\ powerOfX (mul this a b).1 = powerOfX this)).
Proof.
  split; [|split].
  - intros Ha. unfold mul. rewrite Ha. reflexivity.
  - intros Ha Hb. unfold mul. rewrite Ha, Hb. reflexivity.
  - intros Ha Hb. split.
    + intros (Hx & Hk & Hne). apply mul_match; assumption.
    + intros Hno. rewrite mul_mismatch; [cbn; auto | assumption | assumption |].
      destruct (Z.eq_dec (powerOfX a) (powerOfX b)); [|auto].
      destruct (Z.eq_dec (secretKeyID a) (secretKeyID b)); [|auto].
      destruct (Z.eq_dec (secretKeyID a) (-1)); [auto|].
      exfalso. apply Hno. auto.
Qed.

(** The third case at two base handles of key 0 and of the powers 1 and 2. *)
Lemma mul_cases_witness :
  mul (mk 0 1 0) (mk 1 5 0) (mk 2 5 0) = (mk 3 5 0, true).
Proof.
  apply (proj1 (proj2 (proj2 (mul_cases (mk 0 1 0) (mk 1 5 0) (mk 2 5 0)))
                  eq_refl eq_refl)).
  cbn. repeat split; lia.
Defined.

(** C8 as stated fails: the product of the handle "one" (power of X 1)
    and a handle with power of X 3 succeeds, although the powers of X
    differ. *)
Lemma mul_one_ignores_mismatch :
  mul (mk 0 1 0) (mk 0 1 0) (mk 1 3 0) = (mk 1 3 0, true)
  /\ powerOfX (mk 0 1 0) <> powerOfX (mk 1 3 0)
  /\ ~ mul_as_claimed (mk 0 1 0) (mk 0 1 0) (mk 1 3 0).
Proof.
  split; [reflexivity|]. split; [cbn; lia|].
  unfold mul_as_claimed. cbn. intros [_ Herr].
  destruct Herr as [Hfalse _]; [lia | discriminate Hfalse].
Qed.

End SKHandleFacts.

(** ** Rounding to multiples of [p^e'] ([newMakeDivisible]) *)

Module MakeDivisibleFacts.
Import Err MakeDivisible.

Lemma round_coeff_rounded (p p2e q : Z) (rnd : coins) (z : Z) (pos : nat) :
  2 <= p2e -> 0 < q -> q mod p2e = 1 -> (p = 2 -> p2e mod 2 = 0) ->
  exists z' v pos',
    round_coeff p p2e q rnd z pos = Some (z', v, pos')
    /\ rounded p p2e q z z' v
    /\ (p <> 2 -> pos' = pos)
    /\ (pos <= pos')%nat.
Proof.
  intros Hp2e Hq Hq1 Heven.
  unfold round_coeff.
  rewrite (Z.quot_div_nonneg p2e 2) by lia.
  set (zMod := z mod p2e).
  assert (HzMod : 0 <= zMod < p2e) by (apply Z.mod_pos_bound; lia).
  assert (Hz : z = p2e * (z / p2e) + zMod) by (apply Z.div_mod; lia).
  assert (Hqk : q = p2e * (q / p2e) + 1) by (rewrite <- Hq1; apply Z.div_mod; lia).
  (* the choice between rounding up and rounding down *)
  assert (Hchoice :
    exists up pos',
      (if p2e / 2 <? zMod then (true, pos)
       else if (p =? 2) && (zMod =? p2e / 2) then (rnd pos, S pos)
            else (false, pos)) = (up, pos')
      /\ (up = true -> p2e / 2 < zMod \/ (p = 2 /\ zMod = p2e / 2 /\ p2e mod 2 = 0))
      /\ (up = false -> zMod <= p2e / 2)
      /\ (up = (p2e / 2 <? zMod) \/ (p = 2 /\ zMod = p2e / 2 /\ p2e mod 2 = 0))
      /\ (p <> 2 -> pos' = pos) /\ (pos <= pos')%nat).
  { destruct (p2e / 2 <? zMod) eqn:E1.
    - exists true, pos. repeat split; auto; try lia; try discriminate.
    - destruct (p =? 2) eqn:E2; cbn [andb].
      + destruct (zMod =? p2e / 2) eqn:E3.
        * exists (rnd pos), (S pos).
          assert (p = 2) by lia. assert (zMod = p2e / 2) by lia.
          repeat split; auto; try lia; try discriminate.
        * exists false, pos. repeat split; auto; try lia; try discriminate.
      + exists false, pos. repeat split; auto; try lia; try discriminate. }
  destruct Hchoice as (up & pos' & -> & Hup & Hdown & Hdet & Hpos & Hle).
  set (v := if up then p2e - zMod else - zMod).
  assert (Hdiv : (p2e | z + q * v)).
  { destruct up; subst v.
    - exists (z / p2e + (q / p2e) * (p2e - zMod) + 1).
      rewrite Hz at 1. rewrite Hqk at 1. ring.
    - exists (z / p2e + (q / p2e) * (- zMod)).
      rewrite Hz at 1. rewrite Hqk at 1. ring. }
  assert (Hmod0 : (z + q * v) mod p2e = 0)
    by (apply Z.mod_divide; [lia | exact Hdiv]).
  rewrite Hmod0. cbn [Z.eqb negb].
  exists (z + q * v), v, pos'. split; [reflexivity|].
  split; [|split; assumption].
  assert (Hhalf : p2e = 2 * (p2e / 2) + p2e mod 2) by (apply Z.div_mod; lia).
  assert (Hm2 : 0 <= p2e mod 2 < 2) by (apply Z.mod_pos_bound; lia).
  unfold rounded. split; [ring|]. split; [|split; [exact Hdiv|split]].
  - destruct up; subst v.
    + destruct (Hup eq_refl) as [Hgt | (_ & Heq & Hev)]; lia.
    + specialize (Hdown eq_refl). lia.
  - destruct up; subst v.
    + exists (z / p2e + 1). rewrite Hz at 1. ring.
    + exists (z / p2e). rewrite Hz at 1. ring.
  - unfold nearest_offset. fold zMod.
    destruct Hdet as [-> | (Hp & Heq & Hev)].
    + left. subst v. reflexivity.
    + destruct up; subst v.
      * right. repeat split; lia.
      * left. destruct (p2e / 2 <? zMod) eqn:E; [lia | reflexivity].
Qed.

Lemma round_all_rounded (p p2e q : Z) (rnd : coins) (pwrfl : list Z) (pos : nat) :
  2 <= p2e -> 0 < q -> q mod p2e = 1 -> (p = 2 -> p2e mod 2 = 0) ->
  exists pwrfl' vvec pos',
    round_all p p2e q rnd pwrfl pos = Some (pwrfl', vvec, pos')
    /\ Forall3 (rounded p p2e q) pwrfl pwrfl' vvec
    /\ (p <> 2 -> pos' = pos).
Proof.
  intros Hp2e Hq Hq1 Heven. revert pos.
  induction pwrfl as [|z rest IH]; intros pos.
  - exists [], [], pos. repeat split. constructor.
  - destruct (round_coeff_rounded p p2e q rnd z pos Hp2e Hq Hq1 Heven)
      as (z' & v & pos1 & Hstep & Hr & Hpos1 & _).
    destruct (IH pos1) as (zs & vs & pos2 & Hrest & Hall & Hpos2).
    exists (z' :: zs), (v :: vs), pos2.
    cbn [round_all]. rewrite Hstep, Hrest.
    split; [reflexivity|]. split.
    + constructor; assumption.
    + intros Hne. rewrite Hpos2, Hpos1 by assumption. reflexivity.
Qed.

(** A power of two above 1 is even. *)
Lemma power_of_two_even (e' : Z) : 0 <= e' -> 2 <= 2 ^ e' -> (2 ^ e') mod 2 = 0.
Proof.
  intros He Hge.
  assert (e' <> 0) by (intros ->; cbn in Hge; lia).
  replace e' with (1 + (e' - 1)) by lia.
  rewrite Z.pow_add_r by lia.
  rewrite Z.mul_comm. apply Z.mod_mul. lia.
Qed.

(** One turn of the loop and the coins: a coin is drawn exactly on a tie,
    and it decides the multiple. *)
Lemma round_coeff_coin (p p2e q : Z) (rnd : coins) (z : Z) (pos : nat)
    (z' v : Z) (pos' : nat) :
  2 <= p2e -> (p = 2 -> p2e mod 2 = 0) ->
  round_coeff p p2e q rnd z pos = Some (z', v, pos') ->
  pos' = (pos + (if tie p p2e z then 1 else 0))%nat
  /\ v = offset_with_coin p p2e rnd pos z.
Proof.
  intros Hp2e Heven. unfold round_coeff, offset_with_coin, tie, nearest_offset.
  rewrite (Z.quot_div_nonneg p2e 2) by lia.
  set (zMod := z mod p2e).
  assert (Hhalf : p2e = 2 * (p2e / 2) + p2e mod 2) by (apply Z.div_mod; lia).
  destruct (p2e / 2 <? zMod) eqn:E1.
  - assert (E3 : (zMod =? p2e / 2) = false) by lia.
    rewrite E3, andb_false_r.
    destruct (negb _); [discriminate|]. intros [= <- <- <-].
    split; [lia | reflexivity].
  - destruct ((p =? 2) && (zMod =? p2e / 2)) eqn:E2.
    + apply andb_true_iff in E2 as [Ep Ez].
      assert (Hp : p = 2) by lia. assert (Hz : zMod = p2e / 2) by lia.
      specialize (Heven Hp).
      destruct (negb _); [discriminate|]. intros [= <- <- <-].
      split; [lia|]. destruct (rnd pos); lia.
    + destruct (negb _); [discriminate|]. intros [= <- <- <-].
      split; [lia | reflexivity].
Qed.

(** The loop and the coins: the coins are drawn in the order of the
    coefficients, one for each tie. *)
Lemma round_all_coins (p p2e q : Z) (rnd : coins) (pwrfl : list Z) :
  2 <= p2e -> (p = 2 -> p2e mod 2 = 0) ->
  forall (pos : nat) (pwrfl' vvec : list Z) (pos' : nat),
    round_all p p2e q rnd pwrfl pos = Some (pwrfl', vvec, pos') ->
    pos' = (pos + ties p p2e pwrfl)%nat
    /\ forall (i : nat) (z v : Z),
         pwrfl !! i = Some z -> vvec !! i = Some v ->
         v = offset_with_coin p p2e rnd (pos + ties p p2e (take i pwrfl)) z.
Proof.
  intros Hp2e Heven.
  induction pwrfl as [|z0 rest IH]; intros pos pwrfl' vvec pos' Hrun.
  - cbn in Hrun. injection Hrun as <- <- <-.
    split; [cbn; lia|]. intros i z v Hz. rewrite lookup_nil in Hz. discriminate.
  - cbn [round_all] in Hrun.
    destruct (round_coeff p p2e q rnd z0 pos) as [[[z0' v0] pos1]|] eqn:E0;
      [|discriminate].
    destruct (round_all p p2e q rnd rest pos1) as [[[zs vs] pos2]|] eqn:E1;
      [|discriminate].
    injection Hrun as <- <- <-.
    destruct (round_coeff_coin _ _ _ _ _ _ _ _ _ Hp2e Heven E0) as [Hpos1 Hv0].
    destruct (IH pos1 zs vs pos2 E1) as [Hpos2 Hrest].
    assert (Hties : forall l, ties p p2e (z0 :: l)
                              = ((if tie p p2e z0 then 1 else 0) + ties p p2e l)%nat).
    { intros l. unfold ties. cbn [List.filter].
      destruct (tie p p2e z0); reflexivity. }
    split.
    + rewrite Hties. lia.
    + intros [|i] z v Hz Hv.
      * cbn in Hz, Hv. injection Hz as <-. injection Hv as <-.
        cbn [take]. unfold ties. cbn [List.filter length].
        rewrite Nat.add_0_r. exact Hv0.
      * cbn in Hz, Hv. cbn [take]. rewrite Hties.
        rewrite (Hrest i z v Hz Hv). f_equal. lia.
Qed.

Section WithConversion.
Context `{PowerfulDCRT}.

(** C3.  For [p2e = p^e' >= 1] and [q > 0] with [q = 1 (mod p2e)] the call
    ends normally.  For [p2e = 1] the polynomial is unchanged (and no coin is
    drawn).  Otherwise the result is the polynomial of the rounded
    powerful-basis vector, in which every coefficient [z] became
    [z' = z + v*q] with [|v| <= p2e/2], [z'] a multiple of [p2e] and [z + v]
    the multiple of [p2e] nearest to [z].  The multiple [v] is the offset to
    the nearest multiple, except on a tie ([p = 2] and a remainder of
    [p2e / 2]): there the next coin of the stream decides between [p2e / 2]
    and [- (p2e / 2)].  The coins are drawn in the order of the coefficients,
    one for each tie and none otherwise, so the call leaves the stream
    advanced by the number of ties; for [p <> 2] it draws none. *)
Theorem newMakeDivisible_rounds (debug : bool) (poly vpoly : ZZX.t)
    (p e' p2e q : Z) (rnd : coins) (pos : nat) :
  2 <= p -> 0 <= e' -> p2e = p ^ e' -> 0 < q -> q mod p2e = 1 mod p2e ->
  exists r,
    newMakeDivisible debug poly p2e q p vpoly rnd pos = Ok r
    /\ (p2e = 1 -> res_poly r = poly /\ res_vpoly r = [] /\ res_pos r = pos)
    /\ (p2e <> 1 ->
        res_poly r = powerfulToZZX (res_pwrfl r)
        /\ Forall3 (rounded p p2e q) (ZZXtoPowerful poly) (res_pwrfl r) (res_vvec r)
        /\ (forall (i : nat) (z v : Z),
              ZZXtoPowerful poly !! i = Some z -> res_vvec r !! i = Some v ->
              v = offset_with_coin p p2e rnd
                    (pos + ties p p2e (take i (ZZXtoPowerful poly))) z)
        /\ res_pos r = (pos + ties p p2e (ZZXtoPowerful poly))%nat
        /\ (p <> 2 -> res_pos r = pos)).
Proof.
  intros Hp He' Hp2e Hq Hq1.
  assert (Hpos : 1 <= p2e)
    by (subst p2e; pose proof (Z.pow_pos_nonneg p e'); lia).
  unfold newMakeDivisible.
  destruct (p2e =? 1) eqn:E1.
  - eexists. split; [reflexivity|]. cbn. split; [auto | lia].
  - assert (Hge : 2 <= p2e) by lia.
    rewrite (Z.mod_small 1 p2e) in Hq1 by lia.
    assert (Heven : p = 2 -> p2e mod 2 = 0).
    { intros ->. subst p2e. apply power_of_two_even; assumption. }
    destruct (round_all_rounded p p2e q rnd (ZZXtoPowerful poly) pos
                Hge Hq Hq1 Heven) as (pw & vv & pos' & Hall & HF & Hp').
    destruct (round_all_coins p p2e q rnd (ZZXtoPowerful poly) Hge Heven
                pos pw vv pos' Hall) as [Hadv Hcoins].
    assert (Hq' : (0 <? q) = true) by lia.
    assert (Hp2e' : (0 <? p2e) = true) by lia.
    assert (Hrem : (Z.rem q p2e =? 1) = true)
      by (rewrite Z.rem_mod_nonneg by lia; lia).
    rewrite Hq', Hp2e', Hrem. cbn [assertTrue mbind outcome_bind].
    rewrite Hall.
    eexists. split; [reflexivity|]. cbn [res_poly res_vpoly res_pwrfl res_vvec res_pos].
    split; [lia|]. intros _. auto 6.
Qed.

End WithConversion.

(** C3 at [p = 2], [p2e = 4], [q = 33] and the coefficients 5, 6, -3, 2:
    the second and the last are ties, decided by the first two coins. *)
Lemma newMakeDivisible_rounds_witness :
  exists r,
    @newMakeDivisible identity_conversion false [5; 6; -3; 2] 4 33 2 []
      alternating 0 = Ok r
    /\ (4 = 1 -> res_poly r = [5; 6; -3; 2] /\ res_vpoly r = [] /\ res_pos r = 0%nat)
    /\ (4 <> 1 ->
        res_poly r = res_pwrfl r
        /\ Forall3 (rounded 2 4 33) [5; 6; -3; 2] (res_pwrfl r) (res_vvec r)
        /\ (forall (i : nat) (z v : Z),
              [5; 6; -3; 2] !! i = Some z -> res_vvec r !! i = Some v ->
              v = offset_with_coin 2 4 alternating
                    (Nat.add 0 (ties 2 4 (take i [5; 6; -3; 2]))) z)
        /\ res_pos r = Nat.add 0 (ties 2 4 [5; 6; -3; 2])
        /\ (2 <> 2 -> res_pos r = 0%nat)).
Proof.
  apply (@newMakeDivisible_rounds identity_conversion false [5; 6; -3; 2] []
           2 2 4 33 alternating 0%nat); [lia | lia | reflexivity | lia | reflexivity].
Defined.

(** The two ties of the example go up and down, as the coins fall. *)
Example newMakeDivisible_example :
  @newMakeDivisible identity_conversion false [5; 6; -3; 2] 4 33 2 []
    alternating 0
  = Ok (mkResult [-28; 72; -36; -64] [] [-28; 72; -36; -64] [-1; 2; -1; -2] 2).
Proof. reflexivity. Qed.

End MakeDivisibleFacts.

(** ** The hard-coded cascade of the row computation *)

Module RowComputationFacts.
Import Err Ctxt RowComputation.

Section Cascade.
Context {C R : Type} `{Homomorphic C R}.

Add Ring plaintext_ring_inst : plaintext_ring.

(** Updates and reads behind a prefix [ev] of known length fall into the
    part appended by the running call. *)
Lemma update_ctxt_app (ev tl : Eval C) (i : nat) (f : C -> C) :
  update_ctxt (ev ++ tl) (length ev + i) f = ev ++ update_ctxt tl i f.
Proof. unfold update_ctxt. apply alter_app_r. Qed.

Lemma ctxt_at_app (d : C) (ev tl : Eval C) (i : nat) :
  ctxt_at d (ev ++ tl) (length ev + i) = ctxt_at d tl i.
Proof.
  unfold ctxt_at. f_equal.
  rewrite (lookup_app_r ev tl) by lia. f_equal. lia.
Qed.

Ltac norm_block :=
  cbv zeta;
  repeat (rewrite <- ?app_assoc; cbn [app];
          rewrite ?update_ctxt_app, ?ctxt_at_app;
          cbn [update_ctxt ctxt_at alter list_alter lookup list_lookup
               from_option fst snd]).

Lemma block_f2_skip (x : C) (n : nat) (rs : Z) (ev : Eval C) :
  rs < 2 -> block_f2 x n rs ev = ev.
Proof. intros Hrs. unfold block_f2. destruct (2 <=? rs) eqn:E; [lia|reflexivity]. Qed.

Lemma block_f4_skip (d : C) (n : nat) (rs : Z) (ev : Eval C) :
  rs < 3 -> block_f4 d n rs ev = ev.
Proof. intros Hrs. unfold block_f4. destruct (3 <=? rs) eqn:E; [lia|reflexivity]. Qed.

Lemma block_f8_skip (d : C) (n : nat) (rs : Z) (ev : Eval C) :
  rs < 5 -> block_f8 d n rs ev = ev.
Proof. intros Hrs. unfold block_f8. destruct (5 <=? rs) eqn:E; [lia|reflexivity]. Qed.

Lemma block_f16_skip (d : C) (n : nat) (rs : Z) (ev : Eval C) :
  rs < 9 -> block_f16 d n rs ev = ev.
Proof. intros Hrs. unfold block_f16. destruct (9 <=? rs) eqn:E; [lia|reflexivity]. Qed.

Lemma block_f2_app (x : C) (ev : Eval C) (rs : Z) :
  2 <= rs -> block_f2 x (length ev) rs ev = ev ++ [(square x, 2)].
Proof.
  intros Hrs. unfold block_f2. destruct (2 <=? rs) eqn:E; [|lia].
  norm_block. reflexivity.
Qed.

Lemma block_f4_app (d : C) (ev : Eval C) (rs : Z) (c2 : C) :
  3 <= rs ->
  block_f4 d (length ev) rs (ev ++ [(c2, 2)]) = ev ++ [(c2, 2); (square c2, 4)].
Proof.
  intros Hrs. unfold block_f4. destruct (3 <=? rs) eqn:E; [|lia].
  norm_block. reflexivity.
Qed.

Lemma block_f8_app (d : C) (ev : Eval C) (rs : Z) (c2 c4 : C) :
  5 <= rs ->
  block_f8 d (length ev) rs (ev ++ [(c2, 2); (c4, 4)])
  = ev ++ [(c2, 2); (c4, 4);
           (addCtxt (multByConstant c2 112)
              (square (addCtxt (multByConstant c2 94) (multByConstant c4 121) false))
              false, 8)].
Proof.
  intros Hrs. unfold block_f8. destruct (5 <=? rs) eqn:E; [|lia].
  norm_block. reflexivity.
Qed.

Lemma block_f16_app (d : C) (ev : Eval C) (rs : Z) (c2 c4 c8 : C) :
  9 <= rs ->
  block_f16 d (length ev) rs (ev ++ [(c2, 2); (c4, 4); (c8, 8)])
  = ev ++ [(c2, 2); (c4, 4); (c8, 8);
           (addCtxt (multByConstant c4 11136)
              (multiplyBy
                 (addCtxt (multByConstant c4 15364) (multByConstant c8 14115) true)
                 (addCtxt
                    (addCtxt (multByConstant c2 28504) (multByConstant c4 8968) false)
                    c8 true))
              true, 16)].
Proof.
  intros Hrs. unfold block_f16. destruct (9 <=? rs) eqn:E; [|lia].
  norm_block. reflexivity.
Qed.

(** Entry by entry: equal precisions, plaintexts equal in the ring. *)
Ltac entries :=
  repeat first
    [ reflexivity
    | apply (f_equal2 (@cons _))
    | apply (f_equal2 (@pair _ _)); [ring | reflexivity] ].

Ltac decrypt :=
  cbn [dec_all map fst snd app];
  repeat rewrite ?dec_addCtxt, ?dec_multiplyBy, ?dec_multByConstant, ?dec_square;
  unfold f16, f8, f4, f2; cbn [power].

(** The cascade appends to [ctxtEval] and what it appends decrypts to the
    closed forms, for every row size. *)
Lemma multivariate_appends (x : C) (ev : Eval C) (rs : Z) :
  exists tl,
    rowComputationMultivariate x ev rs = ev ++ tl
    /\ dec_all tl = cascade (dec x) rs.
Proof.
  unfold rowComputationMultivariate, cascade. cbv zeta.
  destruct (Z.leb_spec 2 rs) as [H2|H2].
  2:{ exists [].
      rewrite block_f2_skip, block_f4_skip, block_f8_skip, block_f16_skip by lia.
      destruct (Z.leb_spec 3 rs), (Z.leb_spec 5 rs), (Z.leb_spec 9 rs); try lia.
      split; [symmetry; apply app_nil_r | reflexivity]. }
  rewrite block_f2_app by lia.
  destruct (Z.leb_spec 3 rs) as [H3|H3].
  2:{ rewrite block_f4_skip, block_f8_skip, block_f16_skip by lia.
      destruct (Z.leb_spec 5 rs), (Z.leb_spec 9 rs); try lia.
      eexists; split; [reflexivity|]. decrypt. entries. }
  rewrite block_f4_app by lia.
  destruct (Z.leb_spec 5 rs) as [H5|H5].
  2:{ rewrite block_f8_skip, block_f16_skip by lia.
      destruct (Z.leb_spec 9 rs); try lia.
      eexists; split; [reflexivity|]. decrypt. entries. }
  rewrite block_f8_app by lia.
  destruct (Z.leb_spec 9 rs) as [H9|H9].
  2:{ rewrite block_f16_skip by lia.
      eexists; split; [reflexivity|]. decrypt. entries. }
  rewrite block_f16_app by lia.
  eexists; split; [reflexivity|]. decrypt. entries.
Qed.

(** One turn of the loop with the neighbours 1 and [e_inner <= 16], for
    [p = 2]: the cascade runs on the last ciphertext pushed so far, for the
    row size [min(rowSize, e_inner)], and the composition is not called. *)
Lemma general_loop_cascade (comp : composition C) (x : C)
    (triangleSize rowSize : Z) (lazy : bool) (ctxtEval : Eval C)
    (e_inner : Z) (rest : list Z) :
  e_inner <= 16 ->
  exists res,
    rowComputationMultivariate (back_ctxt x ctxtEval) ctxtEval
      (Z.min rowSize e_inner) = ctxtEval ++ res
    /\ dec_all res = cascade (dec (back_ctxt x ctxtEval)) (Z.min rowSize e_inner)
    /\ general_loop comp 2 x triangleSize rowSize lazy ctxtEval 1 (e_inner :: rest)
       = general_loop comp 2 x triangleSize rowSize lazy (ctxtEval ++ res)
           e_inner rest.
Proof.
  intros He.
  destruct (multivariate_appends (back_ctxt x ctxtEval) ctxtEval
              (Z.min rowSize e_inner)) as (res & Happ & Hdec).
  exists res. split; [exact Happ|]. split; [exact Hdec|].
  cbn [general_loop]. unfold general_step. cbn [Z.eqb andb Pos.eqb].
  destruct (e_inner <=? 16) eqn:E; [|lia].
  cbn [mbind outcome_bind]. rewrite Happ. reflexivity.
Qed.

(** C1.  The loop of [rowComputationGeneral] goes over the neighbours
    [e_inner_previous], [e_inner] of the split list extended by [rowSize].
    - For [p = 2], every turn with [e_inner_previous = 1] and
      [e_inner <= 16], wherever it stands in the list, runs the hard-coded
      cascade on the last ciphertext pushed so far and does not call the
      composition: what it appends decrypts to [f2], [f4], [f8] and [f16] at
      the plaintext of that ciphertext, tagged 2, 4, 8 and 16, and only
      those that the row size [min(rowSize, e_inner)] needs (sizes from 2,
      3, 5 and 9 on).
    - Every other turn calls the composition.
    - For a split list that starts with 1 and goes on with a value of at
      most 16 (or ends there, with [rowSize <= 16]) the call pushes the
      input with precision 1, then the cascade at the input, and goes on
      with the rest of the list.
    - For the split list [{1}] and [rowSize <= 16] this is all the call
      does; for a split list [{1, e}] with [e <= 16] other than 1 the
      composition follows once, from the precision [e] on the last result
      pushed, and nothing else. *)
Theorem rowComputationGeneral_cascade (comp : composition C) (x : C)
    (triangleSize rowSize : Z) (lazy : bool) :
  (forall (ctxtEval : Eval C) (e_inner : Z) (rest : list Z),
     e_inner <= 16 ->
     exists res,
       rowComputationMultivariate (back_ctxt x ctxtEval) ctxtEval
         (Z.min rowSize e_inner) = ctxtEval ++ res
       /\ dec_all res
          = cascade (dec (back_ctxt x ctxtEval)) (Z.min rowSize e_inner)
       /\ general_loop comp 2 x triangleSize rowSize lazy ctxtEval 1
            (e_inner :: rest)
          = general_loop comp 2 x triangleSize rowSize lazy (ctxtEval ++ res)
              e_inner rest)
  /\ (forall (p : Z) (ctxtEval : Eval C) (e_inner_previous e_inner : Z)
        (rest : list Z),
        (p =? 2) && (e_inner_previous =? 1) && (e_inner <=? 16) = false ->
        general_loop comp p x triangleSize rowSize lazy ctxtEval
          e_inner_previous (e_inner :: rest)
        = (ctxtEval' ← comp (back_ctxt x ctxtEval) ctxtEval
                         (Z.min triangleSize e_inner) (Z.min rowSize e_inner)
                         lazy e_inner_previous;
           general_loop comp p x triangleSize rowSize lazy ctxtEval' e_inner
             rest))
  /\ (forall (ev : Eval C) (splits : list Z),
        hd rowSize splits <= 16 ->
        exists res,
          rowComputationMultivariate x (ev ++ [(x, 1)])
            (Z.min rowSize (hd rowSize splits)) = (ev ++ [(x, 1)]) ++ res
          /\ dec_all res = cascade (dec x) (Z.min rowSize (hd rowSize splits))
          /\ rowComputationGeneral comp 2 x ev triangleSize rowSize lazy
               (1 :: splits)
             = general_loop comp 2 x triangleSize rowSize lazy
                 (ev ++ (x, 1) :: res) (hd rowSize splits)
                 (List.tl (splits ++ [rowSize])))
  /\ (forall ev : Eval C,
        rowSize <= 16 ->
        exists res,
          rowComputationGeneral comp 2 x ev triangleSize rowSize lazy [1]
          = Ok (ev ++ (x, 1) :: res)
          /\ rowComputationMultivariate x (ev ++ [(x, 1)]) rowSize
             = (ev ++ [(x, 1)]) ++ res
          /\ dec_all res = cascade (dec x) rowSize)
  /\ (forall (ev : Eval C) (e_inner : Z),
        e_inner <= 16 -> e_inner <> 1 ->
        exists res,
          rowComputationMultivariate x (ev ++ [(x, 1)]) (Z.min rowSize e_inner)
          = (ev ++ [(x, 1)]) ++ res
          /\ dec_all res = cascade (dec x) (Z.min rowSize e_inner)
          /\ rowComputationGeneral comp 2 x ev triangleSize rowSize lazy
               [1; e_inner]
             = comp (back_ctxt x (ev ++ (x, 1) :: res)) (ev ++ (x, 1) :: res)
                 (Z.min triangleSize rowSize) (Z.min rowSize rowSize) lazy
                 e_inner).
Proof.
  assert (Hcall : forall (ev : Eval C) (splits : list Z),
            hd rowSize splits <= 16 ->
            exists res,
              rowComputationMultivariate x (ev ++ [(x, 1)])
                (Z.min rowSize (hd rowSize splits)) = (ev ++ [(x, 1)]) ++ res
              /\ dec_all res = cascade (dec x) (Z.min rowSize (hd rowSize splits))
              /\ rowComputationGeneral comp 2 x ev triangleSize rowSize lazy
                   (1 :: splits)
                 = general_loop comp 2 x triangleSize rowSize lazy
                     (ev ++ (x, 1) :: res) (hd rowSize splits)
                     (List.tl (splits ++ [rowSize]))).
  { intros ev splits He.
    assert (Hback : back_ctxt x (ev ++ [(x, 1)]) = x).
    { unfold back_ctxt. rewrite last_snoc. reflexivity. }
    destruct (general_loop_cascade comp x triangleSize rowSize lazy
                (ev ++ [(x, 1)]) (hd rowSize splits)
                (List.tl (splits ++ [rowSize])) He) as (res & Happ & Hdec & Hloop).
    rewrite Hback in Happ, Hdec.
    exists res. split; [exact Happ|]. split; [exact Hdec|].
    unfold rowComputationGeneral. cbn [app hd List.tl].
    assert (Hlist : splits ++ [rowSize]
                    = hd rowSize splits :: List.tl (splits ++ [rowSize]))
      by (destruct splits; reflexivity).
    rewrite Hlist at 1. rewrite Hloop, <- app_assoc. reflexivity. }
  split; [|split; [|split; [|split]]].
  - intros ctxtEval e_inner rest He.
    apply general_loop_cascade. exact He.
  - intros p ctxtEval e_inner_previous e_inner rest Hcond.
    cbn [general_loop]. unfold general_step. rewrite Hcond. reflexivity.
  - exact Hcall.
  - intros ev Hrs.
    destruct (Hcall ev [] Hrs) as (res & Happ & Hdec & Hrun).
    cbn [hd app List.tl general_loop] in Happ, Hdec, Hrun.
    rewrite Z.min_id in Happ, Hdec.
    exists res. split; [exact Hrun|]. split; [exact Happ | exact Hdec].
  - intros ev e_inner He Hne.
    destruct (Hcall ev [e_inner] He) as (res & Happ & Hdec & Hrun).
    cbn [hd app List.tl] in Happ, Hdec, Hrun.
    exists res. split; [exact Happ|]. split; [exact Hdec|].
    rewrite Hrun. cbn [general_loop]. unfold general_step.
    replace (e_inner =? 1) with false by (symmetry; apply Z.eqb_neq; exact Hne).
    cbn [Z.eqb Pos.eqb andb].
    destruct (comp _ _ _ _ _ _); reflexivity.
Qed.

End Cascade.

(** C1 on integer plaintexts: a row of size 9 at the input 3. *)
Lemma rowComputationGeneral_cascade_witness :
  exists res,
    @rowComputationGeneral Z (Z_ops 2) no_composition 2 3 [] 9 9 false [1]
    = Ok ([] ++ (3, 1) :: res)
    /\ @rowComputationMultivariate Z (Z_ops 2) 3 ([] ++ [(3, 1)]) 9
       = ([] ++ [(3, 1)]) ++ res
    /\ @dec_all Z Z (Z_ops 2) Z_plaintext (Z_homomorphic 2) res
       = @cascade Z Z_plaintext 3 9.
Proof.
  apply (proj1 (proj2 (proj2 (proj2
           (@rowComputationGeneral_cascade Z Z (Z_ops 2) Z_plaintext
              (Z_homomorphic 2) no_composition 3 9 9 false)))) []).
  lia.
Defined.

Example cascade_at_3 :
  @rowComputationGeneral Z (Z_ops 2) no_composition 2 3 [] 9 9 false [1]
  = Ok [(3, 1); (9, 2); (81, 4); (113359617, 8); (-179810515013493587967, 16)].
Proof. reflexivity. Qed.

(** The split list [{1, 4}] on a row of size 20: the cascade for the row
    size 4 at the input, then the composition from precision 4 on the last
    result of the cascade (here a stand-in that pushes a zero). *)
Example cascade_then_composition :
  @rowComputationGeneral Z (Z_ops 2) (@toy_composition Z (Z_ops 2)) 2 3 [] 20 20
    false [1; 4]
  = Ok [(3, 1); (9, 2); (81, 4); (0, 20)].
Proof. reflexivity. Qed.

End RowComputationFacts.

(** ** The trapezoid loop and its wrapper *)

Module DigitExtractFacts.
Import Err Ctxt RowComputation Trace DigitExtract.

(** [lround] does not look at the representation of a rational. *)
Lemma lround_comp (x y : Q) : (x == y)%Q -> Double.lround x = Double.lround y.
Proof.
  intros Hxy. unfold Double.lround.
  rewrite (Qleb_comp 0%Q 0%Q (Qeq_refl 0%Q) x y Hxy).
  destruct (Qle_bool 0 y).
  - apply Qfloor_comp. rewrite Hxy. reflexivity.
  - f_equal. apply Qfloor_comp. rewrite Hxy. reflexivity.
Qed.

(** For [p = 2] and at least one digit to extract, the constant added
    before the loop is [2^botHigh / 2] exactly. *)
Lemma correction_constant_two (botHigh : Z) :
  1 <= botHigh -> correction_constant 2 botHigh = 2 ^ botHigh / 2.
Proof.
  intros Hb. unfold correction_constant.
  assert (Hpow : 2 ^ botHigh = 2 * 2 ^ (botHigh - 1)).
  { rewrite <- Z.pow_succ_r by lia. f_equal. lia. }
  assert (Hhalf : 2 ^ botHigh / 2 = 2 ^ (botHigh - 1)).
  { rewrite Hpow, Z.mul_comm. apply Z.div_mul. lia. }
  rewrite Hhalf, <- (DoubleFacts.lround_inject_Z (2 ^ (botHigh - 1))).
  apply lround_comp.
  rewrite DoubleFacts.pow_inject_Z by lia.
  rewrite Hpow, inject_Z_mult. field.
Qed.

(** Without a digit to extract the constant is [lround(0.5) = 1]. *)
Example correction_constant_zero : correction_constant 2 0 = 1.
Proof. reflexivity. Qed.

Section Extract.
Context {C : Type} `{Ops C}.
Variable comp : composition C.
Variable builtIn : C -> Z -> Z -> Z -> list string * outcome C.

(** C4, as the code has it.  For [p = 2] the constant [2^botHigh / 2] is
    added to the input before the rows are computed; for any other [p] the
    input enters the loop as it is.  For every [p], 2 or not, the result of
    the loop is negated at the end. *)
Theorem customExtractDigitsThin_correction (p : Z) (ctxt : C) (botHigh r : Z)
    (lazy : bool) (splits : list (list Z)) :
  (p = 2 ->
   customExtractDigitsThin comp p ctxt botHigh r lazy splits
   = (c ← trapezoid comp 2 (addConstant ctxt (correction_constant 2 botHigh))
            botHigh r lazy splits;
      Ok (negate c))
   /\ (1 <= botHigh -> correction_constant 2 botHigh = 2 ^ botHigh / 2))
  /\ (p <> 2 ->
      customExtractDigitsThin comp p ctxt botHigh r lazy splits
      = (c ← trapezoid comp p ctxt botHigh r lazy splits; Ok (negate c))
      /\ customExtractDigitsThin comp p ctxt botHigh r lazy splits
         = (c ← customExtractDigitsThin_as_claimed comp p ctxt botHigh r lazy splits;
            Ok (negate c))).
Proof.
  split.
  - intros ->. split; [reflexivity | apply correction_constant_two].
  - intros Hp. unfold customExtractDigitsThin, customExtractDigitsThin_as_claimed.
    destruct (p =? 2) eqn:E; [lia|]. split; reflexivity.
Qed.

(** C7, as the code has it.  For [e' < r] the warning is printed; the
    improved extraction then throws [RuntimeError] without extracting
    anything, the built-in one goes on.  For [e' >= r] nothing is printed
    about the parameters and the chosen extraction runs. *)
Theorem extractDigitsThin_warning (p : Z) (ctxt : C) (botHigh r ePrime : Z)
    (our_version lazy : bool) (splits : list (list Z)) :
  let out := extractDigitsThin comp builtIn p ctxt botHigh r ePrime our_version
               lazy splits in
  (ePrime < r -> our_version = true ->
   out = Run [Cout (WarnUnfortunateParameters ePrime r)]
             (Throw (RuntimeError "Bad parameter choice. See warning above.")))
  /\ (ePrime < r -> our_version = false ->
      out = Run (Cout (WarnUnfortunateParameters ePrime r) :: Cout StartingBuiltIn
                 :: map (fun s => Cout (BuiltInSays s))
                        (builtIn ctxt botHigh r ePrime).1)
                (builtIn ctxt botHigh r ePrime).2)
  /\ (r <= ePrime ->
      (forall e' r', ~ warned e' r' (log out))
      /\ res out
         = (if our_version
            then customExtractDigitsThin comp p ctxt botHigh r lazy splits
            else (builtIn ctxt botHigh r ePrime).2)).
Proof.
  cbv zeta. unfold extractDigitsThin.
  split; [|split].
  - intros Hlt ->. destruct (ePrime <? r) eqn:E; [|lia]. reflexivity.
  - intros Hlt ->. destruct (ePrime <? r) eqn:E; [|lia].
    destruct (builtIn ctxt botHigh r ePrime) as [out result]. reflexivity.
  - intros Hge. destruct (ePrime <? r) eqn:E; [lia|].
    destruct our_version.
    + split.
      * intros e' r' Hin. unfold warned in Hin. cbn in Hin. exact Hin.
      * cbn. destruct (customExtractDigitsThin _ _ _ _ _ _ _); reflexivity.
    + destruct (builtIn ctxt botHigh r ePrime) as [out result]. cbn.
      split; [|destruct result; reflexivity].
      intros e' r' Hin. unfold warned in Hin.
      assert (Hin' : In (Cout (WarnUnfortunateParameters e' r'))
                        (Cout StartingBuiltIn
                         :: map (fun s => Cout (BuiltInSays s)) out)).
      { destruct result; cbn in Hin; rewrite ?app_nil_r in Hin; exact Hin. }
      cbn in Hin'. destruct Hin' as [Heq | Hin']; [discriminate|].
      apply in_map_iff in Hin'. destruct Hin' as (s & Heq & _). discriminate.
Qed.

End Extract.

(** C4 on integer plaintexts, for [p = 2] and eight digits. *)
Lemma customExtractDigitsThin_correction_witness :
  @customExtractDigitsThin Z (Z_ops 2) (@toy_composition Z (Z_ops 2)) 2 100 8 1
     false [[1]]
  = (c ← @trapezoid Z (Z_ops 2) (@toy_composition Z (Z_ops 2)) 2
            (@addConstant Z (Z_ops 2) 100 (correction_constant 2 8)) 8 1 false [[1]];
     Ok (@negate Z (Z_ops 2) c))
  /\ (1 <= 8 -> correction_constant 2 8 = 2 ^ 8 / 2).
Proof.
  apply (proj1 (@customExtractDigitsThin_correction Z (Z_ops 2)
                  (@toy_composition Z (Z_ops 2)) 2 100 8 1 false [[1]])).
  reflexivity.
Defined.

(** C4 as stated fails: for [p = 3] the result is negated all the same.
    With every extracted digit read as 0, two digits are dropped from 100:
    the code returns [-11], the extraction without the final negation
    [11]. *)
Lemma customExtractDigitsThin_negates_for_odd_p :
  @customExtractDigitsThin Z (Z_ops 3) (@toy_composition Z (Z_ops 3)) 3 100 2 1
     false [[1]] = Ok (-11)
  /\ @customExtractDigitsThin_as_claimed Z (Z_ops 3) (@toy_composition Z (Z_ops 3))
       3 100 2 1 false [[1]] = Ok 11.
Proof. split; reflexivity. Qed.

(** C7 at [e' = 1 >= r = 1] with the improved extraction. *)
Lemma extractDigitsThin_warning_witness :
  (forall e' r',
      ~ warned e' r'
          (log (@extractDigitsThin Z (Z_ops 3) (@toy_composition Z (Z_ops 3))
                  toy_builtIn 3 100 2 1 1 true false [[1]])))
  /\ res (@extractDigitsThin Z (Z_ops 3) (@toy_composition Z (Z_ops 3))
            toy_builtIn 3 100 2 1 1 true false [[1]])
     = @customExtractDigitsThin Z (Z_ops 3) (@toy_composition Z (Z_ops 3)) 3 100 2 1
         false [[1]].
Proof.
  apply (proj2 (proj2 (@extractDigitsThin_warning Z (Z_ops 3)
                         (@toy_composition Z (Z_ops 3)) toy_builtIn
                         3 100 2 1 1 true false [[1]]))).
  lia.
Defined.

(** C7 as stated fails: with [e' = 0 < r = 1] and the improved extraction
    the warning is printed and then [RuntimeError] is thrown; nothing is
    extracted. *)
Lemma extractDigitsThin_throws_after_warning :
  @extractDigitsThin Z (Z_ops 3) (@toy_composition Z (Z_ops 3)) toy_builtIn
     3 100 2 1 0 true false [[1]]
  = Run [Cout (WarnUnfortunateParameters 0 1)]
        (Throw (RuntimeError "Bad parameter choice. See warning above."))
  /\ ~ @proceeds_after_warning Z (Z_ops 3) (@toy_composition Z (Z_ops 3)) toy_builtIn
         3 100 2 1 0 true false [[1]].
Proof.
  split; [reflexivity|].
  unfold proceeds_after_warning. intros [_ Hres]. vm_compute in Hres. discriminate.
Qed.

End DigitExtractFacts.

(** ** The bootstrapping entry points *)

Module ReCryptFacts.
Import Err Ctxt Trace MakeDivisible ReCrypt.




Lemma bind_Throw {A B : Type} (l : list event) (e : exn) (f : A -> run B) :
  @Run A l (Throw e) ≫= f = Run l (Throw e).
Proof. reflexivity. Qed.

Lemma run_eta {A : Type} (r : run A) : Run (log r) (res r) = r.
Proof. destruct r. reflexivity. Qed.


Section Pipelines.
Context {C : Type} `{Ops C} `{Bootstrap C} `{PowerfulDCRT}.
Variable comp : RowComputation.composition C.
Variable builtIn : C -> Z -> Z -> Z -> list string * outcome C.



(** C10 for the two entry points.  An empty ciphertext is returned as it
    is; a ciphertext that is a single part with the handle "one" is
    replaced by the dummy encryption of that part with every coefficient
    reduced modulo the plaintext space.  In both cases the trace is empty:
    no stage of the pipeline runs and nothing is printed.  For
    [thinReCrypt] this is what the first turn of its timing loop does, so
    it needs at least one turn. *)
Theorem degenerate_inputs_short_circuit (debug : bool) (ctxt : C)
    (our_version lazy : bool) (nb_iterations : Z) (rnd : coins) :
  (parts ctxt = [] ->
   reCrypt debug ctxt our_version lazy rnd = Run [] (Ok ctxt)
   /\ (1 <= nb_iterations ->
       thinReCrypt comp builtIn debug ctxt our_version lazy nb_iterations rnd
       = Run [] (Ok ctxt)))
  /\ (forall part,
      parts ctxt = [part] -> SKHandle.isOne (skHandle part) = true ->
      let reduced :=
        DummyEncrypt ctxt
          (ZZX.normalize (map (fun c => c mod getPtxtSpace ctxt) (to_ZZX part))) in
      reCrypt debug ctxt our_version lazy rnd = Run [] (Ok reduced)
      /\ (1 <= nb_iterations ->
          thinReCrypt comp builtIn debug ctxt our_version lazy nb_iterations rnd
          = Run [] (Ok reduced))).
Proof.
  split.
  - intros Hparts.
    assert (Hempty : isEmpty ctxt = true) by (unfold isEmpty; rewrite Hparts; reflexivity).
    split.
    + unfold reCrypt. rewrite Hempty. reflexivity.
    + intros Hnb. unfold thinReCrypt.
      destruct (Z.to_nat nb_iterations) as [|n] eqn:En; [lia|].
      cbn [thinReCrypt_loop]. unfold thinReCrypt_iteration. rewrite Hempty.
      reflexivity.
  - intros part Hparts Hone reduced.
    assert (Hempty : isEmpty ctxt = false) by (unfold isEmpty; rewrite Hparts; reflexivity).
    assert (Hdummy : isDummy ctxt = true) by (unfold isDummy; rewrite Hparts; exact Hone).
    assert (Hred : reduceDummy ctxt = reduced).
    { unfold reduceDummy, reduced. rewrite Hparts. reflexivity. }
    split.
    + unfold reCrypt. rewrite Hempty, Hdummy, Hred. reflexivity.
    + intros Hnb. unfold thinReCrypt.
      destruct (Z.to_nat nb_iterations) as [|n] eqn:En; [lia|].
      cbn [thinReCrypt_loop]. unfold thinReCrypt_iteration.
      rewrite Hempty, Hdummy, Hred. reflexivity.
Qed.

End Pipelines.



(** C10 on the small instance: the dummy encryption of [5 + 3 X + 4 X^2]
    with plaintext space 2 becomes the dummy encryption of [1 + X]. *)
Lemma degenerate_inputs_short_circuit_witness :
  thick false toy_dummy true false (fun _ => true)
  = Run [] (Ok (mkToy [mkPart [1; 1] (SKHandle.mk 0 1 0)] 2 1 0))
  /\ (1 <= 5 ->
      thin false toy_dummy true false 5 (fun _ => true)
      = Run [] (Ok (mkToy [mkPart [1; 1] (SKHandle.mk 0 1 0)] 2 1 0))).
Proof.
  exact (proj2 (@degenerate_inputs_short_circuit toy_ctxt toy_ops toy_bootstrap
                  identity_conversion (@RowComputation.toy_composition toy_ctxt toy_ops)
                  DigitExtract.toy_builtIn false toy_dummy true false 5 (fun _ => true))
               (mkPart [5; 3; 4] (SKHandle.mk 0 1 0)) eq_refl eq_refl).
Defined.

(** C10 as stated fails for [thinReCrypt] when it is asked for no turn of
    its timing loop: a dummy encryption is returned as it is, not reduced. *)
Lemma thinReCrypt_without_iteration_keeps_dummy :
  thin false toy_dummy true false (-1) (fun _ => true)
  = Run [Cout (Report 0)] (Ok toy_dummy)
  /\ @isDummy toy_ctxt toy_bootstrap toy_dummy = true
  /\ @reduceDummy toy_ctxt toy_bootstrap toy_dummy <> toy_dummy.
Proof.
  split; [reflexivity|]. split; [reflexivity|]. discriminate.
Qed.

End ReCryptFacts.

(** ** Loading the lifting-polynomial cache *)

Module PolyCacheFacts.
Import Err PolyCache.

(** *** Reading words from a stream *)

Lemma append_cons (c : ascii) (s t : string) :
  (String c s +:+ t)%string = String c (s +:+ t).
Proof. reflexivity. Qed.

Lemma append_empty_l (s : string) : ("" +:+ s)%string = s.
Proof. reflexivity. Qed.

Lemma append_empty_r (s : string) : (s +:+ "")%string = s.
Proof.
  induction s as [|c s IH]; [reflexivity|].
  rewrite append_cons, IH. reflexivity.
Qed.

Lemma append_snoc (s : string) (c : ascii) (w : string) :
  ((s +:+ String c "") +:+ w)%string = (s +:+ String c w)%string.
Proof.
  induction s as [|d s IH]; [reflexivity|].
  rewrite !append_cons, IH. reflexivity.
Qed.

Lemma skipws_length (s : string) : (String.length (skipws s) <= String.length s)%nat.
Proof.
  induction s as [|c s IH]; cbn; [lia|].
  destruct (isspace c); cbn; lia.
Qed.

Lemma take_word_length (s w rest : string) :
  take_word s = (w, rest) ->
  String.length s = (String.length w + String.length rest)%nat.
Proof.
  revert w rest. induction s as [|c s IH]; intros w rest Htake; cbn in Htake.
  - inversion Htake. reflexivity.
  - destruct (isspace c).
    + inversion Htake. reflexivity.
    + destruct (take_word s) as [w' rest'] eqn:E. inversion Htake; subst.
      cbn. rewrite (IH w' rest eq_refl). reflexivity.
Qed.

(** What is left after a word starts with whitespace, if anything is left;
    the words of the stream are that word, then those of the rest. *)
Lemma words_from_take_word (s cur w rest : string) :
  take_word s = (w, rest) ->
  words_from cur s
  = (if String.eqb (cur +:+ w) EmptyString then [] else [cur +:+ w]) ++ words rest.
Proof.
  revert cur w rest. induction s as [|c s IH]; intros cur w rest Htake; cbn in Htake.
  - inversion Htake; subst. cbn.
    rewrite append_empty_r.
    destruct (String.eqb cur ""); reflexivity.
  - destruct (isspace c) eqn:Ec.
    + inversion Htake; subst. cbn. rewrite Ec.
      rewrite append_empty_r.
      destruct (String.eqb cur ""); reflexivity.
    + destruct (take_word s) as [w' rest'] eqn:E. inversion Htake; subst.
      cbn. rewrite Ec. rewrite (IH _ w' rest eq_refl).
      rewrite append_snoc. reflexivity.
Qed.

Lemma words_skipws (s : string) : words (skipws s) = words s.
Proof.
  induction s as [|c s IH]; [reflexivity|].
  cbn [skipws]. destruct (isspace c) eqn:Ec; [|reflexivity].
  rewrite IH. unfold words. cbn [words_from]. rewrite Ec. reflexivity.
Qed.

Lemma take_word_skipws_empty (s rest : string) :
  take_word (skipws s) = (EmptyString, rest) -> skipws s = EmptyString.
Proof.
  induction s as [|c s IH]; cbn; [reflexivity|].
  destruct (isspace c) eqn:Ec; [exact IH|].
  cbn. rewrite Ec. destruct (take_word s). discriminate.
Qed.

(** One [>>]: either nothing but whitespace was left, or a word is read and
    the stream gets shorter. *)
Lemma extract_words (s w rest : string) :
  extract s = (w, rest) ->
  (w = EmptyString /\ words s = [])
  \/ (w <> EmptyString /\ words s = w :: words rest
      /\ (String.length rest < String.length s)%nat).
Proof.
  unfold extract. intros Hex.
  pose proof (words_from_take_word (skipws s) EmptyString w rest Hex) as Hw.
  fold (words (skipws s)) in Hw. rewrite words_skipws, append_empty_l in Hw.
  pose proof (take_word_length _ _ _ Hex) as Hlen.
  pose proof (skipws_length s) as Hskip.
  destruct w as [|c w].
  - left. split; [reflexivity|].
    apply take_word_skipws_empty in Hex as Hempty. rewrite Hempty in Hex.
    cbn in Hex. inversion Hex; subst. exact Hw.
  - right. split; [discriminate|]. split; [exact Hw|]. cbn in Hlen. lia.
Qed.

Section Parse.
Variable to_ZZ : string -> option Z.

(** With fuel beyond the length of the stream, the loop stores the words
    of the stream one after the other. *)
Lemma read_loop_words (fuel : nat) (s : string) (poly : ZZX.t) (index : nat) :
  (String.length s < fuel)%nat ->
  read_loop to_ZZ fuel s poly index = store_words to_ZZ (words s) poly index.
Proof.
  revert s poly index. induction fuel as [|fuel IH]; intros s poly index Hfuel; [lia|].
  cbn [read_loop].
  destruct (extract s) as [w rest] eqn:Hex.
  destruct (extract_words s w rest Hex) as [[-> Hws] | (Hne & Hws & Hlen)].
  - rewrite Hws. reflexivity.
  - rewrite Hws. cbn [store_words].
    destruct w as [|c w]; [congruence|].
    destruct (conv to_ZZ (String c w)) as [a|e]; [|reflexivity].
    cbn. apply IH. lia.
Qed.

(** *** Coefficients in ascending order *)

Lemma normalize_cons_congr (c : Z) (l1 l2 : list Z) :
  ZZX.normalize l1 = ZZX.normalize l2 ->
  ZZX.normalize (c :: l1) = ZZX.normalize (c :: l2).
Proof. intros E. cbn [ZZX.normalize]. rewrite E. reflexivity. Qed.

(** Normalising after appending coefficients does not depend on whether
    the vector was normalised and padded with zeros before. *)
Lemma normalize_app_normalize (f g : list Z) :
  ZZX.normalize (ZZX.normalize f ++ replicate (length f - length (ZZX.normalize f)) 0 ++ g)
  = ZZX.normalize (f ++ g).
Proof.
  induction f as [|c f IH]; [reflexivity|].
  change ((c :: f) ++ g) with (c :: (f ++ g)).
  rewrite <- (normalize_cons_congr c _ _ IH).
  f_equal.
  cbn [ZZX.normalize].
  destruct (ZZX.normalize f) as [|d h] eqn:E.
  - destruct (Z.eqb_spec c 0) as [->|Hc]; cbn [length app].
    + rewrite !Nat.sub_0_r. reflexivity.
    + replace (S (length f) - 1)%nat with (length f - 0)%nat by lia. reflexivity.
  - cbn [length app].
    replace (S (length f) - S (S (length h)))%nat with (length f - S (length h))%nat by lia.
    reflexivity.
Qed.

Lemma normalize_length (f : list Z) : (length (ZZX.normalize f) <= length f)%nat.
Proof.
  induction f as [|c f IH]; cbn; [lia|].
  destruct (ZZX.normalize f); [destruct (c =? 0); cbn; lia | cbn in *; lia].
Qed.

(** Storing coefficient number [length f] behind the coefficients [f]. *)
Lemma SetCoeff_next (f : list Z) (a : Z) :
  ZZX.SetCoeff (ZZX.normalize f) (length f) a = ZZX.normalize (f ++ [a]).
Proof.
  unfold ZZX.SetCoeff.
  pose proof (normalize_length f) as Hlen.
  set (n := ZZX.normalize f) in *.
  replace (S (length f) - length n)%nat with ((length f - length n) + 1)%nat by lia.
  rewrite replicate_add. cbn [replicate].
  rewrite app_assoc.
  assert (Hl : length (n ++ replicate (length f - length n) 0) = length f)
    by (rewrite length_app, length_replicate; lia).
  rewrite <- Hl at 1.
  rewrite <- (Nat.add_0_r (length (n ++ replicate (length f - length n) 0))).
  rewrite insert_app_r. cbn.
  rewrite <- app_assoc. subst n. apply normalize_app_normalize.
Qed.

Lemma store_words_coeffs (ws : list string) (coeffs done : list Z) :
  map to_ZZ ws = map Some coeffs ->
  store_words to_ZZ ws (ZZX.normalize done) (length done)
  = Ok (ZZX.normalize (done ++ coeffs)).
Proof.
  revert coeffs done. induction ws as [|w ws IH]; intros coeffs done Hmap.
  - destruct coeffs; [|discriminate]. rewrite app_nil_r. reflexivity.
  - destruct coeffs as [|a coeffs]; [discriminate|].
    cbn in Hmap. inversion Hmap as [[Hw Hrest]].
    cbn [store_words]. unfold conv. rewrite Hw. cbn.
    rewrite SetCoeff_next.
    replace (S (length done)) with (length (done ++ [a]))
      by (rewrite length_app; cbn; lia).
    rewrite (IH coeffs (done ++ [a]) Hrest), <- app_assoc. reflexivity.
Qed.

(** *** Consecutive files *)

Lemma load_from_consecutive (fs : gmap string string) (p e_inner : Z)
    (polys : list ZZX.t) (fuel : nat) (e : Z) (loaded : list ZZX.t) :
  (length polys < fuel)%nat ->
  (forall i poly, polys !! i = Some poly ->
                  parsePolynomial to_ZZ fs (fileName p e_inner (e + Z.of_nat i)) = Ok poly) ->
  fs !! fileName p e_inner (e + Z.of_nat (length polys)) = None ->
  load_from to_ZZ fuel fs p e_inner e loaded = Ok (loaded ++ polys).
Proof.
  revert fuel e loaded.
  induction polys as [|poly polys IH]; intros fuel e loaded Hfuel Hparse Hmissing.
  - destruct fuel as [|fuel]; [cbn in Hfuel; lia|].
    cbn [load_from]. cbn in Hmissing. rewrite Z.add_0_r in Hmissing.
    rewrite Hmissing, app_nil_r. reflexivity.
  - destruct fuel as [|fuel]; [cbn in Hfuel; lia|].
    cbn [load_from].
    pose proof (Hparse 0%nat poly eq_refl) as H0. cbn in H0. rewrite Z.add_0_r in H0.
    destruct (fs !! fileName p e_inner e) as [content|] eqn:Hfile.
    + rewrite H0. cbn.
      rewrite (IH fuel (e + 1) (loaded ++ [poly])).
      * rewrite <- app_assoc. reflexivity.
      * cbn in Hfuel. lia.
      * intros i q Hq. specialize (Hparse (S i) q Hq).
        replace (e + 1 + Z.of_nat i) with (e + Z.of_nat (S i)) by lia. exact Hparse.
      * replace (e + 1 + Z.of_nat (length polys))
          with (e + Z.of_nat (length (poly :: polys))) by (cbn [length]; lia).
        exact Hmissing.
    + unfold parsePolynomial in H0. rewrite Hfile in H0. discriminate.
Qed.

(** C9, as the code has it.
    - A file that cannot be opened is an error.
    - A file that can be opened is read word by word up to its end, words
      being separated by whitespace; the words are the coefficients, lowest
      degree first.  In particular a file without any word (an empty file)
      gives the zero polynomial and no error.
    - For a prime and an inner exponent the files for [e], [e + 1], ... are
      loaded up to the first one that is missing. *)
Theorem cache_loading (fs : gmap string string) :
  (forall name, fs !! name = None ->
     parsePolynomial to_ZZ fs name = Throw (LogicError "Polynomial file does not exist."))
  /\ (forall name content coeffs,
        fs !! name = Some content ->
        map to_ZZ (words content) = map Some coeffs ->
        parsePolynomial to_ZZ fs name = Ok (ZZX.normalize coeffs))
  /\ (forall name content,
        fs !! name = Some content -> words content = [] ->
        parsePolynomial to_ZZ fs name = Ok [])
  /\ (forall p e_inner polys fuel,
        (length polys < fuel)%nat ->
        (forall i poly, polys !! i = Some poly ->
           parsePolynomial to_ZZ fs
             (fileName p e_inner (e_inner + 1 + Z.of_nat i)) = Ok poly) ->
        fs !! fileName p e_inner (e_inner + 1 + Z.of_nat (length polys)) = None ->
        load_from to_ZZ fuel fs p e_inner (e_inner + 1) [] = Ok polys).
Proof.
  assert (Hread : forall name content coeffs,
            fs !! name = Some content ->
            map to_ZZ (words content) = map Some coeffs ->
            parsePolynomial to_ZZ fs name = Ok (ZZX.normalize coeffs)).
  { intros name content coeffs Hfile Hmap.
    unfold parsePolynomial. rewrite Hfile.
    rewrite read_loop_words by lia.
    exact (store_words_coeffs (words content) coeffs [] Hmap). }
  split; [|split; [exact Hread|split]].
  - intros name Hnone. unfold parsePolynomial. rewrite Hnone. reflexivity.
  - intros name content Hfile Hwords.
    apply (Hread name content [] Hfile). rewrite Hwords. reflexivity.
  - intros p e_inner polys fuel Hfuel Hparse Hmissing.
    exact (load_from_consecutive fs p e_inner polys fuel (e_inner + 1) []
             Hfuel Hparse Hmissing).
Qed.

End Parse.

(** *** Words of a file written one per line *)

Lemma words_from_word (w cur s : string) :
  no_space w = true -> words_from cur (w +:+ s) = words_from (cur +:+ w) s.
Proof.
  revert cur. induction w as [|c w IH]; intros cur Hw.
  - rewrite append_empty_l, append_empty_r. reflexivity.
  - cbn in Hw. apply andb_true_iff in Hw as [Hc Hw].
    apply negb_true_iff in Hc.
    rewrite append_cons. cbn [words_from]. rewrite Hc, (IH _ Hw).
    rewrite append_snoc. reflexivity.
Qed.

Lemma words_unlines (ws : list string) :
  Forall is_word ws -> words (unlines ws) = ws.
Proof.
  induction 1 as [|w ws [Hne Hw] _ IH]; [reflexivity|].
  cbn [unlines]. unfold words. rewrite (words_from_word w _ _ Hw).
  rewrite append_empty_l. cbn.
  destruct w as [|c w]; [congruence|]. cbn. f_equal. exact IH.
Qed.

(** C9 on the directory [two_files]: both files are loaded, the empty one
    as the zero polynomial, and loading stops at the missing third file. *)
Lemma cache_loading_witness :
  load_from to_ZZ_decimal 3 two_files 2 1 (1 + 1) [] = Ok [[]; [1; -2; 3]].
Proof.
  apply (proj2 (proj2 (proj2 (cache_loading to_ZZ_decimal two_files)))
           2 1 [[]; [1; -2; 3]] 3%nat).
  - cbn. lia.
  - intros [|[|i]] poly Hpoly; cbn in Hpoly; inversion Hpoly; subst; reflexivity.
  - reflexivity.
Defined.

(** C9 as stated fails: an empty file is parsed, to the zero polynomial. *)
Lemma parsePolynomial_accepts_empty_file :
  parsePolynomial to_ZZ_decimal two_files (fileName 2 1 2) = Ok []
  /\ two_files !! fileName 2 1 2 = Some EmptyString
  /\ ~ parsePolynomial_as_claimed to_ZZ_decimal two_files (fileName 2 1 2).
Proof.
  split; [reflexivity|]. split; [reflexivity|].
  intros Hclaim. destruct (Hclaim EmptyString eq_refl eq_refl) as [e He].
  discriminate He.
Qed.

End PolyCacheFacts.

(** ** Paterson-Stockmeyer parameters *)

Module PolyEvalFacts.
Import Err PolyEval.

(** *** The double computations, in integers *)

(** [ceiling(d / pow(2, m))] is [⌈d / 2^m⌉] as long as [2^m] stays below
    the slack of [ceiling], that is for [m <= 16]. *)
Lemma ceiling_div_pow2 (d m : Z) :
  1 <= d -> 0 <= m <= 16 ->
  Double.ceiling (inject_Z d / Double.pow 2 m) = ceil_div d (2 ^ m).
Proof.
  intros Hd Hm.
  set (P := 2 ^ m).
  assert (HP1 : 1 <= P) by (subst P; pose proof (Z.pow_pos_nonneg 2 m); lia).
  assert (HP2 : P <= 65536).
  { subst P. change 65536 with (2 ^ 16). apply Z.pow_le_mono_r; lia. }
  assert (Hpow : (Double.pow 2 m == inject_Z P)%Q)
    by (apply DoubleFacts.pow_inject_Z; lia).
  assert (HPQ : ~ (inject_Z P == 0)%Q).
  { intros H0. apply (inject_Z_injective P 0) in H0. lia. }
  assert (Hval :
    (inject_Z d / Double.pow 2 m + (49999 # 100000) + (1 # 2)
     == inject_Z (100000 * d + 99999 * P) / inject_Z (100000 * P))%Q).
  { rewrite Hpow, !inject_Z_plus, !inject_Z_mult. field. exact HPQ. }
  assert (Hsign : Qle_bool 0 (inject_Z d / Double.pow 2 m + (49999 # 100000)) = true).
  { apply Qle_bool_iff. rewrite Hpow.
    apply Qle_trans with (inject_Z d / inject_Z P)%Q.
    - apply Qle_shift_div_l; [unfold Qlt; cbn; lia|].
      rewrite Qmult_0_l. unfold Qle; cbn; lia.
    - rewrite <- (Qplus_0_r (inject_Z d / inject_Z P)) at 1.
      apply Qplus_le_r. discriminate. }
  unfold Double.ceiling, Double.lround. rewrite Hsign.
  rewrite (Qfloor_comp _ _ Hval), <- Zdiv_Qdiv.
  unfold ceil_div. fold P.
  set (n := (d + P - 1) / P).
  assert (Hn : P * n <= d + P - 1 < P * n + P).
  { subst n. pose proof (Z.div_mod (d + P - 1) P ltac:(lia)) as Hdm.
    pose proof (Z.mod_pos_bound (d + P - 1) P ltac:(lia)). lia. }
  symmetry.
  apply (Z.div_unique _ _ n (100000 * d + 99999 * P - 100000 * P * n)); [|lia].
  left. nia.
Qed.

(** [⌈d / 2^m⌉] is at least 1 for [d >= 1]. *)
Lemma ceil_div_pos (a b : Z) : 1 <= a -> 1 <= b -> 1 <= ceil_div a b.
Proof.
  intros Ha Hb. unfold ceil_div.
  apply Z.div_le_lower_bound; lia.
Qed.

(** On an exact quotient [⌈a / b⌉] is [a / b]. *)
Lemma ceil_div_exact (a b : Z) : 1 <= b -> (b | a) -> ceil_div a b = a / b.
Proof.
  intros Hb [q ->]. unfold ceil_div.
  rewrite Z.div_mul by lia.
  replace (q * b + b - 1) with ((b - 1) + q * b) by lia.
  rewrite Z.div_add by lia. rewrite Z.div_small; lia.
Qed.

Lemma log2_up_le_16 (d : Z) : d <= 65536 -> Z.log2_up d <= 16.
Proof.
  intros Hd. change 16 with (Z.log2_up 65536). apply Z.log2_up_le_mono. exact Hd.
Qed.

(** *** One turn of the loop *)


(** The baby-step part of the code agrees with the integer formulas. *)
Lemma baby_step_design (lazy odd : bool) (d m : Z) :
  1 <= d -> 0 <= m <= 16 ->
  baby_step lazy odd d m = design_baby_step lazy odd d m.
Proof.
  intros Hd Hm. unfold baby_step, design_baby_step.
  rewrite ceiling_div_pow2 by lia.
  assert (Hk : 1 <= ceil_div d (2 ^ m)).
  { apply ceil_div_pos; [lia|]. pose proof (Z.pow_pos_nonneg 2 m); lia. }
  set (k := ceil_div d (2 ^ m)) in *.
  unfold floorPowerOfTwo, isPowerOfTwo, floorPowerOfTwo, flooring_log2.
  rewrite (Z.quot_div_nonneg (k - 1) 2), (Z.quot_div_nonneg k 2) by lia.
  rewrite (Z.rem_mod_nonneg k 2) by lia.
  destruct lazy; [reflexivity|].
  replace (k + m - 2) with (k - 1 + (m - 1)) by lia.
  destruct odd; [|reflexivity].
  destruct (m =? 0); [reflexivity|].
  cbv zeta.
  set (k_even := if k mod 2 =? 1 then k + 1 else k).
  assert (Hke : 1 <= k_even) by (subst k_even; destruct (k mod 2 =? 1); lia).
  rewrite (Z.rem_mod_nonneg k_even 4) by lia.
  set (k_odd := if (k_even mod 4 =? 0) && _ then k_even + 2 else k_even).
  assert (Hko : 1 <= k_odd) by (subst k_odd; destruct (_ && _); lia).
  rewrite (Z.quot_div_nonneg k_odd 2) by lia.
  replace (k_odd / 2 + Z.log2 (k_odd - 1) + m - 1)
    with (k_odd / 2 + Z.log2 (k_odd - 1) + (m - 1)) by lia.
  reflexivity.
Qed.




(** *** The loop over [m] *)


(** The largest degree is at least the degree of each polynomial, and it
    is the degree of one of them. *)
Lemma max_degree_ge (polys : list ZZX.t) (f : ZZX.t) :
  In f polys -> ZZX.deg f <= max_degree polys.
Proof.
  unfold max_degree.
  assert (Hgen : forall l d0, d0 <= fold_left (fun d g => Z.max d (ZZX.deg g)) l d0
                 /\ (In f l -> ZZX.deg f <= fold_left (fun d g => Z.max d (ZZX.deg g)) l d0)).
  { induction l as [|g l IH]; intros d0; cbn; [split; [lia | tauto]|].
    destruct (IH (Z.max d0 (ZZX.deg g))) as [Hle Hin]. split; [lia|].
    intros [-> | Hf]; [lia | auto]. }
  intros Hin. exact (proj2 (Hgen polys 0) Hin).
Qed.

Lemma degrees_accepted (polys : list ZZX.t) :
  Forall (fun f => 1 <= ZZX.deg f) polys ->
  forallb (fun f => negb (ZZX.deg f =? -1) && negb (ZZX.deg f =? 0)) polys = true.
Proof.
  intros Hdeg. apply forallb_forall. intros f Hin.
  rewrite Forall_forall in Hdeg. specialize (Hdeg f).
  rewrite list_elem_of_In in Hdeg. specialize (Hdeg Hin).
  destruct (ZZX.deg f =? -1) eqn:E1; [lia|].
  destruct (ZZX.deg f =? 0) eqn:E2; [lia|]. reflexivity.
Qed.



(** The counts of the five turns for these two polynomials, and the
    result: the first turn with the least count. *)
Example getBestParameters_two_degrees :
  map (design_count [x3_plus_x2; x16_plus_1] true false 16) [0; 1; 2; 3; 4]
  = [7; 5; 7; 11; 22]
  /\ getBestParameters [x3_plus_x2; x16_plus_1] true = Ok (mkPS 1 8 5 false).
Proof. split; reflexivity. Qed.


(** The quotient [deg / k] is truncated: for [X^3 + X^2] the code reports
    one multiplication at [m = 1], [k = 2], the baby step [x^2] alone,
    where [⌈3/2⌉ - 1 = 1] giant step is needed on top of it. *)
Lemma getBestParameters_truncated_quotient :
  getBestParameters [x3_plus_x2] false = Ok (mkPS 1 2 1 false)
  /\ design_count [x3_plus_x2] false false 3 1 = 1
  /\ design_giant_step false 2 x3_plus_x2 = 0
  /\ giant_steps_needed 2 x3_plus_x2 = 1.
Proof. repeat split; reflexivity. Qed.

(** A count of -1 is taken for the start of the search: for [X^2 + 1] and
    twice [X + 1] the turn [m = 0] counts -1 ([k = 2], one baby step, and
    -1 for each polynomial of degree 1), and the turn [m = 1], which counts
    1, replaces it. *)
Lemma getBestParameters_sentinel :
  map (design_count [x2_plus_1; x_plus_1; x_plus_1] false false 2) [0; 1] = [-1; 1]
  /\ getBestParameters [x2_plus_1; x_plus_1; x_plus_1] false = Ok (mkPS 1 1 1 false).
Proof. split; reflexivity. Qed.

End PolyEvalFacts.

(** ** The choice of [e] and [e'] *)

Module SetAEFacts.
Import Err SetAE.

(** *** The counting loops *)

Lemma count_up_ge (fuel : nat) (continue : Z -> bool) (e : Z) :
  e <= count_up fuel continue e.
Proof.
  revert e. induction fuel as [|fuel IH]; intros e; cbn; [lia|].
  destruct (continue e); [|lia]. specialize (IH (e + 1)). lia.
Qed.

(** The condition holds at every value the loop steps over. *)
Lemma count_up_before (fuel : nat) (continue : Z -> bool) (e i : Z) :
  e <= i < count_up fuel continue e -> continue i = true.
Proof.
  revert e. induction fuel as [|fuel IH]; intros e; cbn; [lia|].
  destruct (continue e) eqn:Ee; [|lia].
  intros Hi. destruct (Z.eq_dec i e) as [->|Hne]; [exact Ee|].
  apply (IH (e + 1)). lia.
Qed.

(** The loop ends where its condition fails, if it fails at the last value
    the fuel allows. *)
Lemma count_up_stops (fuel : nat) (continue : Z -> bool) (e : Z) :
  continue (e + Z.of_nat fuel) = false ->
  continue (count_up fuel continue e) = false.
Proof.
  revert e. induction fuel as [|fuel IH]; intros e Hlast; cbn.
  - rewrite Z.add_0_r in Hlast. exact Hlast.
  - destruct (continue e) eqn:Ee; [|exact Ee].
    apply IH. rewrite <- Hlast. f_equal. lia.
Qed.

(** *** The bound on [e] *)

Lemma e_bnd_loop_ge (fuel : nat) (p e x b : Z) :
  e_bnd_loop fuel p e x = Some b -> e <= b.
Proof.
  revert e x. induction fuel as [|fuel IH]; intros e x; cbn; [discriminate|].
  destruct (x <=? _).
  - intros Hb. apply IH in Hb. lia.
  - intros [= <-]. lia.
Qed.

Lemma e_bnd_loop_largest (fuel : nat) (p e : Z) :
  2 <= p -> 0 <= e -> p ^ e + 1 < 2 ^ 30 -> 31 - e <= Z.of_nat fuel ->
  exists b, e_bnd_loop fuel p e (p ^ e) = Some b
            /\ e <= b /\ p ^ b + 1 < 2 ^ 30 <= p ^ (b + 1) + 1.
Proof.
  intros Hp. revert e.
  induction fuel as [|fuel IH]; intros e He Hfit Hfuel.
  - assert (2 ^ e <= p ^ e) by (apply Z.pow_le_mono_l; lia).
    assert (2 ^ 30 <= 2 ^ e) by (apply Z.pow_le_mono_r; lia). lia.
  - cbn [e_bnd_loop]. change (Z.shiftl 1 30) with (2 ^ 30).
    rewrite Z.quot_div_nonneg by lia.
    assert (Hsucc : p ^ (e + 1) = p ^ e * p) by (rewrite Z.pow_add_r by lia; lia).
    destruct (p ^ e <=? (2 ^ 30 - 2) / p) eqn:Ele.
    + apply Z.leb_le in Ele.
      assert (Hmul : p ^ e * p <= 2 ^ 30 - 2).
      { pose proof (Z.mul_div_le (2 ^ 30 - 2) p ltac:(lia)). nia. }
      assert (He30 : e + 1 < 30).
      { destruct (Z.lt_ge_cases (e + 1) 30) as [|Hge]; [assumption|].
        assert (2 ^ (e + 1) <= p ^ (e + 1)) by (apply Z.pow_le_mono_l; lia).
        assert (2 ^ 30 <= 2 ^ (e + 1)) by (apply Z.pow_le_mono_r; lia). lia. }
      rewrite <- Hsucc.
      destruct (IH (e + 1)) as (b & Hb & Hle & Hlargest); [lia | lia | lia |].
      exists b. split; [exact Hb|]. split; [lia | exact Hlargest].
    + apply Z.leb_gt in Ele.
      exists e. split; [reflexivity|]. split; [lia|]. split; [exact Hfit|].
      assert (Hmul : 2 ^ 30 - 2 < p ^ e * p).
      { pose proof (Z.mul_succ_div_gt (2 ^ 30 - 2) p ltac:(lia)). nia. }
      lia.
Qed.

(** [e_bnd] is the largest [e] with [p^e + 1 < 2^30]. *)
Lemma compute_e_bnd_largest (p : Z) :
  2 <= p ->
  exists e_bnd, compute_e_bnd p = Some e_bnd
                /\ 0 <= e_bnd /\ p ^ e_bnd + 1 < 2 ^ 30 <= p ^ (e_bnd + 1) + 1.
Proof.
  intros Hp. unfold compute_e_bnd.
  change 1 with (p ^ 0) at 1.
  apply e_bnd_loop_largest; [exact Hp | lia | cbn; lia | lia].
Qed.

(** *** The search *)

Section Search.
Variables (coeff_bound : Binary64.double) (p p2r r e_bnd : Z).

Lemma candidate_zero (e : Z) :
  candidate coeff_bound p p2r r e_bnd e 0 <->
  r + 1 <= e <= e_bnd /\ too_small coeff_bound p (2 * p2r + 2) e = false.
Proof.
  unfold candidate. cbv zeta. split.
  - intros [(_ & Hr & Hb) | (He' & _)]; [tauto | lia].
  - intros [Hr Hb]. left. tauto.
Qed.

Lemma candidate_positive (e e' : Z) :
  1 <= e' ->
  candidate coeff_bound p p2r r e_bnd e e' <->
  e' <= e_bnd /\ Z.max (r + 1) (e' + 1) <= e <= e_bnd
  /\ bound_ok coeff_bound p (2 * p2r + 2) e' e = true.
Proof.
  intros He'. unfold candidate. cbv zeta. split.
  - intros [(H0 & _) | (Hr & He & Hb)]; [lia | tauto].
  - intros (Hr & He & Hb). right. repeat split; try lia. exact Hb.
Qed.

(** The first loop: either no [e] goes with [e' = 0], or the least one is
    found. *)
Lemma first_e_chosen :
  let e := first_e coeff_bound p r (2 * p2r + 2) e_bnd in
  (e_bnd < e /\ forall e2, ~ candidate coeff_bound p p2r r e_bnd e2 0)
  \/ (e <= e_bnd /\ chosen coeff_bound p p2r r e_bnd 0 (e, 0)).
Proof.
  intros e.
  set (continue := fun e : Z =>
         (e <=? e_bnd) && too_small coeff_bound p (2 * p2r + 2) e).
  assert (Hge : r + 1 <= e) by apply count_up_ge.
  assert (Hbefore : forall i, r + 1 <= i < e -> continue i = true).
  { intros i Hi. apply (count_up_before (Z.to_nat (e_bnd - r)) continue (r + 1)).
    exact Hi. }
  assert (Hstop : continue e = false).
  { apply count_up_stops. unfold continue.
    replace (r + 1 + Z.of_nat (Z.to_nat (e_bnd - r)) <=? e_bnd) with false
      by (symmetry; apply Z.leb_gt; lia).
    reflexivity. }
  assert (Hleast : forall e2, candidate coeff_bound p p2r r e_bnd e2 0 -> e <= e2).
  { intros e2 Hc. apply candidate_zero in Hc. destruct Hc as [Hr Hb].
    destruct (Z.lt_ge_cases e2 e) as [Hlt|]; [|lia].
    specialize (Hbefore e2 ltac:(lia)). unfold continue in Hbefore.
    apply andb_true_iff in Hbefore. destruct Hbefore as [_ Hq].
    congruence. }
  destruct (Z.lt_ge_cases e_bnd e) as [Hout|Hin].
  - left. split; [exact Hout|]. intros e2 Hc.
    pose proof (Hleast e2 Hc). apply candidate_zero in Hc. lia.
  - right. split; [lia|]. cbn. repeat split.
    + apply candidate_zero. split; [lia|].
      unfold continue in Hstop.
      replace (e <=? e_bnd) with true in Hstop by (symmetry; apply Z.leb_le; lia).
      exact Hstop.
    + lia.
    + intros e2 e2' Hc Hle.
      destruct (Z.eq_dec e2' 0) as [->|Hne].
      * specialize (Hleast e2 Hc). lia.
      * destruct Hc as [(H0 & _) | (H1 & _)]; lia.
    + intros e2 e2' Hc Hlt.
      destruct Hc as [(H0 & _) | (H1 & _)]; lia.
Qed.

(** One turn of the second loop keeps the invariant. *)
Lemma try_ePrime_chosen (j : Z) (best : Z * Z) :
  0 <= j -> chosen coeff_bound p p2r r e_bnd j best ->
  chosen coeff_bound p p2r r e_bnd (j + 1)
         (try_ePrime coeff_bound p r (2 * p2r + 2) e_bnd best (j + 1)).
Proof.
  intros Hj. destruct best as [e e']. intros (Hc & He' & Hmin & Hfirst).
  unfold try_ePrime.
  set (eTry0 := Z.max (r + 1) (j + 1 + 1)).
  set (continue := fun eTry : Z =>
         (eTry <=? e_bnd) && (eTry - (j + 1) <? e - e')
         && negb (bound_ok coeff_bound p (2 * p2r + 2) (j + 1) eTry)).
  set (eTry := count_up (Z.to_nat (e_bnd + 1 - eTry0)) continue eTry0).
  assert (Hge : eTry0 <= eTry) by apply count_up_ge.
  assert (Hbefore : forall i, eTry0 <= i < eTry -> continue i = true).
  { intros i Hi.
    apply (count_up_before (Z.to_nat (e_bnd + 1 - eTry0)) continue eTry0).
    exact Hi. }
  assert (Hstop : continue eTry = false).
  { apply count_up_stops. unfold continue.
    replace (eTry0 + Z.of_nat (Z.to_nat (e_bnd + 1 - eTry0)) <=? e_bnd) with false
      by (symmetry; apply Z.leb_gt; lia).
    reflexivity. }
  assert (Hleast : forall e2, candidate coeff_bound p p2r r e_bnd e2 (j + 1) -> eTry <= e2).
  { intros e2 Hc2. apply candidate_positive in Hc2; [|lia].
    destruct Hc2 as (_ & Hr & Hb).
    destruct (Z.lt_ge_cases e2 eTry) as [Hlt|]; [|lia].
    specialize (Hbefore e2 ltac:(subst eTry0; lia)). unfold continue in Hbefore.
    apply andb_true_iff in Hbefore. destruct Hbefore as [_ Hq].
    apply negb_true_iff in Hq. congruence. }
  destruct ((eTry <=? e_bnd) && (eTry - (j + 1) <? e - e')) eqn:Eacc.
  - apply andb_true_iff in Eacc. destruct Eacc as [Hin Hlt].
    apply Z.leb_le in Hin. apply Z.ltb_lt in Hlt.
    unfold continue in Hstop. 
    replace (eTry <=? e_bnd) with true in Hstop by (symmetry; apply Z.leb_le; lia).
    replace (eTry - (j + 1) <? e - e') with true in Hstop
      by (symmetry; apply Z.ltb_lt; lia).
    cbn in Hstop. apply negb_false_iff in Hstop.
    cbn. repeat split.
    + apply candidate_positive; [lia|].
      split; [subst eTry0; lia|]. split; [subst eTry0; lia | exact Hstop].
    + lia.
    + intros e2 e2' Hc2 Hle.
      destruct (Z.eq_dec e2' (j + 1)) as [->|Hne].
      * specialize (Hleast e2 Hc2). lia.
      * specialize (Hmin e2 e2' Hc2 ltac:(lia)). lia.
    + intros e2 e2' Hc2 Hlt'.
      specialize (Hmin e2 e2' Hc2 ltac:(lia)). lia.
  - cbn. repeat split.
    + exact Hc.
    + lia.
    + intros e2 e2' Hc2 Hle.
      destruct (Z.eq_dec e2' (j + 1)) as [->|Hne].
      * specialize (Hleast e2 Hc2).
        apply candidate_positive in Hc2; [|lia].
        apply andb_false_iff in Eacc. destruct Eacc as [Hout|Hnlt].
        -- apply Z.leb_gt in Hout. lia.
        -- apply Z.ltb_ge in Hnlt. lia.
      * apply Hmin; [exact Hc2 | lia].
    + exact Hfirst.
Qed.

Lemma search_chosen (n : nat) (best : Z * Z) :
  chosen coeff_bound p p2r r e_bnd 0 best ->
  chosen coeff_bound p p2r r e_bnd (Z.of_nat n)
         (fold_left (try_ePrime coeff_bound p r (2 * p2r + 2) e_bnd)
                    (seqZ 1 (Z.of_nat n)) best).
Proof.
  intros H0. induction n as [|n IH]; [exact H0|].
  rewrite seqZ_S, fold_left_app. cbn [fold_left].
  replace (Z.of_nat (S n)) with (Z.of_nat n + 1) by lia.
  replace (1 + Z.of_nat n) with (Z.of_nat n + 1) by lia.
  apply try_ePrime_chosen; [lia | exact IH].
Qed.

End Search.

(** C2, as the code has it.  For [p >= 2] the bound [e_bnd] is the largest
    [e] with [p^e + 1 < 2^30].  The pairs considered are [e' = 0] with [e]
    in [[r+1, e_bnd]] and not [p^e < (2 p^r + 2) coeff_bound 2], and [e']
    in [[1, e_bnd]] with [e] in [[max(r+1, e'+1), e_bnd]] and
    [p^e >= (p^e' fudge + 2 p^r + 2) coeff_bound 2]; both tests are the
    [double] computations of the source, with their roundings.  If no [e]
    goes with [e' = 0] the call fails; otherwise the result is such a pair,
    of least [e - e'], and the one of least [e'] among those. *)
Theorem setAE_least_difference (coeff_bound : Binary64.double) (p p2r r : Z) :
  2 <= p ->
  exists e_bnd,
    compute_e_bnd p = Some e_bnd
    /\ p ^ e_bnd + 1 < 2 ^ 30 <= p ^ (e_bnd + 1) + 1
    /\ ((setAE coeff_bound p p2r r
         = Throw (RuntimeError "setAE: cannot find suitable e")
         /\ forall e2, ~ candidate coeff_bound p p2r r e_bnd e2 0)
        \/ exists e e',
            setAE coeff_bound p p2r r = Ok (e, e')
            /\ candidate coeff_bound p p2r r e_bnd e e'
            /\ (forall e2 e2', candidate coeff_bound p p2r r e_bnd e2 e2' ->
                               e - e' <= e2 - e2')
            /\ (forall e2 e2', candidate coeff_bound p p2r r e_bnd e2 e2' ->
                               e2' < e' -> e - e' < e2 - e2')).
Proof.
  intros Hp.
  destruct (compute_e_bnd_largest p Hp) as (e_bnd & Hbnd & Hpos & Hlargest).
  exists e_bnd. split; [exact Hbnd|]. split; [exact Hlargest|].
  unfold setAE. rewrite Hbnd. cbv zeta.
  destruct (first_e_chosen coeff_bound p p2r r e_bnd) as [[Hout Hnone] | [Hin H0]].
  - left. split; [|exact Hnone].
    unfold assertTrue.
    replace (e_bnd <? first_e coeff_bound p r (2 * p2r + 2) e_bnd) with true
      by (symmetry; apply Z.ltb_lt; exact Hout).
    reflexivity.
  - right.
    unfold assertTrue.
    replace (e_bnd <? first_e coeff_bound p r (2 * p2r + 2) e_bnd) with false
      by (symmetry; apply Z.ltb_ge; exact Hin).
    cbn [negb].
    pose proof (search_chosen coeff_bound p p2r r e_bnd (Z.to_nat e_bnd) _ H0) as Hch.
    rewrite Z2Nat.id in Hch by exact Hpos.
    destruct (fold_left _ _ _) as [e e'] eqn:Efold.
    destruct Hch as (Hc & He' & Hmin & Hfirst).
    exists e, e'. split; [reflexivity|]. split; [exact Hc|]. split; [|exact Hfirst].
    intros e2 e2' Hc2. apply Hmin; [exact Hc2|].
    destruct Hc2 as [(-> & _) | (H1 & _)]; lia.
Qed.

(** C2 at [p = 3], [r = 2] and the bound [0x1.d745d1745d175p-2]. *)
Lemma setAE_least_difference_witness :
  exists e_bnd,
    compute_e_bnd 3 = Some e_bnd
    /\ 3 ^ e_bnd + 1 < 2 ^ 30 <= 3 ^ (e_bnd + 1) + 1
    /\ ((setAE near_81_176 3 9 2
         = Throw (RuntimeError "setAE: cannot find suitable e")
         /\ forall e2, ~ candidate near_81_176 3 9 2 e_bnd e2 0)
        \/ exists e e',
            setAE near_81_176 3 9 2 = Ok (e, e')
            /\ candidate near_81_176 3 9 2 e_bnd e e'
            /\ (forall e2 e2', candidate near_81_176 3 9 2 e_bnd e2 e2' ->
                               e - e' <= e2 - e2')
            /\ (forall e2 e2', candidate near_81_176 3 9 2 e_bnd e2 e2' ->
                               e2' < e' -> e - e' < e2 - e2')).
Proof. apply (setAE_least_difference near_81_176 3 9 2). lia. Defined.

(** The roundings count: at this bound the result is [e = 3], [e' = 2],
    a pair whose bound holds as the code computes it (the product rounds to
    27) and fails in exact arithmetic. *)
Example setAE_rounds :
  setAE near_81_176 3 9 2 = Ok (3, 2)
  /\ bound_ok near_81_176 3 (2 * 9 + 2) 2 3 = true
  /\ ~ exact_bound_odd (Binary64.exact near_81_176) 3 9 3 2.
Proof.
  split; [vm_compute; reflexivity|]. split; [vm_compute; reflexivity|].
  unfold exact_bound_odd. vm_compute. intros Hle. apply Hle. reflexivity.
Qed.

(** [compute_fudge(2^28, 2^29)] is 1: the correction [2^-56] is lost in
    the sum. *)
Example compute_fudge_rounds :
  compute_fudge (2 ^ 28) (2 ^ 29) = Binary64.of_long 1.
Proof. vm_compute. reflexivity. Qed.

(** C2 as stated fails: with [p = 2], [r = 1] and the bound [2^25] the
    result is [e = 29] with [e' = 0], which is outside [[1, e_bnd]]. *)
Lemma setAE_keeps_ePrime_zero :
  setAE two_to_25 2 2 1 = Ok (29, 0)
  /\ ~ setAE_as_claimed two_to_25 2 2 1.
Proof.
  assert (Hrun : setAE two_to_25 2 2 1 = Ok (29, 0))
    by (vm_compute; reflexivity).
  split; [exact Hrun|].
  intros (e_bnd & e & e' & _ & Hres & (He' & _) & _).
  rewrite Hrun in Hres. injection Hres as <- <-. lia.
Qed.

(** The comparison is not strict: with [p = 3], [r = 1] and the bound
    [3^18 / 16] the result is [e = 18], [e' = 0], where [p^e] equals
    [(2 p^r + 2) coeff_bound 2]. *)
Lemma setAE_accepts_equality :
  setAE three_to_18_by_16 3 3 1 = Ok (18, 0)
  /\ PrimFloat.mul (PrimFloat.mul (Binary64.of_long (2 * 3 + 2)) three_to_18_by_16)
       (Binary64.of_long 2)
     = Binary64.of_long (3 ^ 18).
Proof. split; vm_compute; reflexivity. Qed.

End SetAEFacts.

(** ** Coefficient vectors *)

Module ZZXFacts.

Lemma normalize_nil_iff (f : list Z) :
  ZZX.normalize f = [] <-> Forall (fun c => c = 0) f.
Proof.
  induction f as [|c f IH]; cbn [ZZX.normalize].
  - split; [constructor | reflexivity].
  - destruct (ZZX.normalize f) as [|d g] eqn:E.
    + destruct (Z.eqb_spec c 0) as [->|Hc].
      * split; [intros _; constructor; [reflexivity | apply IH; reflexivity]
               | reflexivity].
      * split; [discriminate | intros HF; inversion HF; subst; congruence].
    + split; [discriminate|].
      intros HF. inversion HF; subst.
      assert (Hnil : d :: g = []) by (apply IH; assumption). discriminate.
Qed.

(** Normalising does not change any coefficient. *)
Lemma coeff_normalize (f : list Z) (i : nat) :
  ZZX.coeff (ZZX.normalize f) i = ZZX.coeff f i.
Proof.
  unfold ZZX.coeff. revert i.
  induction f as [|c f IH]; intros i; [reflexivity|].
  cbn [ZZX.normalize].
  destruct (ZZX.normalize f) as [|d g] eqn:E.
  - assert (HF : Forall (fun c => c = 0) f) by (apply normalize_nil_iff; exact E).
    assert (Hz : forall j, nth j f 0 = 0).
    { intros j. destruct (nth_in_or_default j f 0) as [Hin | ->]; [|reflexivity].
      rewrite Forall_forall in HF. apply HF, list_elem_of_In. exact Hin. }
    destruct (Z.eqb_spec c 0) as [->|Hc].
    + destruct i as [|i]; cbn; [reflexivity|]. rewrite Hz. destruct i; reflexivity.
    + destruct i as [|i]; cbn; [reflexivity|]. rewrite Hz. destruct i; reflexivity.
  - destruct i as [|i]; cbn [nth]; [reflexivity|]. apply IH.
Qed.

(** A normalised vector does not end in 0. *)
Lemma normalize_last (f : list Z) : last (ZZX.normalize f) <> Some 0.
Proof.
  induction f as [|c f IH]; cbn [ZZX.normalize]; [discriminate|].
  destruct (ZZX.normalize f) as [|d g] eqn:E.
  - destruct (Z.eqb_spec c 0) as [->|Hc]; cbn; congruence.
  - change (last (c :: d :: g)) with (last (d :: g)). exact IH.
Qed.

(** A vector that does not end in 0 is normalised already. *)
Lemma normalize_fixed (f : list Z) : last f <> Some 0 -> ZZX.normalize f = f.
Proof.
  induction f as [|c f IH]; [reflexivity|].
  intros Hlast. cbn [ZZX.normalize].
  destruct f as [|d g].
  - cbn in *. destruct (Z.eqb_spec c 0) as [->|Hc]; [congruence | reflexivity].
  - rewrite IH by exact Hlast. reflexivity.
Qed.

Lemma normalize_idempotent (f : list Z) :
  ZZX.normalize (ZZX.normalize f) = ZZX.normalize f.
Proof. apply normalize_fixed, normalize_last. Qed.

(** The value of a polynomial depends on its coefficients only. *)
Lemma eval_normalize (f : list Z) (x : Z) :
  Poly.eval (ZZX.normalize f) x = Poly.eval f x.
Proof.
  induction f as [|c f IH]; [reflexivity|].
  cbn [ZZX.normalize Poly.eval]. rewrite <- IH.
  destruct (ZZX.normalize f) as [|d g]; [|reflexivity].
  destruct (Z.eqb_spec c 0) as [->|Hc]; cbn; lia.
Qed.

End ZZXFacts.

(** ** Secret-key handles: comparison and product *)

Module SKHandleOpsFacts.
Import SKHandle SKHandleOps.

Ltac handle_cases :=
  repeat match goal with
         | h : SKHandle.t |- _ => destruct h as [? ? ?]
         end;
  unfold operator_eq, operator_neq, isBase, setBase, setOne, mul, isOne,
    set_secretKeyID in *;
  cbn [powerOfS powerOfX secretKeyID fst snd] in *;
  repeat match goal with
         | |- context [?a =? ?b] => destruct (Z.eqb_spec a b)
         | |- context [?a <=? ?b] => destruct (Z.leb_spec a b)
         | |- context [?a <? ?b] => destruct (Z.ltb_spec a b)
         | H : context [?a =? ?b] |- _ => destruct (Z.eqb_spec a b)
         | H : context [?a <=? ?b] |- _ => destruct (Z.leb_spec a b)
         | H : context [?a <? ?b] |- _ => destruct (Z.ltb_spec a b)
         end;
  cbn [andb orb negb fst snd powerOfS powerOfX secretKeyID] in *.

(** [operator==] is an equivalence on handles: it holds between any two
    handles that are "one" and otherwise only between equal handles. *)
Theorem operator_eq_equivalence :
  (forall h, operator_eq h h = true)
  /\ (forall h1 h2, operator_eq h1 h2 = operator_eq h2 h1)
  /\ (forall h1 h2 h3,
        operator_eq h1 h2 = true -> operator_eq h2 h3 = true ->
        operator_eq h1 h3 = true)
  /\ (forall h1 h2,
        operator_eq h1 h2 = true
        <-> (isOne h1 = true /\ isOne h2 = true) \/ h1 = h2)
  /\ (forall h1 h2, operator_neq h1 h2 = negb (operator_eq h1 h2)).
Proof.
  split; [|split; [|split; [|split]]].
  - intros h. handle_cases; try reflexivity; lia.
  - intros h1 h2. handle_cases; try reflexivity; lia.
  - intros h1 h2 h3 H12 H23. handle_cases; try reflexivity; try discriminate; lia.
  - intros h1 h2. split.
    + intros Heq.
      handle_cases; try discriminate;
        first [left; split; reflexivity | right; f_equal; lia].
    + intros [[H1 H2] | ->].
      * handle_cases; try reflexivity; try discriminate; lia.
      * handle_cases; try reflexivity; lia.
  - reflexivity.
Qed.

(** What [setBase] and [setOne] leave behind, as [isBase] and [isOne] see
    it: after [setBase(id)] the handle is a base, of the key [id] when
    [id >= 0] and of the key it had before otherwise; after [setOne(id)] it
    is "one"; and no handle is both a base and "one". *)
Theorem set_then_is (h : t) (id k : Z) :
  isBase (setBase h id) k
  = ((k <? 0) || (k =? (if 0 <=? id then id else secretKeyID h)))
  /\ isOne (setBase h id) = false
  /\ isOne (setOne h id) = true
  /\ isBase (setOne h id) k = false
  /\ secretKeyID (setOne h id) = secretKeyID (setBase h id)
  /\ (isBase h k = true -> isOne h = false)
  /\ operator_eq (setOne h id) SKHandle_default = true.
Proof.
  repeat split; try (handle_cases; try reflexivity; try discriminate; lia).
Qed.

(** The product of two handles does not depend on their order, unless
    both are "one": then the product is the second factor, which is "one"
    either way. *)
Theorem mul_commutes (this a b : t) :
  (isOne a && isOne b = false -> mul this a b = mul this b a)
  /\ (isOne a = true -> isOne b = true ->
      (mul this a b).1 = b /\ (mul this b a).1 = a
      /\ operator_eq (mul this a b).1 (mul this b a).1 = true).
Proof.
  split.
  - intros Hone.
    handle_cases; try reflexivity; try discriminate; try lia;
      try (f_equal; f_equal; lia).
  - intros Ha Hb.
    handle_cases; try discriminate; repeat split; try reflexivity; lia.
Qed.

(** The error state of a product: a call that returns true never leaves
    the key id -1, and when neither factor is "one" the call returns
    false exactly when it leaves the key id -1. *)
Theorem mul_error_state (this a b : t) :
  ((mul this a b).2 = true -> secretKeyID (mul this a b).1 <> -1)
  /\ (isOne a = false -> isOne b = false ->
      ((mul this a b).2 = false <-> secretKeyID (mul this a b).1 = -1)).
Proof.
  split.
  - intros Hok. handle_cases; try discriminate; lia.
  - intros Ha Hb. split; intros Hres;
      handle_cases; try discriminate; try reflexivity; lia.
Qed.

(** Products of valid handles (powers of [s] and key ids not negative)
    associate: both ways of bracketing succeed together, and then give
    the same handle, whatever the receivers held before. *)
Theorem mul_associates (t1 t2 t3 t4 a b c : t) :
  0 <= powerOfS a -> 0 <= powerOfS b -> 0 <= powerOfS c ->
  0 <= secretKeyID a -> 0 <= secretKeyID b -> 0 <= secretKeyID c ->
  let ab := mul t1 a b in
  let ab_c := mul t2 ab.1 c in
  let bc := mul t3 b c in
  let a_bc := mul t4 a bc.1 in
  (ab.2 && ab_c.2 = bc.2 && a_bc.2)
  /\ (ab.2 && ab_c.2 = true -> ab_c.1 = a_bc.1).
Proof.
  intros Ha Hb Hc Hka Hkb Hkc. cbv zeta.
  destruct a as [sa ta ka], b as [sb tb kb], c as [sc tc kc].
  cbn [powerOfS secretKeyID] in *.
  unfold mul, isOne, set_secretKeyID.
  cbn [powerOfS powerOfX secretKeyID fst snd].
  destruct (Z.eqb_spec sa 0) as [Ea|Ea]; destruct (Z.eqb_spec sb 0) as [Eb|Eb];
    destruct (Z.eqb_spec sc 0) as [Ec|Ec];
    cbn [andb orb negb fst snd powerOfS powerOfX secretKeyID];
    repeat match goal with
           | |- context [?x =? ?y] =>
               destruct (Z.eqb_spec x y); try (exfalso; lia);
               cbn [andb orb negb fst snd powerOfS powerOfX secretKeyID]
           | |- context [?x <=? ?y] =>
               destruct (Z.leb_spec x y); try (exfalso; lia);
               cbn [andb orb negb fst snd powerOfS powerOfX secretKeyID]
           end;
    (split; [reflexivity
            | intros Hok; try discriminate Hok; try reflexivity; f_equal; lia]).
Qed.

(** The product of a base handle of key 0 with a handle of [s^2] under
    key 0, bracketed both ways with a third base handle. *)
Lemma mul_associates_witness :
  ((mul (mk 0 1 0) (mk 1 1 0) (mk 2 1 0)).2
   && (mul (mk 0 1 0) (mul (mk 0 1 0) (mk 1 1 0) (mk 2 1 0)).1 (mk 1 1 0)).2
   = (mul (mk 0 1 0) (mk 2 1 0) (mk 1 1 0)).2
     && (mul (mk 0 1 0) (mk 1 1 0) (mul (mk 0 1 0) (mk 2 1 0) (mk 1 1 0)).1).2)
  /\ ((mul (mk 0 1 0) (mk 1 1 0) (mk 2 1 0)).2
      && (mul (mk 0 1 0) (mul (mk 0 1 0) (mk 1 1 0) (mk 2 1 0)).1 (mk 1 1 0)).2 = true ->
      (mul (mk 0 1 0) (mul (mk 0 1 0) (mk 1 1 0) (mk 2 1 0)).1 (mk 1 1 0)).1
      = (mul (mk 0 1 0) (mk 1 1 0) (mul (mk 0 1 0) (mk 2 1 0) (mk 1 1 0)).1).1).
Proof.
  apply (mul_associates (mk 0 1 0) (mk 0 1 0) (mk 0 1 0) (mk 0 1 0)
           (mk 1 1 0) (mk 2 1 0) (mk 1 1 0)); cbn; lia.
Defined.

End SKHandleOpsFacts.

(** ** Looking up the parts of a ciphertext *)

Module CtxtPartsFacts.
Import SKHandle SKHandleOps ReCrypt CtxtParts.

Lemma index_from_spec (parts : list CtxtPart) (handle : SKHandle.t) (i0 : Z) :
  let i := index_from i0 parts handle in
  0 <= i0 ->
  (i = -1 /\ Forall (fun part => operator_eq (skHandle part) handle = false) parts)
  \/ (i0 <= i < i0 + Z.of_nat (length parts)
      /\ exists part,
           parts !! Z.to_nat (i - i0) = Some part
           /\ operator_eq (skHandle part) handle = true
           /\ forall (j : nat) part',
                (j < Z.to_nat (i - i0))%nat -> parts !! j = Some part' ->
                operator_eq (skHandle part') handle = false).
Proof.
  revert i0. induction parts as [|part rest IH]; intros i0; cbn zeta; intros Hi0.
  - left. split; [reflexivity | constructor].
  - cbn [index_from].
    destruct (operator_eq (skHandle part) handle) eqn:E.
    + right. split; [cbn [length]; lia|].
      exists part. replace (i0 - i0) with 0 by lia.
      split; [reflexivity|]. split; [exact E|]. intros j part' Hj. cbn in Hj. lia.
    + destruct (IH (i0 + 1) ltac:(lia)) as [[Hm HF] | (Hr & p & Hp & Hpe & Hbefore)].
      * left. split; [exact Hm | constructor; assumption].
      * right. split; [cbn [length]; lia|].
        exists p.
        replace (Z.to_nat (index_from (i0 + 1) rest handle - i0))
          with (S (Z.to_nat (index_from (i0 + 1) rest handle - (i0 + 1)))) by lia.
        split; [exact Hp|]. split; [exact Hpe|].
        intros [|j] part' Hj Hl.
        -- cbn in Hl. injection Hl as <-. exact E.
        -- cbn in Hl. apply (Hbefore j part'); [lia | exact Hl].
Qed.

(** [getPartIndexByHandle] returns -1 exactly when no part has a handle
    that [operator==] accepts, and otherwise the index of the first part
    that has one. *)
Theorem getPartIndexByHandle_first_match (parts : list CtxtPart)
    (handle : SKHandle.t) :
  let i := getPartIndexByHandle parts handle in
  (i = -1 <-> Forall (fun part => operator_eq (skHandle part) handle = false) parts)
  /\ (i <> -1 ->
      0 <= i < Z.of_nat (length parts)
      /\ exists part,
           parts !! Z.to_nat i = Some part
           /\ operator_eq (skHandle part) handle = true
           /\ forall (j : nat) part',
                (j < Z.to_nat i)%nat -> parts !! j = Some part' ->
                operator_eq (skHandle part') handle = false).
Proof.
  cbv zeta. unfold getPartIndexByHandle.
  pose proof (index_from_spec parts handle 0 ltac:(lia)) as Hspec.
  cbv zeta in Hspec. rewrite Z.sub_0_r in Hspec.
  destruct Hspec as [[Hm HF] | (Hr & p & Hp & Hpe & Hbefore)].
  - split; [tauto | congruence].
  - split.
    + split; [lia|]. intros HF.
      rewrite Forall_forall in HF.
      assert (Hin : p ∈ parts) by (eapply list_elem_of_lookup_2; exact Hp).
      specialize (HF p Hin). congruence.
    + intros _. split; [lia|]. exists p. auto.
Qed.

(** A ciphertext is in canonical form when it is empty, a single part
    with the handle "one", or such a part followed by a base part of the
    key.  In a canonical ciphertext the "one" handle is found at index 0
    and the base handle of the key (when there is a second part and the key
    id is not negative) at index 1. *)
Theorem inCanonicalForm_lookup (parts : list CtxtPart) (keyID : Z) (h : SKHandle.t) :
  (inCanonicalForm parts keyID = true
   <-> parts = []
       \/ (exists p0, parts = [p0] /\ isOne (skHandle p0) = true)
       \/ (exists p0 p1, parts = [p0; p1] /\ isOne (skHandle p0) = true
                         /\ isBase (skHandle p1) keyID = true))
  /\ (inCanonicalForm parts keyID = true -> parts <> [] ->
      getPartIndexByHandle parts (setOne h (-1)) = 0)
  /\ (inCanonicalForm parts keyID = true -> length parts = 2%nat -> 0 <= keyID ->
      getPartIndexByHandle parts (setBase h keyID) = 1).
Proof.
  assert (Hchar : inCanonicalForm parts keyID = true
   <-> parts = []
       \/ (exists p0, parts = [p0] /\ isOne (skHandle p0) = true)
       \/ (exists p0 p1, parts = [p0; p1] /\ isOne (skHandle p0) = true
                         /\ isBase (skHandle p1) keyID = true)).
  { unfold inCanonicalForm.
    destruct parts as [|p0 [|p1 [|p2 rest]]]; cbn.
    - split; auto.
    - destruct (isOne (skHandle p0)) eqn:E0; cbn; split.
      + intros _. right. left. exists p0. auto.
      + auto.
      + discriminate.
      + intros [H|[(q & Hq & Hone)|(q0 & q1 & Hq & _)]]; try discriminate.
        injection Hq as <-. congruence.
    - destruct (isOne (skHandle p0)) eqn:E0; cbn.
      + destruct (isBase (skHandle p1) keyID) eqn:E1; cbn; split.
        * intros _. right. right. exists p0, p1. auto.
        * auto.
        * discriminate.
        * intros [H|[(q & Hq & Hone)|(q0 & q1 & Hq & _ & Hb)]]; try discriminate.
          injection Hq as <- <-. congruence.
      + split; [discriminate|].
        intros [H|[(q & Hq & Hone)|(q0 & q1 & Hq & Ho & _)]]; try discriminate.
        injection Hq as <- <-. congruence.
    - split; [discriminate|].
      intros [H|[(q & Hq & Hone)|(q0 & q1 & Hq & _)]]; discriminate. }
  split; [exact Hchar|]. split.
  - intros Hcan Hne. apply Hchar in Hcan.
    destruct Hcan as [->|[(p0 & -> & H0)|(p0 & p1 & -> & H0 & _)]]; [congruence| |].
    all: unfold getPartIndexByHandle; cbn [index_from];
      unfold operator_eq, setOne, isOne in *; cbn [powerOfS];
      rewrite H0; reflexivity.
  - intros Hcan Hlen Hk. apply Hchar in Hcan.
    destruct Hcan as [->|[(p0 & -> & H0)|(p0 & p1 & -> & H0 & H1)]]; try discriminate.
    unfold getPartIndexByHandle; cbn [index_from].
    destruct (skHandle p0) as [s0 t0 k0], (skHandle p1) as [s1 t1 k1].
    unfold operator_eq, setBase, isOne, isBase in *.
    cbn [powerOfS powerOfX secretKeyID] in *.
    apply andb_true_iff in H1. destruct H1 as [H1 Hkey].
    apply andb_true_iff in H1. destruct H1 as [Hs1 Ht1].
    apply Z.eqb_eq in H0, Hs1, Ht1. subst s0 s1 t1.
    replace (0 <=? keyID) with true by (symmetry; apply Z.leb_le; lia).
    assert (k1 = keyID).
    { apply orb_true_iff in Hkey. destruct Hkey as [Hneg|Heq]; lia. }
    subst k1. cbn. rewrite Z.eqb_refl. reflexivity.
Qed.

End CtxtPartsFacts.

(** ** [newMakeDivisible]: failures and a second run *)

Module MakeDivisibleMore.
Import Err MakeDivisible.

(** With [q = 1 (mod p2e)] the sanity check of the loop never fails. *)
Lemma round_coeff_total (p p2e q : Z) (rnd : coins) (z : Z) (pos : nat) :
  2 <= p2e -> q mod p2e = 1 ->
  exists z' v pos',
    round_coeff p p2e q rnd z pos = Some (z', v, pos') /\ z' mod p2e = 0.
Proof.
  intros Hp2e Hq1. unfold round_coeff.
  set (zMod := z mod p2e).
  destruct (if Z.quot p2e 2 <? zMod then (true, pos)
            else if (p =? 2) && (zMod =? Z.quot p2e 2) then (rnd pos, S pos)
                 else (false, pos)) as [up pos'].
  set (v := if up then p2e - zMod else - zMod).
  assert (Hmod0 : (z + q * v) mod p2e = 0).
  { rewrite Z.add_mod, Z.mul_mod, Hq1 by lia.
    assert (Hv : v mod p2e = (- zMod) mod p2e).
    { destruct up; subst v; [|reflexivity].
      replace (p2e - zMod) with (- zMod + 1 * p2e) by lia.
      apply Z.mod_add. lia. }
    rewrite Hv, Z.mul_1_l, Z.mod_mod by lia.
    subst zMod. rewrite <- Z.add_mod by lia.
    replace (z + - (z mod p2e)) with (p2e * (z / p2e))
      by (pose proof (Z.div_mod z p2e ltac:(lia)); lia).
    rewrite Z.mul_comm. apply Z.mod_mul. lia. }
  rewrite Hmod0. cbn [Z.eqb negb]. eauto.
Qed.

Lemma round_all_total (p p2e q : Z) (rnd : coins) (pwrfl : list Z) (pos : nat) :
  2 <= p2e -> q mod p2e = 1 ->
  exists pwrfl' vvec pos', round_all p p2e q rnd pwrfl pos = Some (pwrfl', vvec, pos').
Proof.
  intros Hp2e Hq1. revert pos.
  induction pwrfl as [|z rest IH]; intros pos; cbn [round_all]; [eauto|].
  destruct (round_coeff_total p p2e q rnd z pos Hp2e Hq1) as (z' & v & pos1 & -> & _).
  destruct (IH pos1) as (zs & vs & pos2 & ->). eauto.
Qed.

(** A coefficient that is a multiple of [p2e] is left as it is, with the
    multiple 0 and without a coin. *)
Lemma round_coeff_multiple (p p2e q : Z) (rnd : coins) (z : Z) (pos : nat) :
  2 <= p2e -> z mod p2e = 0 ->
  round_coeff p p2e q rnd z pos = Some (z, 0, pos).
Proof.
  intros Hp2e Hz. unfold round_coeff. rewrite Hz.
  rewrite (Z.quot_div_nonneg p2e 2) by lia.
  assert (1 <= p2e / 2) by (apply Z.div_le_lower_bound; lia).
  replace (p2e / 2 <? 0) with false by (symmetry; apply Z.ltb_ge; lia).
  replace (0 =? p2e / 2) with false by (symmetry; apply Z.eqb_neq; lia).
  rewrite andb_false_r. cbn [Z.opp].
  rewrite Z.mul_0_r, Z.add_0_r, Hz. reflexivity.
Qed.

(** What the loop returns consists of multiples of [p2e]. *)
Lemma round_all_multiples (p p2e q : Z) (rnd : coins) (pwrfl : list Z) (pos : nat)
    (pwrfl' vvec : list Z) (pos' : nat) :
  round_all p p2e q rnd pwrfl pos = Some (pwrfl', vvec, pos') ->
  Forall (fun z => z mod p2e = 0) pwrfl'.
Proof.
  revert pos pwrfl' vvec pos'.
  induction pwrfl as [|z rest IH]; intros pos pwrfl' vvec pos'; cbn [round_all].
  - intros [= <- <- <-]. constructor.
  - destruct (round_coeff p p2e q rnd z pos) as [[[z' v] pos1]|] eqn:Estep; [|discriminate].
    destruct (round_all p p2e q rnd rest pos1) as [[[zs vs] pos2]|] eqn:Erest;
      [|discriminate].
    intros [= <- <- <-]. constructor.
    + unfold round_coeff in Estep.
      destruct (if Z.quot p2e 2 <? z mod p2e then (true, pos)
                else if (p =? 2) && (z mod p2e =? Z.quot p2e 2)
                     then (rnd pos, S pos) else (false, pos)) as [up pos0].
      destruct (_ mod p2e =? 0) eqn:Echeck in Estep; [|discriminate].
      cbn [negb] in Estep. injection Estep as <- _ _. lia.
    + eapply IH. exact Erest.
Qed.

Lemma round_all_fixed (p p2e q : Z) (rnd : coins) (pwrfl : list Z) (pos : nat) :
  2 <= p2e -> Forall (fun z => z mod p2e = 0) pwrfl ->
  round_all p p2e q rnd pwrfl pos = Some (pwrfl, map (fun _ => 0) pwrfl, pos).
Proof.
  intros Hp2e HF. induction HF as [|z rest Hz HF IH]; cbn [round_all map];
    [reflexivity|].
  rewrite round_coeff_multiple by assumption. rewrite IH. reflexivity.
Qed.

Section WithConversion.
Context `{PowerfulDCRT}.

(** How a call of [newMakeDivisible] can end.  For [p2e = 1] it returns at
    once, whatever [q] is.  Otherwise it throws [InvalidArgument] when
    [q <= 0], when [p2e <= 0] or when [q % p2e] is not 1, in this order,
    and in every other case it returns normally: the [exit(1)] behind the
    sanity check of the loop is never reached, for any [p] and any
    outcome of the coins. *)
Theorem newMakeDivisible_outcomes (debug : bool) (poly vpoly : ZZX.t)
    (p p2e q : Z) (rnd : coins) (pos : nat) :
  let call := newMakeDivisible debug poly p2e q p vpoly rnd pos in
  (p2e = 1 -> call = Ok (mkResult poly [] (ZZXtoPowerful poly) [] pos))
  /\ (p2e <> 1 -> q <= 0 -> call = Throw (InvalidArgument "q must be positive"))
  /\ (p2e <> 1 -> 0 < q -> p2e <= 0 ->
      call = Throw (InvalidArgument "p2e must be positive"))
  /\ (p2e <> 1 -> 0 < q -> 0 < p2e -> Z.rem q p2e <> 1 ->
      call = Throw (InvalidArgument "q must equal 1 modulo p2e"))
  /\ (p2e <> 1 -> 0 < q -> 0 < p2e -> Z.rem q p2e = 1 ->
      exists r, call = Ok r /\ Forall (fun z => z mod p2e = 0) (res_pwrfl r)).
Proof.
  cbv zeta. unfold newMakeDivisible.
  destruct (Z.eqb_spec p2e 1) as [E1|E1].
  { repeat split; intros; congruence. }
  split; [congruence|].
  destruct (Z.ltb_spec 0 q) as [Hq|Hq].
  2:{ repeat split; intros; try lia; reflexivity. }
  split; [intros; lia|].
  destruct (Z.ltb_spec 0 p2e) as [Hp|Hp].
  2:{ repeat split; intros; try lia; reflexivity. }
  split; [intros; lia|].
  destruct (Z.eqb_spec (Z.rem q p2e) 1) as [Hr|Hr].
  2:{ repeat split; intros; try lia; try congruence; reflexivity. }
  split; [intros; congruence|].
  intros _ _ _ _. cbn [assertTrue mbind outcome_bind].
  assert (Hq1 : q mod p2e = 1) by (rewrite <- Z.rem_mod_nonneg by lia; exact Hr).
  destruct (round_all_total p p2e q rnd (ZZXtoPowerful poly) pos ltac:(lia) Hq1)
    as (pw & vv & pos' & Hall).
  rewrite Hall. eexists. split; [reflexivity|]. cbn [res_pwrfl].
  eapply round_all_multiples. exact Hall.
Qed.

(** Rounding is idempotent.  When a call has returned and the conversion
    to the powerful basis reads back the vector that the call wrote, a
    second call on the result changes nothing: every multiple is 0 and no
    coin is drawn, whatever the coins would have been. *)
Theorem newMakeDivisible_idempotent (debug : bool) (poly vpoly : ZZX.t)
    (p p2e q : Z) (rnd rnd2 : coins) (pos pos2 : nat) (r : result) :
  newMakeDivisible debug poly p2e q p vpoly rnd pos = Ok r ->
  ZZXtoPowerful (powerfulToZZX (res_pwrfl r)) = res_pwrfl r ->
  exists r2,
    newMakeDivisible debug (res_poly r) p2e q p vpoly rnd2 pos2 = Ok r2
    /\ res_poly r2 = res_poly r
    /\ Forall (fun v => v = 0) (res_vvec r2)
    /\ res_pos r2 = pos2.
Proof.
  unfold newMakeDivisible.
  destruct (Z.eqb_spec p2e 1) as [E1|E1].
  { intros [= <-] _. cbn. eexists. split; [reflexivity|]. cbn. auto. }
  destruct (Z.ltb_spec 0 q) as [Hq|Hq]; [|discriminate].
  destruct (Z.ltb_spec 0 p2e) as [Hp|Hp]; [|discriminate].
  destruct (Z.eqb_spec (Z.rem q p2e) 1) as [Hr|Hr]; [|discriminate].
  cbn [assertTrue mbind outcome_bind].
  destruct (round_all p p2e q rnd (ZZXtoPowerful poly) pos)
    as [[[pw vv] pos']|] eqn:Hall; [|discriminate].
  intros [= <-] Hback. cbn [res_poly res_pwrfl] in *.
  rewrite Hback.
  rewrite (round_all_fixed p p2e q rnd2 pw pos2 ltac:(lia)
             (round_all_multiples _ _ _ _ _ _ _ _ _ Hall)).
  eexists. split; [reflexivity|]. cbn [res_poly res_vvec res_pos].
  split; [reflexivity|]. split; [|reflexivity].
  apply Forall_forall. intros v Hv. apply list_elem_of_In, in_map_iff in Hv.
  destruct Hv as (? & <- & _). reflexivity.
Qed.

End WithConversion.

(** The coefficients 5, -3, 8, 6 rounded to multiples of 4 with [q = 33],
    and rounded once more. *)
Lemma newMakeDivisible_idempotent_witness :
  exists r2,
    @newMakeDivisible identity_conversion false [-28; -36; 8; 72] 4 33 2 []
      (fun _ => false) 5 = Ok r2
    /\ res_poly r2 = [-28; -36; 8; 72]
    /\ Forall (fun v => v = 0) (res_vvec r2)
    /\ res_pos r2 = 5%nat.
Proof.
  apply (@newMakeDivisible_idempotent identity_conversion false [5; -3; 8; 6] []
           2 4 33 (fun _ => true) (fun _ => false) 0%nat 5%nat
           (mkResult [-28; -36; 8; 72] [] [-28; -36; 8; 72] [-1; -1; 0; 2] 1));
    reflexivity.
Defined.

End MakeDivisibleMore.

(** ** The refresh procedures: what they require *)

Module ReCryptMore.
Import Err Ctxt Trace MakeDivisible ReCrypt.

(** The polynomial that the dummy branch hands to [DummyEncrypt]: every
    coefficient is the residue of the coefficient it replaces, the vector
    is normalised, and reducing it once more changes nothing. *)
Theorem reduced_dummy_polynomial (poly : ZZX.t) (ptxtSpace : Z) :
  0 < ptxtSpace ->
  let reduced := ZZX.normalize (map (fun c => c mod ptxtSpace) poly) in
  (forall i, ZZX.coeff reduced i = ZZX.coeff poly i mod ptxtSpace
             /\ 0 <= ZZX.coeff reduced i < ptxtSpace)
  /\ last reduced <> Some 0
  /\ ZZX.normalize (map (fun c => c mod ptxtSpace) reduced) = reduced.
Proof.
  intros Hm reduced.
  assert (Hcoeff : forall i, ZZX.coeff reduced i = ZZX.coeff poly i mod ptxtSpace).
  { intros i. unfold reduced. rewrite ZZXFacts.coeff_normalize. unfold ZZX.coeff.
    change 0 with ((fun c => c mod ptxtSpace) 0) at 1.
    apply map_nth. }
  split; [|split].
  - intros i. split; [apply Hcoeff|]. rewrite Hcoeff. apply Z.mod_pos_bound. exact Hm.
  - apply ZZXFacts.normalize_last.
  - assert (Hfix : map (fun c => c mod ptxtSpace) reduced = reduced).
    { apply nth_ext with (d := 0) (d' := 0); [apply length_map|].
      intros i _.
      change 0 with ((fun c => c mod ptxtSpace) 0) at 1.
      rewrite map_nth. fold (ZZX.coeff reduced i).
      rewrite Hcoeff. apply Z.mod_mod. lia. }
    rewrite Hfix. apply ZZXFacts.normalize_idempotent.
Qed.

(** The coefficients 5, 3, 4 modulo 2. *)
Lemma reduced_dummy_polynomial_witness :
  (forall i, ZZX.coeff [1; 1] i = ZZX.coeff [5; 3; 4] i mod 2
             /\ 0 <= ZZX.coeff [1; 1] i < 2)
  /\ last [1; 1] <> Some 0
  /\ ZZX.normalize (map (fun c => c mod 2) [1; 1]) = [1; 1].
Proof. apply (reduced_dummy_polynomial [5; 3; 4] 2). lia. Defined.

Section Pipelines.
Context {C : Type} `{Ops C} `{Bootstrap C} `{PowerfulDCRT}.
Variable comp : RowComputation.composition C.
Variable builtIn : C -> Z -> Z -> Z -> list string * outcome C.

(** A call of [newMakeDivisible] whose assertions hold returns: the
    polynomial itself for [p2e = 1], and otherwise the polynomial of a
    vector of multiples of [p2e]. *)
Lemma newMakeDivisible_returns (debug : bool) (poly vpoly : ZZX.t)
    (p p2e q : Z) (rnd : coins) (pos : nat) :
  p2e = 1 \/ (0 < q /\ 0 < p2e /\ Z.rem q p2e = 1) ->
  exists r,
    newMakeDivisible debug poly p2e q p vpoly rnd pos = Ok r
    /\ (res_poly r = poly /\ p2e = 1
        \/ exists v, res_poly r = powerfulToZZX v
                     /\ Forall (fun z => (p2e | z)) v).
Proof.
  intros Hpre. unfold newMakeDivisible.
  destruct (Z.eqb_spec p2e 1) as [E1|E1]; [eauto|].
  destruct Hpre as [?|(Hq & Hp & Hr)]; [congruence|].
  replace (0 <? q) with true by (symmetry; apply Z.ltb_lt; lia).
  replace (0 <? p2e) with true by (symmetry; apply Z.ltb_lt; lia).
  rewrite Hr. cbn [Z.eqb Pos.eqb assertTrue mbind outcome_bind].
  assert (Hq1 : q mod p2e = 1) by (rewrite <- Z.rem_mod_nonneg by lia; exact Hr).
  destruct (MakeDivisibleMore.round_all_total p p2e q rnd (ZZXtoPowerful poly) pos
              ltac:(lia) Hq1) as (pw & vv & pos' & Hall).
  rewrite Hall. eexists. split; [reflexivity|]. right.
  exists pw. split; [reflexivity|].
  pose proof (MakeDivisibleMore.round_all_multiples _ _ _ _ _ _ _ _ _ Hall) as Hmul.
  eapply Forall_impl; [exact Hmul|].
  intros z Hz. apply Z.mod_divide; [lia | exact Hz].
Qed.

(** The division is exact or it raises NTL's error. *)
Lemma divide_ZZX_cases (f : ZZX.t) (d : Z) :
  d <> 0 ->
  (Forall (fun c => (d | c)) f ->
   divide_ZZX f d = Ok (ZZX.normalize (map (fun c => c / d) f)))
  /\ (divide_ZZX f d = Ok (ZZX.normalize (map (fun c => c / d) f))
      \/ divide_ZZX f d = Throw not_divisible).
Proof.
  intros Hd. unfold divide_ZZX.
  replace (d =? 0) with false by (symmetry; apply Z.eqb_neq; exact Hd).
  split.
  - intros Hall.
    replace (forallb (fun c => Z.rem c d =? 0) f) with true; [reflexivity|].
    symmetry. apply forallb_forall. intros c Hc.
    rewrite Forall_forall in Hall. specialize (Hall c).
    rewrite list_elem_of_In in Hall.
    apply Z.eqb_eq. apply Z.rem_divide; [exact Hd | exact (Hall Hc)].
  - destruct (forallb _ f); [left | right]; reflexivity.
Qed.

(** The bootstrapping modulus [q = p^e + 1] is 1 modulo [p^e'] exactly
    when [e' <= e]. *)
Lemma modulus_residue (p e e' : Z) :
  2 <= p -> 0 <= e -> 0 <= e' ->
  (e' <= e -> p ^ e' = 1 \/ (0 < p ^ e + 1 /\ 0 < p ^ e' /\ Z.rem (p ^ e + 1) (p ^ e') = 1))
  /\ (e < e' -> p ^ e' <> 1 /\ 0 < p ^ e + 1 /\ 0 < p ^ e'
               /\ Z.rem (p ^ e + 1) (p ^ e') <> 1).
Proof.
  intros Hp He He'.
  assert (Hpe : 0 < p ^ e) by (apply Z.pow_pos_nonneg; lia).
  assert (Hpe' : 0 < p ^ e') by (apply Z.pow_pos_nonneg; lia).
  split.
  - intros Hle.
    destruct (Z.eq_dec e' 0) as [->|Hne]; [left; reflexivity|]. right.
    assert (Hge : 2 <= p ^ e').
    { assert (Heq : p ^ e' = p * p ^ (e' - 1)).
      { rewrite <- (Z.pow_1_r p) at 2. rewrite <- Z.pow_add_r by lia.
        f_equal. lia. }
      pose proof (Z.pow_pos_nonneg p (e' - 1) ltac:(lia) ltac:(lia)). nia. }
    repeat split; try lia.
    rewrite Z.rem_mod_nonneg by lia.
    assert (Hsplit : p ^ e = p ^ (e - e') * p ^ e').
    { rewrite <- Z.pow_add_r by lia. f_equal. lia. }
    rewrite Hsplit, Z.add_comm, Z.mod_add by lia. apply Z.mod_small. lia.
  - intros Hlt.
    assert (Hbig : 2 * p ^ e <= p ^ e').
    { assert (Heq : p ^ e' = p ^ e * (p * p ^ (e' - e - 1))).
      { rewrite <- (Z.pow_1_r p) at 3. rewrite <- !Z.pow_add_r by lia.
        f_equal. lia. }
      pose proof (Z.pow_pos_nonneg p (e' - e - 1) ltac:(lia) ltac:(lia)).
      assert (2 <= p * p ^ (e' - e - 1)) by nia.
      rewrite Heq. nia. }
    repeat split; try lia.
    rewrite Z.rem_mod_nonneg by lia.
    destruct (Z.eq_dec (p ^ e + 1) (p ^ e')) as [Heq|Hneq].
    + rewrite Heq, Z.mod_same by lia. lia.
    + rewrite Z.mod_small by lia. lia.
Qed.

(** The checks that open a refresh of a ciphertext that is neither empty
    nor a dummy encryption, in the order of the source: a missing
    bootstrapping key, [e < r], and a plaintext space that does not divide
    [p^r] each end the call with [LogicError] before any stage has run. *)
Theorem refresh_preconditions (debug : bool) (ctxt : C)
    (our_version lazy : bool) (nb_iterations : Z) (rnd : coins) :
  isEmpty ctxt = false -> isDummy ctxt = false -> 1 <= nb_iterations ->
  let thick := reCrypt debug ctxt our_version lazy rnd in
  let thin := thinReCrypt comp builtIn debug ctxt our_version lazy nb_iterations rnd in
  (recryptKeyID < 0 ->
   thick = Run [] (Throw (LogicError "No bootstrapping data"))
   /\ thin = Run [] (Throw (LogicError "Bootstrapping data not present")))
  /\ (0 <= recryptKeyID -> rc_e < getR ->
      thick = Run [] (Throw (LogicError "rcData.e must be at least alMod.r"))
      /\ thin = Run [] (Throw (LogicError "trcData.e must be at least alMod.r")))
  /\ (0 <= recryptKeyID -> getR <= rc_e -> Z.rem getPPowR (getPtxtSpace ctxt) <> 0 ->
      thick = Run [] (Throw (LogicError "ptxtSpace must divide p^r when bootstrapping"))
      /\ thin = Run [] (Throw (LogicError
                                 "ptxtSpace must divide p^r when thin bootstrapping"))).
Proof.
  intros Hempty Hdummy Hnb. cbv zeta.
  unfold reCrypt, thinReCrypt.
  destruct (Z.to_nat nb_iterations) as [|n] eqn:En; [lia|].
  cbn [thinReCrypt_loop]. unfold thinReCrypt_iteration.
  rewrite Hempty, Hdummy. unfold reCrypt_switch, thinReCrypt_switch, check.
  split; [|split].
  - intros Hkey.
    replace (0 <=? recryptKeyID) with false by (symmetry; apply Z.leb_gt; lia).
    split; reflexivity.
  - intros Hkey He.
    replace (0 <=? recryptKeyID) with true by (symmetry; apply Z.leb_le; lia).
    replace (getR <=? rc_e) with false by (symmetry; apply Z.leb_gt; lia).
    split; reflexivity.
  - intros Hkey He Hrem.
    replace (0 <=? recryptKeyID) with true by (symmetry; apply Z.leb_le; lia).
    replace (getR <=? rc_e) with true by (symmetry; apply Z.leb_le; lia).
    replace (Z.rem getPPowR (getPtxtSpace ctxt) =? 0) with false
      by (symmetry; apply Z.eqb_neq; exact Hrem).
    split; reflexivity.
Qed.

(** The step that makes the mod-switched parts divisible by [p^e'] and
    divides them, on exactly two parts.  For [e' <= e] the rounding goes
    through, for every polynomial and every outcome of the coins, and the
    step can then end in two ways only: normally, or with NTL's error for a
    division that is not exact.  It ends normally when the conversion back
    from the powerful basis turns a vector of multiples of [p^e'] into a
    polynomial with such coefficients (a linear map does).  For [e < e']
    it throws [InvalidArgument] before any stage, because [q = p^e + 1] is
    then not 1 modulo [p^e']. *)
Theorem makeDivisible_stage (debug : bool) (zzParts : list ZZX.t)
    (rnd : coins) (pos : nat) :
  2 <= getP -> 0 <= rc_e -> 0 <= rc_ePrime -> length zzParts = 2%nat ->
  (rc_ePrime <= rc_e ->
   (exists ctxt pos',
      makeDivisibleAndCombine debug zzParts rnd pos
      = Run [Did MakeDivisible; Did DivideByP2ePrime; Did InnerProduct]
            (Ok (ctxt, pos')))
   \/ makeDivisibleAndCombine debug zzParts rnd pos
      = Run [Did MakeDivisible] (Throw not_divisible))
  /\ (rc_ePrime <= rc_e ->
      (forall v, Forall (fun z => (getP ^ rc_ePrime | z)) v ->
                 Forall (fun c => (getP ^ rc_ePrime | c)) (powerfulToZZX v)) ->
      exists ctxt pos',
        makeDivisibleAndCombine debug zzParts rnd pos
        = Run [Did MakeDivisible; Did DivideByP2ePrime; Did InnerProduct]
              (Ok (ctxt, pos')))
  /\ (rc_e < rc_ePrime ->
      makeDivisibleAndCombine debug zzParts rnd pos
      = Run [] (Throw (InvalidArgument "q must equal 1 modulo p2e"))).
Proof.
  intros Hp He He' Hlen.
  destruct (modulus_residue getP rc_e rc_ePrime Hp He He') as [Hok Hbad].
  assert (Hpow : 0 < getP ^ rc_ePrime) by (apply Z.pow_pos_nonneg; lia).
  assert (Hne : getP ^ rc_ePrime <> 0) by lia.
  unfold makeDivisibleAndCombine, check. cbv zeta.
  rewrite Hlen. cbn [Nat.eqb assertTrue].
  split; [|split].
  - intros Hle.
    destruct (newMakeDivisible_returns debug (nth 0 zzParts []) []
                getP (getP ^ rc_ePrime) (getP ^ rc_e + 1) rnd pos (Hok Hle))
      as (r0 & Hr0 & _).
    destruct (newMakeDivisible_returns debug (nth 1 zzParts []) []
                getP (getP ^ rc_ePrime) (getP ^ rc_e + 1) rnd (res_pos r0) (Hok Hle))
      as (r1 & Hr1 & _).
    rewrite Hr0. cbn [lift mbind run_bind res log app]. rewrite Hr1.
    cbn [lift mbind run_bind res log app emit].
    destruct (proj2 (divide_ZZX_cases (res_poly r0) (getP ^ rc_ePrime) Hne))
      as [-> | ->]; cbn [res log app]; [|right; reflexivity].
    destruct (proj2 (divide_ZZX_cases (res_poly r1) (getP ^ rc_ePrime) Hne))
      as [-> | ->]; cbn [res log app]; [|right; reflexivity].
    left. eexists _, _. reflexivity.
  - intros Hle Hconv.
    assert (Hdiv : forall (poly : ZZX.t) (r : result),
              (res_poly r = poly /\ getP ^ rc_ePrime = 1
               \/ exists v, res_poly r = powerfulToZZX v
                            /\ Forall (fun z => (getP ^ rc_ePrime | z)) v) ->
              Forall (fun c => (getP ^ rc_ePrime | c)) (res_poly r)).
    { intros poly r [[_ Hone] | (v & -> & Hv)]; [|apply Hconv; exact Hv].
      rewrite Hone. apply Forall_forall. intros c _. apply Z.divide_1_l. }
    destruct (newMakeDivisible_returns debug (nth 0 zzParts []) []
                getP (getP ^ rc_ePrime) (getP ^ rc_e + 1) rnd pos (Hok Hle))
      as (r0 & Hr0 & Hd0).
    destruct (newMakeDivisible_returns debug (nth 1 zzParts []) []
                getP (getP ^ rc_ePrime) (getP ^ rc_e + 1) rnd (res_pos r0) (Hok Hle))
      as (r1 & Hr1 & Hd1).
    rewrite Hr0. cbn [lift mbind run_bind res log app]. rewrite Hr1.
    cbn [lift mbind run_bind res log app emit].
    rewrite (proj1 (divide_ZZX_cases (res_poly r0) (getP ^ rc_ePrime) Hne)
               (Hdiv _ r0 Hd0)).
    cbn [res log app].
    rewrite (proj1 (divide_ZZX_cases (res_poly r1) (getP ^ rc_ePrime) Hne)
               (Hdiv _ r1 Hd1)).
    cbn [res log app].
    eexists _, _. reflexivity.
  - intros Hlt. destruct (Hbad Hlt) as (Hne1 & Hq & Hp2e & Hrem).
    unfold newMakeDivisible.
    replace (getP ^ rc_ePrime =? 1) with false by (symmetry; apply Z.eqb_neq; lia).
    replace (0 <? getP ^ rc_e + 1) with true by (symmetry; apply Z.ltb_lt; lia).
    replace (0 <? getP ^ rc_ePrime) with true by (symmetry; apply Z.ltb_lt; lia).
    replace (Z.rem (getP ^ rc_e + 1) (getP ^ rc_ePrime) =? 1) with false
      by (symmetry; apply Z.eqb_neq; exact Hrem).
    reflexivity.
Qed.

End Pipelines.

(** On the small instance a ciphertext with plaintext space 3, which does
    not divide [p^r = 2], is refused. *)
Lemma refresh_preconditions_witness :
  thick false (mkToy (toy_parts (toy_canonical 0)) 3 1 0) true false (fun _ => true)
  = Run [] (Throw (LogicError "ptxtSpace must divide p^r when bootstrapping"))
  /\ thin false (mkToy (toy_parts (toy_canonical 0)) 3 1 0) true false 2 (fun _ => true)
     = Run [] (Throw (LogicError "ptxtSpace must divide p^r when thin bootstrapping")).
Proof.
  refine (proj2 (proj2 (@refresh_preconditions toy_ctxt toy_ops toy_bootstrap
                   identity_conversion (@RowComputation.toy_composition toy_ctxt toy_ops)
                   DigitExtract.toy_builtIn false
                   (mkToy (toy_parts (toy_canonical 0)) 3 1 0) true false 2
                   (fun _ => true) eq_refl eq_refl _)) _ _ _);
    vm_compute; discriminate.
Defined.

(** On the small instance ([p = 2], [e = 5], [e' = 2]) the parts
    [4 + 9X] and [12 + 5X] go through. *)
Lemma makeDivisible_stage_witness :
  exists ctxt pos',
    @makeDivisibleAndCombine toy_ctxt toy_bootstrap identity_conversion false
      [[4; 9]; [12; 5]] (fun _ => true) 0
    = Run [Did MakeDivisible; Did DivideByP2ePrime; Did InnerProduct]
          (Ok (ctxt, pos')).
Proof.
  refine (proj1 (proj2 (@makeDivisible_stage toy_ctxt toy_bootstrap
                          identity_conversion false [[4; 9]; [12; 5]]
                          (fun _ => true) 0%nat _ _ _ eq_refl)) _ _);
    try (vm_compute; discriminate).
  intros v Hv. exact Hv.
Defined.

(** With a conversion that does not keep multiples the division stops the
    step. *)
Example makeDivisible_stage_inexact :
  @makeDivisibleAndCombine toy_ctxt toy_bootstrap shifting_conversion false
    [[4; 9]; [12; 5]] (fun _ => true) 0
  = Run [Did MakeDivisible] (Throw not_divisible).
Proof. reflexivity. Qed.

End ReCryptMore.

(** ** Polynomials in [X^n] and odd polynomials *)

Module SpacingFacts.
Import Err Spacing.

(** *** Values of polynomials *)

Lemma eval_zeros (f : list Z) (x : Z) :
  Forall (fun c => c = 0) f -> Poly.eval f x = 0.
Proof.
  induction 1 as [|c f -> _ IH]; cbn [Poly.eval]; [reflexivity|].
  rewrite IH. lia.
Qed.

Lemma nth_zeros (f : list Z) : (forall i, nth i f 0 = 0) -> Forall (fun c => c = 0) f.
Proof.
  induction f as [|c f IH]; intros Hz; constructor.
  - exact (Hz 0%nat).
  - apply IH. intros i. exact (Hz (S i)).
Qed.

(** The value depends on the coefficients only, not on the length of the
    vector that holds them. *)
Lemma eval_ext (f g : list Z) (x : Z) :
  (forall i, nth i f 0 = nth i g 0) -> Poly.eval f x = Poly.eval g x.
Proof.
  revert g. induction f as [|c f IH]; intros g Hfg.
  - symmetry. apply eval_zeros, nth_zeros. intros i. rewrite <- Hfg. destruct i; reflexivity.
  - destruct g as [|d g].
    + apply eval_zeros, nth_zeros. intros i. rewrite Hfg. destruct i; reflexivity.
    + cbn [Poly.eval]. pose proof (Hfg 0%nat) as H0. cbn in H0. subst d.
      rewrite (IH g); [reflexivity|]. intros i. exact (Hfg (S i)).
Qed.

Lemma eval_app (f g : list Z) (x : Z) :
  Poly.eval (f ++ g) x = Poly.eval f x + x ^ Z.of_nat (length f) * Poly.eval g x.
Proof.
  induction f as [|c f IH]; cbn [app Poly.eval length].
  - cbn. lia.
  - rewrite IH, Nat2Z.inj_succ, Z.pow_succ_r by lia. ring.
Qed.

(** [expand n g] is [g(X^n)]. *)
Lemma eval_expand (n : nat) (g : list Z) (x : Z) :
  (1 <= n)%nat -> Poly.eval (Poly.expand n g) x = Poly.eval g (x ^ Z.of_nat n).
Proof.
  intros Hn. induction g as [|c g IH]; [reflexivity|].
  unfold Poly.expand in *. cbn [flat_map].
  change ((c :: replicate (n - 1) 0) ++ flat_map (fun c => c :: replicate (n - 1) 0) g)
    with (c :: (replicate (n - 1) 0 ++ flat_map (fun c => c :: replicate (n - 1) 0) g)).
  cbn [Poly.eval]. rewrite eval_app, IH, length_replicate.
  rewrite (eval_zeros (replicate (n - 1) 0)) by (apply Forall_replicate; reflexivity).
  replace (x ^ Z.of_nat n) with (x * x ^ Z.of_nat (n - 1)).
  - ring.
  - rewrite <- Z.pow_succ_r by lia. f_equal. lia.
Qed.

Lemma nth_expand (n : nat) (g : list Z) (i : nat) :
  (1 <= n)%nat ->
  nth i (Poly.expand n g) 0
  = if (i mod n =? 0)%nat then nth (i / n) g 0 else 0.
Proof.
  intros Hn. revert i. induction g as [|c g IH]; intros i.
  - cbn. destruct (_ =? _)%nat; destruct (i / n)%nat; destruct i; reflexivity.
  - unfold Poly.expand in *. cbn [flat_map].
    destruct (Nat.lt_ge_cases i n) as [Hlt|Hge].
    + rewrite app_nth1 by (cbn [length]; rewrite length_replicate; lia).
      rewrite Nat.mod_small, Nat.div_small by lia.
      destruct i as [|i]; [reflexivity|]. cbn [nth Nat.eqb].
      destruct (nth_in_or_default i (replicate (n - 1) 0) 0) as [Hin | ->]; [|reflexivity].
      apply list_elem_of_In, elem_of_replicate in Hin. tauto.
    + rewrite app_nth2 by (cbn [length]; rewrite length_replicate; lia).
      cbn [length]. rewrite length_replicate.
      replace (S (n - 1)) with n by lia.
      rewrite IH.
      assert (Hmod : (i mod n = (i - n) mod n)%nat).
      { replace i with ((i - n) + 1 * n)%nat at 1 by lia.
        apply Nat.Div0.mod_add. }
      assert (Hdiv : (i / n = S ((i - n) / n))%nat).
      { replace i with ((i - n) + 1 * n)%nat at 1 by lia.
        rewrite Nat.div_add by lia. lia. }
      rewrite Hmod, Hdiv. reflexivity.
Qed.

(** *** [getSpacing] *)

(** What the inner loop has established after the indices [1, ..., n]. *)
Lemma spacing_inner (poly : ZZX.t) (s0 : Z) (n : nat) :
  let st := fold_left (spacing_step poly) (seqZ 1 (Z.of_nat n)) (s0, 0) in
  (st.1 | s0)
  /\ (0 <= s0 -> 0 <= st.1)
  /\ 0 <= st.2 <= Z.of_nat n
  /\ (st.1 | st.2)
  /\ (st.2 = 0 \/ ZZX.coeff poly (Z.to_nat st.2) <> 0)
  /\ (forall i, (1 <= i <= n)%nat -> ZZX.coeff poly i <> 0 -> (st.1 | Z.of_nat i))
  /\ (forall m, (m | s0) ->
        (forall i, (1 <= i <= n)%nat -> ZZX.coeff poly i <> 0 -> (m | Z.of_nat i)) ->
        (m | st.1)).
Proof.
  induction n as [|n IH]; cbv zeta.
  - change (Z.of_nat 0) with 0. rewrite seqZ_nil by lia. cbn [fold_left fst snd].
    split; [apply Z.divide_refl|]. split; [auto|]. split; [lia|].
    split; [apply Z.divide_0_r|]. split; [left; reflexivity|].
    split; [intros i Hi; lia|]. intros m Hm _. exact Hm.
  - rewrite seqZ_S, fold_left_app. cbn [fold_left].
    cbv zeta in IH.
    destruct (fold_left (spacing_step poly) (seqZ 1 (Z.of_nat n)) (s0, 0))
      as [s last] eqn:Est.
    cbn [fst snd] in IH.
    destruct IH as (Hdiv & Hnn & Hlast & Hsl & Hnz & Hall & Hmax).
    unfold spacing_step.
    replace (Z.to_nat (1 + Z.of_nat n)) with (S n) by lia.
    destruct (Z.eqb_spec (ZZX.coeff poly (S n)) 0) as [Hc|Hc]; cbn [negb fst snd].
    + split; [exact Hdiv|]. split; [exact Hnn|]. split; [lia|].
      split; [exact Hsl|]. split; [exact Hnz|]. split.
      * intros i Hi Hci. destruct (Nat.eq_dec i (S n)) as [->|Hne]; [congruence|].
        apply Hall; [lia | exact Hci].
      * intros m Hm Hmi. apply Hmax; [exact Hm|].
        intros i Hi. apply Hmi. lia.
    + set (g := Z.gcd s (1 + Z.of_nat n - last)).
      assert (Hgs : (g | s)) by apply Z.gcd_divide_l.
      assert (Hgd : (g | 1 + Z.of_nat n - last)) by apply Z.gcd_divide_r.
      assert (Hgn : (g | 1 + Z.of_nat n)).
      { replace (1 + Z.of_nat n) with ((1 + Z.of_nat n - last) + last) by lia.
        apply Z.divide_add_r; [exact Hgd|].
        eapply Z.divide_trans; [exact Hgs | exact Hsl]. }
      split; [eapply Z.divide_trans; [exact Hgs | exact Hdiv]|].
      split; [intros _; apply Z.gcd_nonneg|].
      split; [lia|]. split; [exact Hgn|].
      split; [right; replace (Z.to_nat (1 + Z.of_nat n)) with (S n) by lia; exact Hc|].
      split.
      * intros i Hi Hci. destruct (Nat.eq_dec i (S n)) as [->|Hne].
        -- replace (Z.of_nat (S n)) with (1 + Z.of_nat n) by lia. exact Hgn.
        -- eapply Z.divide_trans; [exact Hgs|]. apply Hall; [lia | exact Hci].
      * intros m Hm Hmi. apply Z.gcd_greatest.
        -- apply Hmax; [exact Hm|]. intros i Hi. apply Hmi. lia.
        -- apply Z.divide_sub_r.
           ++ replace (1 + Z.of_nat n) with (Z.of_nat (S n)) by lia.
              apply Hmi; [lia | exact Hc].
           ++ destruct Hnz as [-> | Hnz]; [apply Z.divide_0_r|].
              destruct (Z.eq_dec last 0) as [->|Hl0]; [apply Z.divide_0_r|].
              replace last with (Z.of_nat (Z.to_nat last)) by lia.
              apply Hmi; [lia | exact Hnz].
Qed.

(** A coefficient beyond the degree is zero. *)
Lemma coeff_beyond (poly : ZZX.t) (i : nat) :
  ZZX.deg poly < Z.of_nat i -> ZZX.coeff poly i = 0.
Proof.
  unfold ZZX.deg, ZZX.coeff. intros Hi. apply nth_overflow. lia.
Qed.

Lemma spacing_poly_spec (poly : ZZX.t) (s0 : Z) :
  (spacing_poly s0 poly | s0)
  /\ (0 <= s0 -> 0 <= spacing_poly s0 poly)
  /\ (forall i, ZZX.coeff poly i <> 0 -> (spacing_poly s0 poly | Z.of_nat i))
  /\ (forall m, (m | s0) ->
        (forall i, ZZX.coeff poly i <> 0 -> (m | Z.of_nat i)) ->
        (m | spacing_poly s0 poly)).
Proof.
  unfold spacing_poly.
  destruct (Z.le_gt_cases 0 (ZZX.deg poly)) as [Hdeg|Hdeg].
  - pose proof (spacing_inner poly s0 (Z.to_nat (ZZX.deg poly))) as Hin.
    cbv zeta in Hin. rewrite Z2Nat.id in Hin by exact Hdeg.
    destruct Hin as (Hdiv & Hnn & _ & _ & _ & Hall & Hmax).
    split; [exact Hdiv|]. split; [exact Hnn|]. split.
    + intros i Hci. destruct i as [|i]; [apply Z.divide_0_r|].
      apply Hall; [|exact Hci].
      destruct (Z.lt_ge_cases (ZZX.deg poly) (Z.of_nat (S i))) as [Hb|Hb]; [|lia].
      apply coeff_beyond in Hb. congruence.
    + intros m Hm Hmi. apply Hmax; [exact Hm|]. intros i _. apply Hmi.
  - rewrite seqZ_nil by lia. cbn [fold_left fst].
    split; [apply Z.divide_refl|]. split; [auto|]. split.
    + intros i Hci. rewrite coeff_beyond in Hci by lia. congruence.
    + intros m Hm _. exact Hm.
Qed.

Lemma fold_spacing_spec (polys : list ZZX.t) (s0 : Z) :
  let s := fold_left spacing_poly polys s0 in
  (s | s0)
  /\ (0 <= s0 -> 0 <= s)
  /\ (forall poly i, In poly polys -> ZZX.coeff poly i <> 0 -> (s | Z.of_nat i))
  /\ (forall m, (m | s0) ->
        (forall poly i, In poly polys -> ZZX.coeff poly i <> 0 -> (m | Z.of_nat i)) ->
        (m | s)).
Proof.
  revert s0. induction polys as [|poly polys IH]; intros s0; cbv zeta.
  - cbn [fold_left].
    split; [apply Z.divide_refl|]. split; [auto|]. split.
    + intros poly i [].
    + intros m Hm _. exact Hm.
  - cbn [fold_left].
    destruct (spacing_poly_spec poly s0) as (Hd1 & Hn1 & Ha1 & Hm1).
    destruct (IH (spacing_poly s0 poly)) as (Hd2 & Hn2 & Ha2 & Hm2).
    split; [|split; [|split]].
    + eapply Z.divide_trans; eassumption.
    + auto.
    + intros q i [<-|Hin] Hci.
      * eapply Z.divide_trans; [exact Hd2 | apply Ha1; exact Hci].
      * eapply Ha2; eassumption.
    + intros m Hm Hmi. apply Hm2.
      * apply Hm1; [exact Hm|]. intros i. apply Hmi. left. reflexivity.
      * intros q i Hin. apply Hmi. right. exact Hin.
Qed.

(** [getSpacing] returns the greatest [n] such that every polynomial of
    the list is a polynomial in [X^n] and [n] divides the degree of the
    first one: it divides the index of every nonzero coefficient, and every
    number that does so (and divides that degree) divides it.  It is not
    negative unless the first polynomial is zero. *)
Theorem getSpacing_greatest (first : ZZX.t) (rest : list ZZX.t) :
  exists spacing,
    getSpacing (first :: rest) = Ok spacing
    /\ (spacing | ZZX.deg first)
    /\ (0 <= ZZX.deg first -> 0 <= spacing)
    /\ (forall poly i, In poly (first :: rest) -> ZZX.coeff poly i <> 0 ->
                       (spacing | Z.of_nat i))
    /\ (forall n, (n | ZZX.deg first) ->
          (forall poly i, In poly (first :: rest) -> ZZX.coeff poly i <> 0 ->
                          (n | Z.of_nat i)) ->
          (n | spacing)).
Proof.
  eexists. split; [reflexivity|].
  exact (fold_spacing_spec (first :: rest) (ZZX.deg first)).
Qed.

(** *** [areOddPolynomials] *)

Lemma odd_scan (poly : list Z) (k : nat) :
  existsb id (imap (fun i => PolyEval.even_term (k + i)) poly) = false
  <-> forall i, Nat.even (k + i) = true -> nth i poly 0 = 0.
Proof.
  revert k. induction poly as [|c poly IH]; intros k.
  - cbn. split; [|reflexivity]. intros _ i _. destruct i; reflexivity.
  - cbn [imap existsb id].
    rewrite orb_false_iff.
    assert (Hshift : imap ((fun i => PolyEval.even_term (k + i)) ∘ S) poly
                     = imap (fun i => PolyEval.even_term (S k + i)) poly).
    { apply imap_ext. intros i x _. cbn. f_equal. lia. }
    rewrite Hshift, IH.
    assert (Hterm : PolyEval.even_term (k + 0) c = false
                    <-> (Nat.even k = true -> c = 0)).
    { unfold PolyEval.even_term. rewrite Nat.add_0_r.
      rewrite Z.rem_mod_nonneg by lia.
      assert (Hpar : (Z.of_nat k mod 2 =? 0) = Nat.even k).
      { destruct (Nat.even k) eqn:Ek.
        - apply Nat.even_spec in Ek. destruct Ek as [j ->].
          rewrite Nat2Z.inj_mul, Z.mul_comm, Z.mod_mul by lia. reflexivity.
        - rewrite <- Nat.negb_odd in Ek. apply negb_false_iff, Nat.odd_spec in Ek.
          destruct Ek as [j ->].
          rewrite Nat2Z.inj_add, Nat2Z.inj_mul, Z.add_comm, Z.mul_comm, Z.mod_add by lia.
          reflexivity. }
      rewrite Hpar. destruct (Nat.even k); cbn.
      - rewrite negb_false_iff, Z.eqb_eq. tauto.
      - split; [discriminate | reflexivity]. }
    rewrite Hterm. split.
    + intros [H0 Hrest] [|i] Hi.
      * cbn. apply H0. rewrite Nat.add_0_r in Hi. exact Hi.
      * cbn. apply Hrest. replace (S k + i)%nat with (k + S i)%nat by lia. exact Hi.
    + intros Hall. split.
      * intros Hk. apply (Hall 0%nat). rewrite Nat.add_0_r. exact Hk.
      * intros i Hi. apply (Hall (S i)).
        replace (k + S i)%nat with (S k + i)%nat by lia. exact Hi.
Qed.

(** A polynomial without even (odd) powers is an odd (even) function. *)
Lemma eval_parity (f : list Z) (x : Z) :
  ((forall i, Nat.even i = true -> nth i f 0 = 0) ->
   Poly.eval f (- x) = - Poly.eval f x)
  /\ ((forall i, Nat.even i = false -> nth i f 0 = 0) ->
      Poly.eval f (- x) = Poly.eval f x).
Proof.
  induction f as [|c f [IHodd IHeven]]; [cbn; split; intros; lia|].
  split; intros Hz; cbn [Poly.eval].
  - pose proof (Hz 0%nat eq_refl) as H0. cbn in H0. subst c.
    rewrite IHeven; [ring|].
    intros i Hi. apply (Hz (S i)). rewrite Nat.even_succ, <- Nat.negb_even, Hi.
    reflexivity.
  - rewrite IHodd; [ring|].
    intros i Hi. apply (Hz (S i)). rewrite Nat.even_succ, <- Nat.negb_even, Hi.
    reflexivity.
Qed.

Lemma even_coefficients_vanish (poly_list : list ZZX.t) :
  PolyEval.areOddPolynomials poly_list = true
  <-> forall poly i, In poly poly_list -> Nat.even i = true -> ZZX.coeff poly i = 0.
Proof.
  unfold PolyEval.areOddPolynomials. rewrite forallb_forall.
  split.
  - intros Hall poly i Hin Hi. specialize (Hall poly Hin).
    apply negb_true_iff in Hall.
    apply (proj1 (odd_scan poly 0)); [|exact Hi].
    rewrite <- Hall. f_equal.
  - intros Hall poly Hin. apply negb_true_iff.
    apply (proj2 (odd_scan poly 0)). intros i Hi. apply (Hall poly i Hin Hi).
Qed.

(** [areOddPolynomials] accepts a list exactly when no polynomial in it
    has a nonzero coefficient at an even power, and every polynomial of an
    accepted list is an odd function on the integers. *)
Theorem areOddPolynomials_odd_functions (poly_list : list ZZX.t) :
  (PolyEval.areOddPolynomials poly_list = true
   <-> forall poly i, In poly poly_list -> Nat.even i = true -> ZZX.coeff poly i = 0)
  /\ (PolyEval.areOddPolynomials poly_list = true ->
      forall poly x, In poly poly_list -> Poly.eval poly (- x) = - Poly.eval poly x).
Proof.
  pose proof (even_coefficients_vanish poly_list) as Hchar.
  split; [exact Hchar|].
  intros Hodd poly x Hin. apply eval_parity.
  intros i Hi. apply (proj1 Hchar Hodd poly i Hin Hi).
Qed.

(** *** The polynomials of [customPolyEvalPreprocessing] *)

Lemma nth_map_seq {A : Type} (f : nat -> A) (n j : nat) (d : A) :
  (j < n)%nat -> nth j (map f (seq 0 n)) d = f j.
Proof.
  intros Hj.
  rewrite (nth_indep _ d (f 0%nat)) by (rewrite length_map, length_seq; exact Hj).
  rewrite map_nth, seq_nth by exact Hj. reflexivity.
Qed.

(** The coefficients stored by the loop of [compress], in a list. *)
Lemma compress_coeffs (spacing : Z) (poly : ZZX.t) (n : nat) :
  fold_left
    (fun out index =>
       ZZX.SetCoeff out (Z.to_nat index) (ZZX.coeff poly (Z.to_nat (index * spacing))))
    (seqZ 0 (Z.of_nat n)) []
  = ZZX.normalize
      (map (fun j => ZZX.coeff poly (Z.to_nat (Z.of_nat j * spacing))) (seq 0 n)).
Proof.
  induction n as [|n IH]; [reflexivity|].
  rewrite seqZ_S, fold_left_app, IH. cbn [fold_left].
  rewrite seq_S, map_app. cbn [map].
  rewrite Z.add_0_l, Nat2Z.id.
  set (done := map _ (seq 0 n)).
  replace n with (length done) at 1 by (unfold done; rewrite length_map, length_seq; reflexivity).
  apply PolyCacheFacts.SetCoeff_next.
Qed.

(** [compress spacing poly] is the polynomial [g] with [poly = g(X^spacing)]
    whenever [spacing >= 1] divides the index of every nonzero coefficient
    of [poly]: its coefficients are the coefficients of [poly] at the
    multiples of [spacing], and its value at [x^spacing] is the value of
    [poly] at [x]. *)
Lemma compress_spec (spacing : Z) (poly : ZZX.t) :
  1 <= spacing ->
  (forall i, ZZX.coeff poly i <> 0 -> (spacing | Z.of_nat i)) ->
  (forall j, ZZX.coeff (compress spacing poly) j
             = ZZX.coeff poly (j * Z.to_nat spacing))
  /\ (forall x, Poly.eval (compress spacing poly) (x ^ spacing) = Poly.eval poly x).
Proof.
  intros Hs Hdiv.
  set (s := Z.to_nat spacing).
  assert (Hs' : (1 <= s)%nat) by (unfold s; lia).
  assert (Hss : spacing = Z.of_nat s) by (unfold s; lia).
  assert (Hdeg : -1 <= ZZX.deg poly) by (unfold ZZX.deg; lia).
  set (q := Z.quot (ZZX.deg poly) spacing).
  assert (Hq : -1 <= q /\ ZZX.deg poly < (q + 1) * spacing).
  { unfold q. destruct (Z.le_gt_cases 0 (ZZX.deg poly)) as [Hnn|Hneg].
    - rewrite Z.quot_div_nonneg by lia.
      pose proof (Z.div_pos (ZZX.deg poly) spacing Hnn ltac:(lia)).
      pose proof (Z.mul_succ_div_gt (ZZX.deg poly) spacing ltac:(lia)). split; nia.
    - assert (Hm1 : ZZX.deg poly = -1) by lia. rewrite Hm1.
      destruct (Z.eq_dec spacing 1) as [H1|Hne].
      + rewrite H1. change (Z.quot (-1) 1) with (-1). lia.
      + assert (Hq0 : Z.quot (-1) spacing = 0).
        { change (-1) with (- (1)). rewrite Z.quot_opp_l by lia.
          rewrite Z.quot_small by lia. reflexivity. }
        rewrite Hq0. lia. }
  set (g := map (fun j => ZZX.coeff poly (Z.to_nat (Z.of_nat j * spacing)))
                (seq 0 (Z.to_nat (q + 1)))).
  assert (Hcomp : compress spacing poly = ZZX.normalize g).
  { unfold compress. fold q.
    replace (q + 1) with (Z.of_nat (Z.to_nat (q + 1))) at 1 by lia.
    apply compress_coeffs. }
  assert (Hg : forall j, nth j g 0 = ZZX.coeff poly (j * s)).
  { intros j. unfold g.
    destruct (Nat.lt_ge_cases j (Z.to_nat (q + 1))) as [Hj|Hj].
    - rewrite nth_map_seq by exact Hj.
      f_equal. rewrite Hss. lia.
    - rewrite nth_overflow by (rewrite length_map, length_seq; exact Hj).
      symmetry. apply coeff_beyond. nia. }
  split.
  - intros j. rewrite Hcomp, ZZXFacts.coeff_normalize. apply Hg.
  - intros x. rewrite Hcomp, ZZXFacts.eval_normalize, Hss, <- eval_expand by exact Hs'.
    apply eval_ext. intros i. rewrite nth_expand by exact Hs'.
    destruct (Nat.eqb_spec (i mod s) 0) as [Hmod|Hmod].
    + rewrite Hg. unfold ZZX.coeff. f_equal.
      pose proof (Nat.div_mod_eq i s). lia.
    + destruct (Z.eq_dec (nth i poly 0) 0) as [Hz|Hnz]; [symmetry; exact Hz|].
      exfalso. apply Hdiv in Hnz. rewrite Hss in Hnz.
      destruct Hnz as [k Hk]. apply Hmod.
      assert (Hk0 : 0 <= k) by nia.
      replace i with (Z.to_nat k * s)%nat by nia.
      apply Nat.Div0.mod_mul.
Qed.

(** The polynomials that the preprocessing computes from the common
    spacing represent the polynomials it was given: if [getSpacing]
    returns [spacing >= 1], every polynomial [poly] of the list is its
    compressed polynomial in [X^spacing]. *)
Theorem preprocessing_preserves_polynomials (poly_list : list ZZX.t) (spacing : Z) :
  getSpacing poly_list = Ok spacing -> 1 <= spacing ->
  forall poly, In poly poly_list ->
    (forall j, ZZX.coeff (compress spacing poly) j
               = ZZX.coeff poly (j * Z.to_nat spacing))
    /\ (forall x, Poly.eval (compress spacing poly) (x ^ spacing) = Poly.eval poly x).
Proof.
  intros Hget Hs poly Hin.
  destruct poly_list as [|first rest]; [discriminate|].
  cbn [getSpacing] in Hget. injection Hget as <-.
  apply compress_spec; [exact Hs|].
  intros i Hci.
  exact (proj1 (proj2 (proj2 (fold_spacing_spec (first :: rest) (ZZX.deg first))))
           poly i Hin Hci).
Qed.

(** [X^2 + 3 X^4 + X^6] and [5 X^4]: the spacing is 2 and the compressed
    polynomials are [X + 3 X^2 + X^3] and [5 X^2]. *)
Lemma preprocessing_preserves_polynomials_witness :
  (forall j, ZZX.coeff (compress 2 [0; 0; 1; 0; 3; 0; 1]) j
             = ZZX.coeff [0; 0; 1; 0; 3; 0; 1] (j * Z.to_nat 2))
  /\ (forall x, Poly.eval (compress 2 [0; 0; 1; 0; 3; 0; 1]) (x ^ 2)
                = Poly.eval [0; 0; 1; 0; 3; 0; 1] x).
Proof.
  apply (preprocessing_preserves_polynomials
           [[0; 0; 1; 0; 3; 0; 1]; [0; 0; 0; 0; 5]] 2);
    [reflexivity | lia | left; reflexivity].
Defined.

End SpacingFacts.

(** ** The parameters chosen for the baby-step/giant-step evaluation *)

Module PolyEvalMore.
Import Err PolyEval.

(** The loop over [m] ends with the parameters of one of its turns. *)
Lemma keep_best_some_turn (turn : Z -> PS_parameters) (ms : list Z) (m0 : Z) :
  exists m, In m (m0 :: ms)
            /\ fold_left (fun best m => keep_best best (turn m)) (m0 :: ms)
                         (mkPS 0 0 (-1) false) = turn m.
Proof.
  cbn [fold_left]. unfold keep_best at 2. cbn [multiplications Z.eqb orb].
  assert (Hgen : forall ms m1,
             exists m, In m (m1 :: ms)
                       /\ fold_left (fun best m => keep_best best (turn m)) ms (turn m1)
                          = turn m).
  { clear ms. induction ms as [|m2 ms IH]; intros m1.
    - exists m1. split; [left; reflexivity | reflexivity].
    - cbn [fold_left]. unfold keep_best at 2.
      destruct ((multiplications (turn m1) =? -1)
                || (multiplications (turn m2) <? multiplications (turn m1))).
      + destruct (IH m2) as (m & Hin & Hf). exists m. split; [right; exact Hin | exact Hf].
      + destruct (IH m1) as (m & [<-|Hin] & Hf).
        * exists m1. split; [left; reflexivity | exact Hf].
        * exists m. split; [right; right; exact Hin | exact Hf]. }
  apply Hgen.
Qed.

Lemma ceil_div_covers (d P : Z) : 1 <= P -> d <= ceil_div d P * P.
Proof.
  intros HP. unfold ceil_div.
  pose proof (Z.mul_succ_div_gt (d + P - 1) P ltac:(lia)). nia.
Qed.

(** The parameter [k] of a turn is never below [⌈d / 2^m⌉], and the odd
    variant is only taken without the lazy flag and for odd polynomials. *)
Lemma design_baby_step_bounds (lazy odd : bool) (d m : Z) :
  1 <= d -> 0 <= m ->
  let '(k, _, currentOdd) := design_baby_step lazy odd d m in
  ceil_div d (2 ^ m) <= k /\ (currentOdd = true -> lazy = false /\ odd = true).
Proof.
  intros Hd Hm. unfold design_baby_step.
  set (k0 := ceil_div d (2 ^ m)).
  destruct lazy; [split; [lia | discriminate]|].
  destruct odd; [|split; [lia | discriminate]].
  destruct (m =? 0).
  - destruct (_ <? _); split; auto; try lia; discriminate.
  - cbv zeta.
    set (k_even := if k0 mod 2 =? 1 then k0 + 1 else k0).
    assert (Hke : k0 <= k_even) by (subst k_even; destruct (k0 mod 2 =? 1); lia).
    set (k_odd := if (k_even mod 4 =? 0) && _ then k_even + 2 else k_even).
    assert (Hko : k_even <= k_odd) by (subst k_odd; destruct (_ && _); lia).
    destruct (_ <? _); split; auto; try lia; discriminate.
Qed.

(** The loop of [getBestParameters] ends with the parameters of one of
    its turns. *)
Lemma best_parameters_turn (polys : list ZZX.t) (lazy : bool) :
  polys <> [] -> Forall (fun f => 1 <= ZZX.deg f) polys ->
  max_degree polys <= 65536 ->
  exists best nb,
    getBestParameters polys lazy = Ok best
    /\ 0 <= m best <= Z.log2_up (max_degree polys)
    /\ 1 <= max_degree polys
    /\ design_baby_step lazy (areOddPolynomials polys) (max_degree polys) (m best)
       = (k best, nb, odd best).
Proof.
  intros Hne Hdeg Hmax.
  set (d := max_degree polys) in *.
  assert (Hd : 1 <= d).
  { destruct polys as [|f polys]; [congruence|].
    inversion Hdeg; subst.
    pose proof (PolyEvalFacts.max_degree_ge (f :: polys) f (or_introl eq_refl)).
    unfold d. lia. }
  pose proof (PolyEvalFacts.log2_up_le_16 d Hmax) as H16.
  pose proof (Z.log2_up_nonneg d) as Hlog.
  unfold getBestParameters.
  rewrite (PolyEvalFacts.degrees_accepted polys Hdeg). fold d.
  unfold ceiling_log2.
  assert (Hseq : seqZ 0 (Z.log2_up d + 1) = 0 :: seqZ 1 (Z.log2_up d)).
  { rewrite seqZ_cons by lia. f_equal. f_equal. lia. }
  rewrite Hseq.
  destruct (keep_best_some_turn (try_m polys lazy (areOddPolynomials polys) d)
              (seqZ 1 (Z.log2_up d)) 0) as (mb & Hin & Hfold).
  rewrite Hfold.
  assert (Hmb : 0 <= mb <= Z.log2_up d).
  { destruct Hin as [<-|Hin]; [lia|].
    apply list_elem_of_In, elem_of_seqZ in Hin. lia. }
  unfold try_m. rewrite PolyEvalFacts.baby_step_design by lia.
  destruct (design_baby_step lazy (areOddPolynomials polys) d mb) as [[kb nb] ob] eqn:E.
  eexists _, nb. split; [reflexivity|]. cbn [m k odd].
  split; [exact Hmb|]. split; [exact Hd | exact E].
Qed.

(** A turn that reports the odd variant was made without the lazy flag
    and for odd polynomials; unless [m = 0] its [k] is even, and when 4
    divides [k] what is left of [k] above the greatest power of two below
    it is a power of two. *)
Lemma odd_turn_shape (lazy odd : bool) (d m k nb : Z) :
  design_baby_step lazy odd d m = (k, nb, true) ->
  lazy = false /\ odd = true
  /\ ((m = 0 /\ k = ceil_div d (2 ^ m))
      \/ (m <> 0 /\ k mod 2 = 0
          /\ (k mod 4 = 0 ->
              isPowerOfTwo (k - floorPowerOfTwo (k - 1)) = true))).
Proof.
  unfold design_baby_step.
  set (k0 := ceil_div d (2 ^ m)).
  destruct lazy; [discriminate|].
  destruct odd; [|discriminate].
  destruct (Z.eqb_spec m 0) as [Hm|Hm].
  - destruct (_ <? _); [|discriminate].
    intros Heq. injection Heq as <- _. auto.
  - cbv zeta.
    set (k_even := if k0 mod 2 =? 1 then k0 + 1 else k0).
    assert (Hke : k_even mod 2 = 0).
    { subst k_even. destruct (Z.eqb_spec (k0 mod 2) 1) as [H1|H1].
      - rewrite Zplus_mod, H1. reflexivity.
      - pose proof (Z.mod_pos_bound k0 2 ltac:(lia)). lia. }
    set (remaining := k_even - 2 ^ Z.log2 (k_even - 1)).
    destruct (_ <? _); [|discriminate].
    intros Heq. injection Heq as <- _.
    split; [reflexivity|]. split; [reflexivity|]. right. split; [exact Hm|].
    destruct (Z.eqb_spec (k_even mod 4) 0) as [H4|H4]; cbn [andb].
    + destruct (Z.eqb_spec (2 ^ Z.log2 remaining) remaining) as [Hp|Hp]; cbn [negb].
      * split; [exact Hke|]. intros _.
        unfold isPowerOfTwo, floorPowerOfTwo, flooring_log2. fold remaining.
        apply Z.eqb_eq. exact Hp.
      * assert (H42 : (k_even + 2) mod 4 = 2) by (rewrite Zplus_mod, H4; reflexivity).
        split; [|lia].
        rewrite Zplus_mod, Hke. reflexivity.
    + split; [exact Hke|]. intros H40. contradiction.
Qed.

(** The parameters that [getBestParameters] returns always cover the
    largest degree [d]: [m] is one of the values tried, [k >= 1] and
    [k * 2^m >= d], so that [k] baby steps and [m] giant-step levels reach
    every coefficient; the odd variant is reported only without the lazy
    flag and for polynomials that [areOddPolynomials] accepts.  A
    polynomial of degree 0 or -1 in the list makes the call throw. *)
Theorem getBestParameters_covers (polys : list ZZX.t) (lazy : bool) :
  (polys <> [] -> Forall (fun f => 1 <= ZZX.deg f) polys ->
   max_degree polys <= 65536 ->
   exists best,
     getBestParameters polys lazy = Ok best
     /\ 0 <= m best <= Z.log2_up (max_degree polys)
     /\ 1 <= k best
     /\ max_degree polys <= k best * 2 ^ m best
     /\ (odd best = true -> lazy = false /\ areOddPolynomials polys = true))
  /\ (Exists (fun f => ZZX.deg f = -1 \/ ZZX.deg f = 0) polys ->
      getBestParameters polys lazy = Throw (LogicError "Degree should be positive.")).
Proof.
  split.
  - intros Hne Hdeg Hmax.
    set (d := max_degree polys) in *.
    assert (Hd : 1 <= d).
    { destruct polys as [|f polys]; [congruence|].
      inversion Hdeg; subst.
      pose proof (PolyEvalFacts.max_degree_ge (f :: polys) f (or_introl eq_refl)).
      unfold d. lia. }
    pose proof (PolyEvalFacts.log2_up_le_16 d Hmax) as H16.
    pose proof (Z.log2_up_nonneg d) as Hlog.
    unfold getBestParameters.
    rewrite (PolyEvalFacts.degrees_accepted polys Hdeg). fold d.
    unfold ceiling_log2.
    assert (Hseq : seqZ 0 (Z.log2_up d + 1) = 0 :: seqZ 1 (Z.log2_up d)).
    { rewrite seqZ_cons by lia. f_equal. f_equal. lia. }
    rewrite Hseq.
    destruct (keep_best_some_turn (try_m polys lazy (areOddPolynomials polys) d)
                (seqZ 1 (Z.log2_up d)) 0) as (mb & Hin & Hfold).
    rewrite Hfold. eexists. split; [reflexivity|].
    assert (Hmb : 0 <= mb <= Z.log2_up d).
    { destruct Hin as [<-|Hin]; [lia|].
      apply list_elem_of_In, elem_of_seqZ in Hin. lia. }
    unfold try_m. rewrite PolyEvalFacts.baby_step_design by lia.
    pose proof (design_baby_step_bounds lazy (areOddPolynomials polys) d mb Hd
                  (proj1 Hmb)) as Hb.
    destruct (design_baby_step lazy (areOddPolynomials polys) d mb) as [[kb nb] ob].
    cbn [m k odd]. destruct Hb as [Hk Hodd].
    assert (HP : 1 <= 2 ^ mb) by (pose proof (Z.pow_pos_nonneg 2 mb); lia).
    pose proof (PolyEvalFacts.ceil_div_pos d (2 ^ mb) Hd HP).
    pose proof (ceil_div_covers d (2 ^ mb) HP).
    split; [exact Hmb|]. split; [lia|]. split; [nia | exact Hodd].
  - intros Hex. unfold getBestParameters.
    replace (forallb _ polys) with false; [reflexivity|].
    symmetry. apply not_true_iff_false. intros Hall.
    rewrite forallb_forall in Hall.
    apply Exists_exists in Hex. destruct Hex as (f & Hin & Hf).
    apply list_elem_of_In in Hin.
    specialize (Hall f Hin).
    destruct Hf as [Hf|Hf]; rewrite Hf in Hall; discriminate.
Qed.

(** For [X^16 + 1] the parameters [m = 2], [k = 4] cover the degree 16. *)
Lemma getBestParameters_covers_witness :
  exists best,
    getBestParameters [x16_plus_1] false = Ok best
    /\ 0 <= m best <= Z.log2_up (max_degree [x16_plus_1])
    /\ 1 <= k best
    /\ max_degree [x16_plus_1] <= k best * 2 ^ m best
    /\ (odd best = true -> false = false /\ areOddPolynomials [x16_plus_1] = true).
Proof.
  apply (proj1 (getBestParameters_covers [x16_plus_1] false)).
  - discriminate.
  - constructor; [vm_compute; discriminate | constructor].
  - vm_compute; discriminate.
Defined.

End PolyEvalMore.

(** ** The cascade lifts the lowest bit *)

Module CascadeFacts.
Import Err Ctxt RowComputation Poly Cascade.

(** *** Arithmetic of coefficient vectors *)

Lemma eval_padd (f g : list Z) (x : Z) : eval (padd f g) x = eval f x + eval g x.
Proof.
  revert g. induction f as [|a f IH]; intros g; [cbn; lia|].
  destruct g as [|b g]; cbn [padd eval]; [lia|]. rewrite IH. ring.
Qed.

Lemma eval_pscale (c : Z) (f : list Z) (x : Z) : eval (pscale c f) x = c * eval f x.
Proof.
  unfold pscale. induction f as [|a f IH]; cbn [map eval]; [lia|]. rewrite IH. ring.
Qed.

Lemma eval_pmul (f g : list Z) (x : Z) : eval (pmul f g) x = eval f x * eval g x.
Proof.
  induction f as [|a f IH]; cbn [pmul eval]; [lia|].
  rewrite eval_padd, eval_pscale. cbn [eval]. rewrite IH. ring.
Qed.

Lemma eval_shift1 (f : list Z) (x : Z) : eval (shift1 f) x = eval f (x + 1).
Proof.
  induction f as [|c f IH]; cbn [shift1 eval]; [reflexivity|].
  rewrite !eval_padd. cbn [eval]. rewrite IH. ring.
Qed.

Lemma eval_pdiff (f : list Z) (x : Z) : eval (pdiff f) x = eval f (x + 1) - eval f x.
Proof.
  induction f as [|c f IH]; cbn [pdiff eval]; [lia|].
  destruct f as [|d f]; [cbn; lia|].
  rewrite eval_padd, eval_shift1. cbn [eval] in *.
  change (eval (pdiff (d :: f)) x) with (eval (pdiff (d :: f)) x) in IH.
  rewrite IH. ring.
Qed.

Lemma length_padd (f g : list Z) : length (padd f g) = Nat.max (length f) (length g).
Proof.
  revert g. induction f as [|a f IH]; intros g; [reflexivity|].
  destruct g as [|b g]; cbn [padd length]; [reflexivity|]. rewrite IH. reflexivity.
Qed.

Lemma length_shift1 (f : list Z) : length (shift1 f) = length f.
Proof.
  induction f as [|c f IH]; [reflexivity|].
  cbn [shift1]. rewrite !length_padd. cbn [length]. rewrite IH. lia.
Qed.

Lemma length_pdiff (f : list Z) : length (pdiff f) = (length f - 1)%nat.
Proof.
  induction f as [|c f IH]; [reflexivity|].
  cbn [pdiff]. destruct f as [|d f]; [reflexivity|].
  rewrite length_padd, length_shift1. cbn [length] in *. rewrite IH. lia.
Qed.

(** A polynomial with [n] coefficients whose values at [0, ..., n - 1] are
    multiples of [M] has only multiples of [M] as values. *)
Lemma values_from_start (M : Z) (n : nat) (f : list Z) :
  length f = n ->
  (forall j, 0 <= j < Z.of_nat n -> (M | eval f j)) ->
  forall y, (M | eval f y).
Proof.
  revert f. induction n as [|n IH]; intros f Hlen Hstart y.
  - destruct f; [|discriminate]. cbn. apply Z.divide_0_r.
  - assert (Hdiff : forall z, (M | eval f (z + 1) - eval f z)).
    { intros z. rewrite <- eval_pdiff.
      apply (IH (pdiff f)).
      - rewrite length_pdiff, Hlen. lia.
      - intros j Hj. rewrite eval_pdiff.
        apply Z.divide_sub_r; apply Hstart; lia. }
    assert (H0 : (M | eval f 0)) by (apply Hstart; lia).
    assert (Hup : forall k : nat, (M | eval f (Z.of_nat k))).
    { induction k as [|k IHk]; [exact H0|].
      replace (Z.of_nat (S k)) with (Z.of_nat k + 1) by lia.
      replace (eval f (Z.of_nat k + 1))
        with ((eval f (Z.of_nat k + 1) - eval f (Z.of_nat k)) + eval f (Z.of_nat k))
        by ring.
      apply Z.divide_add_r; [apply Hdiff | exact IHk]. }
    assert (Hdown : forall k : nat, (M | eval f (- Z.of_nat k))).
    { induction k as [|k IHk]; [exact H0|].
      replace (eval f (- Z.of_nat (S k)))
        with (eval f (- Z.of_nat (S k) + 1)
              - (eval f (- Z.of_nat (S k) + 1) - eval f (- Z.of_nat (S k))))
        by ring.
      apply Z.divide_sub_r; [|apply Hdiff].
      replace (- Z.of_nat (S k) + 1) with (- Z.of_nat k) by lia. exact IHk. }
    destruct (Z.le_gt_cases 0 y) as [Hy|Hy].
    + replace y with (Z.of_nat (Z.to_nat y)) by lia. apply Hup.
    + replace y with (- Z.of_nat (Z.to_nat (- y))) by lia. apply Hdown.
Qed.

(** The check at the first values settles all values. *)
Lemma lifts_everywhere (b e : Z) (f : list Z) :
  0 <= e -> lifts_at_start b e f = true ->
  forall y, (eval f y - b) mod 2 ^ e = 0.
Proof.
  intros He Hstart y.
  assert (HM : 0 < 2 ^ e) by (apply Z.pow_pos_nonneg; lia).
  apply Z.mod_divide; [lia|].
  replace (eval f y - b) with (eval (padd f [- b]) y)
    by (rewrite eval_padd; cbn; lia).
  apply (values_from_start (2 ^ e) (length (padd f [- b])) _ eq_refl).
  intros j Hj. rewrite length_padd in Hj. cbn [length] in Hj.
  rewrite eval_padd. cbn [eval].
  unfold lifts_at_start in Hstart. rewrite forallb_forall in Hstart.
  assert (Hin : j ∈ seqZ 0 (Z.of_nat (length f) + 1)) by (apply elem_of_seqZ; lia).
  apply list_elem_of_In in Hin.
  specialize (Hstart j Hin). apply Z.eqb_eq in Hstart.
  apply Z.mod_divide in Hstart; [|lia].
  replace (eval f j + (- b + j * 0)) with (eval f j - b) by ring.
  exact Hstart.
Qed.

(** *** The closed forms at [b + 2y] *)

Lemma eval_input (b y : Z) : eval (input b) y = b + 2 * y.
Proof. cbn. lia. Qed.

Lemma eval_F2 (b y : Z) : eval (F2 b) y = @f2 Z Z_plaintext (b + 2 * y).
Proof.
  unfold F2. rewrite eval_pmul, eval_input. unfold f2. cbn. ring.
Qed.

Lemma eval_F4 (b y : Z) : eval (F4 b) y = @f4 Z Z_plaintext (b + 2 * y).
Proof.
  unfold F4. rewrite eval_pmul, eval_F2. unfold f4, f2. cbn. ring.
Qed.

Lemma eval_F8 (b y : Z) : eval (F8 b) y = @f8 Z Z_plaintext (b + 2 * y).
Proof.
  unfold F8.
  rewrite ?eval_padd, ?eval_pmul, ?eval_padd, ?eval_pscale, ?eval_F2, ?eval_F4.
  unfold f8, f4, f2, of_Z. cbn. ring.
Qed.

Lemma eval_F16 (b y : Z) : eval (F16 b) y = @f16 Z Z_plaintext (b + 2 * y).
Proof.
  unfold F16.
  rewrite ?eval_padd, ?eval_pscale, ?eval_pmul, ?eval_padd, ?eval_pscale,
    ?eval_F2, ?eval_F4, ?eval_F8.
  unfold f16, f4, f2, of_Z.
  set (v8 := @f8 Z Z_plaintext (b + 2 * y)).
  cbn. ring.
Qed.

(** An integer is its lowest bit plus twice the rest. *)
Lemma bit_and_rest (x : Z) : x mod 2 = 0 \/ x mod 2 = 1.
Proof. pose proof (Z.mod_pos_bound x 2). lia. Qed.

Lemma lift_value (e v b : Z) :
  1 <= e -> (b = 0 \/ b = 1) -> (v - b) mod 2 ^ e = 0 -> v mod 2 ^ e = b.
Proof.
  intros He Hb Hv.
  assert (HM : 2 <= 2 ^ e).
  { change 2 with (2 ^ 1) at 1. apply Z.pow_le_mono_r; lia. }
  apply Z.mod_divide in Hv; [|lia]. destruct Hv as [k Hk].
  replace v with (b + k * 2 ^ e) by lia.
  rewrite Z.mod_add by lia. apply Z.mod_small. lia.
Qed.

(** The four closed forms keep the lowest bit of their argument and clear
    the bits above it, up to the precision of each. *)
Lemma closed_forms_lift (x : Z) :
  @f2 Z Z_plaintext x mod 2 ^ 2 = x mod 2
  /\ @f4 Z Z_plaintext x mod 2 ^ 4 = x mod 2
  /\ @f8 Z Z_plaintext x mod 2 ^ 8 = x mod 2
  /\ @f16 Z Z_plaintext x mod 2 ^ 16 = x mod 2.
Proof.
  assert (Hx : x = x mod 2 + 2 * (x / 2)).
  { pose proof (Z.div_mod x 2 ltac:(lia)). lia. }
  set (b := x mod 2) in *. set (y := x / 2) in *.
  rewrite Hx at 1 2 3 4.
  rewrite <- eval_F2, <- eval_F4, <- eval_F8, <- eval_F16.
  destruct (bit_and_rest x) as [Hb|Hb]; fold b in Hb; rewrite Hb.
  - repeat split; apply lift_value; try lia; auto;
      apply lifts_everywhere; try lia; reflexivity.
  - repeat split; apply lift_value; try lia; auto;
      apply lifts_everywhere; try lia; reflexivity.
Qed.

(** *** Plaintexts modulo a power of two *)

(** The image of an integer constant in the residues is its residue. *)
Lemma of_Z_residue (M k : Z) :
  @of_Z (Zmod.Zmod M) (ModularPlaintext.Zmod_plaintext M) k = Zmod.of_Z M k.
Proof.
  pose proof (InitialRing.gen_phiZ_morph
                (Eqsth (Zmod.Zmod M))
                (Ring_theory.Eq_ext Zmod.add Zmod.mul Zmod.opp)
                (Zmod.ring_theory M)) as Hm.
  unfold of_Z. cbn [zero one add mul opp ModularPlaintext.Zmod_plaintext].
  assert (Hnat : forall n : nat,
             InitialRing.gen_phiZ Zmod.zero Zmod.one Zmod.add Zmod.mul Zmod.opp
               (Z.of_nat n) = Zmod.of_Z M (Z.of_nat n)).
  { induction n as [|n IH]; [symmetry; apply Zmod.of_Z_0|].
    rewrite Nat2Z.inj_succ, <- Z.add_1_r.
    rewrite (Ring_theory.morph_add Hm), IH, Zmod.of_Z_add.
    reflexivity. }
  destruct (Z.le_gt_cases 0 k) as [Hk|Hk].
  - rewrite <- (Z2Nat.id k Hk). apply Hnat.
  - replace k with (- Z.of_nat (Z.to_nat (- k))) by lia.
    rewrite (Ring_theory.morph_opp Hm), Hnat, Zmod.of_Z_opp. reflexivity.
Qed.

Lemma power_residue (M z : Z) (n : nat) :
  @power (Zmod.Zmod M) (ModularPlaintext.Zmod_plaintext M) (Zmod.of_Z M z) n
  = Zmod.of_Z M (@power Z Z_plaintext z n).
Proof.
  induction n as [|n IH]; cbn [power].
  - cbn. symmetry. apply Zmod.of_Z_1.
  - rewrite IH. cbn [mul ModularPlaintext.Zmod_plaintext Z_plaintext].
    symmetry. apply Zmod.of_Z_mul.
Qed.

(** The closed forms commute with reduction modulo [M]. *)
Lemma closed_forms_residue (M z : Z) :
  let R := ModularPlaintext.Zmod_plaintext M in
  @f2 _ R (Zmod.of_Z M z) = Zmod.of_Z M (@f2 Z Z_plaintext z)
  /\ @f4 _ R (Zmod.of_Z M z) = Zmod.of_Z M (@f4 Z Z_plaintext z)
  /\ @f8 _ R (Zmod.of_Z M z) = Zmod.of_Z M (@f8 Z Z_plaintext z)
  /\ @f16 _ R (Zmod.of_Z M z) = Zmod.of_Z M (@f16 Z Z_plaintext z).
Proof.
  cbv zeta.
  assert (H8 : @f8 _ (ModularPlaintext.Zmod_plaintext M) (Zmod.of_Z M z)
               = Zmod.of_Z M (@f8 Z Z_plaintext z)).
  { unfold f8. rewrite !of_Z_residue, !power_residue.
    cbn [add mul sub ModularPlaintext.Zmod_plaintext].
    rewrite <- ?Zmod.of_Z_mul, <- ?Zmod.of_Z_add.
    change (power (Zmod.of_Z M (94 * power z 2 + 121 * power z 4)) 2)
      with (@power _ (ModularPlaintext.Zmod_plaintext M)
                   (Zmod.of_Z M (94 * power z 2 + 121 * power z 4)) 2).
    rewrite power_residue, <- Zmod.of_Z_add. reflexivity. }
  split; [apply power_residue|]. split; [apply power_residue|].
  split; [exact H8|].
  unfold f16. rewrite H8, !of_Z_residue, !power_residue.
  cbn [add mul sub ModularPlaintext.Zmod_plaintext].
  rewrite <- ?Zmod.of_Z_mul, <- ?Zmod.of_Z_add, <- ?Zmod.of_Z_sub,
    <- ?Zmod.of_Z_mul, <- ?Zmod.of_Z_sub.
  reflexivity.
Qed.

Lemma pow2_ge_2 (e : Z) : 1 <= e -> 2 <= 2 ^ e.
Proof.
  intros He. change 2 with (2 ^ 1) at 1. apply Z.pow_le_mono_r; lia.
Qed.

(** Reducing modulo a higher power of two first does not matter. *)
Lemma mod_pow2_twice (w a b : Z) :
  0 <= a <= b -> (w mod 2 ^ b) mod 2 ^ a = w mod 2 ^ a.
Proof.
  intros Hab.
  assert (Ha : 0 < 2 ^ a) by (apply Z.pow_pos_nonneg; lia).
  assert (Hb : 0 < 2 ^ b) by (apply Z.pow_pos_nonneg; lia).
  assert (Hsplit : 2 ^ b = 2 ^ (b - a) * 2 ^ a).
  { rewrite <- Z.pow_add_r by lia. f_equal. lia. }
  pose proof (Z.div_mod w (2 ^ b) ltac:(lia)) as Hw.
  replace (w mod 2 ^ b) with (w + (- (w / 2 ^ b) * 2 ^ (b - a)) * 2 ^ a) by nia.
  apply Z.mod_add. lia.
Qed.

(** Reading a residue modulo [2^E] modulo [2^e]. *)
Lemma residue_lift (E e w b : Z) :
  1 <= E -> 1 <= e -> (b = 0 \/ b = 1) -> w mod 2 ^ e = b ->
  Zmod.to_Z (Zmod.of_Z (2 ^ E) w) mod 2 ^ e = b.
Proof.
  intros HE He Hb Hw. rewrite Zmod.unsigned_of_Z.
  pose proof (pow2_ge_2 E HE) as HpE. pose proof (pow2_ge_2 e He) as Hpe.
  destruct (Z.le_gt_cases e E) as [Hle|Hgt].
  - rewrite mod_pow2_twice by lia. exact Hw.
  - assert (HwE : w mod 2 ^ E = b).
    { rewrite <- (mod_pow2_twice w E e) by lia. rewrite Hw.
      apply Z.mod_small. lia. }
    rewrite HwE. apply Z.mod_small. lia.
Qed.

Lemma residue_parity (E : Z) (v : Zmod.Zmod (2 ^ E)) (w : Z) :
  1 <= E -> v = Zmod.of_Z (2 ^ E) w -> Zmod.to_Z v mod 2 = w mod 2.
Proof.
  intros HE ->. rewrite Zmod.unsigned_of_Z.
  change 2 with (2 ^ 1) at 2 3. apply mod_pow2_twice. lia.
Qed.

Section Digits.
Variable E : Z.
Context {C : Type} `{Ops C} `{!Homomorphic C (Zmod.Zmod (2 ^ E))}.

(** Every ciphertext that [rowComputationMultivariate] pushes holds the
    lowest bit of the input, lifted to the precision it is tagged with:
    with plaintexts modulo [2^E], for an input with plaintext [x] and a
    pushed pair [(c, e)], the plaintext of [c] is [x mod 2] modulo [2^e]. *)
Theorem multivariate_lifts_lowest_bit (x : C) (ev : Eval C) (rowSize : Z) :
  1 <= E ->
  exists tl,
    rowComputationMultivariate x ev rowSize = ev ++ tl
    /\ Forall (fun ce : C * Z =>
                 1 <= ce.2
                 /\ Zmod.to_Z (dec ce.1) mod 2 ^ ce.2 = Zmod.to_Z (dec x) mod 2) tl.
Proof.
  intros HE.
  destruct (RowComputationFacts.multivariate_appends x ev rowSize)
    as (tl & Happ & Hdec).
  exists tl. split; [exact Happ|].
  set (w := Zmod.to_Z (dec x)).
  assert (Hx : dec x = Zmod.of_Z (2 ^ E) w) by (symmetry; apply Zmod.of_Z_unsigned).
  destruct (closed_forms_lift w) as (H2 & H4 & H8 & H16).
  destruct (closed_forms_residue (2 ^ E) w) as (R2 & R4 & R8 & R16).
  cbv zeta in R2, R4, R8, R16.
  assert (Hall : Forall (fun ve : Zmod.Zmod (2 ^ E) * Z =>
                           1 <= ve.2 /\ Zmod.to_Z ve.1 mod 2 ^ ve.2 = w mod 2)
                        (cascade (dec x) rowSize)).
  { unfold cascade. rewrite Hx, R2, R4, R8, R16.
    repeat apply Forall_app_2;
      match goal with
      | |- Forall _ (if ?c then _ else _) =>
          destruct c; [apply Forall_cons_2; [|apply Forall_nil_2] | apply Forall_nil_2]
      end; cbn [fst snd]; (split; [lia|]);
      apply residue_lift; try lia; try apply bit_and_rest; assumption. }
  rewrite <- Hdec in Hall. unfold dec_all in Hall.
  rewrite Forall_map in Hall. exact Hall.
Qed.

End Digits.

(** On residues modulo [2^16], in a row of size 9: the input 40503. *)
Lemma multivariate_lifts_lowest_bit_witness :
  exists tl,
    @rowComputationMultivariate _ (ModularPlaintext.Zmod_ops (2 ^ 16))
      (Zmod.of_Z (2 ^ 16) 40503) [] 9 = [] ++ tl
    /\ Forall (fun ce : Zmod.Zmod (2 ^ 16) * Z =>
                 1 <= ce.2 /\ Zmod.to_Z ce.1 mod 2 ^ ce.2
                              = Zmod.to_Z (Zmod.of_Z (2 ^ 16) 40503) mod 2) tl.
Proof.
  refine (@multivariate_lifts_lowest_bit 16 _ (ModularPlaintext.Zmod_ops (2 ^ 16))
            (@Build_Homomorphic _ _ (ModularPlaintext.Zmod_ops (2 ^ 16))
               (ModularPlaintext.Zmod_plaintext (2 ^ 16)) (fun c => c) _ _ _ _)
            (Zmod.of_Z (2 ^ 16) 40503) [] 9 _).
  - intros c. reflexivity.
  - intros c k. cbn. rewrite of_Z_residue. reflexivity.
  - intros c d [|]; reflexivity.
  - intros c d. reflexivity.
  - lia.
Defined.

End CascadeFacts.

(** ** The polynomials evaluated for a row *)

Module CompositionFacts.
Import Err Ctxt RowComputation Composition.

(** [find_index] finds the last position of a value, and the length of
    the list when the value is absent. *)
Lemma find_index_spec (l : list Z) (v : Z) :
  (In v l -> 0 <= find_index l v < Z.of_nat (length l)
             /\ l !! Z.to_nat (find_index l v) = Some v)
  /\ (~ In v l -> find_index l v = Z.of_nat (length l)).
Proof.
  unfold find_index.
  assert (Hgen : forall (l : list Z) (off : nat) (start : Z),
             let r := fold_left (fun index iv => if (iv.2 =? v) then Z.of_nat iv.1 else index)
                        (imap (fun i x => ((off + i)%nat, x)) l) start in
             (In v l -> Z.of_nat off <= r < Z.of_nat (off + length l)
                        /\ l !! (Z.to_nat r - off)%nat = Some v)
             /\ (~ In v l -> r = start)).
  { clear l. induction l as [|a l IH]; intros off start; cbn zeta.
    - cbn. split; [tauto | reflexivity].
    - rewrite imap_cons. cbn [fold_left fst snd].
      rewrite (imap_ext _ (fun i x => ((S off + i)%nat, x)))
        by (intros i z _; cbn; f_equal; lia).
      specialize (IH (S off) (if a =? v then Z.of_nat (off + 0) else start)).
      cbn zeta in IH.
      set (r := fold_left _ _ _) in *.
      destruct IH as [IHin IHout].
      destruct (in_dec Z.eq_dec v l) as [Hin|Hnin].
      + split; [|intros Hn; exfalso; apply Hn; right; exact Hin].
        intros _. destruct (IHin Hin) as [Hr Hl]. cbn [length]. split; [lia|].
        replace (Z.to_nat r - off)%nat with (S (Z.to_nat r - S off))%nat by lia.
        exact Hl.
      + rewrite (IHout Hnin). split.
        * intros [->|Hin]; [|contradiction].
          rewrite Z.eqb_refl. cbn [length]. split; [lia|].
          replace (Z.to_nat (Z.of_nat (off + 0)) - off)%nat with 0%nat by lia.
          reflexivity.
        * intros Hn. destruct (Z.eqb_spec a v) as [->|_]; [|reflexivity].
          exfalso. apply Hn. left. reflexivity. }
  specialize (Hgen l 0%nat (Z.of_nat (length l))). cbn zeta in Hgen.
  change (fun (i : nat) (x : Z) => ((0 + i)%nat, x))
    with (fun (i : nat) (x : Z) => (i, x)) in Hgen.
  destruct Hgen as [Hin Hout]. split.
  - intros Hv. destruct (Hin Hv) as [Hr Hl]. split; [lia|].
    rewrite Nat.sub_0_r in Hl. exact Hl.
  - exact Hout.
Qed.

Lemma select_spec (cache : list ZZX.t) (e_inner precision : Z) :
  e_inner < precision ->
  (precision - e_inner - 1 < Z.of_nat (length cache) ->
   select cache e_inner precision
   = Ok (nth (Z.to_nat (precision - e_inner - 1)) cache []))
  /\ (Z.of_nat (length cache) <= precision - e_inner - 1 ->
      select cache e_inner precision
      = Throw (LogicError
                 "Not sufficiently many polynomials generated for the given prime.")).
Proof.
  intros Hp. unfold select, assertTrue. split; intros Hc.
  - destruct (Z.ltb_spec (precision - e_inner - 1) (Z.of_nat (length cache)));
      [|lia].
    cbn [mbind outcome_bind].
    destruct (Z.ltb_spec (precision - e_inner - 1) 0); [lia|reflexivity].
  - destruct (Z.ltb_spec (precision - e_inner - 1) (Z.of_nat (length cache)));
      [lia|reflexivity].
Qed.

Lemma scheduled_snoc (cache : list ZZX.t) (e_inner rowSize bound bound' : Z)
    (st : list ZZX.t * list Z) (precision : Z) :
  scheduled cache e_inner rowSize bound st ->
  bound < precision -> bound <= bound' -> precision <= bound' ->
  e_inner < precision <= rowSize ->
  precision - e_inner - 1 < Z.of_nat (length cache) ->
  scheduled cache e_inner rowSize bound'
    (st.1 ++ [nth (Z.to_nat (precision - e_inner - 1)) cache []],
     st.2 ++ [precision]).
Proof.
  intros (Hpoly & Hall & Hinc) Hb Hbb Hpb Hrange Hcache.
  unfold scheduled. cbn [fst snd]. split; [|split].
  - rewrite map_app, Hpoly. reflexivity.
  - apply Forall_app. split.
    + eapply Forall_impl; [exact Hall|]. cbn beta. intros y Hy. lia.
    + constructor; [lia | constructor].
  - intros i a b Ha Hbk.
    destruct (Nat.lt_ge_cases (S i) (length st.2)) as [Hlt|Hge].
    + rewrite lookup_app_l in Ha by lia. rewrite lookup_app_l in Hbk by lia.
      apply (Hinc i a b Ha Hbk).
    + rewrite lookup_app_r in Hbk by lia.
      destruct (S i - length st.2)%nat as [|n] eqn:En; cbn in Hbk; [|discriminate].
      injection Hbk as <-.
      rewrite lookup_app_l in Ha by lia.
      rewrite Forall_forall in Hall.
      apply list_elem_of_lookup_2 in Ha. specialize (Hall a Ha). lia.
Qed.

(** The loop ends within its fuel; it fails only on a cache that is too
    short for the row. *)
Lemma precisions_loop_spec (cache : list ZZX.t) (e_inner triangleSize rowSize : Z) :
  1 <= e_inner -> triangleSize <= rowSize ->
  forall (fuel : nat) (exponent : Z) (st : list ZZX.t * list Z),
    1 <= exponent ->
    (Z.to_nat (triangleSize - e_inner * 2 ^ (exponent - 1)) < fuel)%nat ->
    scheduled cache e_inner rowSize (e_inner * 2 ^ (exponent - 1)) st ->
    (exists st',
        precisions_loop fuel cache e_inner triangleSize rowSize exponent st = Ok st'
        /\ scheduled cache e_inner rowSize rowSize st')
    \/ (precisions_loop fuel cache e_inner triangleSize rowSize exponent st
        = Throw (LogicError
                   "Not sufficiently many polynomials generated for the given prime.")
        /\ Z.of_nat (length cache) <= rowSize - e_inner - 1).
Proof.
  intros He HT. induction fuel as [|fuel IH]; intros exponent st Hexp Hfuel Hst; [lia|].
  cbn [precisions_loop].
  set (prev := e_inner * 2 ^ (exponent - 1)) in *.
  assert (Hpow : 2 ^ exponent = 2 * 2 ^ (exponent - 1)).
  { replace exponent with (Z.succ (exponent - 1)) at 1 by lia.
    apply Z.pow_succ_r. lia. }
  assert (Hpos : 1 <= 2 ^ (exponent - 1))
    by (pose proof (Z.pow_pos_nonneg 2 (exponent - 1)); lia).
  assert (Hnext : e_inner * 2 ^ exponent = 2 * prev) by (unfold prev; lia).
  assert (Hprev : e_inner <= prev) by (unfold prev; nia).
  destruct (Z.ltb_spec prev triangleSize) as [Hlt|Hge].
  - rewrite Hnext. cbv zeta.
    set (precision := if triangleSize <? 2 * prev
                      then (if 2 * prev <? rowSize then triangleSize else rowSize)
                      else 2 * prev).
    assert (Hprec : prev < precision /\ precision <= 2 * prev
                    /\ e_inner < precision <= rowSize).
    { unfold precision.
      destruct (Z.ltb_spec triangleSize (2 * prev));
        [destruct (Z.ltb_spec (2 * prev) rowSize)|]; lia. }
    destruct (select_spec cache e_inner precision ltac:(lia)) as [Hok Hfail].
    destruct (Z.lt_ge_cases (precision - e_inner - 1) (Z.of_nat (length cache)))
      as [Hin|Hout].
    + rewrite (Hok Hin). cbn [mbind outcome_bind].
      apply IH; [lia| |].
      * replace (exponent + 1 - 1) with exponent by lia. rewrite Hnext. lia.
      * replace (exponent + 1 - 1) with exponent by lia. rewrite Hnext.
        apply (scheduled_snoc cache e_inner rowSize prev (2 * prev) st precision);
          try lia. exact Hst.
    + rewrite (Hfail Hout). cbn [mbind outcome_bind]. right.
      split; [reflexivity | lia].
  - left. exists st. split; [reflexivity|].
    destruct Hst as (Hpoly & Hall & Hinc). split; [exact Hpoly|]. split; [|exact Hinc].
    eapply Forall_impl; [exact Hall|]. cbn beta. intros y Hy. lia.
Qed.

Lemma one_more_spec (cache : list ZZX.t) (e_inner rowSize : Z)
    (st : list ZZX.t * list Z) :
  e_inner < rowSize ->
  scheduled cache e_inner rowSize rowSize st ->
  (rowSize - e_inner <= Z.of_nat (length cache) ->
   exists st', one_more cache e_inner rowSize st = Ok st'
               /\ scheduled cache e_inner rowSize rowSize st'
               /\ last st'.2 = Some rowSize)
  /\ (Z.of_nat (length cache) < rowSize - e_inner ->
      one_more cache e_inner rowSize st
      = Throw (LogicError
                 "Not sufficiently many polynomials generated for the given prime.")).
Proof.
  intros He Hst. unfold one_more.
  destruct (select_spec cache e_inner rowSize He) as [Hok Hfail].
  pose proof Hst as (Hpoly & Hall & Hinc).
  assert (Hlast : forall back, last st.2 = Some back ->
                     back <= rowSize
                     /\ back - e_inner - 1 < Z.of_nat (length cache)).
  { intros back Hb. rewrite last_lookup in Hb.
    apply list_elem_of_lookup_2 in Hb.
    rewrite Forall_forall in Hall. specialize (Hall back Hb). lia. }
  split; intros Hcache.
  - destruct (last st.2) as [back|] eqn:Elast.
    + destruct (Hlast back eq_refl) as [Hb1 Hb2].
      destruct (Z.ltb_spec back rowSize) as [Hlt|Hge].
      * rewrite Hok by lia. cbn [mbind outcome_bind].
        eexists. split; [reflexivity|]. split.
        -- apply (scheduled_snoc cache e_inner rowSize (rowSize - 1) rowSize st rowSize);
             try lia.
           split; [exact Hpoly|]. split; [|exact Hinc].
           rewrite Forall_forall in Hall |- *. intros y Hy.
           specialize (Hall y Hy). split; [lia|]. split; [|lia].
           destruct (Z.eq_dec y rowSize) as [->|]; [|lia].
           exfalso.
           apply list_elem_of_lookup_1 in Hy as [i Hi].
           rewrite last_lookup in Elast.
           assert (Hilt : (i < length st.2)%nat) by (apply lookup_lt_is_Some; eauto).
           assert (Hmono : forall n j a b, st.2 !! j = Some a ->
                              st.2 !! (j + n)%nat = Some b -> a <= b).
           { induction n as [|n IHn]; intros j a b Ha Hb.
             - rewrite Nat.add_0_r in Hb. assert (a = b) by congruence. lia.
             - destruct (lookup_lt_is_Some_2 st.2 (j + n)%nat) as [c Hc].
               { apply lookup_lt_Some in Hb. lia. }
               pose proof (IHn j a c Ha Hc).
               replace (j + S n)%nat with (S (j + n)) in Hb by lia.
               pose proof (Hinc _ _ _ Hc Hb). lia. }
           pose proof (Hmono (Nat.pred (length st.2) - i)%nat i rowSize back Hi) as Hm.
           replace (i + (Nat.pred (length st.2) - i))%nat
             with (Nat.pred (length st.2)) in Hm by lia.
           specialize (Hm Elast). lia.
        -- cbn [snd]. rewrite last_snoc. reflexivity.
      * exists st. split; [reflexivity|]. split; [exact Hst|].
        rewrite Elast. f_equal. lia.
    + rewrite Hok by lia. cbn [mbind outcome_bind].
      eexists. split; [reflexivity|]. split.
      * apply (scheduled_snoc cache e_inner rowSize (rowSize - 1) rowSize st rowSize);
          try lia.
        split; [exact Hpoly|]. split; [|exact Hinc].
        apply last_None in Elast. rewrite Elast. constructor.
      * cbn [snd]. rewrite last_snoc. reflexivity.
  - destruct (last st.2) as [back|] eqn:Elast.
    + destruct (Hlast back eq_refl) as [Hb1 Hb2].
      destruct (Z.ltb_spec back rowSize) as [Hlt|Hge]; [|lia].
      rewrite Hfail by lia. reflexivity.
    + rewrite Hfail by lia. reflexivity.
Qed.

Section Rows.
Context {C : Type}.
Variables (primes_list e_inner_list : list Z)
          (polynomial_vector : list (list (list ZZX.t))).
Variable customPolyEval : list ZZX.t -> C -> bool -> outcome (list C).

(** A prime or an inner exponent that is not in the tables of the cache
    is refused, the prime first. *)
Theorem composition_unknown_parameters (p : Z) (ctxt : C) (ctxtEval : Eval C)
    (triangleSize rowSize : Z) (lazy : bool) (e_inner : Z) :
  (~ In p primes_list ->
   rowComputationComposition primes_list e_inner_list polynomial_vector
     customPolyEval p ctxt ctxtEval triangleSize rowSize lazy e_inner
   = Throw (LogicError "No polynomials generated for given prime."))
  /\ (In p primes_list -> ~ In e_inner e_inner_list ->
      rowComputationComposition primes_list e_inner_list polynomial_vector
        customPolyEval p ctxt ctxtEval triangleSize rowSize lazy e_inner
      = Throw (LogicError "No polynomials generated for given e_inner.")).
Proof.
  unfold rowComputationComposition, assertTrue. split.
  - intros Hp. rewrite (proj2 (find_index_spec primes_list p) Hp).
    rewrite Z.ltb_irrefl. reflexivity.
  - intros Hp He.
    destruct (proj1 (find_index_spec primes_list p) Hp) as [Hr _].
    destruct (Z.ltb_spec (find_index primes_list p) (Z.of_nat (length primes_list)));
      [|lia].
    cbn [mbind outcome_bind].
    rewrite (proj2 (find_index_spec e_inner_list e_inner) He).
    rewrite Z.ltb_irrefl. reflexivity.
Qed.

(** For known parameters, [1 <= e_inner < rowSize] and
    [triangleSize <= rowSize], the row needs the cache up to precision
    [rowSize]: with a shorter cache the call throws; otherwise the
    polynomials handed to [customPolyEval] are the entries of the cache for
    precisions that increase strictly, lie above [e_inner] and end with
    [rowSize], and each result is appended with its precision. *)
Theorem composition_schedule (p : Z) (ctxt : C) (ctxtEval : Eval C)
    (triangleSize rowSize : Z) (lazy : bool) (e_inner : Z) (cache : list ZZX.t) :
  1 <= e_inner -> triangleSize <= rowSize -> e_inner < rowSize ->
  In p primes_list -> In e_inner e_inner_list ->
  cached polynomial_vector (find_index primes_list p)
    (find_index e_inner_list e_inner) = Ok cache ->
  (rowSize - e_inner <= Z.of_nat (length cache) ->
   exists precisions,
     last precisions = Some rowSize
     /\ Forall (fun precision => e_inner < precision <= rowSize) precisions
     /\ (forall i a b, precisions !! i = Some a -> precisions !! S i = Some b -> a < b)
     /\ rowComputationComposition primes_list e_inner_list polynomial_vector
          customPolyEval p ctxt ctxtEval triangleSize rowSize lazy e_inner
        = (result ← customPolyEval
                      (map (fun precision =>
                              nth (Z.to_nat (precision - e_inner - 1)) cache [])
                           precisions) ctxt lazy;
           if (length precisions <? length result)%nat
           then Throw (Undefined "precisions[index]")
           else Ok (ctxtEval ++ zip result precisions)))
  /\ (Z.of_nat (length cache) < rowSize - e_inner ->
      rowComputationComposition primes_list e_inner_list polynomial_vector
        customPolyEval p ctxt ctxtEval triangleSize rowSize lazy e_inner
      = Throw (LogicError
                 "Not sufficiently many polynomials generated for the given prime.")).
Proof.
  intros He HT Hrow Hp Hin Hcache.
  unfold rowComputationComposition, assertTrue.
  destruct (proj1 (find_index_spec primes_list p) Hp) as [Hr1 _].
  destruct (proj1 (find_index_spec e_inner_list e_inner) Hin) as [Hr2 _].
  destruct (Z.ltb_spec (find_index primes_list p) (Z.of_nat (length primes_list)));
    [|lia].
  destruct (Z.ltb_spec (find_index e_inner_list e_inner)
              (Z.of_nat (length e_inner_list))); [|lia].
  cbn [mbind outcome_bind]. rewrite Hcache. cbn [mbind outcome_bind].
  assert (Hstart : scheduled cache e_inner rowSize (e_inner * 2 ^ (1 - 1)) ([], [])).
  { split; [reflexivity|]. split; [constructor|].
    intros i a b Ha. destruct i; discriminate Ha. }
  destruct (precisions_loop_spec cache e_inner triangleSize rowSize He HT
              (Z.to_nat triangleSize + 1) 1 ([], []) ltac:(lia)
              ltac:(change (2 ^ (1 - 1)) with 1; lia) Hstart)
    as [(st & -> & Hst)|[-> Hshort]].
  - cbn [mbind outcome_bind].
    destruct (one_more_spec cache e_inner rowSize st Hrow Hst) as [Hok Hfail].
    split; intros Hlen.
    + destruct (Hok Hlen) as (st' & -> & (Hpoly & Hall & Hinc) & Hlast).
      cbn [mbind outcome_bind]. destruct st' as [polynomials precisions].
      cbn [fst snd] in *. exists precisions.
      split; [exact Hlast|]. split.
      * eapply Forall_impl; [exact Hall|]. cbn beta. intros y Hy. lia.
      * split; [exact Hinc|]. rewrite Hpoly. reflexivity.
    + rewrite (Hfail Hlen). reflexivity.
  - cbn [mbind outcome_bind]. split; intros Hlen; [lia|reflexivity].
Qed.

End Rows.

Lemma composition_schedule_witness :
  exists precisions,
    last precisions = Some 6
    /\ Forall (fun precision => 1 < precision <= 6) precisions
    /\ (forall i a b, precisions !! i = Some a -> precisions !! S i = Some b -> a < b)
    /\ rowComputationComposition [2; 3] [1; 2]
         [[[]; []]; [replicate 6 [0; 1]; []]]
         (fun polys (c : Z) (_ : bool) => Ok (map (fun _ => c) polys))
         3 7 [] 4 6 false 1
       = (result ← Ok (map (fun _ : ZZX.t => 7)
                         (map (fun precision =>
                                 nth (Z.to_nat (precision - 1 - 1))
                                     (replicate 6 [0; 1]) [])
                              precisions));
          if (length precisions <? length result)%nat
          then Throw (Undefined "precisions[index]")
          else Ok ([] ++ zip result precisions)).
Proof.
  refine (proj1 (composition_schedule [2; 3] [1; 2]
                   [[[]; []]; [replicate 6 [0; 1]; []]]
                   (fun polys (c : Z) (_ : bool) => Ok (map (fun _ => c) polys))
                   3 7 [] 4 6 false 1 (replicate 6 [0; 1])
                   _ _ _ _ _ _) _).
  - lia.
  - lia.
  - lia.
  - right; left; reflexivity.
  - left; reflexivity.
  - reflexivity.
  - vm_compute. discriminate.
Defined.

End CompositionFacts.

(** ** Powers of a ciphertext *)

Module PowersFacts.
Import Err Ctxt Powers.

Section Facts.
Context {C R : Type} `{PolyHomomorphic C R}.

Add Ring powers_ring_inst : plaintext_ring.

Lemma power_add (x : R) (a b : nat) :
  Ctxt.power x (a + b) = mul (Ctxt.power x a) (Ctxt.power x b).
Proof.
  induction a as [|a IH]; cbn [Nat.add Ctxt.power].
  - ring.
  - rewrite IH. ring.
Qed.

Lemma power_split (x : R) (e k : Z) :
  1 <= k -> k < e ->
  mul (Ctxt.power x (Z.to_nat (e - k))) (Ctxt.power x (Z.to_nat k))
  = Ctxt.power x (Z.to_nat e).
Proof.
  intros Hk He. rewrite <- power_add. f_equal. lia.
Qed.

Lemma dec_iter_square (c : C) (n : nat) :
  dec (Nat.iter n square c) = Ctxt.power (dec c) (2 ^ n).
Proof.
  induction n as [|n IH].
  - cbn. ring.
  - change (Nat.iter (S n) square c) with (square (Nat.iter n square c)).
    rewrite dec_square, IH, <- power_add. f_equal.
    cbn [Nat.pow]. lia.
Qed.

(** The greatest power of two below [e]. *)
Lemma half_range (e : Z) :
  2 <= e ->
  0 <= NextPowerOfTwo e - 1
  /\ 1 <= Z.shiftl 1 (NextPowerOfTwo e - 1) < e.
Proof.
  intros He. unfold NextPowerOfTwo.
  assert (Hl : 0 < Z.log2_up e) by (apply Z.log2_up_pos; lia).
  split; [lia|].
  rewrite Z.shiftl_1_l.
  pose proof (Z.log2_up_spec e ltac:(lia)) as [Hlo _].
  replace (Z.pred (Z.log2_up e)) with (Z.log2_up e - 1) in Hlo by lia.
  split; [|exact Hlo].
  assert (0 < 2 ^ (Z.log2_up e - 1)) by (apply Z.pow_pos_nonneg; lia). lia.
Qed.

Lemma getPower_spec (x : R) (fuel : nat) :
  forall (e : Z) (v : list C) (N : nat),
    (Z.to_nat e <= fuel)%nat -> 1 <= e -> (Z.to_nat e <= N)%nat ->
    (Z.to_nat e <= length v)%nat ->
    computed_below x N v ->
    (exists c0, v !! 0%nat = Some c0 /\ isEmpty c0 = false) ->
    exists v' c,
      getPower fuel v e = Ok (v', c)
      /\ v' !! Z.to_nat (e - 1) = Some c
      /\ dec c = Ctxt.power x (Z.to_nat e)
      /\ length v' = length v
      /\ computed_below x N v'
      /\ (forall i d, v !! i = Some d -> isEmpty d = false -> v' !! i = Some d)
      /\ (forall i, (Z.to_nat e <= i)%nat -> v' !! i = v !! i).
Proof.
  induction fuel as [|fuel IH]; intros e v N Hfuel He HN Hlen Hinv Hfirst; [lia|].
  cbn [getPower].
  destruct (Z.ltb_spec (e - 1) 0) as [?|_]; [lia|].
  destruct (lookup_lt_is_Some_2 v (Z.to_nat (e - 1)) ltac:(lia)) as [c Hc].
  rewrite Hc.
  destruct (isEmpty c) eqn:Hempty.
  2:{ exists v, c. split; [reflexivity|]. split; [exact Hc|]. split.
      - replace (Z.to_nat e) with (S (Z.to_nat (e - 1))) by lia.
        apply (Hinv (Z.to_nat (e - 1)) c); [lia | exact Hc | exact Hempty].
      - repeat split; auto. }
  assert (He2 : 2 <= e).
  { destruct (Z.eq_dec e 1) as [->|]; [|lia].
    destruct Hfirst as (c0 & Hc0 & Hne).
    change (Z.to_nat (1 - 1)) with 0%nat in Hc. congruence. }
  destruct (half_range e He2) as [Hshift Hk].
  destruct (Z.ltb_spec (NextPowerOfTwo e - 1) 0) as [?|_]; [lia|].
  set (k := Z.shiftl 1 (NextPowerOfTwo e - 1)) in *.
  destruct (IH (e - k) v N ltac:(lia) ltac:(lia) ltac:(lia) ltac:(lia) Hinv Hfirst)
    as (v1 & a & -> & Ha & Hdeca & Hlen1 & Hinv1 & Hkeep1 & Hrest1).
  cbn [mbind outcome_bind].
  assert (Hinv2 : computed_below x (Z.to_nat (e - 1))
                    (<[Z.to_nat (e - 1) := a]> v1)).
  { intros i d Hi Hd Hne. rewrite list_lookup_insert_ne in Hd by lia.
    apply (Hinv1 i d); [lia | exact Hd | exact Hne]. }
  assert (Hfirst2 : exists c0, <[Z.to_nat (e - 1) := a]> v1 !! 0%nat = Some c0
                               /\ isEmpty c0 = false).
  { destruct Hfirst as (c0 & Hc0 & Hne). exists c0. split; [|exact Hne].
    rewrite list_lookup_insert_ne by lia. apply (Hkeep1 _ _ Hc0 Hne). }
  destruct (IH k (<[Z.to_nat (e - 1) := a]> v1) (Z.to_nat (e - 1))
              ltac:(lia) ltac:(lia) ltac:(lia)
              ltac:(rewrite length_insert; lia) Hinv2 Hfirst2)
    as (v3 & b & -> & Hb & Hdecb & Hlen3 & Hinv3 & Hkeep3 & Hrest3).
  cbn [mbind outcome_bind].
  rewrite length_insert in Hlen3.
  assert (H3 : v3 !! Z.to_nat (e - 1) = Some a).
  { rewrite Hrest3 by lia. apply list_lookup_insert_eq. lia. }
  assert (H4 : alter (fun c1 : C => multiplyBy c1 b) (Z.to_nat (e - 1)) v3
               !! Z.to_nat (e - 1) = Some (multiplyBy a b)).
  { rewrite list_lookup_alter_eq, H3. reflexivity. }
  assert (Hdec : dec (multiplyBy a b) = Ctxt.power x (Z.to_nat e)).
  { rewrite dec_multiplyBy, Hdeca, Hdecb. apply power_split; lia. }
  eexists _, _. split; [reflexivity|].
  rewrite H4. cbn [default from_option].
  split; [reflexivity|]. split; [exact Hdec|].
  split; [rewrite length_alter; lia|].
  split; [|split].
  - intros i d Hi Hd Hne.
    destruct (Nat.eq_dec i (Z.to_nat (e - 1))) as [->|Hneq].
    + rewrite H4 in Hd. injection Hd as <-.
      replace (S (Z.to_nat (e - 1))) with (Z.to_nat e) by lia. exact Hdec.
    + rewrite list_lookup_alter_ne in Hd by congruence.
      destruct (Nat.lt_ge_cases i (Z.to_nat (e - 1))) as [Hlt|Hge].
      * apply (Hinv3 i d Hlt Hd Hne).
      * rewrite Hrest3 in Hd by lia.
        rewrite list_lookup_insert_ne in Hd by congruence.
        apply (Hinv1 i d Hi Hd Hne).
  - intros i d Hd Hne.
    assert (Hneq : i <> Z.to_nat (e - 1)) by (intros ->; congruence).
    rewrite list_lookup_alter_ne by congruence.
    apply Hkeep3; [|exact Hne].
    rewrite list_lookup_insert_ne by congruence.
    apply (Hkeep1 _ _ Hd Hne).
  - intros i Hi.
    rewrite list_lookup_alter_ne by lia.
    rewrite Hrest3 by lia.
    rewrite list_lookup_insert_ne by lia.
    apply Hrest1. lia.
Qed.

Lemma getPower_outside (fuel : nat) (v : list C) (e : Z) :
  e < 1 \/ Z.of_nat (length v) < e ->
  getPower (S fuel) v e = Throw out_of_range.
Proof.
  intros Hout. cbn [getPower].
  destruct (Z.ltb_spec (e - 1) 0) as [?|Hge]; [reflexivity|].
  rewrite (lookup_ge_None_2 v (Z.to_nat (e - 1))) by lia. reflexivity.
Qed.

(** A table whose computed entries are powers of [x], the first entry
    among them, answers [getPower(e)] for every [e] from 1 to its size with
    a ciphertext of [x^e]; the call fills entries below [e] only, leaves
    every computed entry as it is and keeps the table a table of powers.
    An [e] outside that range ends in [std::out_of_range]. *)
Theorem getPower_fills_table (x : R) (v : list C) (e : Z) :
  (1 <= e <= Z.of_nat (length v) ->
   computed_below x (length v) v ->
   (exists c0, v !! 0%nat = Some c0 /\ isEmpty c0 = false) ->
   exists v' c,
     getPower (Z.to_nat e) v e = Ok (v', c)
     /\ v' !! Z.to_nat (e - 1) = Some c
     /\ dec c = Ctxt.power x (Z.to_nat e)
     /\ length v' = length v
     /\ computed_below x (length v') v'
     /\ (forall i d, v !! i = Some d -> isEmpty d = false -> v' !! i = Some d)
     /\ (forall i, (Z.to_nat e <= i)%nat -> v' !! i = v !! i))
  /\ (forall fuel, e < 1 \/ Z.of_nat (length v) < e ->
        getPower (S fuel) v e = Throw out_of_range).
Proof.
  split.
  - intros He Hinv Hfirst.
    destruct (getPower_spec x (Z.to_nat e) e v (length v)
                ltac:(lia) ltac:(lia) ltac:(lia) ltac:(lia) Hinv Hfirst)
      as (v' & c & Hrun & Hc & Hdec & Hlen & Hinv' & Hkeep & Hrest).
    exists v', c. rewrite Hlen.
    split; [exact Hrun|]. split; [exact Hc|]. split; [exact Hdec|].
    split; [reflexivity|]. split; [exact Hinv'|]. split; [exact Hkeep|exact Hrest].
  - intros fuel Hout. apply getPower_outside. exact Hout.
Qed.

Lemma power_spec (DynamicCtxtPowers : C -> Z -> list C) (c : C) (e : Z) :
  isEmpty c = false ->
  (forall n, 2 <= n ->
     exists rest, DynamicCtxtPowers c n = c :: rest
                  /\ length rest = Z.to_nat (n - 1)
                  /\ Forall (fun d => isEmpty d = true) rest) ->
  1 <= e ->
  exists r, power DynamicCtxtPowers c e = Ok r
            /\ dec r = Ctxt.power (dec c) (Z.to_nat e).
Proof.
  intros Hc Hctor He. unfold power.
  destruct (Z.ltb_spec e 1) as [?|_]; [lia|].
  destruct (Z.eqb_spec e 1) as [->|Hne].
  { exists c. split; [reflexivity|].
    change (Z.to_nat 1) with 1%nat. cbn [Ctxt.power]. ring. }
  assert (Hbits : NumBits e - 1 = Z.log2 e).
  { unfold NumBits. destruct (Z.eqb_spec e 0) as [?|_]; [lia|].
    rewrite Z.abs_eq by lia. lia. }
  rewrite Hbits, Z.shiftl_1_l.
  pose proof (Z.log2_nonneg e) as Hlog.
  destruct (Z.eqb_spec e (2 ^ Z.log2 e)) as [Heq|Hneq].
  - eexists. split; [reflexivity|].
    rewrite dec_iter_square. f_equal.
    apply Nat2Z.inj. rewrite Nat2Z.inj_pow, !Z2Nat.id by lia.
    change (Z.of_nat 2) with 2. symmetry. exact Heq.
  - destruct (Hctor e ltac:(lia)) as (rest & Hv & Hlen & Hrest).
    destruct (getPower_spec (dec c) (Z.to_nat e) e (DynamicCtxtPowers c e)
                (length (DynamicCtxtPowers c e)))
      as (v' & r & Hrun & _ & Hdec & _); try lia.
    + rewrite Hv. cbn [length]. lia.
    + rewrite Hv. cbn [length]. lia.
    + rewrite Hv. intros i d _ Hd Hne'.
      destruct i as [|i]; cbn in Hd.
      * injection Hd as <-. cbn [Ctxt.power]. ring.
      * rewrite Forall_forall in Hrest.
        apply list_elem_of_lookup_2 in Hd.
        apply Hrest in Hd. congruence.
    + rewrite Hv. exists c. split; [reflexivity|exact Hc].
    + rewrite Hrun. cbn [mbind outcome_bind]. exists r. split; [reflexivity|exact Hdec].
Qed.

(** [Ctxt::power] refuses an exponent below 1 with [InvalidArgument];
    for every other exponent it succeeds and the result decrypts to that
    power of the plaintext, whichever of its three ways it takes.  The
    constructor of the table is taken to put the ciphertext first and
    empty ciphertexts after it. *)
Theorem power_raises (DynamicCtxtPowers : C -> Z -> list C) (c : C) (e : Z) :
  isEmpty c = false ->
  (forall n, 2 <= n ->
     exists rest, DynamicCtxtPowers c n = c :: rest
                  /\ length rest = Z.to_nat (n - 1)
                  /\ Forall (fun d => isEmpty d = true) rest) ->
  (e < 1 ->
   power DynamicCtxtPowers c e
   = Throw (InvalidArgument "Cannot raise a ctxt to a non positive exponent"))
  /\ (1 <= e ->
      exists r, power DynamicCtxtPowers c e = Ok r
                /\ dec r = Ctxt.power (dec c) (Z.to_nat e)).
Proof.
  intros Hc Hctor. split.
  - intros He. unfold power. destruct (Z.ltb_spec e 1) as [_|?]; [reflexivity|lia].
  - intros He. apply power_spec; assumption.
Qed.

End Facts.

Lemma getPower_fills_table_witness :
  exists v' c,
    @getPower (option Z) clear_ops clear_poly_ops (Z.to_nat 5)
      (clear_powers (Some 3) 5) 5 = Ok (v', c)
    /\ v' !! Z.to_nat (5 - 1) = Some c
    /\ @dec (option Z) Z clear_ops Z_plaintext clear_homomorphic c
       = Ctxt.power 3 (Z.to_nat 5)
    /\ length v' = length (clear_powers (Some 3) 5)
    /\ @computed_below (option Z) clear_ops clear_poly_ops Z Z_plaintext
         clear_homomorphic 3 (length v') v'
    /\ (forall i d, clear_powers (Some 3) 5 !! i = Some d ->
                    @isEmpty _ clear_poly_ops d = false -> v' !! i = Some d)
    /\ (forall i, (Z.to_nat 5 <= i)%nat -> v' !! i = clear_powers (Some 3) 5 !! i).
Proof.
  apply (proj1 (@getPower_fills_table (option Z) Z clear_ops clear_poly_ops
                  Z_plaintext clear_homomorphic 3 (clear_powers (Some 3) 5) 5)).
  - split; [lia | vm_compute; discriminate].
  - intros i d Hi Hd Hne.
    destruct i as [|[|[|[|[|i]]]]]; cbn in Hd; try discriminate;
      injection Hd as <-; try discriminate Hne; reflexivity.
  - exists (Some 3). split; reflexivity.
Defined.

Lemma power_raises_witness :
  exists r,
    @power (option Z) clear_ops clear_poly_ops clear_powers (Some 3) 5 = Ok r
    /\ @dec (option Z) Z clear_ops Z_plaintext clear_homomorphic r
       = Ctxt.power 3 (Z.to_nat 5).
Proof.
  refine (proj2 (@power_raises (option Z) Z clear_ops clear_poly_ops Z_plaintext
                   clear_homomorphic clear_powers (Some 3) 5 _ _) _).
  - reflexivity.
  - intros n Hn. exists (replicate (Z.to_nat n - 1) None).
    split; [reflexivity|]. split.
    + rewrite length_replicate. lia.
    + apply Forall_forall. intros d Hd.
      apply elem_of_replicate in Hd as [-> _]. reflexivity.
  - lia.
Defined.

End PowersFacts.

(** ** Evaluation of several polynomials in one ciphertext *)

Module CustomPolyEvalFacts.
Import Err Ctxt Spacing PolyEval Powers CustomPolyEval.

(** *** Powers of two *)

Lemma floorPowerOfTwo_bounds (e : Z) :
  1 <= e -> 1 <= floorPowerOfTwo e <= e /\ e < 2 * floorPowerOfTwo e.
Proof.
  intros He. unfold floorPowerOfTwo, flooring_log2.
  pose proof (Z.log2_spec e ltac:(lia)) as [Hlo Hhi].
  rewrite Z.pow_succ_r in Hhi by apply Z.log2_nonneg.
  pose proof (Z.pow_pos_nonneg 2 (Z.log2 e) ltac:(lia) (Z.log2_nonneg e)). lia.
Qed.

Lemma floorPowerOfTwo_power (e : Z) : isPowerOfTwo (floorPowerOfTwo e) = true.
Proof.
  unfold isPowerOfTwo, floorPowerOfTwo, flooring_log2.
  rewrite Z.log2_pow2 by apply Z.log2_nonneg. apply Z.eqb_refl.
Qed.

Lemma floorPowerOfTwo_even (e : Z) : 2 <= e -> floorPowerOfTwo e mod 2 = 0.
Proof.
  intros He. unfold floorPowerOfTwo, flooring_log2.
  assert (Hl : 1 <= Z.log2 e).
  { apply Z.log2_le_pow2; [lia|]. change (2 ^ 1) with 2. lia. }
  replace (Z.log2 e) with (Z.succ (Z.log2 e - 1)) by lia.
  rewrite Z.pow_succ_r by lia.
  rewrite Z.mul_comm. apply Z.mod_mul. lia.
Qed.

(** Below a power of two that is at least 2 the greatest power of two
    is its half, again a power of two. *)
Lemma half_of_power (e : Z) :
  2 <= e -> isPowerOfTwo e = true ->
  floorPowerOfTwo (e - 1) = e / 2 /\ e = 2 * (e / 2)
  /\ isPowerOfTwo (e / 2) = true.
Proof.
  intros He Hp. unfold isPowerOfTwo, floorPowerOfTwo, flooring_log2 in *.
  apply Z.eqb_eq in Hp.
  assert (Hl : 1 <= Z.log2 e).
  { apply Z.log2_le_pow2; [lia|]. change (2 ^ 1) with 2. lia. }
  assert (Hhalf : e / 2 = 2 ^ (Z.log2 e - 1)).
  { rewrite <- Hp at 1. replace (Z.log2 e) with (Z.succ (Z.log2 e - 1)) at 1 by lia.
    rewrite Z.pow_succ_r by lia. rewrite Z.mul_comm. apply Z.div_mul. lia. }
  assert (Hdouble : e = 2 * 2 ^ (Z.log2 e - 1)).
  { rewrite <- Hp at 1. replace (Z.log2 e) with (Z.succ (Z.log2 e - 1)) at 1 by lia.
    apply Z.pow_succ_r. lia. }
  split; [|split].
  - rewrite Hhalf. f_equal.
    rewrite <- Hp at 1. replace (2 ^ Z.log2 e - 1) with (Z.pred (2 ^ Z.log2 e)) by lia.
    rewrite Z.log2_pred_pow2 by lia. lia.
  - rewrite Hhalf. exact Hdouble.
  - rewrite Hhalf. rewrite Z.log2_pow2 by lia. apply Z.eqb_eq. reflexivity.
Qed.

(** *** Degrees after the preprocessing *)

Lemma coeff_inside (f : ZZX.t) (i : nat) :
  ZZX.coeff f i <> 0 -> (i < length f)%nat.
Proof.
  intros Hnz. destruct (Nat.lt_ge_cases i (length f)) as [Hlt|Hge]; [exact Hlt|].
  exfalso. apply Hnz. unfold ZZX.coeff. apply nth_overflow. exact Hge.
Qed.

Lemma leading_coeff (f : ZZX.t) :
  1 <= ZZX.deg f -> last f <> Some 0 -> ZZX.coeff f (Z.to_nat (ZZX.deg f)) <> 0.
Proof.
  unfold ZZX.deg, ZZX.coeff. intros Hdeg Hlast Hz. apply Hlast.
  rewrite last_lookup.
  replace (Nat.pred (length f)) with (Z.to_nat (Z.of_nat (length f) - 1)) by lia.
  destruct (lookup_lt_is_Some_2 f (Z.to_nat (Z.of_nat (length f) - 1)) ltac:(lia))
    as [c Hc].
  rewrite Hc. rewrite nth_lookup, Hc in Hz. cbn in Hz. congruence.
Qed.

Lemma compress_normalize (spacing : Z) (poly : ZZX.t) :
  1 <= spacing ->
  compress spacing poly
  = ZZX.normalize
      (map (fun j => ZZX.coeff poly (Z.to_nat (Z.of_nat j * spacing)))
           (seq 0 (Z.to_nat (Z.quot (ZZX.deg poly) spacing + 1)))).
Proof.
  intros Hs. unfold compress.
  destruct (Z.le_gt_cases 0 (Z.quot (ZZX.deg poly) spacing + 1)) as [Hq|Hq].
  - replace (Z.quot (ZZX.deg poly) spacing + 1)
      with (Z.of_nat (Z.to_nat (Z.quot (ZZX.deg poly) spacing + 1))) at 1 by lia.
    apply SpacingFacts.compress_coeffs.
  - rewrite seqZ_nil by lia.
    replace (Z.to_nat (Z.quot (ZZX.deg poly) spacing + 1)) with 0%nat by lia.
    reflexivity.
Qed.

(** A normalised polynomial of positive degree whose nonzero coefficients
    sit at multiples of [spacing] is compressed to a normalised polynomial
    of positive, not larger degree. *)
Lemma compress_degree (spacing : Z) (poly : ZZX.t) :
  1 <= spacing ->
  (forall i, ZZX.coeff poly i <> 0 -> (spacing | Z.of_nat i)) ->
  last poly <> Some 0 -> 1 <= ZZX.deg poly ->
  1 <= ZZX.deg (compress spacing poly) <= ZZX.deg poly
  /\ last (compress spacing poly) <> Some 0.
Proof.
  intros Hs Hdiv Hlast Hdeg.
  pose proof (leading_coeff poly Hdeg Hlast) as Hlead.
  destruct (Hdiv _ Hlead) as [q Hq]. rewrite Z2Nat.id in Hq by lia.
  assert (Hq1 : 1 <= q) by nia.
  destruct (SpacingFacts.compress_spec spacing poly Hs Hdiv) as [Hcoeff _].
  assert (Hnz : ZZX.coeff (compress spacing poly) (Z.to_nat q) <> 0).
  { rewrite Hcoeff. replace (Z.to_nat q * Z.to_nat spacing)%nat
      with (Z.to_nat (ZZX.deg poly)) by nia. exact Hlead. }
  apply coeff_inside in Hnz.
  rewrite (compress_normalize spacing poly Hs) in *.
  split; [|apply ZZXFacts.normalize_last].
  pose proof (PolyCacheFacts.normalize_length
                (map (fun j => ZZX.coeff poly (Z.to_nat (Z.of_nat j * spacing)))
                     (seq 0 (Z.to_nat (Z.quot (ZZX.deg poly) spacing + 1))))) as Hle.
  rewrite length_map, length_seq in Hle.
  assert (Hquot : Z.quot (ZZX.deg poly) spacing <= ZZX.deg poly).
  { rewrite Z.quot_div_nonneg by lia. apply Z.div_le_upper_bound; nia. }
  set (g := ZZX.normalize _) in *.
  unfold ZZX.deg at 1 2. lia.
Qed.

Lemma max_degree_fold (l : list ZZX.t) (d0 : Z) :
  fold_left (fun d f => Z.max d (ZZX.deg f)) l d0 = d0
  \/ exists f, In f l /\ ZZX.deg f = fold_left (fun d f => Z.max d (ZZX.deg f)) l d0.
Proof.
  revert d0. induction l as [|g l IH]; intros d0; [left; reflexivity|].
  cbn [fold_left]. destruct (IH (Z.max d0 (ZZX.deg g))) as [Heq|(f & Hin & Hf)].
  - rewrite Heq. destruct (Z.max_spec d0 (ZZX.deg g)) as [[_ Hm]|[_ Hm]].
    + right. exists g. split; [left; reflexivity | lia].
    + left. exact Hm.
  - right. exists f. split; [right; exact Hin | exact Hf].
Qed.

Lemma max_degree_attained (polys : list ZZX.t) :
  polys <> [] -> Forall (fun f => 1 <= ZZX.deg f) polys ->
  exists f, In f polys /\ ZZX.deg f = max_degree polys.
Proof.
  intros Hne Hdeg. unfold max_degree.
  destruct (max_degree_fold polys 0) as [Heq|Hex]; [|exact Hex].
  exfalso. destruct polys as [|g polys]; [congruence|].
  inversion Hdeg; subst.
  pose proof (PolyEvalFacts.max_degree_ge (g :: polys) g (or_introl eq_refl)) as Hge.
  unfold max_degree in Hge. lia.
Qed.

Lemma max_degree_bound (polys : list ZZX.t) (b : Z) :
  0 <= b -> Forall (fun f => ZZX.deg f <= b) polys -> max_degree polys <= b.
Proof.
  intros Hb Hall. unfold max_degree.
  destruct (max_degree_fold polys 0) as [Heq|(f & Hin & Hf)]; [lia|].
  rewrite <- Hf. rewrite Forall_forall in Hall. apply Hall, list_elem_of_In, Hin.
Qed.

(** A normalised odd polynomial has odd degree. *)
Lemma odd_degree (f : ZZX.t) :
  1 <= ZZX.deg f -> last f <> Some 0 ->
  (forall i, Nat.even i = true -> ZZX.coeff f i = 0) ->
  ZZX.deg f mod 2 = 1.
Proof.
  intros Hdeg Hlast Hodd.
  pose proof (leading_coeff f Hdeg Hlast) as Hlead.
  destruct (Nat.even (Z.to_nat (ZZX.deg f))) eqn:E.
  - exfalso. apply Hlead, Hodd, E.
  - rewrite <- Nat.negb_odd in E. apply negb_false_iff in E.
    apply Nat.odd_spec in E. destruct E as [q Hq].
    assert (Hz : ZZX.deg f = 2 * Z.of_nat q + 1) by lia.
    rewrite Hz. rewrite Z.add_comm, Z.mul_comm, Z.mod_add by lia. reflexivity.
Qed.

Section Correct.
Context {C R : Type} `{PolyHomomorphic C R}.

Add Ring custom_ring_inst : plaintext_ring.

(** *** Values in the plaintext ring *)

Lemma of_Z_0 : of_Z 0 = zero.
Proof. reflexivity. Qed.

Lemma of_Z_1 : of_Z 1 = one.
Proof. reflexivity. Qed.

Lemma of_Z_m1 : of_Z (-1) = opp one.
Proof. reflexivity. Qed.

Lemma value_zeros (f : list Z) (x : R) :
  Forall (fun c => c = 0) f -> value f x = zero.
Proof.
  induction 1 as [|c f Hc _ IH]; [reflexivity|].
  cbn [value]. rewrite IH, Hc, of_Z_0. ring.
Qed.

Lemma value_ext (f g : list Z) (x : R) :
  (forall i, nth i f 0 = nth i g 0) -> value f x = value g x.
Proof.
  revert g. induction f as [|c f IH]; intros g Hfg.
  - symmetry. apply value_zeros. apply SpacingFacts.nth_zeros.
    intros i. rewrite <- Hfg. destruct i; reflexivity.
  - destruct g as [|d g].
    + apply value_zeros. apply SpacingFacts.nth_zeros.
      intros i. rewrite Hfg. destruct i; reflexivity.
    + cbn [value]. rewrite (IH g) by (intros i; apply (Hfg (S i))).
      specialize (Hfg 0%nat). cbn in Hfg. rewrite Hfg. reflexivity.
Qed.

Lemma value_app (f g : list Z) (x : R) :
  value (f ++ g) x
  = add (value f x) (mul (Ctxt.power x (length f)) (value g x)).
Proof.
  induction f as [|c f IH]; cbn [app value length Ctxt.power].
  - ring.
  - rewrite IH. ring.
Qed.

Lemma value_expand (n : nat) (g : list Z) (x : R) :
  (1 <= n)%nat -> value (Poly.expand n g) x = value g (Ctxt.power x n).
Proof.
  intros Hn. unfold Poly.expand.
  induction g as [|c g IH]; [reflexivity|].
  cbn [flat_map]. change (c :: replicate (n - 1) 0 ++ flat_map _ g)
    with ((c :: replicate (n - 1) 0) ++ flat_map (fun c => c :: replicate (n - 1) 0) g).
  rewrite value_app, IH. cbn [value length].
  rewrite (value_zeros (replicate (n - 1) 0)).
  2:{ apply Forall_forall. intros z Hz. apply elem_of_replicate in Hz. tauto. }
  rewrite length_replicate.
  replace (S (n - 1)) with n by lia. ring.
Qed.

(** *** The baby steps *)

Lemma baby_sum (x : R) (xExp1 : list C) (coeff : list Z) :
  forall (offset : nat) (acc : C),
    (forall i c, coeff !! i = Some c -> c <> 0 ->
       exists e, xExp1 !! (offset + i)%nat = Some e
                 /\ dec e = Ctxt.power x (S (offset + i))) ->
    exists r,
      fold_left (baby_term xExp1) (imap (fun i c => ((offset + i)%nat, c)) coeff)
                (Ok acc) = Ok r
      /\ dec r = add (dec acc) (mul (Ctxt.power x (S offset)) (value coeff x)).
Proof.
  induction coeff as [|c coeff IH]; intros offset acc Hgood.
  - exists acc. split; [reflexivity|]. cbn [value]. ring.
  - rewrite imap_cons. cbn [fold_left].
    assert (Hstep : exists a,
               baby_term xExp1 (Ok acc) ((offset + 0)%nat, c) = Ok a
               /\ dec a = add (dec acc) (mul (Ctxt.power x (S offset)) (of_Z c))).
    { unfold baby_term. cbn [mbind outcome_bind fst snd].
      destruct (Z.eqb_spec c 0) as [->|Hc].
      - exists acc. split; [reflexivity|]. rewrite of_Z_0. ring.
      - destruct (Hgood 0%nat c eq_refl Hc) as (e & -> & He).
        rewrite Nat.add_0_r in He.
        eexists. split; [reflexivity|].
        rewrite dec_addCtxt.
        destruct (Z.eqb_spec c (-1)) as [->|Hm1].
        + rewrite dec_negate, He, of_Z_m1. ring.
        + destruct (Z.eqb_spec c 1) as [->|Hc1].
          * rewrite He, of_Z_1. ring.
          * rewrite dec_multByConstant, He. ring. }
    destruct Hstep as (a & -> & Ha).
    rewrite (imap_ext _ (fun i c => ((S offset + i)%nat, c)))
      by (intros i z _; cbn; f_equal; lia).
    destruct (IH (S offset) a) as (r & -> & Hr).
    { intros i z Hz Hnz. destruct (Hgood (S i) z Hz Hnz) as (e & He1 & He2).
      exists e. replace (S offset + i)%nat with (offset + S i)%nat by lia.
      split; assumption. }
    exists r. split; [reflexivity|].
    rewrite Hr, Ha. cbn [value Ctxt.power]. ring.
Qed.

(** *** The recursion over the giant steps *)

Lemma recursive_empty (fuel : nat) (first : C) (rest xExp2 : list C)
    (m k : Z) (lazy : bool) :
  customPolyEvalRecursive fuel [] (first :: rest) xExp2 m k lazy
  = Ok (ZeroCtxtLike first, xExp2).
Proof. destruct fuel; reflexivity. Qed.

Lemma recursive_base (fuel : nat) (c : Z) (coeff : list Z) (first : C)
    (rest xExp2 : list C) (k : Z) (lazy : bool) :
  customPolyEvalRecursive fuel (c :: coeff) (first :: rest) xExp2 0 k lazy
  = (result ← fold_left (baby_term (first :: rest))
                (imap (fun i c => (i, c)) (c :: coeff)) (Ok (ZeroCtxtLike first));
     Ok (result, xExp2)).
Proof. destruct fuel; reflexivity. Qed.

Lemma recursive_step (fuel : nat) (c : Z) (coeff : list Z) (first : C)
    (rest xExp2 : list C) (m k : Z) (lazy : bool) :
  m <> 0 ->
  customPolyEvalRecursive (S fuel) (c :: coeff) (first :: rest) xExp2 m k lazy
  = (let index := Z.min (k * 2 ^ (m - 1)) (Z.of_nat (length (c :: coeff))) in
     if index <? 0 then Throw (Undefined "coeff.begin() + index")
     else
       '(result, xExp2) ←
          customPolyEvalRecursive fuel (take (Z.to_nat index) (c :: coeff))
            (first :: rest) xExp2 (m - 1) k lazy;
       '(tmp, xExp2) ←
          customPolyEvalRecursive fuel (drop (Z.to_nat index) (c :: coeff))
            (first :: rest) xExp2 (m - 1) k lazy;
       match xExp2 !! Z.to_nat (m - 1) with
       | None => Throw (Undefined "xExp2[m - 1]")
       | Some other =>
           let '(tmp, other) := customMultiplyBy tmp other lazy in
           Ok (addCtxt result tmp false, <[Z.to_nat (m - 1) := other]> xExp2)
       end).
Proof.
  intros Hm. cbn [customPolyEvalRecursive length Nat.eqb].
  destruct (Z.eqb_spec m 0) as [?|_]; [contradiction|reflexivity].
Qed.

Lemma recursive_spec (x : R) (k : Z) (xExp1 : list C) (lazy : bool) :
  1 <= k -> xExp1 <> [] ->
  forall (fuel : nat) (m : Z) (coeff : list Z) (xExp2 : list C),
    0 <= m -> (Z.to_nat m <= fuel)%nat ->
    Z.of_nat (length coeff) <= k * 2 ^ m ->
    (forall i c, coeff !! i = Some c -> c <> 0 ->
       exists e, xExp1 !! (i mod Z.to_nat k)%nat = Some e
                 /\ dec e = Ctxt.power x (S (i mod Z.to_nat k))) ->
    (forall j, (j < Z.to_nat m)%nat ->
       exists e, xExp2 !! j = Some e
                 /\ dec e = Ctxt.power x (Z.to_nat (k * 2 ^ Z.of_nat j))) ->
    exists r xExp2',
      customPolyEvalRecursive fuel coeff xExp1 xExp2 m k lazy = Ok (r, xExp2')
      /\ dec r = mul x (value coeff x)
      /\ length xExp2' = length xExp2
      /\ (forall j e, xExp2 !! j = Some e ->
            exists e', xExp2' !! j = Some e' /\ dec e' = dec e).
Proof.
  intros Hk Hne. destruct xExp1 as [|first rest]; [congruence|]. clear Hne.
  induction fuel as [|fuel IH]; intros m coeff xExp2 Hm Hfuel Hlen Hgood Hgiant.
  - assert (m = 0) as -> by lia.
    destruct coeff as [|c coeff].
    + rewrite recursive_empty. eexists _, _. split; [reflexivity|].
      rewrite dec_ZeroCtxtLike. cbn [value].
      split; [ring|]. split; [reflexivity|]. intros j e He. exists e. split; auto.
    + rewrite recursive_base.
      destruct (baby_sum x (first :: rest) (c :: coeff) 0 (ZeroCtxtLike first))
        as (r & Hr & Hdec).
      { intros i z Hz Hnz. destruct (Hgood i z Hz Hnz) as (e & He1 & He2).
        assert (Hi : (i < length (c :: coeff))%nat)
          by (apply lookup_lt_is_Some; eauto).
        rewrite Nat.mod_small in He1, He2 by lia.
        exists e. split; assumption. }
      change (fun i c0 => ((0 + i)%nat, c0)) with (fun (i : nat) (c0 : Z) => (i, c0)) in Hr.
      rewrite Hr. cbn [mbind outcome_bind].
      eexists _, _. split; [reflexivity|].
      rewrite Hdec, dec_ZeroCtxtLike. cbn [Ctxt.power].
      split; [ring|]. split; [reflexivity|]. intros j e He. exists e. split; auto.
  - destruct coeff as [|c coeff].
    { rewrite recursive_empty. eexists _, _. split; [reflexivity|].
      rewrite dec_ZeroCtxtLike. cbn [value].
      split; [ring|]. split; [reflexivity|]. intros j e He. exists e. split; auto. }
    destruct (Z.eq_dec m 0) as [->|Hm0].
    { rewrite recursive_base.
      destruct (baby_sum x (first :: rest) (c :: coeff) 0 (ZeroCtxtLike first))
        as (r & Hr & Hdec).
      { intros i z Hz Hnz. destruct (Hgood i z Hz Hnz) as (e & He1 & He2).
        assert (Hi : (i < length (c :: coeff))%nat)
          by (apply lookup_lt_is_Some; eauto).
        rewrite Nat.mod_small in He1, He2 by lia.
        exists e. split; assumption. }
      change (fun i c0 => ((0 + i)%nat, c0)) with (fun (i : nat) (c0 : Z) => (i, c0)) in Hr.
      rewrite Hr. cbn [mbind outcome_bind].
      eexists _, _. split; [reflexivity|].
      rewrite Hdec, dec_ZeroCtxtLike. cbn [Ctxt.power].
      split; [ring|]. split; [reflexivity|]. intros j e He. exists e. split; auto. }
    rewrite recursive_step by exact Hm0. cbv zeta.
    set (coeffs := c :: coeff) in *.
    set (half := k * 2 ^ (m - 1)).
    assert (Hpow : 2 ^ m = 2 * 2 ^ (m - 1)).
    { replace m with (Z.succ (m - 1)) at 1 by lia. apply Z.pow_succ_r. lia. }
    assert (Hpos : 1 <= 2 ^ (m - 1)) by (pose proof (Z.pow_pos_nonneg 2 (m - 1)); lia).
    assert (Hhalf : 1 <= half) by (unfold half; nia).
    set (index := Z.min half (Z.of_nat (length coeffs))).
    assert (Hindex : 0 <= index) by (unfold index; lia).
    destruct (Z.ltb_spec index 0) as [?|_]; [lia|].
    destruct (IH (m - 1) (take (Z.to_nat index) coeffs) xExp2)
      as (r1 & x1 & -> & Hr1 & Hlen1 & Hkeep1).
    { lia. }
    { lia. }
    { rewrite length_take. fold half. unfold index. lia. }
    { intros i z Hz Hnz. apply lookup_take_Some in Hz as [Hz _].
      apply (Hgood i z Hz Hnz). }
    { intros j Hj. apply Hgiant. lia. }
    cbn [mbind outcome_bind].
    assert (Hgiant1 : forall j, (j < Z.to_nat m)%nat ->
               exists e, x1 !! j = Some e
                         /\ dec e = Ctxt.power x (Z.to_nat (k * 2 ^ Z.of_nat j))).
    { intros j Hj. destruct (Hgiant j Hj) as (e & He & Hde).
      destruct (Hkeep1 j e He) as (e' & He' & Hde'). exists e'.
      split; [exact He' | congruence]. }
    destruct (IH (m - 1) (drop (Z.to_nat index) coeffs) x1)
      as (r2 & x2 & -> & Hr2 & Hlen2 & Hkeep2).
    { lia. }
    { lia. }
    { rewrite length_drop. fold half. unfold index. nia. }
    { intros i z Hz Hnz. rewrite lookup_drop in Hz.
      assert (Hi : (Z.to_nat index + i < length coeffs)%nat)
        by (apply lookup_lt_is_Some; eauto).
      assert (Hidx : index = half) by (unfold index in *; lia).
      destruct (Hgood _ z Hz Hnz) as (e & He1 & He2).
      assert (Hmod : ((Z.to_nat index + i) mod Z.to_nat k = i mod Z.to_nat k)%nat).
      { rewrite Hidx. unfold half.
        rewrite Z2Nat.inj_mul by lia.
        rewrite (Nat.mul_comm (Z.to_nat k)), Nat.add_comm.
        apply Nat.Div0.mod_add. }
      rewrite Hmod in He1, He2. exists e. split; assumption. }
    { intros j Hj. apply Hgiant1. lia. }
    cbn [mbind outcome_bind].
    destruct (Hgiant1 (Z.to_nat (m - 1)) ltac:(lia)) as (e1 & He1 & Hde1).
    destruct (Hkeep2 _ _ He1) as (other & -> & Hother).
    pose proof (dec_customMultiplyBy r2 other lazy) as [Hmul1 Hmul2].
    destruct (customMultiplyBy r2 other lazy) as [tmp other'].
    cbn [fst snd] in Hmul1, Hmul2.
    eexists _, _. split; [reflexivity|].
    split; [|split].
    + rewrite dec_addCtxt, Hr1, Hmul1, Hr2, Hother, Hde1.
      rewrite Z2Nat.id by lia. fold half.
      rewrite <- (take_drop (Z.to_nat index) coeffs) at 3.
      rewrite value_app, length_take.
      destruct (Z.le_gt_cases (Z.of_nat (length coeffs)) half) as [Hle|Hgt].
      * rewrite (drop_ge coeffs) by (unfold index; lia). cbn [value]. ring.
      * replace (Z.to_nat index `min` length coeffs)%nat with (Z.to_nat half)
          by (unfold index; lia).
        ring.
    + rewrite length_insert. lia.
    + intros j e He. destruct (Hkeep1 j e He) as (e' & He' & Hde').
      destruct (Hkeep2 j e' He') as (e'' & He'' & Hde'').
      destruct (Nat.eq_dec j (Z.to_nat (m - 1))) as [->|Hj].
      * exists other'. split.
        -- apply list_lookup_insert_eq. apply lookup_lt_is_Some. eauto.
        -- rewrite Hmul2. congruence.
      * exists e''. split; [|congruence].
        rewrite list_lookup_insert_ne by congruence. exact He''.
Qed.

(** *** The table of baby steps *)

Lemma push_product_spec (x : R) (good : Z -> Prop) (t : list C)
    (ind1 ind2 : Z) (lazy : bool) :
  baby_table x good t ->
  1 <= ind1 <= Z.of_nat (length t) -> 1 <= ind2 <= Z.of_nat (length t) ->
  ind1 + ind2 = Z.of_nat (length t) + 1 ->
  good ind1 -> good ind2 ->
  exists t', push_product t ind1 ind2 lazy = Ok t'
             /\ length t' = S (length t)
             /\ baby_table x good t'.
Proof.
  intros Htab Hi1 Hi2 Hsum Hg1 Hg2. unfold push_product.
  destruct (Z.ltb_spec (ind1 - 1) 0) as [?|_]; [lia|].
  destruct (Z.ltb_spec (ind2 - 1) 0) as [?|_]; [lia|]. cbn [orb].
  destruct (lookup_lt_is_Some_2 t (Z.to_nat (ind1 - 1)) ltac:(lia)) as [e1 He1].
  destruct (lookup_lt_is_Some_2 t (Z.to_nat (ind2 - 1)) ltac:(lia)) as [e2 He2].
  rewrite He1, He2.
  pose proof (dec_customMultiplyBy e1 e2 lazy) as [Hmul1 Hmul2].
  destruct (customMultiplyBy e1 e2 lazy) as [tmp other].
  cbn [fst snd] in Hmul1, Hmul2.
  eexists. split; [reflexivity|].
  split; [rewrite length_app, length_insert; cbn [length]; lia|].
  assert (Hd1 : dec e1 = Ctxt.power x (Z.to_nat ind1)).
  { replace (Z.to_nat ind1) with (S (Z.to_nat (ind1 - 1))) by lia.
    apply (Htab _ _ He1). replace (Z.of_nat (S (Z.to_nat (ind1 - 1)))) with ind1 by lia.
    exact Hg1. }
  assert (Hd2 : dec e2 = Ctxt.power x (Z.to_nat ind2)).
  { replace (Z.to_nat ind2) with (S (Z.to_nat (ind2 - 1))) by lia.
    apply (Htab _ _ He2). replace (Z.of_nat (S (Z.to_nat (ind2 - 1)))) with ind2 by lia.
    exact Hg2. }
  intros r e Hr Hgood.
  destruct (Nat.lt_ge_cases r (length t)) as [Hlt|Hge].
  - rewrite lookup_app_l in Hr by (rewrite length_insert; exact Hlt).
    destruct (Nat.eq_dec r (Z.to_nat (ind2 - 1))) as [->|Hneq].
    + rewrite list_lookup_insert_eq in Hr by lia. injection Hr as <-.
      rewrite Hmul2. apply (Htab _ _ He2 Hgood).
    + rewrite list_lookup_insert_ne in Hr by congruence.
      apply (Htab _ _ Hr Hgood).
  - rewrite lookup_app_r in Hr by (rewrite length_insert; exact Hge).
    rewrite length_insert in Hr.
    destruct (r - length t)%nat as [|n] eqn:En; cbn in Hr; [|discriminate].
    injection Hr as <-.
    rewrite Hmul1, Hd1, Hd2, <- PowersFacts.power_add. f_equal. lia.
Qed.

Lemma relinearize_keeps (x : R) (good : Z -> Prop) (t : list C) (i : nat) :
  baby_table x good t -> baby_table x good (alter reLinearize i t).
Proof.
  intros Htab r e Hr Hgood.
  destruct (Nat.eq_dec r i) as [->|Hneq].
  - rewrite list_lookup_alter_eq in Hr.
    destruct (t !! i) as [e0|] eqn:E; [|discriminate].
    cbn in Hr. injection Hr as <-.
    rewrite dec_reLinearize. apply (Htab _ _ E Hgood).
  - rewrite list_lookup_alter_ne in Hr by congruence. apply (Htab _ _ Hr Hgood).
Qed.

Lemma garbage_keeps (x : R) (good : Z -> Prop) (t : list C) (g : C) :
  baby_table x good t -> ~ good (Z.of_nat (S (length t))) ->
  baby_table x good (t ++ [g]).
Proof.
  intros Htab Hbad r e Hr Hgood.
  destruct (Nat.lt_ge_cases r (length t)) as [Hlt|Hge].
  - rewrite lookup_app_l in Hr by exact Hlt. apply (Htab _ _ Hr Hgood).
  - rewrite lookup_app_r in Hr by exact Hge.
    destruct (r - length t)%nat as [|n] eqn:En; cbn in Hr; [|discriminate].
    replace r with (length t) in Hgood by lia. contradiction.
Qed.

(** Without the odd variant every entry is computed. *)
Lemma table_plain (x : R) (element x0 : C) (parameters : PS_parameters)
    (lazy : bool) (n : nat) :
  odd parameters = false -> dec x0 = x ->
  exists t,
    fold_left (table_step element parameters lazy) (seqZ 2 (Z.of_nat n)) (Ok [x0])
    = Ok t
    /\ length t = S n
    /\ baby_table x (fun _ => True) t.
Proof.
  intros Hodd Hx0. induction n as [|n (t & IH & Hlen & Htab)].
  - exists [x0]. split; [reflexivity|]. split; [reflexivity|].
    intros r e Hr _. destruct r as [|r]; cbn in Hr; [|discriminate].
    injection Hr as <-. rewrite Hx0. cbn [Ctxt.power]. ring.
  - rewrite seqZ_S, fold_left_app, IH. cbn [fold_left].
    unfold table_step. cbn [mbind outcome_bind]. rewrite Hodd.
    set (exp := 2 + Z.of_nat n).
    assert (Hq : 1 <= Z.quot exp 2 /\ 2 * Z.quot exp 2 <= exp).
    { rewrite Z.quot_div_nonneg by lia.
      pose proof (Z.mul_div_le exp 2 ltac:(lia)).
      assert (1 <= exp / 2) by (apply Z.div_le_lower_bound; lia). lia. }
    destruct (push_product_spec x (fun _ => True)
                (alter reLinearize (Z.to_nat (exp - Z.quot exp 2 - 1))
                   (alter reLinearize (Z.to_nat (Z.quot exp 2 - 1)) t))
                (Z.quot exp 2) (exp - Z.quot exp 2) lazy)
      as (t' & Ht' & Hlen' & Htab'); rewrite ?length_alter; try lia; try exact I.
    { apply relinearize_keeps, relinearize_keeps, Htab. }
    exists t'. split; [exact Ht'|]. split; [|exact Htab'].
    rewrite Hlen', !length_alter. lia.
Qed.

(** The odd variant computes the odd powers, the powers of two and the
    last power. *)
Lemma table_odd (x : R) (element x0 : C) (parameters : PS_parameters)
    (lazy : bool) (n : nat) :
  odd parameters = true -> dec x0 = x ->
  (k parameters mod 4 = 0 ->
   isPowerOfTwo (k parameters - floorPowerOfTwo (k parameters - 1)) = true) ->
  exists t,
    fold_left (table_step element parameters lazy) (seqZ 2 (Z.of_nat n)) (Ok [x0])
    = Ok t
    /\ length t = S n
    /\ baby_table x (odd_exponent (k parameters)) t.
Proof.
  intros Hodd Hx0 Hshape. induction n as [|n (t & IH & Hlen & Htab)].
  - exists [x0]. split; [reflexivity|]. split; [reflexivity|].
    intros r e Hr _. destruct r as [|r]; cbn in Hr; [|discriminate].
    injection Hr as <-. rewrite Hx0. cbn [Ctxt.power]. ring.
  - rewrite seqZ_S, fold_left_app, IH. cbn [fold_left].
    unfold table_step. cbn [mbind outcome_bind]. rewrite Hodd.
    set (exp := 2 + Z.of_nat n) in *.
    assert (Hexp : 2 <= exp) by (unfold exp; lia).
    assert (Hlen' : Z.of_nat (length t) = exp - 1) by (unfold exp; lia).
    rewrite !Z.rem_mod_nonneg by lia.
    assert (Hpush : forall ind1,
               1 <= ind1 <= exp - 1 ->
               odd_exponent (k parameters) ind1 ->
               odd_exponent (k parameters) (exp - ind1) ->
               exists t', push_product t ind1 (exp - ind1) lazy = Ok t'
                          /\ length t' = S (S n)
                          /\ baby_table x (odd_exponent (k parameters)) t').
    { intros ind1 Hind Hg1 Hg2.
      destruct (push_product_spec x (odd_exponent (k parameters)) t ind1
                  (exp - ind1) lazy Htab) as (t' & Ht' & Hl' & Htab'); try lia; auto.
      exists t'. split; [exact Ht'|]. split; [lia | exact Htab']. }
    destruct (Z.eqb_spec (exp mod 2) 0) as [Heven|Hoddexp].
    + destruct (isPowerOfTwo exp || (exp =? k parameters)) eqn:Hcomp.
      * destruct (Z.eqb_spec (exp mod 4) 0) as [H4|H4].
        -- destruct (isPowerOfTwo exp) eqn:Hpow.
           ++ destruct (half_of_power exp Hexp Hpow) as (Hfp & Hdbl & Hhp).
              rewrite Hfp. apply Hpush; [lia| |].
              ** right; left; exact Hhp.
              ** replace (exp - exp / 2) with (exp / 2) by lia.
                 right; left; exact Hhp.
           ++ cbn [orb] in Hcomp. apply Z.eqb_eq in Hcomp.
              pose proof (floorPowerOfTwo_bounds (exp - 1) ltac:(lia)) as [Hb1 Hb2].
              apply Hpush; [lia| |].
              ** right; left. apply floorPowerOfTwo_power.
              ** right; left. rewrite Hcomp. apply Hshape. rewrite <- Hcomp. exact H4.
        -- rewrite Z.quot_div_nonneg by lia.
           assert (Hmod4 : exp mod 4 = 2).
           { pose proof (Z.mod_pos_bound exp 4 ltac:(lia)).
             pose proof (Z.div_mod exp 4 ltac:(lia)).
             pose proof (Z.div_mod exp 2 ltac:(lia)). lia. }
           assert (Hhalf : exp = 2 * (exp / 2) /\ (exp / 2) mod 2 = 1).
           { pose proof (Z.div_mod exp 4 ltac:(lia)).
             assert (Hq : exp / 2 = 2 * (exp / 4) + 1).
             { symmetry. apply (Z.div_unique exp 2 _ 0); lia. }
             split; [lia|]. rewrite Hq.
             rewrite Z.add_comm, Z.mul_comm, Z.mod_add by lia. reflexivity. }
           destruct Hhalf as [Hdbl Hhodd].
           assert (Hgood : odd_exponent (k parameters) (exp / 2)).
           { left. rewrite Zodd_mod, Hhodd. reflexivity. }
           apply Hpush; [lia | exact Hgood |].
           replace (exp - exp / 2) with (exp / 2) by lia. exact Hgood.
      * apply orb_false_iff in Hcomp as [Hnp Hnk]. apply Z.eqb_neq in Hnk.
        eexists. split; [reflexivity|].
        split; [rewrite length_app; cbn [length]; lia|].
        apply garbage_keeps; [exact Htab|].
        replace (Z.of_nat (S (length t))) with exp by lia.
        intros [Ho|[Hp|Hk]]; [|congruence|contradiction].
        rewrite Zodd_mod, Heven in Ho. discriminate.
    + assert (Hmod2 : exp mod 2 = 1)
        by (pose proof (Z.mod_pos_bound exp 2 ltac:(lia)); lia).
      pose proof (floorPowerOfTwo_bounds exp ltac:(lia)) as [Hb1 Hb2].
      pose proof (floorPowerOfTwo_even exp Hexp) as Hfe.
      assert (Hlt : floorPowerOfTwo exp <> exp) by (intros Heq; rewrite Heq in Hfe; lia).
      apply Hpush; [lia| |].
      * right; left. apply floorPowerOfTwo_power.
      * left. rewrite Zodd_mod.
        replace ((exp - floorPowerOfTwo exp) mod 2) with 1; [reflexivity|].
        rewrite Zminus_mod, Hmod2, Hfe. reflexivity.
Qed.

(** *** The table of giant steps *)

Lemma giant_table (x : R) (k : Z) (back : C) (n : nat) :
  1 <= k -> dec back = Ctxt.power x (Z.to_nat k) ->
  length (fold_left giant_table_step (seqZ 1 (Z.of_nat n)) [back]) = S n
  /\ forall j e,
       fold_left giant_table_step (seqZ 1 (Z.of_nat n)) [back] !! j = Some e ->
       dec e = Ctxt.power x (Z.to_nat (k * 2 ^ Z.of_nat j)).
Proof.
  intros Hk Hback. induction n as [|n [Hlen Htab]].
  - split; [reflexivity|].
    intros j e Hj. destruct j as [|j]; cbn in Hj; [|discriminate].
    injection Hj as <-. rewrite Hback. f_equal. f_equal. cbn. lia.
  - rewrite seqZ_S, fold_left_app. cbn [fold_left].
    set (t := fold_left giant_table_step (seqZ 1 (Z.of_nat n)) [back]) in *.
    unfold giant_table_step.
    assert (Hlast : exists tmp, last t = Some tmp
                                /\ dec tmp = Ctxt.power x (Z.to_nat (k * 2 ^ Z.of_nat n))).
    { rewrite last_lookup, Hlen. cbn [Nat.pred].
      destruct (lookup_lt_is_Some_2 t n ltac:(lia)) as [tmp Htmp].
      exists tmp. split; [exact Htmp | apply (Htab _ _ Htmp)]. }
    destruct Hlast as (tmp & -> & Htmp).
    split; [rewrite length_app; cbn [length]; lia|].
    intros j e Hj.
    destruct (Nat.lt_ge_cases j (length t)) as [Hlt|Hge].
    + rewrite lookup_app_l in Hj by exact Hlt. apply (Htab _ _ Hj).
    + rewrite lookup_app_r in Hj by exact Hge.
      destruct (j - length t)%nat as [|i] eqn:Ei; cbn in Hj; [|discriminate].
      injection Hj as <-.
      rewrite dec_multiplyBy, Htmp, <- PowersFacts.power_add. f_equal.
      assert (Hj : j = S n) by lia. rewrite Hj.
      rewrite Nat2Z.inj_succ, Z.pow_succ_r by lia.
      pose proof (Z.pow_pos_nonneg 2 (Z.of_nat n) ltac:(lia) ltac:(lia)). nia.
Qed.

(** *** The loop over the polynomials *)

Lemma coeff_list_id (f : ZZX.t) :
  map (fun exp => ZZX.coeff f (Z.to_nat exp)) (seqZ 0 (ZZX.deg f + 1)) = f.
Proof.
  unfold ZZX.deg, ZZX.coeff.
  replace (Z.of_nat (length f) - 1 + 1) with (Z.of_nat (length f)) by lia.
  apply list_eq. intros i. rewrite list_lookup_fmap.
  destruct (Nat.lt_ge_cases i (length f)) as [Hlt|Hge].
  - rewrite lookup_seqZ_lt by lia. cbn [fmap option_fmap option_map].
    destruct (lookup_lt_is_Some_2 f i Hlt) as [c Hc]. rewrite Hc. f_equal.
    replace (Z.to_nat (0 + Z.of_nat i)) with i by lia.
    rewrite nth_lookup, Hc. reflexivity.
  - rewrite lookup_seqZ_ge by lia. rewrite lookup_ge_None_2 by exact Hge. reflexivity.
Qed.

Lemma evaluate_all (x : R) (xExp1 : list C) (parameters : PS_parameters)
    (lazy : bool) (polys : list ZZX.t) :
  1 <= k parameters -> 0 <= m parameters -> xExp1 <> [] ->
  Forall (fun f =>
            1 <= ZZX.deg f <= k parameters * 2 ^ m parameters
            /\ forall i c, tl f !! i = Some c -> c <> 0 ->
                 exists e, xExp1 !! (i mod Z.to_nat (k parameters))%nat = Some e
                           /\ dec e = Ctxt.power x (S (i mod Z.to_nat (k parameters))))
         polys ->
  forall (result xExp2 : list C),
    (forall j, (j < Z.to_nat (m parameters))%nat ->
       exists e, xExp2 !! j = Some e
                 /\ dec e = Ctxt.power x (Z.to_nat (k parameters * 2 ^ Z.of_nat j))) ->
    exists rs xExp2',
      fold_left (evaluate_one xExp1 parameters lazy) polys (Ok (result, xExp2))
      = Ok (result ++ rs, xExp2')
      /\ map dec rs = map (fun f => value f x) polys.
Proof.
  intros Hk Hm Hne Hall. induction Hall as [|f polys [Hdeg Hgood] _ IH];
    intros result xExp2 Hgiant.
  - exists [], xExp2. rewrite app_nil_r. split; reflexivity.
  - cbn [fold_left]. unfold evaluate_one at 2. cbn [mbind outcome_bind].
    rewrite coeff_list_id.
    destruct f as [|c0 rest]; [unfold ZZX.deg in Hdeg; cbn in Hdeg; lia|].
    cbn [tl] in Hgood.
    destruct (recursive_spec x (k parameters) xExp1 lazy Hk Hne
                (Z.to_nat (m parameters)) (m parameters) rest xExp2)
      as (back & xExp2' & -> & Hback & Hlen & Hkeep); try lia; auto.
    { unfold ZZX.deg in Hdeg. cbn [length] in Hdeg. lia. }
    cbn [mbind outcome_bind].
    destruct (IH (result ++ [reLinearize (if negb (c0 =? 0) then addConstant back c0
                                          else back)]) xExp2')
      as (rs & xExp2'' & -> & Hrs).
    { intros j Hj. destruct (Hgiant j Hj) as (e & He & Hde).
      destruct (Hkeep j e He) as (e' & He' & Hde'). exists e'.
      split; [exact He' | congruence]. }
    eexists (_ :: rs), xExp2''. rewrite <- app_assoc. split; [reflexivity|].
    cbn [map]. rewrite Hrs. f_equal.
    rewrite dec_reLinearize. cbn [value].
    destruct (Z.eqb_spec c0 0) as [->|Hc0]; cbn [negb].
    + rewrite Hback, of_Z_0. ring.
    + rewrite dec_addConstant, Hback. ring.
Qed.

(** *** The preprocessing *)

Lemma value_compress (spacing : Z) (poly : ZZX.t) (x : R) :
  1 <= spacing ->
  (forall i, ZZX.coeff poly i <> 0 -> (spacing | Z.of_nat i)) ->
  value (compress spacing poly) (Ctxt.power x (Z.to_nat spacing)) = value poly x.
Proof.
  intros Hs Hdiv.
  destruct (SpacingFacts.compress_spec spacing poly Hs Hdiv) as [Hcoeff _].
  rewrite <- value_expand by lia. apply value_ext. intros i.
  rewrite SpacingFacts.nth_expand by lia.
  destruct (Nat.eqb_spec (i mod Z.to_nat spacing) 0) as [Hmod|Hmod].
  - change (nth (i / Z.to_nat spacing) (compress spacing poly) 0)
      with (ZZX.coeff (compress spacing poly) (i / Z.to_nat spacing)).
    rewrite Hcoeff. unfold ZZX.coeff. f_equal.
    pose proof (Nat.div_mod_eq i (Z.to_nat spacing)). lia.
  - destruct (Z.eq_dec (nth i poly 0) 0) as [Hz|Hnz]; [symmetry; exact Hz|].
    exfalso. apply Hdiv in Hnz. destruct Hnz as [q Hq]. apply Hmod.
    assert (Hq0 : 0 <= q) by nia.
    replace i with (Z.to_nat q * Z.to_nat spacing)%nat by nia.
    apply Nat.Div0.mod_mul.
Qed.

Lemma spacing_positive (first : ZZX.t) (rest : list ZZX.t) :
  1 <= ZZX.deg first ->
  exists spacing,
    getSpacing (first :: rest) = Ok spacing
    /\ 1 <= spacing
    /\ forall poly i, In poly (first :: rest) -> ZZX.coeff poly i <> 0 ->
                      (spacing | Z.of_nat i).
Proof.
  intros Hdeg. eexists. split; [reflexivity|].
  pose proof (SpacingFacts.fold_spacing_spec (first :: rest) (ZZX.deg first))
    as (Hdiv & Hnn & Hall & _).
  cbv zeta in Hdiv, Hnn, Hall.
  split; [|exact Hall].
  specialize (Hnn ltac:(lia)).
  destruct Hdiv as [q Hq].
  destruct (Z.eq_dec (fold_left spacing_poly (first :: rest) (ZZX.deg first)) 0)
    as [Hz0|Hz0]; [rewrite Hz0 in Hq; lia | lia].
Qed.

(** Even entries stay even modulo an even number. *)
Lemma even_residue (i K : nat) :
  Nat.even i = true -> Z.of_nat K mod 2 = 0 -> (1 <= K)%nat ->
  Z.odd (Z.of_nat (S (i mod K))) = true.
Proof.
  intros Hi HK HK1.
  apply Nat.even_spec in Hi. destruct Hi as [a Ha].
  rewrite Nat2Z.inj_succ, Nat2Z.inj_mod.
  apply Z.mod_divide in HK; [|lia]. destruct HK as [b Hb].
  rewrite Z.mod_eq by lia.
  replace (Z.succ (Z.of_nat i - Z.of_nat K * (Z.of_nat i / Z.of_nat K)))
    with (1 + 2 * (Z.of_nat a - b * (Z.of_nat i / Z.of_nat K))) by lia.
  rewrite Z.odd_add_mul_2. reflexivity.
Qed.

(** *** Correctness of [customPolyEval] *)

Lemma customPolyEval_spec (DynamicCtxtPowers : C -> Z -> list C)
    (polynomials : list ZZX.t) (element : C) (lazy : bool) :
  polynomials <> [] ->
  Forall (fun f => ZZX.normalize f = f /\ 1 <= ZZX.deg f) polynomials ->
  max_degree polynomials <= 65536 ->
  isEmpty element = false ->
  (forall n, 2 <= n ->
     exists rest, DynamicCtxtPowers element n = element :: rest
                  /\ length rest = Z.to_nat (n - 1)
                  /\ Forall (fun d => isEmpty d = true) rest) ->
  exists result,
    customPolyEval DynamicCtxtPowers polynomials element lazy = Ok result
    /\ map dec result = map (fun f => value f (dec element)) polynomials.
Proof.
  intros Hne Hall Hmax Helem Hctor.
  assert (Hdegs : Forall (fun f => 1 <= ZZX.deg f) polynomials).
  { eapply Forall_impl; [exact Hall|]. intros f [_ Hf]. exact Hf. }
  unfold customPolyEval.
  rewrite (PolyEvalFacts.degrees_accepted polynomials Hdegs).
  cbn [assertTrue mbind outcome_bind].
  (* the preprocessing *)
  unfold customPolyEvalPreprocessing.
  destruct polynomials as [|first rest]; [congruence|].
  assert (Hfirst : 1 <= ZZX.deg first) by (inversion Hdegs; assumption).
  destruct (spacing_positive first rest Hfirst) as (s & -> & Hs & Hdiv).
  cbn [mbind outcome_bind].
  destruct (PowersFacts.power_spec DynamicCtxtPowers element s Helem Hctor Hs)
    as (y & -> & Hy).
  cbn [mbind outcome_bind].
  set (polys := first :: rest) in *.
  set (x := dec element) in *.
  assert (Hnew : Forall (fun f => 1 <= ZZX.deg f <= 65536 /\ last f <> Some 0)
                        (map (compress s) polys)).
  { apply Forall_map. rewrite Forall_forall in Hall. apply Forall_forall.
    intros f Hf. cbn beta. destruct (Hall f Hf) as [Hnorm Hdeg].
    apply list_elem_of_In in Hf.
    assert (Hlast : last f <> Some 0)
      by (rewrite <- Hnorm; apply ZZXFacts.normalize_last).
    destruct (compress_degree s f Hs (fun i => Hdiv f i Hf) Hlast Hdeg)
      as [[Hlo Hhi] Hl].
    pose proof (PolyEvalFacts.max_degree_ge polys f Hf). split; [lia | exact Hl]. }
  assert (Hnew1 : Forall (fun f => 1 <= ZZX.deg f) (map (compress s) polys)).
  { eapply Forall_impl; [exact Hnew|]. intros f [[Hf _] _]. exact Hf. }
  assert (Hnewmax : max_degree (map (compress s) polys) <= 65536).
  { apply max_degree_bound; [lia|].
    eapply Forall_impl; [exact Hnew|]. intros f [[_ Hf] _]. exact Hf. }
  assert (Hnewne : map (compress s) polys <> []) by discriminate.
  (* the parameters *)
  destruct (PolyEvalMore.best_parameters_turn (map (compress s) polys) lazy
              Hnewne Hnew1 Hnewmax) as (best & nb & -> & Hm & Hd & Hturn).
  cbn [mbind outcome_bind].
  set (d := max_degree (map (compress s) polys)) in *.
  pose proof (PolyEvalMore.design_baby_step_bounds lazy
                (areOddPolynomials (map (compress s) polys)) d (m best) Hd (proj1 Hm))
    as Hbounds.
  rewrite Hturn in Hbounds. destruct Hbounds as [Hceil _].
  assert (HP : 1 <= 2 ^ m best) by (pose proof (Z.pow_pos_nonneg 2 (m best)); lia).
  pose proof (PolyEvalFacts.ceil_div_pos d (2 ^ m best) Hd HP) as Hc1.
  pose proof (PolyEvalMore.ceil_div_covers d (2 ^ m best) HP) as Hcover.
  assert (Hk : 1 <= k best) by lia.
  assert (Hcov : d <= k best * 2 ^ m best) by nia.
  (* the table of baby steps *)
  assert (Htable : exists t,
             fold_left (table_step element best lazy) (seqZ 2 (k best - 1)) (Ok [y])
             = Ok t
             /\ length t = Z.to_nat (k best)
             /\ baby_table (dec y)
                  (if odd best then odd_exponent (k best) else fun _ => True) t).
  { replace (k best - 1) with (Z.of_nat (Z.to_nat (k best - 1))) by lia.
    destruct (odd best) eqn:Hodd.
    - destruct (PolyEvalMore.odd_turn_shape _ _ _ _ _ _ Hturn)
        as (_ & Hareodd & Hshape).
      destruct (table_odd (dec y) element y best lazy (Z.to_nat (k best - 1))
                  Hodd eq_refl) as (t & Ht & Hlen & Htab).
      { destruct Hshape as [[Hm0 Hkd]|(_ & _ & Hsh)]; [|exact Hsh].
        intros H4. exfalso. rewrite Hm0 in Hkd.
        assert (Hkd' : k best = d).
        { rewrite Hkd. unfold ceil_div. change (2 ^ 0) with 1.
          rewrite Z.div_1_r. lia. }
        destruct (max_degree_attained _ Hnewne Hnew1) as (f & Hf & Hfd).
        fold d in Hfd.
        rewrite Forall_forall in Hnew.
        destruct (Hnew f (proj2 (list_elem_of_In _ _) Hf)) as [[Hf1 _] Hfl].
        pose proof (odd_degree f Hf1 Hfl
                      (fun i Hi => proj1 (SpacingFacts.even_coefficients_vanish _)
                                     Hareodd f i Hf Hi)) as Hfo.
        rewrite Hfd, <- Hkd' in Hfo.
        pose proof (Z.div_mod (k best) 4 ltac:(lia)).
        pose proof (Z.div_mod (k best) 2 ltac:(lia)). lia. }
      exists t. split; [exact Ht|]. split; [lia | exact Htab].
    - destruct (table_plain (dec y) element y best lazy (Z.to_nat (k best - 1))
                  Hodd eq_refl) as (t & Ht & Hlen & Htab).
      exists t. split; [exact Ht|]. split; [lia | exact Htab]. }
  destruct Htable as (t & -> & Hlen & Htab).
  cbn [mbind outcome_bind].
  set (xExp1 := if negb (m best =? 0) then relinearize_back t else t).
  assert (Hlen1 : length xExp1 = Z.to_nat (k best)).
  { unfold xExp1, relinearize_back. destruct (negb _); rewrite ?length_alter; exact Hlen. }
  assert (Htab1 : baby_table (dec y)
                    (if odd best then odd_exponent (k best) else fun _ => True) xExp1).
  { unfold xExp1, relinearize_back. destruct (negb _); [|exact Htab].
    apply relinearize_keeps, Htab. }
  assert (Hback : exists back, last xExp1 = Some back
                               /\ dec back = Ctxt.power (dec y) (Z.to_nat (k best))).
  { rewrite last_lookup, Hlen1.
    destruct (lookup_lt_is_Some_2 xExp1 (Nat.pred (Z.to_nat (k best))) ltac:(lia))
      as [back Hb].
    exists back. split; [exact Hb|].
    etransitivity; [apply (Htab1 _ _ Hb) | f_equal; lia].
    destruct (odd best); [|exact I].
    right; right. lia. }
  destruct Hback as (back & -> & Hdback).
  (* the table of giant steps *)
  assert (Hseq : seqZ 1 (m best - 1) = seqZ 1 (Z.of_nat (Z.to_nat (m best - 1)))).
  { destruct (Z.le_gt_cases (m best - 1) 0) as [Hle|Hgt].
    - rewrite !seqZ_nil by lia. reflexivity.
    - rewrite Z2Nat.id by lia. reflexivity. }
  rewrite Hseq.
  destruct (giant_table (dec y) (k best) back (Z.to_nat (m best - 1)) Hk Hdback)
    as [Hglen Hgtab].
  set (xExp2 := fold_left giant_table_step _ [back]) in *.
  assert (Hgiant : forall j, (j < Z.to_nat (m best))%nat ->
             exists e, xExp2 !! j = Some e
                       /\ dec e = Ctxt.power (dec y)
                                    (Z.to_nat (k best * 2 ^ Z.of_nat j))).
  { intros j Hj.
    destruct (lookup_lt_is_Some_2 xExp2 j ltac:(lia)) as [e He].
    exists e. split; [exact He | apply (Hgtab _ _ He)]. }
  assert (Hne1 : xExp1 <> []).
  { intros Hnil. rewrite Hnil in Hlen1. cbn in Hlen1. lia. }
  (* the polynomials *)
  assert (Hpolys : Forall (fun f =>
             1 <= ZZX.deg f <= k best * 2 ^ m best
             /\ forall i c, tl f !! i = Some c -> c <> 0 ->
                  exists e, xExp1 !! (i mod Z.to_nat (k best))%nat = Some e
                            /\ dec e = Ctxt.power (dec y)
                                         (S (i mod Z.to_nat (k best))))
            (map (compress s) polys)).
  { apply Forall_forall. intros f Hf.
    rewrite Forall_forall in Hnew. destruct (Hnew f Hf) as [[Hf1 _] _].
    apply list_elem_of_In in Hf.
    pose proof (PolyEvalFacts.max_degree_ge _ f Hf) as Hfd. fold d in Hfd.
    split; [lia|].
    intros i c Hi Hc.
    assert (Hmod : (i mod Z.to_nat (k best) < Z.to_nat (k best))%nat)
      by (apply Nat.mod_upper_bound; lia).
    destruct (lookup_lt_is_Some_2 xExp1 (i mod Z.to_nat (k best))%nat ltac:(lia))
      as [e He].
    exists e. split; [exact He|]. apply (Htab1 _ _ He).
    destruct (odd best) eqn:Hodd; [|exact I].
    destruct (PolyEvalMore.odd_turn_shape _ _ _ _ _ _ Hturn)
      as (_ & Hareodd & Hshape).
    assert (Hcoeff : ZZX.coeff f (S i) = c).
    { unfold ZZX.coeff. destruct f as [|c0 f']; [discriminate Hi|].
      cbn [tl] in Hi. cbn [nth]. rewrite nth_lookup, Hi. reflexivity. }
    assert (Heven : Nat.even i = true).
    { destruct (Nat.even (S i)) eqn:E.
      - exfalso. apply Hc. rewrite <- Hcoeff.
        apply (proj1 (SpacingFacts.even_coefficients_vanish _) Hareodd f (S i) Hf E).
      - rewrite Nat.even_succ in E. rewrite <- Nat.negb_odd, E. reflexivity. }
    left.
    destruct Hshape as [[Hm0 _]|(_ & Hkeven & _)].
    - assert (Hi' : (i < length (tl f))%nat) by (apply lookup_lt_is_Some; eauto).
      assert (Hsmall : (i < Z.to_nat (k best))%nat).
      { rewrite Hm0 in Hcov. change (2 ^ 0) with 1 in Hcov.
        destruct f as [|c0 f']; [discriminate Hi|].
        unfold ZZX.deg in Hfd. cbn [length tl] in *. lia. }
      rewrite Nat.mod_small by exact Hsmall.
      apply Nat.even_spec in Heven. destruct Heven as [a Ha].
      replace (Z.of_nat (S i)) with (1 + 2 * Z.of_nat a) by lia.
      rewrite Z.odd_add_mul_2. reflexivity.
    - apply even_residue; [exact Heven | | lia].
      rewrite Z2Nat.id by lia. exact Hkeven. }
  destruct (evaluate_all (dec y) xExp1 best lazy (map (compress s) polys)
              Hk (proj1 Hm) Hne1 Hpolys [] xExp2 Hgiant)
    as (rs & xExp2' & -> & Hrs).
  cbn [mbind outcome_bind app].
  exists rs. split; [reflexivity|].
  rewrite Hrs, map_map. apply map_ext_in. intros f Hf.
  rewrite Hy. apply value_compress; [exact Hs|].
  intros i. apply (Hdiv f i Hf).
Qed.

(** [customPolyEval] computes the values of the polynomials: for a
    non-empty list of (normalised) polynomials of degrees from 1 to 65536,
    the range in which the [ceiling] of the source is exact, and a
    non-empty ciphertext, the call succeeds and returns one ciphertext for
    each polynomial, in order, that decrypts to the value of the polynomial
    at the plaintext of the input.  This holds with and without the lazy
    flag and for the odd variant of the baby steps.  A polynomial of degree
    0 or -1 in the list makes the call throw before anything is computed. *)
Theorem customPolyEval_correct (DynamicCtxtPowers : C -> Z -> list C)
    (polynomials : list ZZX.t) (element : C) (lazy : bool) :
  (polynomials <> [] ->
   Forall (fun f => ZZX.normalize f = f /\ 1 <= ZZX.deg f) polynomials ->
   max_degree polynomials <= 65536 ->
   isEmpty element = false ->
   (forall n, 2 <= n ->
      exists rest, DynamicCtxtPowers element n = element :: rest
                   /\ length rest = Z.to_nat (n - 1)
                   /\ Forall (fun d => isEmpty d = true) rest) ->
   exists result,
     customPolyEval DynamicCtxtPowers polynomials element lazy = Ok result
     /\ map dec result = map (fun f => value f (dec element)) polynomials)
  /\ (Exists (fun f => ZZX.deg f = -1 \/ ZZX.deg f = 0) polynomials ->
      customPolyEval DynamicCtxtPowers polynomials element lazy
      = Throw (LogicError "Degree should be positive.")).
Proof.
  split; [apply customPolyEval_spec|].
  intros Hex. unfold customPolyEval, assertTrue.
  replace (forallb _ polynomials) with false; [reflexivity|].
  symmetry. apply not_true_iff_false. intros Hall.
  rewrite forallb_forall in Hall.
  apply Exists_exists in Hex. destruct Hex as (f & Hin & Hf).
  apply list_elem_of_In in Hin.
  specialize (Hall f Hin).
  destruct Hf as [Hf|Hf]; rewrite Hf in Hall; discriminate.
Qed.

End Correct.

(** [X + 2 X^3 + X^7] and [5 X^5] at 3. *)
Lemma customPolyEval_correct_witness :
  exists result,
    @customPolyEval (option Z) clear_ops clear_poly_ops clear_powers
      [[0; 1; 0; 2; 0; 0; 0; 1]; [0; 0; 0; 0; 0; 5]] (Some 3) false = Ok result
    /\ map (@dec (option Z) Z clear_ops Z_plaintext clear_homomorphic) result
       = map (fun f => value f 3) [[0; 1; 0; 2; 0; 0; 0; 1]; [0; 0; 0; 0; 0; 5]].
Proof.
  refine (proj1 (@customPolyEval_correct (option Z) Z clear_ops clear_poly_ops
                   Z_plaintext clear_homomorphic clear_poly_homomorphic clear_powers
                   [[0; 1; 0; 2; 0; 0; 0; 1]; [0; 0; 0; 0; 0; 5]] (Some 3) false)
                _ _ _ _ _).
  - discriminate.
  - repeat constructor; vm_compute; discriminate.
  - vm_compute. discriminate.
  - reflexivity.
  - intros n Hn. exists (replicate (Z.to_nat n - 1) None).
    split; [reflexivity|]. split.
    + rewrite length_replicate. lia.
    + apply Forall_forall. intros d Hd.
      apply elem_of_replicate in Hd as [-> _]. reflexivity.
Defined.

End CustomPolyEvalFacts.

(** ** The public wrapper of the digit extraction *)

Module WrapExtractFacts.
Import Err Ctxt RowComputation Trace DigitExtract WrapExtract.

Section Wrap.
Context {C : Type} `{Ops C}.
Variable comp : composition C.
Variable builtIn : C -> Z -> Z -> Z -> list string * outcome C.

(** With [ePrime = r] the extraction writes no warning. *)
Lemma extract_quiet (p : Z) (ctxt : C) (botHigh r : Z) (our_version lazy : bool)
    (splits : list (list Z)) (ePrime' r' : Z) :
  ~ warned ePrime' r'
      (log (extractDigitsThin comp builtIn p ctxt botHigh r r our_version lazy splits)).
Proof.
  unfold extractDigitsThin, warned. rewrite Z.ltb_irrefl.
  destruct our_version.
  - set (X := customExtractDigitsThin comp p ctxt botHigh r lazy splits).
    unfold mbind, run_bind, mret, run_ret, lift. cbn [log res app]. tauto.
  - destruct (builtIn ctxt botHigh r r) as [out result].
    unfold mbind, run_bind, mret, run_ret, emit. cbn [log res app].
    destruct result as [c|e]; cbn [log res app].
    + intros [Hin|Hin]; [discriminate|].
      apply in_map_iff in Hin. destruct Hin as (s & Hs & _). discriminate.
    + intros [Hin|Hin]; [discriminate|].
      apply in_map_iff in Hin. destruct Hin as (s & Hs & _). discriminate.
Qed.

Lemma extract_own (p : Z) (ctxt : C) (botHigh r : Z) (lazy : bool)
    (splits : list (list Z)) :
  extractDigitsThin comp builtIn p ctxt botHigh r r true lazy splits
  = Run [] (customExtractDigitsThin comp p ctxt botHigh r lazy splits).
Proof.
  unfold extractDigitsThin. rewrite Z.ltb_irrefl.
  set (X := customExtractDigitsThin comp p ctxt botHigh r lazy splits).
  unfold mbind, run_bind, mret, run_ret, lift. cbn [log res app]. reflexivity.
Qed.

(** Every turn of the loop starts from the saved input. *)
Lemma wrap_loop_result (n : nat) (p : Z) (tmp ctxt : C) (botHigh r : Z)
    (our_version lazy : bool) (splits : list (list Z)) :
  res (wrap_loop comp builtIn (S n) p tmp ctxt botHigh r our_version lazy splits)
  = res (extractDigitsThin comp builtIn p tmp botHigh r r our_version lazy splits)
  /\ forall ePrime' r',
       ~ warned ePrime' r'
           (log (wrap_loop comp builtIn (S n) p tmp ctxt botHigh r our_version
                   lazy splits)).
Proof.
  revert ctxt. induction n as [|n IH]; intros ctxt.
  - cbn [wrap_loop].
    pose proof (fun e' r' => extract_quiet p tmp botHigh r our_version lazy splits e' r')
      as Hq.
    destruct (extractDigitsThin comp builtIn p tmp botHigh r r our_version lazy splits)
      as [l [c|e]]; cbn in *.
    + split; [reflexivity|]. intros e' r'. rewrite app_nil_r. apply Hq.
    + split; [reflexivity|]. exact Hq.
  - change (wrap_loop comp builtIn (S (S n)) p tmp ctxt botHigh r our_version lazy splits)
      with (c ← extractDigitsThin comp builtIn p tmp botHigh r r our_version lazy splits;
            wrap_loop comp builtIn (S n) p tmp c botHigh r our_version lazy splits).
    pose proof (fun e' r' => extract_quiet p tmp botHigh r our_version lazy splits e' r')
      as Hq.
    destruct (extractDigitsThin comp builtIn p tmp botHigh r r our_version lazy splits)
      as [l [c|e]] eqn:E.
    + destruct (IH c) as [IHres IHlog].
      unfold mbind, run_bind. cbn [res log] in *.
      split; [exact IHres|].
      intros e' r' Hin. unfold warned in *. apply in_app_or in Hin.
      destruct Hin as [Hin|Hin]; [apply (Hq e' r' Hin) | apply (IHlog e' r' Hin)].
    + unfold mbind, run_bind. cbn [res log] in *. split; [reflexivity | exact Hq].
Qed.

(** The number of timing turns does not change the result of
    [wrapExtractDigitsThin]: for [nb_iterations >= 1] it is the result of
    one extraction from the input with [ePrime = r], negated; no turn
    writes the warning about [e' < r].  With the extraction of this
    repository nothing but the report is written.  For a negative
    [nb_iterations] nothing is extracted: the input comes back negated. *)
Theorem wrapExtractDigitsThin_iterations (p : Z) (ctxt : C) (botHigh r : Z)
    (our_version lazy : bool) (splits : list (list Z)) (nb_iterations : Z) :
  (1 <= nb_iterations ->
   res (wrapExtractDigitsThin comp builtIn p ctxt botHigh r our_version lazy splits
          nb_iterations)
   = (c ← res (extractDigitsThin comp builtIn p ctxt botHigh r r our_version lazy
                 splits);
      Ok (negate c))
   /\ (forall ePrime' r',
         ~ warned ePrime' r'
             (log (wrapExtractDigitsThin comp builtIn p ctxt botHigh r our_version
                     lazy splits nb_iterations)))
   /\ (our_version = true ->
       wrapExtractDigitsThin comp builtIn p ctxt botHigh r our_version lazy splits
         nb_iterations
       = match customExtractDigitsThin comp p ctxt botHigh r lazy splits with
         | Ok c => Run [Cout (Report botHigh)] (Ok (negate c))
         | Throw e => Run [] (Throw e)
         end))
  /\ (nb_iterations < 0 ->
      wrapExtractDigitsThin comp builtIn p ctxt botHigh r our_version lazy splits
        nb_iterations
      = Run [Cout (Report botHigh)] (Ok (negate ctxt))).
Proof.
  unfold wrapExtractDigitsThin. split.
  - intros Hnb.
    destruct (Z.to_nat nb_iterations) as [|n] eqn:En; [lia|].
    destruct (Z.eqb_spec nb_iterations 0) as [?|_]; [lia|].
    destruct (wrap_loop_result n p ctxt ctxt botHigh r our_version lazy splits)
      as [Hres Hlog].
    split; [|split].
    + destruct (wrap_loop comp builtIn (S n) p ctxt ctxt botHigh r our_version lazy splits)
        as [l [c|e]]; cbn in *; rewrite <- Hres; reflexivity.
    + intros e' r'. specialize (Hlog e' r').
      destruct (wrap_loop comp builtIn (S n) p ctxt ctxt botHigh r our_version lazy splits)
        as [l [c|e]]; cbn in *; [|exact Hlog].
      unfold warned in *. intros Hin. apply in_app_or in Hin.
      destruct Hin as [Hin|[Hin|[]]]; [exact (Hlog Hin) | discriminate].
    + intros ->.
      assert (Hloop : wrap_loop comp builtIn (S n) p ctxt ctxt botHigh r true lazy splits
                      = Run [] (customExtractDigitsThin comp p ctxt botHigh r lazy splits)).
      { clear. generalize ctxt at 2. induction n as [|n IH]; intros c0.
        - cbn [wrap_loop]. rewrite extract_own.
          destruct (customExtractDigitsThin _ _ _ _ _ _ _); reflexivity.
        - change (wrap_loop comp builtIn (S (S n)) p ctxt c0 botHigh r true lazy splits)
            with (c ← extractDigitsThin comp builtIn p ctxt botHigh r r true lazy splits;
                  wrap_loop comp builtIn (S n) p ctxt c botHigh r true lazy splits).
          rewrite extract_own.
          destruct (customExtractDigitsThin comp p ctxt botHigh r lazy splits)
            as [c|e] eqn:E; [|reflexivity].
          unfold mbind, run_bind. cbn [res log]. rewrite IH. reflexivity. }
      rewrite Hloop.
      destruct (customExtractDigitsThin comp p ctxt botHigh r lazy splits);
        reflexivity.
  - intros Hnb.
    replace (Z.to_nat nb_iterations) with 0%nat by lia.
    destruct (Z.eqb_spec nb_iterations 0) as [?|_]; [lia|]. reflexivity.
Qed.

End Wrap.

End WrapExtractFacts.

(** ** The row computation by composition, evaluated *)

Module RowPolynomialsFacts.
Import Err Ctxt RowComputation Composition PolyEval Powers CustomPolyEval.

Section Rows.
Context {C R : Type} `{PolyHomomorphic C R}.
Variables (primes_list e_inner_list : list Z)
          (polynomial_vector : list (list (list ZZX.t))).
Variable DynamicCtxtPowers : C -> Z -> list C.

(** With the polynomial evaluation of this repository the row computation
    by composition appends, for precisions that end with [rowSize],
    ciphertexts of the values of the cached polynomials at the plaintext of
    its input: the pair with precision [e] holds the polynomial stored for
    [e] (the entry [e - e_inner - 1] of the cache) evaluated there.  The
    cached polynomials are taken normalised and of degrees from 1 to
    65536. *)
Theorem composition_evaluates (p : Z) (ctxt : C) (ctxtEval : Eval C)
    (triangleSize rowSize : Z) (lazy : bool) (e_inner : Z) (cache : list ZZX.t) :
  1 <= e_inner -> triangleSize <= rowSize -> e_inner < rowSize ->
  In p primes_list -> In e_inner e_inner_list ->
  cached polynomial_vector (find_index primes_list p)
    (find_index e_inner_list e_inner) = Ok cache ->
  rowSize - e_inner <= Z.of_nat (length cache) ->
  Forall (fun f => ZZX.normalize f = f /\ 1 <= ZZX.deg f <= 65536) cache ->
  isEmpty ctxt = false ->
  (forall n, 2 <= n ->
     exists rest, DynamicCtxtPowers ctxt n = ctxt :: rest
                  /\ length rest = Z.to_nat (n - 1)
                  /\ Forall (fun d => isEmpty d = true) rest) ->
  exists appended,
    rowComputationComposition primes_list e_inner_list polynomial_vector
      (customPolyEval DynamicCtxtPowers) p ctxt ctxtEval triangleSize rowSize
      lazy e_inner
    = Ok (ctxtEval ++ appended)
    /\ (exists c, last appended = Some (c, rowSize))
    /\ Forall (fun ce : C * Z =>
                 e_inner < ce.2 <= rowSize
                 /\ dec ce.1
                    = value (nth (Z.to_nat (ce.2 - e_inner - 1)) cache [])
                            (dec ctxt))
              appended.
Proof.
  intros He HT Hrow Hp Hin Hcache Hlen Hpolys Hne Hctor.
  unfold rowComputationComposition, assertTrue.
  destruct (proj1 (CompositionFacts.find_index_spec primes_list p) Hp) as [Hr1 _].
  destruct (proj1 (CompositionFacts.find_index_spec e_inner_list e_inner) Hin)
    as [Hr2 _].
  destruct (Z.ltb_spec (find_index primes_list p) (Z.of_nat (length primes_list)));
    [|lia].
  destruct (Z.ltb_spec (find_index e_inner_list e_inner)
              (Z.of_nat (length e_inner_list))); [|lia].
  cbn [mbind outcome_bind]. rewrite Hcache. cbn [mbind outcome_bind].
  assert (Hstart : scheduled cache e_inner rowSize (e_inner * 2 ^ (1 - 1)) ([], [])).
  { split; [reflexivity|]. split; [constructor|].
    intros i a b Ha. destruct i; discriminate Ha. }
  destruct (CompositionFacts.precisions_loop_spec cache e_inner triangleSize rowSize
              He HT (Z.to_nat triangleSize + 1) 1 ([], []) ltac:(lia)
              ltac:(change (2 ^ (1 - 1)) with 1; lia) Hstart)
    as [(st & -> & Hst)|[_ Hshort]]; [|lia].
  cbn [mbind outcome_bind].
  destruct (proj1 (CompositionFacts.one_more_spec cache e_inner rowSize st Hrow Hst)
              Hlen) as (st' & -> & (Hpoly & Hall & _) & Hlast).
  cbn [mbind outcome_bind]. destruct st' as [polynomials precisions].
  cbn [fst snd] in *. subst polynomials.
  assert (Hrange : Forall (fun precision => e_inner < precision <= rowSize) precisions).
  { eapply Forall_impl; [exact Hall|]. cbn beta. intros y Hy. lia. }
  set (sel := fun precision : Z => nth (Z.to_nat (precision - e_inner - 1)) cache []).
  assert (Hsel : Forall (fun f => ZZX.normalize f = f /\ 1 <= ZZX.deg f <= 65536)
                        (map sel precisions)).
  { apply Forall_map. eapply Forall_impl; [exact Hrange|]. cbn beta.
    intros y Hy. rewrite Forall_forall in Hpolys. apply Hpolys.
    apply list_elem_of_In. apply nth_In. lia. }
  destruct (CustomPolyEvalFacts.customPolyEval_spec DynamicCtxtPowers
              (map sel precisions) ctxt lazy) as (result & -> & Hres).
  { destruct precisions; [discriminate Hlast | discriminate]. }
  { eapply Forall_impl; [exact Hsel|]. cbn beta. intros f Hf. split; [tauto | lia]. }
  { apply CustomPolyEvalFacts.max_degree_bound; [lia|].
    eapply Forall_impl; [exact Hsel|]. cbn beta. intros f Hf. lia. }
  { exact Hne. }
  { exact Hctor. }
  cbn [mbind outcome_bind].
  assert (Hlen' : length result = length precisions).
  { apply (f_equal (@length R)) in Hres. rewrite !length_map in Hres. exact Hres. }
  destruct (Nat.ltb_spec (length precisions) (length result)) as [?|_]; [lia|].
  exists (zip result precisions). split; [reflexivity|]. split.
  - destruct (lookup_lt_is_Some_2 result (Nat.pred (length precisions))) as [c Hc].
    { destruct precisions; [discriminate Hlast | cbn in *; lia]. }
    rewrite last_lookup in Hlast.
    exists c. rewrite last_lookup, length_zip_with, Hlen', Nat.min_id.
    apply lookup_zip_with_Some. exists c, rowSize. auto.
  - apply Forall_forall. intros [c e] Hce.
    apply list_elem_of_lookup_1 in Hce as [i Hi].
    apply lookup_zip_with_Some in Hi as (c' & e' & Heq & Hc & He').
    injection Heq as <- <-. cbn [fst snd]. split.
    + rewrite Forall_forall in Hrange. apply Hrange.
      apply (list_elem_of_lookup_2 _ _ _ He').
    + assert (Hi1 : map dec result !! i = Some (dec c))
        by (rewrite list_lookup_fmap, Hc; reflexivity).
      rewrite Hres, map_map, list_lookup_fmap, He' in Hi1.
      cbn in Hi1. injection Hi1 as <-. reflexivity.
Qed.

End Rows.

Lemma composition_evaluates_witness :
  exists appended,
    @rowComputationComposition (option Z) [2; 3] [1; 2]
      [[[]; []]; [replicate 6 [0; 1; 0; 2]; []]]
      (@customPolyEval (option Z) clear_ops clear_poly_ops clear_powers)
      3 (Some 5) [] 4 6 false 1
    = Ok ([] ++ appended)
    /\ (exists c, last appended = Some (c, 6))
    /\ Forall (fun ce : option Z * Z =>
                 1 < ce.2 <= 6
                 /\ @dec (option Z) Z clear_ops Z_plaintext clear_homomorphic ce.1
                    = value (nth (Z.to_nat (ce.2 - 1 - 1)) (replicate 6 [0; 1; 0; 2]) [])
                            (@dec (option Z) Z clear_ops Z_plaintext clear_homomorphic
                               (Some 5)))
              appended.
Proof.
  apply (@composition_evaluates (option Z) Z clear_ops clear_poly_ops Z_plaintext
           clear_homomorphic clear_poly_homomorphic [2; 3] [1; 2]
           [[[]; []]; [replicate 6 [0; 1; 0; 2]; []]] clear_powers
           3 (Some 5) [] 4 6 false 1 (replicate 6 [0; 1; 0; 2])).
  - lia.
  - lia.
  - lia.
  - right; left; reflexivity.
  - left; reflexivity.
  - reflexivity.
  - vm_compute. discriminate.
  - repeat constructor; vm_compute; discriminate.
  - reflexivity.
  - intros n Hn. exists (replicate (Z.to_nat n - 1) None).
    split; [reflexivity|]. split.
    + rewrite length_replicate. lia.
    + apply Forall_forall. intros d Hd.
      apply elem_of_replicate in Hd as [-> _]. reflexivity.
Defined.

End RowPolynomialsFacts.

(** ** What the trapezoid computes *)

Module TrapezoidFacts.
Import Err Ctxt RowComputation DigitExtract Trapezoid.

(** *** Digits of integers *)

Lemma prime_power_pos (p t : Z) : 2 <= p -> 0 <= t -> 0 < p ^ t.
Proof. intros Hp Ht. apply Z.pow_pos_nonneg; lia. Qed.

Lemma prime_power_split (p t : Z) : 1 <= t -> p ^ t = p * p ^ (t - 1).
Proof.
  intros Ht. replace t with (Z.succ (t - 1)) at 1 by lia.
  apply Z.pow_succ_r. lia.
Qed.

Lemma congruent_difference (a b n : Z) :
  0 < n -> a mod n = b mod n -> exists k, a = b + k * n.
Proof.
  intros Hn Hab. exists (a / n - b / n).
  pose proof (Z.div_mod a n ltac:(lia)). pose proof (Z.div_mod b n ltac:(lia)). nia.
Qed.

Lemma power_divides (p m s : Z) : 0 <= m <= s -> (p ^ m | p ^ s).
Proof.
  intros Hm. exists (p ^ (s - m)). rewrite <- Z.pow_add_r by lia. f_equal. lia.
Qed.

Lemma congruent_weaken (p a b e e' : Z) :
  2 <= p -> 0 <= e' <= e -> a mod p ^ e = b mod p ^ e -> a mod p ^ e' = b mod p ^ e'.
Proof.
  intros Hp He Hab.
  pose proof (power_divides p e' e He) as Hdiv.
  rewrite <- (Z.mod_mod_divide a (p ^ e) (p ^ e') Hdiv).
  rewrite <- (Z.mod_mod_divide b (p ^ e) (p ^ e') Hdiv).
  rewrite Hab. reflexivity.
Qed.

Lemma mod_mod_power (p a s m : Z) :
  0 <= m <= s -> (a mod p ^ s) mod p ^ m = a mod p ^ m.
Proof. intros Hm. apply Z.mod_mod_divide. apply power_divides. exact Hm. Qed.

(** Congruent integers have congruent quotients by [p], one digit down. *)
Lemma quotient_congruent (p a b m : Z) :
  2 <= p -> 1 <= m -> a mod p ^ m = b mod p ^ m ->
  (a / p) mod p ^ (m - 1) = (b / p) mod p ^ (m - 1).
Proof.
  intros Hp Hm Hab.
  pose proof (prime_power_pos p (m - 1) Hp ltac:(lia)) as Hpos.
  pose proof (prime_power_split p m Hm) as Hsplit.
  destruct (congruent_difference a b (p ^ m) ltac:(nia) Hab) as [k Hk].
  assert (Ha : a = b + (k * p ^ (m - 1)) * p) by (rewrite Hk, Hsplit; ring).
  rewrite Ha, Z.div_add by lia. apply Z.mod_add. lia.
Qed.

Lemma remove_digits_succ (p : Z) (digit : Z -> Z) (z row : Z) :
  0 <= row ->
  remove_digits p digit z (Z.to_nat (row + 1))
  = (remove_digits p digit z (Z.to_nat row)
     - digit (remove_digits p digit z (Z.to_nat row) mod p)) / p.
Proof.
  intros Hrow. replace (Z.to_nat (row + 1)) with (S (Z.to_nat row)) by lia.
  reflexivity.
Qed.

(** Removing [n] digits looks at the lowest [n + r] digits only, as far as
    the result modulo [p^r] goes. *)
Lemma remove_digits_congruent (p : Z) (digit : Z -> Z) (n : nat) :
  2 <= p ->
  forall a b r : Z,
    0 <= r ->
    a mod p ^ (Z.of_nat n + r) = b mod p ^ (Z.of_nat n + r) ->
    remove_digits p digit a n mod p ^ r = remove_digits p digit b n mod p ^ r.
Proof.
  intros Hp. induction n as [|n IH]; intros a b r Hr Hab.
  - cbn [remove_digits]. change (Z.of_nat 0) with 0 in Hab.
    rewrite Z.add_0_l in Hab. exact Hab.
  - cbn [remove_digits]. cbv zeta.
    assert (Hq : remove_digits p digit a n mod p ^ (r + 1)
                 = remove_digits p digit b n mod p ^ (r + 1)).
    { apply IH; [lia|].
      replace (Z.of_nat n + (r + 1)) with (Z.of_nat (S n) + r) by lia. exact Hab. }
    set (qa := remove_digits p digit a n) in *.
    set (qb := remove_digits p digit b n) in *.
    assert (Hd : qa mod p = qb mod p).
    { pose proof (congruent_weaken p qa qb (r + 1) 1 Hp ltac:(lia) Hq) as H1.
      rewrite Z.pow_1_r in H1. exact H1. }
    rewrite Hd.
    assert (Hsub : (qa - digit (qb mod p)) mod p ^ (r + 1)
                   = (qb - digit (qb mod p)) mod p ^ (r + 1)).
    { rewrite Zminus_mod, Hq, <- Zminus_mod. reflexivity. }
    pose proof (quotient_congruent p _ _ (r + 1) Hp ltac:(lia) Hsub) as Hquot.
    replace (r + 1 - 1) with r in Hquot by lia. exact Hquot.
Qed.

(** In base 2 with the digits 0 and 1, removing digits is dividing. *)
Lemma remove_binary_digits (z : Z) (n : nat) :
  remove_digits 2 (fun a => a) z n = z / 2 ^ Z.of_nat n.
Proof.
  induction n as [|n IH].
  - cbn [remove_digits]. change (2 ^ Z.of_nat 0) with 1. rewrite Z.div_1_r. reflexivity.
  - cbn [remove_digits]. cbv zeta. rewrite IH.
    set (q := z / 2 ^ Z.of_nat n).
    assert (Hq : (q - q mod 2) / 2 = q / 2).
    { pose proof (Z.div_mod q 2 ltac:(lia)).
      replace (q - q mod 2) with (q / 2 * 2) by lia. apply Z.div_mul. lia. }
    rewrite Hq. unfold q.
    pose proof (prime_power_pos 2 (Z.of_nat n) ltac:(lia) ltac:(lia)).
    rewrite Z.div_div by lia. f_equal.
    rewrite Nat2Z.inj_succ, Z.pow_succ_r by lia. lia.
Qed.

Lemma last_in {A : Type} (l : list A) (x : A) : last l = Some x -> In x l.
Proof.
  intros Hl. apply last_Some in Hl as [l' ->]. apply in_or_app. right. left. reflexivity.
Qed.

Lemma tags_agree {A B : Type} (P : A * Z -> B * Z -> Prop) (l : list (A * Z))
    (k : list (B * Z)) :
  Forall2 (fun x y => P x y /\ x.2 = y.2) l k -> map snd l = map snd k.
Proof.
  induction 1 as [|x y l k [_ Hxy] _ IH]; [reflexivity|].
  cbn [map]. rewrite Hxy, IH. reflexivity.
Qed.

Section Trapezoid.
Context {C : Type} `{Ops C}.
Variable p : Z.
Context `{!Residues p C}.
Variable digit : Z -> Z.
Variable comp : composition C.
Hypothesis Hp : 2 <= p.
Hypothesis Hdigit : forall a, 0 <= a < p -> digit a mod p = a.

(** *** Plaintext spaces *)

Lemma space_nonneg (c : C) : 0 <= space c.
Proof.
  pose proof (plain_range c) as Hr.
  destruct (Z.lt_ge_cases (space c) 0) as [Hneg|]; [|assumption].
  rewrite Z.pow_neg_r in Hr by lia. lia.
Qed.

Lemma space_power_pos (c : C) : 0 < p ^ space c.
Proof. apply prime_power_pos; [exact Hp | apply space_nonneg]. Qed.

Lemma residue_of_input (x : C) : residue_of p (space x) x (plain x).
Proof.
  split; [reflexivity|]. symmetry. apply Z.mod_small. apply plain_range.
Qed.

Lemma residue_of_ext (s : Z) (c : C) (v w : Z) :
  residue_of p s c v -> v = w -> residue_of p s c w.
Proof. intros Hc <-. exact Hc. Qed.

Lemma residue_of_square (s : Z) (c : C) (v : Z) :
  residue_of p s c v -> residue_of p s (square c) (v * v).
Proof.
  intros [Hs Hv]. pose proof (space_power_pos c) as Hpos.
  split; [rewrite space_square; exact Hs|].
  rewrite plain_square, Hv, <- Hs.
  rewrite <- Z.mul_mod by lia. reflexivity.
Qed.

Lemma residue_of_multByConstant (s : Z) (c : C) (v k : Z) :
  residue_of p s c v -> residue_of p s (multByConstant c k) (k * v).
Proof.
  intros [Hs Hv]. pose proof (space_power_pos c) as Hpos.
  split; [rewrite space_multByConstant; exact Hs|].
  rewrite plain_multByConstant, Hv, <- Hs.
  rewrite Z.mul_mod_idemp_r by lia. reflexivity.
Qed.

Lemma residue_of_addCtxt (s : Z) (c d : C) (v w : Z) (negative : bool) :
  residue_of p s c v -> residue_of p s d w ->
  residue_of p s (addCtxt c d negative) (if negative then v - w else v + w).
Proof.
  intros [Hs Hv] [Hs' Hw]. pose proof (space_power_pos c) as Hpos.
  assert (Heq : space c = space d) by congruence.
  split; [rewrite space_addCtxt by exact Heq; exact Hs|].
  rewrite plain_addCtxt by exact Heq. rewrite Hv, Hw, <- Hs.
  destruct negative; [rewrite <- Zminus_mod | rewrite <- Z.add_mod by lia];
    reflexivity.
Qed.

Lemma residue_of_multiplyBy (s : Z) (c d : C) (v w : Z) :
  residue_of p s c v -> residue_of p s d w ->
  residue_of p s (multiplyBy c d) (v * w).
Proof.
  intros [Hs Hv] [Hs' Hw]. pose proof (space_power_pos c) as Hpos.
  assert (Heq : space c = space d) by congruence.
  split; [rewrite space_multiplyBy by exact Heq; exact Hs|].
  rewrite plain_multiplyBy by exact Heq. rewrite Hv, Hw, <- Hs.
  rewrite <- Z.mul_mod by lia. reflexivity.
Qed.

(** *** Precisions *)

Lemma holds_weaken (v : Z) (c : C) (e e' : Z) :
  holds p v (c, e) -> 0 <= e' <= e -> holds p v (c, e').
Proof.
  intros [He Hv] He'. cbn [fst snd] in *. split; [cbn [snd]; lia|]. cbn [fst snd].
  pose proof (space_nonneg c).
  apply (congruent_weaken p _ _ (Z.min e (space c)) (Z.min e' (space c)) Hp);
    [lia | exact Hv].
Qed.

Lemma digit_residue (q : Z) : digit (q mod p) mod p = q mod p.
Proof. apply Hdigit. apply Z.mod_pos_bound. lia. Qed.

(** The lowest digit of what a pair holds to a precision of at least 1 is
    the lowest digit of its plaintext. *)
Lemma holds_digit (q : Z) (ce : C * Z) :
  holds p q ce -> 1 <= ce.2 -> 1 <= space ce.1 -> plain ce.1 mod p = q mod p.
Proof.
  intros [He Hv] Ht Hs.
  assert (Hle : 0 <= 1 <= Z.min ce.2 (space ce.1)) by lia.
  pose proof (congruent_weaken p _ _ _ 1 Hp Hle Hv) as H1.
  rewrite !Z.pow_1_r in H1. exact H1.
Qed.

(** Subtracting a lift of the lowest digit and dividing by [p]: the
    requirements of [divideByP] are met, the plaintext space goes down by
    one digit and so does the precision. *)
Lemma extract_digit (q : Z) (ce tup : C * Z) :
  space tup.1 = space ce.1 -> 2 <= space ce.1 ->
  holds p q ce -> holds p (digit (q mod p)) tup ->
  1 <= Z.min ce.2 tup.2 ->
  space (divideByP (addCtxt ce.1 tup.1 true)) = space ce.1 - 1
  /\ holds p ((q - digit (q mod p)) / p)
       (divideByP (addCtxt ce.1 tup.1 true), Z.min ce.2 tup.2 - 1).
Proof.
  intros Hsp Hs [He Hce] [Ht Htup] Hmin.
  rewrite Hsp in Htup.
  set (s := space ce.1) in *.
  set (m := Z.min (Z.min ce.2 tup.2) s).
  assert (Hm : 1 <= m <= s) by lia.
  set (a := addCtxt ce.1 tup.1 true).
  assert (Hsa : space a = s) by (apply space_addCtxt; symmetry; exact Hsp).
  assert (Hpa : plain a = (plain ce.1 - plain tup.1) mod p ^ s)
    by (apply (plain_addCtxt ce.1 tup.1 true); symmetry; exact Hsp).
  assert (Hcong : plain a mod p ^ m = (q - digit (q mod p)) mod p ^ m).
  { rewrite Hpa, mod_mod_power by lia.
    rewrite Zminus_mod.
    rewrite (congruent_weaken p (plain ce.1) q (Z.min ce.2 s) m Hp ltac:(lia) Hce).
    rewrite (congruent_weaken p (plain tup.1) (digit (q mod p)) (Z.min tup.2 s) m
               Hp ltac:(lia) Htup).
    rewrite <- Zminus_mod. reflexivity. }
  assert (Hdiv : (p | plain a)).
  { apply Z.mod_divide; [lia|].
    pose proof (congruent_weaken p _ _ m 1 Hp ltac:(lia) Hcong) as H1.
    rewrite !Z.pow_1_r in H1. rewrite H1.
    rewrite Zminus_mod, digit_residue, Z.sub_diag. apply Z.mod_0_l. lia. }
  assert (Hsd : space (divideByP a) = s - 1)
    by (rewrite space_divideByP; [lia | lia | exact Hdiv]).
  split; [exact Hsd|].
  split; [cbn [snd]; lia|]. cbn [fst snd].
  rewrite Hsd, plain_divideByP by (first [lia | exact Hdiv]).
  replace (Z.min (Z.min ce.2 tup.2 - 1) (s - 1)) with (m - 1) by lia.
  apply quotient_congruent; [exact Hp | lia | exact Hcong].
Qed.

(** *** The hard-coded cascade on residues *)

Lemma multivariate_residues (x : C) (ev : Eval C) (rs : Z) :
  exists res,
    rowComputationMultivariate x ev rs = ev ++ res
    /\ Forall2 (fun (ce : C * Z) (re : Z * Z) =>
                  residue_of p (space x) ce.1 re.1 /\ ce.2 = re.2)
               res (@cascade Z Z_plaintext (plain x) rs).
Proof.
  pose proof (residue_of_input x) as Hx.
  unfold rowComputationMultivariate, cascade. cbv zeta.
  assert (Hstep : forall (c : C) (e : Z) (v : Z),
            residue_of p (space x) c v ->
            (fun (ce : C * Z) (re : Z * Z) =>
               residue_of p (space x) ce.1 re.1 /\ ce.2 = re.2) (c, e) (v, e)).
  { intros c e v Hc. split; [exact Hc | reflexivity]. }
  destruct (Z.leb_spec 2 rs) as [H2|H2].
  2:{ exists [].
      rewrite RowComputationFacts.block_f2_skip, RowComputationFacts.block_f4_skip,
        RowComputationFacts.block_f8_skip, RowComputationFacts.block_f16_skip by lia.
      destruct (Z.leb_spec 3 rs), (Z.leb_spec 5 rs), (Z.leb_spec 9 rs); try lia.
      split; [symmetry; apply app_nil_r | constructor]. }
  rewrite RowComputationFacts.block_f2_app by lia.
  assert (R2 : residue_of p (space x) (square x) (@f2 Z Z_plaintext (plain x))).
  { eapply residue_of_ext; [apply residue_of_square; exact Hx|].
    unfold f2. cbn. ring. }
  destruct (Z.leb_spec 3 rs) as [H3|H3].
  2:{ rewrite RowComputationFacts.block_f4_skip, RowComputationFacts.block_f8_skip,
        RowComputationFacts.block_f16_skip by lia.
      destruct (Z.leb_spec 5 rs), (Z.leb_spec 9 rs); try lia.
      eexists; split; [reflexivity|]. cbn [app].
      repeat (constructor; [apply Hstep; assumption|]). constructor. }
  rewrite RowComputationFacts.block_f4_app by lia.
  assert (R4 : residue_of p (space x) (square (square x))
                 (@f4 Z Z_plaintext (plain x))).
  { eapply residue_of_ext; [apply residue_of_square; exact R2|].
    unfold f4, f2. cbn. ring. }
  destruct (Z.leb_spec 5 rs) as [H5|H5].
  2:{ rewrite RowComputationFacts.block_f8_skip,
        RowComputationFacts.block_f16_skip by lia.
      destruct (Z.leb_spec 9 rs); try lia.
      eexists; split; [reflexivity|]. cbn [app].
      repeat (constructor; [apply Hstep; assumption|]). constructor. }
  rewrite RowComputationFacts.block_f8_app by lia.
  set (c2 := square x) in *. set (c4 := square c2) in *.
  set (c8 := addCtxt (multByConstant c2 112)
               (square (addCtxt (multByConstant c2 94) (multByConstant c4 121) false))
               false).
  assert (R8 : residue_of p (space x) c8 (@f8 Z Z_plaintext (plain x))).
  { eapply residue_of_ext.
    - unfold c8.
      apply residue_of_addCtxt;
        [apply residue_of_multByConstant; exact R2|].
      apply residue_of_square. apply residue_of_addCtxt;
        apply residue_of_multByConstant; [exact R2 | exact R4].
    - unfold f8, f4, f2. cbn. ring. }
  destruct (Z.leb_spec 9 rs) as [H9|H9].
  2:{ rewrite RowComputationFacts.block_f16_skip by lia.
      eexists; split; [reflexivity|]. cbn [app].
      repeat (constructor; [apply Hstep; assumption|]). constructor. }
  rewrite RowComputationFacts.block_f16_app by lia.
  eexists; split; [reflexivity|]. cbn [app].
  repeat (constructor; [apply Hstep; assumption|]).
  constructor; [|constructor]. apply Hstep.
  eapply residue_of_ext.
  - apply residue_of_addCtxt; [apply residue_of_multByConstant; exact R4|].
    apply residue_of_multiplyBy.
    + apply residue_of_addCtxt; apply residue_of_multByConstant;
        [exact R4 | exact R8].
    + apply residue_of_addCtxt; [|exact R8].
      apply residue_of_addCtxt; apply residue_of_multByConstant;
        [exact R2 | exact R4].
  - unfold f16, f8, f4, f2. cbn. ring.
Qed.

(** *** One row: the rows after it *)

Lemma update_next_step (z botHigh r row next : Z) (d : C * Z)
    (ctxtEval ctxtRows : Eval C) :
  0 <= row -> row < next < botHigh -> 1 <= r ->
  rows_between p digit z botHigh r row next ctxtRows ->
  Forall (fun ce : C * Z =>
            space ce.1 = botHigh + r - row /\ 1 <= ce.2
            /\ holds p (digit (remove_digits p digit z (Z.to_nat row) mod p)) ce)
         ctxtEval ->
  (exists cl el, last ctxtEval = Some (cl, el) /\ botHigh + r - row <= el) ->
  rows_between p digit z botHigh r row (next + 1)
    (update_next d ctxtEval row ctxtRows next).
Proof.
  intros Hrow Hnext Hr [Hlen Hrows] Hlifts (cl & el & Hlast & Hel).
  unfold update_next, row_at, Eval in *.
  destruct (lookup_lt_is_Some_2 ctxtRows (Z.to_nat next) ltac:(lia)) as [ce Hce].
  destruct (lookup_lt_is_Some_2 ctxtRows (Z.to_nat (next - 1)) ltac:(lia)) as [ce' Hce'].
  rewrite Hce'. cbn [default from_option id].
  destruct ((row + 1 <? next) && (next + 1 <=? ce'.2 + row + 1)) eqn:Hcond.
  - apply andb_true_iff in Hcond as [Hc1 Hc2]. unfold rows_between. cbv iota.
    apply Z.ltb_lt in Hc1. apply Z.leb_le in Hc2.
    split; [rewrite length_insert; exact Hlen|].
    intros j cj Hj.
    destruct (Nat.eq_dec j (Z.to_nat next)) as [->|Hneq].
    + rewrite list_lookup_insert_eq in Hj by lia. injection Hj as <-.
      destruct (Hrows _ _ Hce') as [Hdone _].
      destruct (Hdone ltac:(lia)) as (Hs & Hh & _).
      split; [intros _; split; [exact Hs | split; [exact Hh | lia]] | lia].
    + rewrite list_lookup_insert_ne in Hj by congruence.
      destruct (Hrows _ _ Hj) as [Hdone Htodo].
      split; intros Hrange; [apply Hdone | apply Htodo]; lia.
  - destruct (List.find (fun tup : C * Z => next + 1 <=? tup.2 + row) ctxtEval)
      as [tup|] eqn:Hfind.
    2:{ exfalso. pose proof (find_none _ _ Hfind (cl, el) (last_in _ _ Hlast)) as Hn.
        cbv beta in Hn. cbn [snd] in Hn. apply Z.leb_gt in Hn. lia. }
    apply find_some in Hfind as [Hin Htag]. apply Z.leb_le in Htag.
    unfold rows_between. cbv iota.
    rewrite Forall_forall in Hlifts.
    destruct (Hlifts tup (proj2 (list_elem_of_In _ _) Hin)) as (Hst & Ht1 & Hlift).
    split; [rewrite length_alter; exact Hlen|].
    intros j cj Hj.
    destruct (Nat.eq_dec j (Z.to_nat next)) as [->|Hneq].
    + rewrite list_lookup_alter_eq, Hce in Hj. cbn in Hj. injection Hj as <-.
      destruct (Hrows _ _ Hce) as [_ Htodo].
      destruct (Htodo ltac:(lia)) as (Hs & Hh & Hprec).
      split; [intros _ | lia].
      rewrite remove_digits_succ by lia.
      destruct (extract_digit _ ce tup ltac:(congruence) ltac:(lia) Hh Hlift
                  ltac:(lia)) as [Hs' Hh'].
      cbn [fst snd].
      split; [lia|]. split; [exact Hh' | lia].
    + rewrite list_lookup_alter_ne in Hj by congruence.
      destruct (Hrows _ _ Hj) as [Hdone Htodo].
      split; intros Hrange; [apply Hdone | apply Htodo]; lia.
Qed.

Lemma update_rows (z botHigh r row : Z) (d : C * Z) (ctxtEval : Eval C) :
  0 <= row -> 1 <= r ->
  Forall (fun ce : C * Z =>
            space ce.1 = botHigh + r - row /\ 1 <= ce.2
            /\ holds p (digit (remove_digits p digit z (Z.to_nat row) mod p)) ce)
         ctxtEval ->
  (exists cl el, last ctxtEval = Some (cl, el) /\ botHigh + r - row <= el) ->
  forall (k : nat) (next : Z) (ctxtRows : Eval C),
    next + Z.of_nat k = botHigh -> row < next ->
    rows_between p digit z botHigh r row next ctxtRows ->
    rows_between p digit z botHigh r row botHigh
      (fold_left (update_next d ctxtEval row) (seqZ next (Z.of_nat k)) ctxtRows).
Proof.
  intros Hrow Hr Hlifts Hlast.
  induction k as [|k IH]; intros next ctxtRows Hk Hnext Hinv.
  - assert (Hn : next = botHigh) by lia. rewrite Hn in *. exact Hinv.
  - rewrite seqZ_cons by lia. cbn [fold_left].
    replace (Z.pred (Z.of_nat (S k))) with (Z.of_nat k) by lia.
    apply IH; [lia | lia |].
    replace (Z.succ next) with (next + 1) by lia.
    apply (update_next_step z botHigh r row next d ctxtEval ctxtRows); auto; lia.
Qed.

(** *** The loop over the rows *)

Section Rows.
Variables (botHigh r : Z) (lazy : bool) (e_inner_compose_list : list (list Z)).
Hypothesis Hne : e_inner_compose_list <> [].
Hypothesis Hr : 1 <= r.
Hypothesis Hrows :
  forall (c : C) (triangleSize rowSize : Z) (splits : list Z),
    In splits e_inner_compose_list -> 2 <= rowSize <= botHigh + r ->
    space c = rowSize ->
    exists ev,
      rowComputationGeneral comp p c [] triangleSize rowSize lazy splits = Ok ev
      /\ lifts_digit p digit c rowSize ev.

Lemma row_body_spec (z row : Z) (st : C * Eval C) :
  0 <= row < botHigh ->
  rows_ready p digit z botHigh r row st ->
  exists st',
    row_body comp p botHigh r lazy e_inner_compose_list st row = Ok st'
    /\ rows_ready p digit z botHigh r (row + 1) st'.
Proof.
  intros Hrow (Hsc & Hctxt & Hlen & Hinv).
  destruct st as [ctxt ctxtRows]. cbn [fst snd] in *.
  unfold row_body, Eval in *.
  assert (Hsplit : In (nth (Z.to_nat (Z.min row
                              (Z.of_nat (length e_inner_compose_list) - 1)))
                           e_inner_compose_list []) e_inner_compose_list).
  { apply nth_In. destruct e_inner_compose_list; [congruence | cbn [length]; lia]. }
  destruct (lookup_lt_is_Some_2 ctxtRows (Z.to_nat row) ltac:(lia)) as [cr Hcr].
  unfold row_at at 1. unfold Eval in *. rewrite Hcr. cbn [default from_option id].
  destruct (Hinv _ _ Hcr ltac:(lia)) as (Hscr & Hhold & Hprec).
  destruct (Hrows cr.1 (botHigh - row) (botHigh + r - row) _ Hsplit ltac:(lia) Hscr)
    as (ev & -> & Hlifts0 & Hlast).
  cbn [mbind outcome_bind].
  set (q := remove_digits p digit z (Z.to_nat row)) in *.
  assert (Hbit : plain cr.1 mod p = q mod p)
    by (apply holds_digit; [exact Hhold | lia | lia]).
  assert (Hlifts : Forall (fun ce : C * Z =>
                             space ce.1 = botHigh + r - row /\ 1 <= ce.2
                             /\ holds p (digit (q mod p)) ce) ev).
  { eapply Forall_impl; [exact Hlifts0|].
    intros ce (Hs & Ht & Hh). rewrite Hbit in Hh. rewrite Hs. auto. }
  pose proof (update_rows z botHigh r row (ctxt, botHigh + r) ev ltac:(lia) Hr
                Hlifts Hlast (Z.to_nat (botHigh - (row + 1))) (row + 1) ctxtRows
                ltac:(lia) ltac:(lia)) as Hupd.
  rewrite Z2Nat.id in Hupd by lia.
  specialize (Hupd ltac:(split; [exact Hlen|];
                         intros j ce Hj; split; intros Hrange;
                         [lia | apply (Hinv j ce Hj); lia])).
  destruct Hupd as [Hlen' Hrows'].
  unfold Eval in *.
  set (rows' := fold_left _ _ ctxtRows) in *.
  assert (Hready : forall (j : nat) ce, rows' !! j = Some ce -> row + 1 <= Z.of_nat j ->
                     space ce.1 = botHigh + r - (row + 1)
                     /\ holds p (remove_digits p digit z (Z.to_nat (row + 1))) ce
                     /\ Z.of_nat j - (row + 1) + 1 <= ce.2).
  { intros j ce Hj Hrange.
    assert (Hjlt : Z.of_nat j < botHigh)
      by (apply lookup_lt_Some in Hj; lia).
    destruct (Hrows' j ce Hj) as [Hdone _].
    destruct (Hdone ltac:(lia)) as (Hs & Hh & Hpr).
    split; [lia|]. split; [exact Hh | lia]. }
  destruct Hlast as (cl & el & Hlast & Hel).
  destruct ((row + 1 <? botHigh)
            && (botHigh + r <=? (default (ctxt, botHigh + r) (last rows')).2 + row + 1))
    eqn:Hcond.
  - apply andb_true_iff in Hcond as [Hc1 Hc2].
    apply Z.ltb_lt in Hc1. apply Z.leb_le in Hc2.
    eexists. split; [reflexivity|]. unfold rows_ready. cbn [fst snd].
    rewrite last_lookup in Hc2 |- *.
    destruct (lookup_lt_is_Some_2 rows' (Nat.pred (length rows')) ltac:(lia))
      as [back Hback].
    rewrite Hback in Hc2 |- *. cbn [default from_option id] in *.
    destruct (Hready _ _ Hback ltac:(lia)) as (Hsb & Hh & _).
    destruct back as [cb eb]. cbn [fst snd] in *.
    split; [exact Hsb|].
    split; [|split; [exact Hlen' | exact Hready]].
    apply (holds_weaken _ _ eb); [exact Hh | lia].
  - eexists. split; [reflexivity|]. unfold rows_ready. cbn [fst snd].
    unfold back_ctxt. rewrite Hlast. cbn [from_option fst].
    pose proof (remove_digits_succ p digit z row ltac:(lia)) as Hsucc.
    fold q in Hsucc.
    rewrite Forall_forall in Hlifts.
    destruct (Hlifts (cl, el) (proj2 (list_elem_of_In _ _) (last_in _ _ Hlast)))
      as (Hsl & Hl1 & Hl2). cbn [fst snd] in Hsl, Hl1.
    destruct (extract_digit q (ctxt, botHigh + r - row) (cl, el)
                ltac:(cbn [fst]; congruence) ltac:(cbn [fst]; lia) Hctxt Hl2
                ltac:(cbn [snd]; lia)) as [Hs' Hh'].
    cbn [fst snd] in Hs', Hh'.
    replace (Z.min (botHigh + r - row) el - 1) with (botHigh + r - (row + 1)) in Hh'
      by lia.
    rewrite <- Hsucc in Hh'.
    split; [lia|].
    split; [exact Hh'|]. split; [exact Hlen' | exact Hready].
Qed.

Lemma rows_loop_spec (z : Z) :
  forall (k : nat) (row : Z) (st : C * Eval C),
    row + Z.of_nat k = botHigh -> 0 <= row ->
    rows_ready p digit z botHigh r row st ->
    exists st',
      rows_loop comp p botHigh r lazy e_inner_compose_list st (seqZ row (Z.of_nat k))
      = Ok st'
      /\ rows_ready p digit z botHigh r botHigh st'.
Proof.
  induction k as [|k IH]; intros row st Hk Hrow Hst.
  - exists st. split; [reflexivity|].
    assert (Hn : row = botHigh) by lia. rewrite Hn in Hst. exact Hst.
  - rewrite seqZ_cons by lia. cbn [rows_loop].
    replace (Z.pred (Z.of_nat (S k))) with (Z.of_nat k) by lia.
    destruct (row_body_spec z row st ltac:(lia) Hst) as (st1 & -> & Hst1).
    cbn [mbind outcome_bind].
    replace (Z.succ row) with (row + 1) by lia.
    apply IH; [lia | lia | exact Hst1].
Qed.

(** The trapezoid on a ciphertext of plaintext space [p^(botHigh + r)]:
    what is left has the plaintext space [p^r]. *)
Lemma trapezoid_spec (ctxt : C) :
  0 <= botHigh -> space ctxt = botHigh + r ->
  exists c,
    trapezoid comp p ctxt botHigh r lazy e_inner_compose_list = Ok c
    /\ space c = r
    /\ plain c mod p ^ r
       = remove_digits p digit (plain ctxt) (Z.to_nat botHigh) mod p ^ r.
Proof.
  intros Hb Hs. unfold trapezoid.
  destruct (rows_loop_spec (plain ctxt) (Z.to_nat botHigh) 0
              (ctxt, replicate (Z.to_nat botHigh) (ctxt, botHigh + r)))
    as (st & Hrun & Hsp & Hst & _); try lia.
  { assert (Hself : holds p (remove_digits p digit (plain ctxt) (Z.to_nat 0))
                      (ctxt, botHigh + r))
      by (split; [cbn [snd]; lia | reflexivity]).
    split; [cbn [fst]; lia|]. split; [|split].
    - replace (botHigh + r - 0) with (botHigh + r) by lia. exact Hself.
    - cbn [snd]. rewrite length_replicate. lia.
    - cbn [snd]. intros j ce Hj _. apply lookup_replicate in Hj as [-> Hj].
      cbn [fst snd]. split; [lia|]. split; [exact Hself | lia]. }
  rewrite Z2Nat.id in Hrun by lia. rewrite Hrun. cbn [mbind outcome_bind].
  exists st.1. split; [reflexivity|].
  replace (botHigh + r - botHigh) with r in Hsp, Hst by lia.
  split; [exact Hsp|].
  destruct Hst as [_ Hst]. cbn [fst snd] in Hst.
  rewrite Hsp, Z.min_id in Hst. exact Hst.
Qed.

End Rows.

(** The trapezoid removes the lowest digits, whatever the prime and the
    splitting.  Plaintexts are residues: the input has the plaintext space
    [p^(botHigh + r)] with [r >= 1].  If every row computation, on a
    ciphertext of plaintext space [p^rowSize], lifts the lowest digit of
    its input (each result has the plaintext space of the input and holds
    that digit to the precision it is tagged with, the last to the size of
    the row), then [customExtractDigitsThin] succeeds and the result has
    the plaintext space [p^r] and the plaintext [- z'] modulo [p^r], where
    [z'] is the plaintext of the input without its [botHigh] lowest digits;
    for [p = 2] the constant [lround(2^botHigh / 2)] is added to the
    plaintext first.  With [r >= 1] every ciphertext that is divided has a
    plaintext space of at least [p^2]. *)
Theorem customExtractDigitsThin_removes_digits (ctxt : C) (botHigh r : Z)
    (lazy : bool) (e_inner_compose_list : list (list Z)) :
  e_inner_compose_list <> [] -> 0 <= botHigh -> 1 <= r ->
  space ctxt = botHigh + r ->
  (forall (c : C) (triangleSize rowSize : Z) (splits : list Z),
     In splits e_inner_compose_list -> 2 <= rowSize <= botHigh + r ->
     space c = rowSize ->
     exists ev,
       rowComputationGeneral comp p c [] triangleSize rowSize lazy splits = Ok ev
       /\ lifts_digit p digit c rowSize ev) ->
  exists c,
    customExtractDigitsThin comp p ctxt botHigh r lazy e_inner_compose_list = Ok c
    /\ space c = r
    /\ plain c
       = (- remove_digits p digit
              (plain ctxt + (if p =? 2 then correction_constant p botHigh else 0))
              (Z.to_nat botHigh)) mod p ^ r.
Proof.
  intros Hne Hb Hr Hs Hrows. unfold customExtractDigitsThin.
  set (ctxt0 := if p =? 2 then addConstant ctxt (correction_constant p botHigh)
                else ctxt).
  set (x0 := plain ctxt + (if p =? 2 then correction_constant p botHigh else 0)).
  assert (Hs0 : space ctxt0 = botHigh + r).
  { unfold ctxt0. destruct (p =? 2); [rewrite space_addConstant|]; exact Hs. }
  assert (Hz : plain ctxt0 mod p ^ (botHigh + r) = x0 mod p ^ (botHigh + r)).
  { unfold ctxt0, x0. destruct (p =? 2).
    - rewrite plain_addConstant, Hs. apply Z.mod_mod.
      pose proof (prime_power_pos p (botHigh + r) Hp ltac:(lia)). lia.
    - rewrite Z.add_0_r. reflexivity. }
  destruct (trapezoid_spec botHigh r lazy e_inner_compose_list Hne Hr Hrows
              ctxt0 Hb Hs0) as (c & -> & Hsc & Hc).
  cbn [mbind outcome_bind]. eexists. split; [reflexivity|].
  split; [rewrite space_negate; exact Hsc|].
  rewrite plain_negate, Hsc.
  assert (Hrem : remove_digits p digit (plain ctxt0) (Z.to_nat botHigh) mod p ^ r
                 = remove_digits p digit x0 (Z.to_nat botHigh) mod p ^ r).
  { apply remove_digits_congruent; [exact Hp | lia |].
    rewrite Z2Nat.id by lia. exact Hz. }
  rewrite Hrem in Hc.
  pose proof (prime_power_pos p r Hp ltac:(lia)) as Hpos.
  destruct (congruent_difference _ _ (p ^ r) Hpos Hc) as [k Hk].
  rewrite Hk.
  set (v := remove_digits p digit x0 _).
  replace (- (v + k * p ^ r)) with (- v + (- k) * p ^ r) by lia.
  apply Z.mod_add. lia.
Qed.

End Trapezoid.

(** *** The prime 2 with the hard-coded cascade *)

Section Binary.
Context {C : Type} `{Ops C} `{!Residues 2 C}.
Variable comp : composition C.

(** One row for [p = 2] and the splits [{1}]: the cascade of lifting
    polynomials, whose results hold the lowest bit of the input. *)
Lemma row_lifts (c : C) (triangleSize rowSize : Z) (lazy : bool) :
  1 <= rowSize <= 16 ->
  exists ev,
    rowComputationGeneral comp 2 c [] triangleSize rowSize lazy [1] = Ok ev
    /\ lifts_digit 2 (fun a => a) c rowSize ev.
Proof.
  intros Hrs. unfold rowComputationGeneral.
  cbn [app hd tl general_loop]. unfold general_step.
  change (2 =? 2) with true. change (1 =? 1) with true. cbn [andb].
  destruct (Z.leb_spec rowSize 16) as [_|?]; [|lia].
  cbn [mbind outcome_bind back_ctxt last from_option fst].
  rewrite Z.min_id.
  destruct (multivariate_residues 2 ltac:(lia) c [(c, 1)] rowSize)
    as (res & -> & Hres).
  eexists. split; [reflexivity|].
  assert (Htwo : 2 <= 2) by lia.
  pose proof (space_nonneg 2 c) as Hs0.
  pose proof (Z.mod_pos_bound (plain c) 2 ltac:(lia)) as Hb.
  destruct (CascadeFacts.closed_forms_lift (plain c)) as (Hf2 & Hf4 & Hf8 & Hf16).
  assert (Hall : Forall (fun re : Z * Z =>
                           1 <= re.2 /\ re.1 mod 2 ^ re.2 = plain c mod 2)
                        (@cascade Z Z_plaintext (plain c) rowSize)).
  { unfold cascade.
    repeat (apply Forall_app; split);
      match goal with |- Forall _ (if ?b then _ else _) => destruct b end;
      repeat constructor; cbn [fst snd]; try lia; assumption. }
  split.
  - constructor.
    + cbn [fst snd]. split; [reflexivity|]. split; [lia|].
      split; [cbn [snd]; lia|]. cbn [fst snd].
      assert (Hle : 0 <= Z.min 1 (space c) <= 1) by lia.
      apply (congruent_weaken 2 _ _ 1 _ Htwo Hle).
      rewrite Z.pow_1_r. symmetry. apply Z.mod_mod. lia.
    + apply (Forall2_Forall_l _ _ _ _ Hres).
      eapply Forall_impl; [exact Hall|].
      intros [v e] [He Hv] [ce e'] [[Hsc Hpc] Htag].
      cbn [fst snd] in *. subst e'.
      split; [exact Hsc|]. split; [exact He|].
      split; [cbn [snd]; lia|]. cbn [fst snd].
      rewrite Hsc, Hpc.
      rewrite mod_mod_power by lia.
      assert (Hle : 0 <= Z.min e (space c) <= e) by lia.
      apply (congruent_weaken 2 _ _ e _ Htwo Hle).
      rewrite Hv. symmetry. apply Z.mod_small.
      pose proof (prime_power_split 2 e He).
      pose proof (prime_power_pos 2 (e - 1) ltac:(lia) ltac:(lia)). lia.
  - assert (Hlast : last (map snd ([(c, 1)] ++ res))
                    = last (1 :: map snd (@cascade Z Z_plaintext (plain c) rowSize))).
    { rewrite map_app. cbn [map snd app].
      rewrite (tags_agree _ _ _ Hres). reflexivity. }
    assert (Htag : exists el,
               last (1 :: map snd (@cascade Z Z_plaintext (plain c) rowSize)) = Some el
               /\ rowSize <= el).
    { unfold cascade.
      destruct (Z.leb_spec 2 rowSize), (Z.leb_spec 3 rowSize),
        (Z.leb_spec 5 rowSize), (Z.leb_spec 9 rowSize); try lia;
        cbn; eexists; (split; [reflexivity | lia]). }
    destruct Htag as (el & Hel & Hle). rewrite Hel in Hlast.
    change (map snd ([(c, 1)] ++ res)) with (snd <$> ([(c, 1)] ++ res)) in Hlast.
    rewrite fmap_last in Hlast.
    destruct (last ([(c, 1)] ++ res)) as [[cl el']|]; [|discriminate].
    cbn in Hlast. injection Hlast as ->. exists cl, el. split; [reflexivity | exact Hle].
Qed.

(** For [p = 2], splits [{1}] and [botHigh + r <= 16] the digit extraction
    of this repository divides by [2^botHigh] with rounding.  On an input
    of plaintext space [2^(botHigh + r)], with [r >= 1], it succeeds, using
    the hard-coded cascade only, and for an input with plaintext [x] the
    result has the plaintext space [2^r] and the plaintext
    [- ((x + 2^(botHigh-1)) / 2^botHigh)] modulo [2^r]: the negated quotient
    of [x] by [2^botHigh], rounded to the nearest integer. *)
Theorem customExtractDigitsThin_rounds (ctxt : C) (botHigh r : Z) (lazy : bool)
    (e_inner_compose_list : list (list Z)) :
  e_inner_compose_list <> [] ->
  Forall (fun splits => splits = [1]) e_inner_compose_list ->
  1 <= botHigh -> 1 <= r -> botHigh + r <= 16 ->
  space ctxt = botHigh + r ->
  exists c,
    customExtractDigitsThin comp 2 ctxt botHigh r lazy e_inner_compose_list = Ok c
    /\ space c = r
    /\ plain c = (- ((plain ctxt + 2 ^ (botHigh - 1)) / 2 ^ botHigh)) mod 2 ^ r.
Proof.
  intros Hne Hsplits Hb Hr Hsum Hs. unfold customExtractDigitsThin.
  change (2 =? 2) with true. cbv iota.
  set (ctxt0 := addConstant ctxt (correction_constant 2 botHigh)).
  assert (Hs0 : space ctxt0 = botHigh + r)
    by (unfold ctxt0; rewrite space_addConstant; exact Hs).
  destruct (trapezoid_spec 2 (fun a => a) comp ltac:(lia)
              ltac:(intros a Ha; apply Z.mod_small; exact Ha)
              botHigh r lazy e_inner_compose_list Hne Hr) with (ctxt := ctxt0)
    as (c & -> & Hsc & Hc).
  { intros c T rs splits Hin Hrs _. rewrite Forall_forall in Hsplits.
    rewrite (Hsplits splits (proj2 (list_elem_of_In _ _) Hin)).
    apply row_lifts. lia. }
  { lia. }
  { exact Hs0. }
  cbn [mbind outcome_bind]. eexists. split; [reflexivity|].
  split; [rewrite space_negate; exact Hsc|].
  rewrite plain_negate, Hsc.
  assert (Hhalf : 2 ^ botHigh / 2 = 2 ^ (botHigh - 1)).
  { rewrite (prime_power_split 2 botHigh Hb), Z.mul_comm. apply Z.div_mul. lia. }
  assert (Hrem : remove_digits 2 (fun a => a) (plain ctxt0) (Z.to_nat botHigh)
                   mod 2 ^ r
                 = remove_digits 2 (fun a => a) (plain ctxt + 2 ^ (botHigh - 1))
                     (Z.to_nat botHigh) mod 2 ^ r).
  { apply remove_digits_congruent; [lia | lia |].
    rewrite Z2Nat.id by lia. unfold ctxt0.
    rewrite plain_addConstant, Hs,
      DigitExtractFacts.correction_constant_two, Hhalf by lia.
    apply Z.mod_mod.
    pose proof (prime_power_pos 2 (botHigh + r) ltac:(lia) ltac:(lia)). lia. }
  rewrite Hrem, remove_binary_digits, Z2Nat.id in Hc by lia.
  pose proof (prime_power_pos 2 r ltac:(lia) ltac:(lia)) as Hpos.
  destruct (congruent_difference _ _ (2 ^ r) Hpos Hc) as [k Hk].
  rewrite Hk.
  replace (- ((plain ctxt + 2 ^ (botHigh - 1)) / 2 ^ botHigh + k * 2 ^ r))
    with (- ((plain ctxt + 2 ^ (botHigh - 1)) / 2 ^ botHigh) + (- k) * 2 ^ r) by lia.
  apply Z.mod_add. lia.
Qed.

End Binary.

(** *** The examples *)

Lemma residue_space (p : Z) (Hp : (2 <=? p) = true) (c : residue) :
  @space p residue (residue_ops p) (residue_laws p Hp) c = Z.of_nat (exponent c).
Proof. reflexivity. Qed.

Lemma residue_plain (p : Z) (Hp : (2 <=? p) = true) (c : residue) :
  @plain p residue (residue_ops p) (residue_laws p Hp) c
  = value c mod p ^ Z.of_nat (exponent c).
Proof. reflexivity. Qed.

(** A row with the composition of the examples, for an odd prime. *)
Lemma exact_composition_lifts (p : Z) (Hp : (2 <=? p) = true) (digit : Z -> Z)
    (c : residue) (triangleSize rowSize : Z) (lazy : bool) :
  p <> 2 -> (forall a, 0 <= a < p -> digit a mod p = a) ->
  2 <= rowSize ->
  @space p residue (residue_ops p) (residue_laws p Hp) c = rowSize ->
  exists ev,
    @rowComputationGeneral residue (residue_ops p) (exact_composition p digit) p c []
      triangleSize rowSize lazy [1] = Ok ev
    /\ @lifts_digit residue (residue_ops p) p (residue_laws p Hp) digit c rowSize ev.
Proof.
  intros Hodd Hdigit Hrs Hsp.
  assert (Hp2 : 2 <= p) by (apply Z.leb_le; exact Hp).
  rewrite residue_space in Hsp.
  set (M := p ^ Z.of_nat (exponent c)).
  set (d := digit ((value c mod M) mod p)).
  exists [(c, 1); (mkResidue (d mod M) (exponent c), rowSize)]. split.
  - unfold rowComputationGeneral. cbn [app hd tl general_loop].
    unfold general_step.
    replace (p =? 2) with false by (symmetry; apply Z.eqb_neq; exact Hodd).
    cbn [andb]. unfold exact_composition, modulus.
    cbn [mbind outcome_bind back_ctxt last from_option fst app].
    rewrite !Z.min_id. reflexivity.
  - assert (Hpos : 0 < M) by (apply prime_power_pos; lia).
    split.
    + constructor; [|constructor; [|constructor]]; cbn [fst snd];
        rewrite ?residue_space, ?residue_plain; cbn [value exponent]; fold M.
      * split; [reflexivity|]. split; [lia|]. split; [cbn [snd]; lia|].
        cbn [fst snd]. rewrite residue_space, residue_plain. fold M. fold d.
        replace (Z.min 1 (Z.of_nat (exponent c))) with 1 by lia.
        rewrite Z.pow_1_r. unfold d. symmetry. apply Hdigit.
        apply Z.mod_pos_bound. lia.
      * split; [reflexivity|]. split; [lia|]. split; [cbn [snd]; lia|].
        cbn [fst snd]. rewrite residue_space, residue_plain.
        cbn [value exponent]. fold M. fold d.
        rewrite Z.mod_mod by lia. unfold M.
        apply mod_mod_power. lia.
    + exists (mkResidue (d mod M) (exponent c)), rowSize.
      split; [reflexivity | lia].
Qed.

(** Base 3 with balanced digits and the plaintext space [3^4]:
    19 = 1 + 0 * 3 + 2 * 9, and -2 is 7 modulo 9. *)
Lemma customExtractDigitsThin_removes_digits_witness :
  exists c,
    @customExtractDigitsThin residue (residue_ops 3) (exact_composition 3 balanced3)
      3 (mkResidue 19 4) 2 2 false [[1]] = Ok c
    /\ @space 3 residue (residue_ops 3) (residue_laws 3 eq_refl) c = 2
    /\ @plain 3 residue (residue_ops 3) (residue_laws 3 eq_refl) c
       = (- remove_digits 3 balanced3
              (@plain 3 residue (residue_ops 3) (residue_laws 3 eq_refl)
                 (mkResidue 19 4)
               + (if 3 =? 2 then correction_constant 3 2 else 0))
              (Z.to_nat 2)) mod 3 ^ 2.
Proof.
  assert (Hbalanced : forall a, 0 <= a < 3 -> balanced3 a mod 3 = a).
  { intros a Ha. unfold balanced3.
    assert (Hcases : a = 0 \/ a = 1 \/ a = 2) by lia.
    destruct Hcases as [->|[->| ->]]; reflexivity. }
  apply (@customExtractDigitsThin_removes_digits residue (residue_ops 3) 3
           (residue_laws 3 eq_refl) balanced3 (exact_composition 3 balanced3)).
  - lia.
  - exact Hbalanced.
  - discriminate.
  - lia.
  - lia.
  - reflexivity.
  - intros c T rs splits [<-|[]] Hrs Hsp.
    apply exact_composition_lifts; [lia | exact Hbalanced | lia | exact Hsp].
Defined.

(** The plaintext 1234 modulo [2^12]: 1234 / 2^4 rounds to 77, and -77 is
    179 modulo [2^8]. *)
Lemma customExtractDigitsThin_rounds_witness :
  exists c,
    @customExtractDigitsThin residue (residue_ops 2) no_composition 2
      (mkResidue 1234 12) 4 8 false [[1]] = Ok c
    /\ @space 2 residue (residue_ops 2) (residue_laws 2 eq_refl) c = 8
    /\ @plain 2 residue (residue_ops 2) (residue_laws 2 eq_refl) c
       = (- ((@plain 2 residue (residue_ops 2) (residue_laws 2 eq_refl)
                (mkResidue 1234 12) + 2 ^ (4 - 1)) / 2 ^ 4)) mod 2 ^ 8.
Proof.
  apply (@customExtractDigitsThin_rounds residue (residue_ops 2)
           (residue_laws 2 eq_refl) no_composition (mkResidue 1234 12) 4 8 false
           [[1]]).
  - discriminate.
  - repeat constructor.
  - lia.
  - lia.
  - lia.
  - reflexivity.
Defined.

Example customExtractDigitsThin_rounds_example :
  @customExtractDigitsThin residue (residue_ops 2) no_composition 2
    (mkResidue 1234 12) 4 8 false [[1]] = Ok (mkResidue 179 8).
Proof. vm_compute. reflexivity. Qed.

End TrapezoidFacts.

(** ** The cache behind the row computation *)

Module CacheTableFacts.
Import Err PolyCache Composition.

Lemma mapM_outcome {A B : Type} (f : A -> outcome B) (l : list A) (r : list B) :
  mapM f l = Ok r -> Forall2 (fun x y => f x = Ok y) l r.
Proof.
  revert r. induction l as [|x l IH]; intros r Hr.
  - cbn in Hr. injection Hr as <-. constructor.
  - cbn [mapM] in Hr. unfold mbind, outcome_bind in Hr.
    destruct (f x) as [y|e] eqn:Efx; [|discriminate].
    change (match mapM f l with
            | Ok a => mret (y :: a)
            | Throw e => Throw e
            end = Ok r) in Hr.
    destruct (mapM f l) as [k|e] eqn:Ek; [|discriminate].
    injection Hr as <-. constructor; [exact Efx | apply IH; reflexivity].
Qed.

Section Parse.
Variable to_ZZ : string -> option Z.

(** The cache that [init_polynomials] fills has the dimensions of the
    tables it was filled from: for a prime of [primes_list] and an exponent
    of [e_inner_list], the positions that [rowComputationComposition]
    computes lie inside [polynomial_vector], and the vector found there
    holds the polynomials loaded from the files of this prime and
    exponent. *)
Theorem init_polynomials_cache (fs : gmap string string)
    (primes_list e_inner_list : list Z)
    (polynomial_vector : list (list (list ZZX.t))) (p e_inner : Z) :
  init_polynomials to_ZZ fs primes_list e_inner_list = Ok polynomial_vector ->
  In p primes_list -> In e_inner e_inner_list ->
  exists cache,
    cached polynomial_vector (find_index primes_list p)
      (find_index e_inner_list e_inner) = Ok cache
    /\ load_from to_ZZ (S (size fs)) fs p e_inner (e_inner + 1) [] = Ok cache.
Proof.
  intros Hinit Hp He. unfold init_polynomials in Hinit.
  apply mapM_outcome in Hinit.
  destruct (proj1 (CompositionFacts.find_index_spec primes_list p) Hp) as [_ Hip].
  destruct (proj1 (CompositionFacts.find_index_spec e_inner_list e_inner) He)
    as [_ Hie].
  destruct (Forall2_lookup_l _ _ _ _ _ Hinit Hip) as (row & Hrow & Hload).
  apply mapM_outcome in Hload.
  destruct (Forall2_lookup_l _ _ _ _ _ Hload Hie) as (cache & Hcache & Hfiles).
  exists cache. split; [|exact Hfiles].
  unfold cached. rewrite Hrow, Hcache. reflexivity.
Qed.

End Parse.

Lemma init_polynomials_cache_witness :
  exists cache,
    cached [[[[]; [1; -2; 3]]]] (find_index [2] 2) (find_index [1] 1) = Ok cache
    /\ load_from to_ZZ_decimal (S (size two_files)) two_files 2 1 (1 + 1) [] = Ok cache.
Proof.
  apply (init_polynomials_cache to_ZZ_decimal two_files [2] [1]
           [[[[]; [1; -2; 3]]]] 2 1).
  - reflexivity.
  - left; reflexivity.
  - left; reflexivity.
Defined.

End CacheTableFacts.
